(** * The Junction cycle engine and the Channel state machine

    A shallow embedding of [extensions/io/src/module.c] (the kqueue build,
    i.e. the [#else] branches of [EVMECH_EPOLL]).  Channels and Junctions
    are C structures linked by raw pointers; they are modelled as records
    stored in a finite map from addresses to records, a pointer being an
    optional address ([None] is [NULL]).  Every function that dereferences
    a pointer returns [None] when the pointer is [NULL] or dangling.

    Python reference counts are not modelled. *)

From Stdlib Require Import ZArith Lia.
From stdpp Require Import base option list gmap strings.

Local Open Scope Z_scope.

(** ** Machine words *)

Module Word.

(** [w & (1 << b)] as a truth value. *)
Definition test (w b : Z) : bool := Z.testbit w b.

(** [w |= (1 << b)]. *)
Definition set (w b : Z) : Z := Z.lor w (Z.shiftl 1 b).

(** [w &= ~(1 << b)] on an 8-bit word: the complement is taken within
    the byte. *)
Definition nul (w b : Z) : Z := Z.land w (Z.lxor 255 (Z.shiftl 1 b)).

(** Unsigned 32-bit wrap-around. *)
Definition u32 (z : Z) : Z := z mod 2 ^ 32.

End Word.

Arguments Word.test : simpl never.
Arguments Word.set : simpl never.
Arguments Word.nul : simpl never.
Arguments Word.u32 : simpl never.

(** ** Data model *)

(** Addresses of heap objects; [ptr] is a nullable pointer. *)
Definition addr := positive.
Definition ptr := option addr.

(** Event qualifications, events and control flags.

    Modelled from the spec: [transit.h], which declares these enumerations
    and the layout of the state word, is not part of the sources.  The code
    merges the delta word into the state word ([Channel_StateMerge]) and
    expects both delta qualifications ([Channel_DQualify]) and delta
    controls ([Channel_DControl]) to show up afterwards as internal
    qualifications and controls, so the control bits and the internal
    qualifications occupy the same positions in both words. *)
Inductive teq := teq_terminate | teq_transfer.
Inductive tev := tev_terminate | tev_transfer.
Inductive ctl := ctl_polarity | ctl_force | ctl_requeue | ctl_connect.

Definition ctl_bit (c : ctl) : Z :=
  match c with
  | ctl_polarity => 0 | ctl_force => 1 | ctl_requeue => 2 | ctl_connect => 3
  end.
Definition iq_bit (q : teq) : Z :=
  match q with teq_terminate => 4 | teq_transfer => 5 end.
Definition xq_bit (q : teq) : Z :=
  match q with teq_terminate => 6 | teq_transfer => 7 end.
Definition tev_bit (e : tev) : Z :=
  match e with tev_terminate => 0 | tev_transfer => 1 end.

(** Kernel call identifiers recorded on a Port (the ones the engine sets). *)
Inductive kcall := kc_none | kc_pyalloc | kc_eof | kc_void | kc_leak
  | kc_shatter | kc_kqueue | kc_kevent | kc_other.

(** [struct Port]. *)
Record Port := mkPort {
  point : Z;
  cause : kcall;
  error : Z;
  latches : Z;
}.

(** [enum polarity_t]. *)
Inductive polarity_t := p_output | p_neutral | p_input.

(** A Python object handed to [acquire]: whether it exports a buffer,
    whether that buffer is writable, and the buffer's length in bytes. *)
Record PyObject := mkPyObject {
  ob_id : positive;
  ob_buffer : bool;
  ob_writable : bool;
  ob_len : Z;
}.

(** kqueue filters and the [struct kevent] fields the engine uses. *)
Inductive kfilter := EVFILT_READ | EVFILT_WRITE | EVFILT_USER.

#[global] Instance kfilter_eq_dec : EqDecision kfilter.
Proof. solve_decision. Defined.

Definition EV_ADD : Z := 1.
Definition EV_DELETE : Z := 2.
Definition EV_CLEAR : Z := 32.
Definition EV_RECEIPT : Z := 64.
Definition EV_EOF : Z := 32768.
Definition NOTE_TRIGGER : Z := 16777216.

Record kevent_t := mkKevent {
  kev_ident : Z;
  kev_filter : kfilter;
  kev_flags : Z;
  kev_fflags : Z;
  kev_data : Z;
  kev_udata : addr;
}.

(** The [choice.junction] member of the Channel structure. *)
Record JunctionChoice := mkChoice {
  ntransits : Z;
  ntransfers : Z;
  will_wait : Z;
  kevents : list kevent_t;
}.

(** [struct Channel] ([Channel_HEAD]); a Junction is a Channel whose
    [choice] member is in use. *)
Record Channel := mkChannel {
  prev : ptr;
  next : ptr;
  lltransfer : ptr;
  junction : ptr;
  port : ptr;
  resource : option PyObject;
  view_len : Z;
  link : option PyObject;
  window_start : Z;
  window_stop : Z;
  state : Z;
  delta : Z;
  events : Z;
  ti_unit : Z;
  is_junction : bool;
  choice : JunctionChoice;
}.

(** Field updates. *)
Definition set_prev (p : ptr) (c : Channel) : Channel :=
  mkChannel p (next c) (lltransfer c) (junction c) (port c) (resource c)
    (view_len c) (link c) (window_start c) (window_stop c) (state c)
    (delta c) (events c) (ti_unit c) (is_junction c) (choice c).
Definition set_next (p : ptr) (c : Channel) : Channel :=
  mkChannel (prev c) p (lltransfer c) (junction c) (port c) (resource c)
    (view_len c) (link c) (window_start c) (window_stop c) (state c)
    (delta c) (events c) (ti_unit c) (is_junction c) (choice c).
Definition set_lltransfer (p : ptr) (c : Channel) : Channel :=
  mkChannel (prev c) (next c) p (junction c) (port c) (resource c)
    (view_len c) (link c) (window_start c) (window_stop c) (state c)
    (delta c) (events c) (ti_unit c) (is_junction c) (choice c).
Definition set_junction (p : ptr) (c : Channel) : Channel :=
  mkChannel (prev c) (next c) (lltransfer c) p (port c) (resource c)
    (view_len c) (link c) (window_start c) (window_stop c) (state c)
    (delta c) (events c) (ti_unit c) (is_junction c) (choice c).
Definition set_resource (r : option PyObject) (c : Channel) : Channel :=
  mkChannel (prev c) (next c) (lltransfer c) (junction c) (port c) r
    (view_len c) (link c) (window_start c) (window_stop c) (state c)
    (delta c) (events c) (ti_unit c) (is_junction c) (choice c).
Definition set_view_len (n : Z) (c : Channel) : Channel :=
  mkChannel (prev c) (next c) (lltransfer c) (junction c) (port c)
    (resource c) n (link c) (window_start c) (window_stop c) (state c)
    (delta c) (events c) (ti_unit c) (is_junction c) (choice c).
Definition set_link (l : option PyObject) (c : Channel) : Channel :=
  mkChannel (prev c) (next c) (lltransfer c) (junction c) (port c)
    (resource c) (view_len c) l (window_start c) (window_stop c) (state c)
    (delta c) (events c) (ti_unit c) (is_junction c) (choice c).
Definition set_window_start (n : Z) (c : Channel) : Channel :=
  mkChannel (prev c) (next c) (lltransfer c) (junction c) (port c)
    (resource c) (view_len c) (link c) n (window_stop c) (state c)
    (delta c) (events c) (ti_unit c) (is_junction c) (choice c).
Definition set_window_stop (n : Z) (c : Channel) : Channel :=
  mkChannel (prev c) (next c) (lltransfer c) (junction c) (port c)
    (resource c) (view_len c) (link c) (window_start c) n (state c)
    (delta c) (events c) (ti_unit c) (is_junction c) (choice c).
Definition set_state (w : Z) (c : Channel) : Channel :=
  mkChannel (prev c) (next c) (lltransfer c) (junction c) (port c)
    (resource c) (view_len c) (link c) (window_start c) (window_stop c) w
    (delta c) (events c) (ti_unit c) (is_junction c) (choice c).
Definition set_delta (w : Z) (c : Channel) : Channel :=
  mkChannel (prev c) (next c) (lltransfer c) (junction c) (port c)
    (resource c) (view_len c) (link c) (window_start c) (window_stop c)
    (state c) w (events c) (ti_unit c) (is_junction c) (choice c).
Definition set_events (w : Z) (c : Channel) : Channel :=
  mkChannel (prev c) (next c) (lltransfer c) (junction c) (port c)
    (resource c) (view_len c) (link c) (window_start c) (window_stop c)
    (state c) (delta c) w (ti_unit c) (is_junction c) (choice c).
Definition set_choice (j : JunctionChoice) (c : Channel) : Channel :=
  mkChannel (prev c) (next c) (lltransfer c) (junction c) (port c)
    (resource c) (view_len c) (link c) (window_start c) (window_stop c)
    (state c) (delta c) (events c) (ti_unit c) (is_junction c) j.

Definition set_ntransits (n : Z) (j : JunctionChoice) : JunctionChoice :=
  mkChoice n (ntransfers j) (will_wait j) (kevents j).
Definition set_ntransfers (n : Z) (j : JunctionChoice) : JunctionChoice :=
  mkChoice (ntransits j) n (will_wait j) (kevents j).
Definition set_will_wait (n : Z) (j : JunctionChoice) : JunctionChoice :=
  mkChoice (ntransits j) (ntransfers j) n (kevents j).
Definition set_kevents (l : list kevent_t) (j : JunctionChoice) : JunctionChoice :=
  mkChoice (ntransits j) (ntransfers j) (will_wait j) l.

(** ** Python-level results *)

(** Exceptions the functions below can set.  [PyErr_SetChannelResourceError]
    and [PyErr_SetChannelTerminatedError] both raise the module's
    [TransitionViolation] exception and differ only in the message. *)
Inductive PyExc :=
  | TransitionViolation (msg : string)
  | RuntimeError (msg : string)
  | TypeError (msg : string)
  | BufferError.

Definition ChannelResourceError : PyExc :=
  TransitionViolation "resource already present".
Definition ChannelTerminatedError : PyExc :=
  TransitionViolation "already terminated".

(** Values returned to Python.  [Py_Item r start stop] stands for
    [PyObject_GetItem(r, slice(start, stop))]. *)
Inductive PyVal :=
  | Py_None
  | Py_True
  | Py_False
  | Py_Ref (a : addr)
  | Py_Long (n : Z)
  | Py_Slice (start stop : Z)
  | Py_Item (r : PyObject) (start stop : Z).

Inductive PyResult :=
  | Raised (e : PyExc)
  | Returned (v : PyVal).

(** ** The kernel and the machine state *)

Inductive io_status_t := io_flow | io_stop | io_terminate.

Inductive syscall :=
  | sys_change (changes : list kevent_t)
  | sys_collect (waiting : bool)
  | sys_trigger
  | sys_kqueue.

(** What the engine sees of the kernel: the batches that successive
    [kevent()] collections return, the outcome of a Channel's transfer
    function ([Channel_GetInterface(t)->io[polarity]]: status and number
    of bytes moved, given the Channel and the size of the request),
    whether the wake-up trigger is accepted, the port that [port_kqueue]
    leaves behind, and a log of the calls made (most recent first). *)
Record Kernel := mkKernel {
  k_pending : list (list kevent_t);
  k_io : addr -> Z -> io_status_t * Z;
  k_trigger_fails : bool;
  k_kqueue : Port -> bool * Port;
  k_log : list syscall;
}.

Record Machine := mkMachine {
  chans : gmap addr Channel;
  ports : gmap addr Port;
  kern : Kernel;
}.

Definition set_chans (h : gmap addr Channel) (m : Machine) : Machine :=
  mkMachine h (ports m) (kern m).
Definition set_ports (h : gmap addr Port) (m : Machine) : Machine :=
  mkMachine (chans m) h (kern m).
Definition set_kern (k : Kernel) (m : Machine) : Machine :=
  mkMachine (chans m) (ports m) k.

Definition k_record (s : syscall) (k : Kernel) : Kernel :=
  mkKernel (k_pending k) (k_io k) (k_trigger_fails k) (k_kqueue k) (s :: k_log k).
Definition k_pop (k : Kernel) : Kernel :=
  mkKernel (tail (k_pending k)) (k_io k) (k_trigger_fails k) (k_kqueue k) (k_log k).

(** Reading and writing through a pointer to a Channel. *)
Definition load (t : addr) (m : Machine) : option Channel := chans m !! t.

Definition store (t : addr) (c : Channel) (m : Machine) : Machine :=
  set_chans (<[t := c]> (chans m)) m.

Definition modify (t : addr) (f : Channel -> Channel) (m : Machine) : option Machine :=
  c ← load t m; Some (store t (f c) m).

(** Reading and writing through a pointer to a Port. *)
Definition load_port (p : addr) (m : Machine) : option Port := ports m !! p.

Definition modify_port (p : addr) (f : Port -> Port) (m : Machine) : option Machine :=
  x ← load_port p m; Some (set_ports (<[p := f x]> (ports m)) m).

(** [Channel_GetPort(t)] followed by a dereference. *)
Definition channel_port (t : addr) (m : Machine) : option (addr * Port) :=
  c ← load t m; p ← port c; x ← load_port p m; Some (p, x).

(** ** The macros of [transit.h] and [port.h]

    Modelled from the spec: the headers are not part of the sources.  The
    definitions follow the data model of the spec (section 3: the Channel
    attributes, the qualification lattice, the control flags, the Port
    latches) and the way [module.c] uses each macro. *)

Definition Channel_GetControl (c : Channel) (k : ctl) : bool :=
  Word.test (state c) (ctl_bit k).
Definition Channel_SetControl (k : ctl) (c : Channel) : Channel :=
  set_state (Word.set (state c) (ctl_bit k)) c.
Definition Channel_NulControl (k : ctl) (c : Channel) : Channel :=
  set_state (Word.nul (state c) (ctl_bit k)) c.
Definition Channel_DControl (k : ctl) (c : Channel) : Channel :=
  set_delta (Word.set (delta c) (ctl_bit k)) c.

Definition Channel_IQualified (c : Channel) (q : teq) : bool :=
  Word.test (state c) (iq_bit q).
Definition Channel_XQualified (c : Channel) (q : teq) : bool :=
  Word.test (state c) (xq_bit q).
Definition Channel_DQualified (c : Channel) (q : teq) : bool :=
  Word.test (delta c) (iq_bit q).

Definition Channel_IQualify (q : teq) (c : Channel) : Channel :=
  set_state (Word.set (state c) (iq_bit q)) c.
Definition Channel_XQualify (q : teq) (c : Channel) : Channel :=
  set_state (Word.set (state c) (xq_bit q)) c.
Definition Channel_DQualify (q : teq) (c : Channel) : Channel :=
  set_delta (Word.set (delta c) (iq_bit q)) c.
Definition Channel_INQualify (q : teq) (c : Channel) : Channel :=
  set_state (Word.nul (state c) (iq_bit q)) c.
Definition Channel_XNQualify (q : teq) (c : Channel) : Channel :=
  set_state (Word.nul (state c) (xq_bit q)) c.

Definition Channel_StateMerge (d : Z) (c : Channel) : Channel :=
  set_state (Z.lor (state c) d) c.
Definition Channel_ClearDelta (c : Channel) : Channel := set_delta 0 c.

Definition Channel_HasEvent (c : Channel) (e : tev) : bool :=
  Word.test (events c) (tev_bit e).
Definition Channel_NoteEvent (e : tev) (c : Channel) : Channel :=
  set_events (Word.set (events c) (tev_bit e)) c.
Definition Channel_ClearEvents (c : Channel) : Channel := set_events 0 c.

(** The event state of section 3 of the spec. *)
Definition Channel_ShouldTerminate (c : Channel) : bool :=
  Channel_IQualified c teq_terminate || Channel_XQualified c teq_terminate.
Definition Channel_ShouldTransfer (c : Channel) : bool :=
  Channel_IQualified c teq_transfer && Channel_XQualified c teq_transfer.
Definition Channel_EventState (c : Channel) : bool :=
  Channel_ShouldTerminate c || Channel_ShouldTransfer c.
Definition Channel_ShouldXConnect (c : Channel) : bool :=
  Channel_GetControl c ctl_connect.

(** Terminated: a terminate qualification is part of the state.
    Terminating: terminated, or the terminate delta is published. *)
Definition Channel_Terminated (c : Channel) : bool :=
  Channel_ShouldTerminate c.
Definition Channel_Terminating (c : Channel) : bool :=
  Channel_Terminated c || Channel_DQualified c teq_terminate.

Definition Channel_Attached (c : Channel) : bool := bool_decide (junction c <> None).
Definition Channel_InCycle (c : Channel) : bool := bool_decide (lltransfer c <> None).
Definition Channel_HasResource (c : Channel) : bool := bool_decide (resource c <> None).

Definition Channel_Receives (c : Channel) : bool := Channel_GetControl c ctl_polarity.
Definition Channel_Sends (c : Channel) : bool := negb (Channel_GetControl c ctl_polarity).
Definition Channel_Polarity (c : Channel) : polarity_t :=
  if Channel_GetControl c ctl_polarity then p_input else p_output.

Definition Channel_ClearWindow (c : Channel) : Channel :=
  set_window_stop 0 (set_window_start 0 c).
Definition Channel_CollapseWindow (c : Channel) : Channel :=
  set_window_start (window_stop c) c.
Definition Channel_ExpandWindow (n : Z) (c : Channel) : Channel :=
  set_window_stop (Word.u32 (window_stop c + n)) c.

(** The Junction keeps its position in the kevent array in its own
    window: the start is the number of slots in use (changes queued, or
    events collected), the stop is the size of the array. *)
Definition Junction_ResetWindow (c : Channel) : Channel := set_window_start 0 c.
Definition Junction_ConsumeKEventSlot (c : Channel) : Channel :=
  set_window_start (Word.u32 (window_start c + 1)) c.
Definition Junction_NChanges (c : Channel) : Z := window_start c.
Definition Junction_NCollected (c : Channel) : Z := window_start c.
Definition Junction_SetNCollected (n : Z) (c : Channel) : Channel := set_window_start n c.
Definition Junction_MaxCollected (c : Channel) : bool :=
  window_start c =? window_stop c.
Definition Junction_IncrementTransferCount (c : Channel) : Channel :=
  set_choice (set_ntransfers (ntransfers (choice c) + 1) (choice c)) c.
Definition Junction_ResetTransferCount (c : Channel) : Channel :=
  set_choice (set_ntransfers 0 (choice c)) c.

(** A cycle blocks in the kernel only when its transfer list is empty. *)
Definition Junction_ShouldWait (J : addr) (c : Channel) : bool :=
  bool_decide (lltransfer c = Some J).

(** Port latches: the low nibble is the input side, the high nibble the
    output side. *)
Definition Port_Latched (pol : polarity_t) (p : Port) : bool :=
  match pol with
  | p_input => negb (Z.land (latches p) 15 =? 0)
  | p_output => negb (Z.land (latches p) 240 =? 0)
  | p_neutral => negb (latches p =? 0)
  end.

(** [port_unlatch]: clear the nibble of the polarity (both for
    [p_neutral]); when no latch remains, close the descriptor. *)
Definition port_unlatch (pol : polarity_t) (p : Port) : Port :=
  let l := match pol with
           | p_input => Z.land (latches p) 240
           | p_output => Z.land (latches p) 15
           | p_neutral => 0
           end in
  if (l =? 0) && negb (latches p =? 0)
  then mkPort (-1) (cause p) (error p) l
  else mkPort (point p) (cause p) (error p) l.

Definition Port_SetError (e : Z) (k : kcall) (p : Port) : Port :=
  mkPort (point p) k e (latches p).
Definition Port_SetCause (k : kcall) (p : Port) : Port :=
  mkPort (point p) k (error p) (latches p).

(** [Channel_PortLatched(t)] and [Channel_PortError(t)] read the port of
    the Channel. *)
Definition Channel_PortLatched (t : addr) (m : Machine) : option bool :=
  c ← load t m; '(_, p) ← channel_port t m; Some (Port_Latched (Channel_Polarity c) p).
Definition Channel_PortError (t : addr) (m : Machine) : option bool :=
  '(_, p) ← channel_port t m; Some (negb (error p =? 0)).

(** ** Transfer list and ring management ([module.c]) *)

Definition Junction_Cycling (c : Channel) : bool := bool_decide (lltransfer c <> None).

Definition Junction_IncrementChannelCount (c : Channel) : Channel :=
  set_choice (set_ntransits (ntransits (choice c) + 1) (choice c)) c.
Definition Junction_DecrementChannelCount (c : Channel) : Channel :=
  set_choice (set_ntransits (ntransits (choice c) - 1) (choice c)) c.
Definition Junction_ResetChannelCount (c : Channel) : Channel :=
  set_choice (set_ntransits 0 (choice c)) c.

Definition Channel_SetNextTransfer (t : addr) (p : ptr) (m : Machine) : option Machine :=
  modify t (set_lltransfer p) m.

(** [Junction_AddTransfer(J, t)]: link [t] in front of the transfer list
    unless its [lltransfer] pointer is already in use. *)
Definition Junction_AddTransfer (J t : addr) (m : Machine) : option Machine :=
  ct ← load t m;
  match lltransfer ct with
  | None =>
      cJ ← load J m;
      m1 ← Channel_SetNextTransfer t (lltransfer cJ) m;
      Channel_SetNextTransfer J (Some t) m1
  | Some _ => Some m
  end.

(** [TRANSIT_DETACH_SEGMENT(FIRST, LAST)]. *)
Definition TRANSIT_DETACH_SEGMENT (first last : addr) (m : Machine) : option Machine :=
  cf ← load first m;
  cl ← load last m;
  f_prev ← prev cf;
  l_next ← next cl;
  m1 ← modify f_prev (set_next (Some l_next)) m;
  modify l_next (set_prev (Some f_prev)) m1.

(** [TRANSIT_ATTACH_SEGMENT_BEFORE(TARGET, FIRST, LAST)]. *)
Definition TRANSIT_ATTACH_SEGMENT_BEFORE (target first last : addr) (m : Machine)
  : option Machine :=
  ct ← load target m;
  let T_prev := prev ct in
  m1 ← modify first (set_prev T_prev) m;
  m2 ← modify last (set_next (Some target)) m1;
  m3 ← modify target (set_prev (Some last)) m2;
  tp ← T_prev;
  modify tp (set_next (Some first)) m3.

Definition TRANSIT_RELOCATE_SEGMENT_BEFORE (target first last : addr) (m : Machine)
  : option Machine :=
  m1 ← TRANSIT_DETACH_SEGMENT first last m;
  TRANSIT_ATTACH_SEGMENT_BEFORE target first last m1.

(** [TRANSIT_DETACH(TRANSIT)]. *)
Definition TRANSIT_DETACH (t : addr) (m : Machine) : option Machine :=
  m1 ← TRANSIT_DETACH_SEGMENT t t m;
  m2 ← modify t (set_prev None) m1;
  modify t (set_next None) m2.

(** [TRANSIT_ATTACH(TRANSIT)]: attach behind the Channel's Junction. *)
Definition TRANSIT_ATTACH (t : addr) (m : Machine) : option Machine :=
  c ← load t m;
  J ← junction c;
  TRANSIT_ATTACH_SEGMENT_BEFORE J t t m.

(** [Channel_ReleaseResource] and [Channel_ReleaseLink]. *)
Definition Channel_ReleaseResource (c : Channel) : Channel :=
  if Channel_HasResource c then Channel_ClearWindow (set_resource None c) else c.
Definition Channel_ReleaseLink (c : Channel) : Channel :=
  match link c with Some _ => set_link None c | None => c end.

(** [junction_fall]: wake the Junction from a blocking collection.  The
    result is the C return value. *)
Definition junction_fall (J : addr) (force : bool) (m : Machine) : option (Z * Machine) :=
  cJ ← load J m;
  if negb force && (will_wait (choice cJ) =? 0) then Some (0, m)
  else
    _ ← channel_port J m;
    let m1 := set_kern (k_record sys_trigger (kern m)) m in
    if k_trigger_fails (kern m) then Some (-1, m1) else Some (1, m1).

(** [Channel_EnqueueDelta(t)]: move the Channel behind its Junction so
    that the next delta scan finds it, and wake the Junction if it waits. *)
Definition Channel_EnqueueDelta (t : addr) (m : Machine) : option Machine :=
  c ← load t m;
  match junction c with
  | Some J =>
      if negb (delta c =? 0) && negb (bool_decide (t = J)) then
        m1 ← TRANSIT_RELOCATE_SEGMENT_BEFORE J t t m;
        '(_, m2) ← junction_fall J false m1;
        Some m2
      else Some m
  | None =>
      (* [t != J] holds for [J == NULL]; the relocation then dereferences it. *)
      if negb (delta c =? 0) then None else Some m
  end.

(** ** Channel methods *)

(** [transit_can_acquire]: [Some e] stands for the C result [0] with the
    exception [e] set, [None] for the result [1]. *)
Definition transit_can_acquire (c : Channel) : option PyExc :=
  if Channel_IQualified c teq_transfer then Some ChannelResourceError
  else None.

(** [PyObject_GetBuffer(resource, view, writable ? PyBUF_WRITABLE : 0)]. *)
Definition PyObject_GetBuffer (r : PyObject) (writable : bool) : option Z :=
  if ob_buffer r && (negb writable || ob_writable r) then Some (ob_len r) else None.

Definition transit_acquire (self : addr) (res : PyObject) (m : Machine)
  : option (PyResult * Machine) :=
  t ← load self m;
  if Channel_Terminating t then Some (Returned Py_None, m)
  else match transit_can_acquire t with
  | Some err => Some (Raised err, m)
  | None =>
      m1 ← modify self Channel_ReleaseResource m;
      m2 ← modify self (set_resource (Some res)) m1;
      match PyObject_GetBuffer res (Channel_Receives t) with
      | None =>
          m3 ← modify self (set_resource None) m2;
          Some (Raised BufferError, m3)
      | Some len =>
          m3 ← modify self (set_view_len len) m2;
          m4 ← modify self Channel_ClearWindow m3;
          match junction t with
          | Some _ =>
              m5 ← modify self (Channel_DQualify teq_transfer) m4;
              m6 ← Channel_EnqueueDelta self m5;
              Some (Returned (Py_Ref self), m6)
          | None =>
              m5 ← modify self (Channel_IQualify teq_transfer) m4;
              Some (Returned (Py_Ref self), m5)
          end
      end
  end.

Definition transit_force (self : addr) (m : Machine) : option (PyResult * Machine) :=
  m1 ← modify self (Channel_DControl ctl_force) m;
  t ← load self m1;
  if Channel_Attached t && Channel_IQualified t teq_transfer then
    m2 ← Channel_EnqueueDelta self m1;
    Some (Returned Py_None, m2)
  else Some (Returned Py_None, m1).

Definition transit_slice (self : addr) (m : Machine) : option (PyResult * Machine) :=
  t ← load self m;
  if negb (Channel_HasResource t) then Some (Returned Py_None, m)
  else Some (Returned (Py_Slice (window_start t) (window_stop t)), m).

(** [transit_transfer]: the division is C's unsigned division; a unit of
    zero is a division by zero. *)
Definition transit_transfer (self : addr) (m : Machine) : option (PyResult * Machine) :=
  t ← load self m;
  let unit := ti_unit t in
  if negb (Channel_HasResource t) || negb (Channel_HasEvent t tev_transfer)
  then Some (Returned Py_None, m)
  else if unit =? 0 then None
  else
    r ← resource t;
    Some (Returned (Py_Item r (window_start t ÷ unit) (window_stop t ÷ unit)), m).

Definition transit_sizeof_transfer (self : addr) (m : Machine) : option (PyResult * Machine) :=
  t ← load self m;
  if negb (Channel_HasResource t) || negb (Channel_HasEvent t tev_transfer)
  then Some (Returned (Py_Long 0), m)
  else Some (Returned (Py_Long (Word.u32 (window_stop t - window_start t))), m).

Definition transit_terminate (self : addr) (m : Machine) : option (PyResult * Machine) :=
  t ← load self m;
  if negb (Channel_Attached t) then
    if negb (Channel_Terminated t) then
      m1 ← modify self (Channel_IQualify teq_terminate) m;
      m2 ← modify self Channel_ReleaseResource m1;
      m3 ← modify self Channel_ReleaseLink m2;
      '(p, _) ← channel_port self m3;
      m4 ← modify_port p (port_unlatch (Channel_Polarity t)) m3;
      Some (Returned Py_None, m4)
    else Some (Returned Py_None, m)
  else if negb (Channel_Terminating t) then
    m1 ← modify self (Channel_DQualify teq_terminate) m;
    if is_junction t then
      '(_, m2) ← junction_fall self false m1;
      Some (Returned Py_None, m2)
    else
      m2 ← Channel_EnqueueDelta self m1;
      Some (Returned Py_None, m2)
  else Some (Returned Py_None, m).

(** ** Junction methods and the cycle engine *)

(** Loops over the ring or the transfer list follow pointers; they are
    given as much fuel as there are objects on the heap (plus one), which
    is enough for every walk over a list without repetition. *)
Definition fuel_of (m : Machine) : nat := S (size (chans m)).

Arguments fuel_of : simpl never.

(** [junction_acquire].  The argument is a Channel: the [TypeError] of the
    instance check cannot arise. *)
Definition junction_acquire (self ob : addr) (m : Machine) : option (PyResult * Machine) :=
  J ← load self m;
  t ← load ob m;
  if Channel_Terminating J then Some (Raised ChannelTerminatedError, m)
  else if negb (Channel_Attached t) then
    if Channel_Terminated t then Some (Raised ChannelTerminatedError, m)
    else
      m1 ← modify ob (Channel_DControl ctl_connect) m;
      m2 ← modify ob (set_junction (Some self)) m1;
      m3 ← TRANSIT_ATTACH ob m2;
      m4 ← modify self Junction_IncrementChannelCount m3;
      Some (Returned (Py_Ref ob), m4)
  else if bool_decide (junction t <> Some self)
  then Some (Raised ChannelResourceError, m)
  else Some (Returned (Py_Ref ob), m).

Definition junction_start_cycle (J : addr) (m : Machine) : option Machine :=
  Channel_SetNextTransfer J (Some J) m.

Definition junction_finish_cycle (J : addr) (m : Machine) : option Machine :=
  m1 ← Channel_SetNextTransfer J None m;
  modify J Junction_ResetTransferCount m1.

(** [junction_kevent_change]: submit the queued changes.  The receipts the
    kernel writes back into the array are not modelled. *)
Definition junction_kevent_change (J : addr) (m : Machine) : option Machine :=
  cJ ← load J m;
  let nkevents := Junction_NChanges cJ in
  let kevs := kevents (choice cJ) in
  m1 ← modify J Junction_ResetWindow m;
  if nkevents =? 0 then Some m1
  else
    _ ← channel_port J m1;
    Some (set_kern (k_record (sys_change (take (Z.to_nat nkevents) kevs)) (kern m1)) m1).

(** [junction_kevent_collect]: the kernel fills the front of the array
    with at most [Channel_GetWindowStop(J)] events. *)
Definition junction_kevent_collect (J : addr) (waiting : bool) (m : Machine)
  : option Machine :=
  cJ ← load J m;
  _ ← channel_port J m;
  let kevs := kevents (choice cJ) in
  let batch := take (Z.to_nat (window_stop cJ)) (default [] (head (k_pending (kern m)))) in
  let n := length batch in
  let m1 := set_kern (k_record (sys_collect waiting) (k_pop (kern m))) m in
  m2 ← modify J (fun c => set_choice (set_kevents (batch ++ drop n kevs) (choice c)) c) m1;
  modify J (Junction_SetNCollected (Z.of_nat n)) m2.

(** The loops of [junction_reload] and [_junction_terminate]:
    [for (t = J->next; t != J; t = t->next) f(t)]. *)
Fixpoint ring_each (fuel : nat) (J t : addr) (f : Channel -> Channel) (m : Machine)
  : option Machine :=
  if bool_decide (t = J) then Some m
  else match fuel with
  | O => None
  | S n =>
      m1 ← modify t f m;
      c ← load t m1;
      nx ← next c;
      ring_each n J nx f m1
  end.

Definition junction_reload (J : addr) (m : Machine) : option Machine :=
  cJ ← load J m;
  t ← next cJ;
  ring_each (fuel_of m) J t (Channel_DControl ctl_connect) m.

(** [junction_init]: create the queue and register the wake-up filter. *)
Definition junction_init (J : addr) (m : Machine) : option Machine :=
  '(pa, p) ← channel_port J m;
  let '(failed, p') := k_kqueue (kern m) p in
  m1 ← modify_port pa (fun _ => p') m;
  let m2 := set_kern (k_record sys_kqueue (kern m1)) m1 in
  if failed : bool then Some m2
  else
    let kev := mkKevent (Zpos J) EVFILT_USER
                 (Z.lor EV_ADD (Z.lor EV_RECEIPT EV_CLEAR)) 0 0 J in
    Some (set_kern (k_record (sys_change [kev]) (kern m2)) m2).

(** [junction_transfer_delta]:
    [for (t = J->prev; Channel_GetDelta(t) != 0; t = t->prev)]. *)
Fixpoint junction_transfer_delta_loop (fuel : nat) (J t : addr) (m : Machine)
  : option Machine :=
  match fuel with
  | O => None
  | S n =>
      c ← load t m;
      if delta c =? 0 then Some m
      else
        m1 ← modify t (Channel_StateMerge (delta c)) m;
        m2 ← modify t Channel_ClearDelta m1;
        m3 ← Junction_AddTransfer J t m2;
        c' ← load t m3;
        p ← prev c';
        junction_transfer_delta_loop n J p m3
  end.

Definition junction_transfer_delta (J : addr) (m : Machine) : option Machine :=
  cJ ← load J m;
  t ← prev cJ;
  junction_transfer_delta_loop (fuel_of m) J t m.

(** [junction_current_kevent_slot]: the index of the slot to fill, after
    flushing a full array. *)
Definition junction_current_kevent_slot (J : addr) (m : Machine) : option (Z * Machine) :=
  cJ ← load J m;
  m1 ← (if Junction_MaxCollected cJ then junction_kevent_change J m else Some m);
  cJ' ← load J m1;
  Some (window_start cJ', m1).

Definition kfilter_of (c : Channel) : kfilter :=
  if negb (Channel_GetControl c ctl_polarity) then EVFILT_WRITE else EVFILT_READ.

(** [kfilter_attach(t, kev)] and [kfilter_cancel(t, kev)] fill the slot;
    writing outside the array is a fault. *)
Definition write_slot (J : addr) (i : Z) (kev : kevent_t) (m : Machine) : option Machine :=
  cJ ← load J m;
  let kevs := kevents (choice cJ) in
  if (0 <=? i) && (i <? Z.of_nat (length kevs)) then
    modify J (fun c => set_choice (set_kevents (<[Z.to_nat i := kev]> kevs) (choice c)) c) m
  else None.

(** The change that subscribes, respectively unsubscribes, the Channel at
    [t]: the fields [kfilter_attach] and [kfilter_cancel] write. *)
Definition filter_add (t : addr) (c : Channel) (p : Port) : kevent_t :=
  mkKevent (point p) (kfilter_of c) (Z.lor EV_CLEAR (Z.lor EV_ADD EV_RECEIPT)) 0 0 t.
Definition filter_delete (t : addr) (c : Channel) (p : Port) : kevent_t :=
  mkKevent (point p) (kfilter_of c) (Z.lor EV_CLEAR (Z.lor EV_DELETE EV_RECEIPT)) 0 0 t.

Definition kfilter_attach (J t : addr) (slot : Z) (m : Machine) : option Machine :=
  c ← load t m;
  '(_, p) ← channel_port t m;
  write_slot J slot (filter_add t c p) m.

Definition kfilter_cancel (J t : addr) (slot : Z) (m : Machine) : option Machine :=
  c ← load t m;
  '(_, p) ← channel_port t m;
  write_slot J slot (filter_delete t c p) m.

(** The body of the loop of [junction_apply_delta] up to the decision to
    keep the Channel on the list. *)
Definition junction_apply_delta_step (J t : addr) (m : Machine) : option Machine :=
  c ← load t m;
  m1 ← (if Channel_ShouldXConnect c then
          err ← Channel_PortError t m;
          latched ← Channel_PortLatched t m;
          m' ← (if err || negb latched then modify t (Channel_XQualify teq_terminate) m
                else if negb (Channel_GetControl c ctl_requeue) then
                  '(slot, ma) ← junction_current_kevent_slot J m;
                  mb ← kfilter_attach J t slot ma;
                  modify J Junction_ConsumeKEventSlot mb
                else Some m);
          modify t (Channel_NulControl ctl_connect) m'
        else Some m);
  c1 ← load t m1;
  if Channel_GetControl c1 ctl_force then
    m2 ← modify t (Channel_NulControl ctl_force) m1;
    modify t (Channel_XQualify teq_transfer) m2
  else Some m1.

(** [for (t = Channel_GetNextTransfer(J); t != J;
         t = Channel_GetNextTransfer(prev))]. *)
Fixpoint junction_apply_delta_loop (fuel : nat) (J prv t : addr) (m : Machine)
  : option Machine :=
  if bool_decide (t = J) then Some m
  else match fuel with
  | O => None
  | S n =>
      m1 ← junction_apply_delta_step J t m;
      c ← load t m1;
      '(prv', m2) ← (if Channel_EventState c then Some (t, m1)
                     else
                       ma ← Channel_SetNextTransfer prv (lltransfer c) m1;
                       mb ← Channel_SetNextTransfer t None ma;
                       Some (prv, mb));
      cp ← load prv' m2;
      t' ← lltransfer cp;
      junction_apply_delta_loop n J prv' t' m2
  end.

Definition junction_apply_delta (J : addr) (m : Machine) : option Machine :=
  m1 ← modify J Junction_ResetWindow m;
  cJ ← load J m1;
  t ← lltransfer cJ;
  m2 ← junction_apply_delta_loop (fuel_of m1) J J t m1;
  junction_kevent_change J m2.

(** The body of the loop of [junction_kevent_transform] (kqueue). *)
Definition junction_kevent_transform_step (J : addr) (kev : kevent_t) (m : Machine)
  : option Machine :=
  let t := kev_udata kev in
  if bool_decide (t = J) then Some m
  else
    c ← load t m;
    if bool_decide (kev_filter kev = EVFILT_WRITE)
       && negb (Z.land (kev_flags kev) EV_EOF =? 0)
    then
      m1 ← modify t (Channel_XQualify teq_terminate) m;
      p ← port c;
      m2 ← modify_port p (Port_SetError (kev_fflags kev) kc_eof) m1;
      Junction_AddTransfer J t m2
    else
      m1 ← modify t (Channel_XQualify teq_transfer) m;
      c1 ← load t m1;
      if Channel_IQualified c1 teq_transfer then Junction_AddTransfer J t m1
      else Some m1.

Fixpoint junction_kevent_transform_loop (J : addr) (kevs : list kevent_t) (m : Machine)
  : option Machine :=
  match kevs with
  | [] => Some m
  | kev :: rest =>
      m1 ← junction_kevent_transform_step J kev m;
      junction_kevent_transform_loop J rest m1
  end.

Definition junction_kevent_transform (J : addr) (m : Machine) : option Machine :=
  cJ ← load J m;
  let kevs := kevents (choice cJ) in
  let nkevents := Junction_NCollected cJ in
  if (0 <=? nkevents) && (nkevents <=? Z.of_nat (length kevs)) then
    junction_kevent_transform_loop J (take (Z.to_nat nkevents) kevs) m
  else None.

(** [junction_fall] is declared above; [junction_force] calls it with the
    force argument set. *)
Definition junction_force (self : addr) (m : Machine) : option (PyResult * Machine) :=
  J ← load self m;
  if Channel_Terminating J then Some (Returned Py_None, m)
  else
    '(r, m1) ← junction_fall self true m;
    Some (Returned (if r =? 0 then Py_False else Py_True), m1).

Definition _junction_terminate (J : addr) (m : Machine) : option Machine :=
  m1 ← modify J (Channel_IQualify teq_terminate) m;
  cJ ← load J m1;
  t ← next cJ;
  m2 ← ring_each (fuel_of m1) J t (Channel_DQualify teq_terminate) m1;
  '(p, _) ← channel_port J m2;
  modify_port p (port_unlatch p_neutral) m2.

(** [while (Junction_MaxCollected(J) && countdown)] of [_junction_flow]. *)
Fixpoint junction_recollect (countdown : nat) (J : addr) (m : Machine) : option Machine :=
  match countdown with
  | O => Some m
  | S n =>
      cJ ← load J m;
      if Junction_MaxCollected cJ then
        m1 ← junction_kevent_collect J false m;
        m2 ← junction_kevent_transform J m1;
        junction_recollect n J m2
      else Some m
  end.

(** Queue the filter-delete change of a Channel:
    [kfilter_cancel(t, junction_current_kevent_slot(J));
     Junction_ConsumeKEventSlot(J);]. *)
Definition junction_cancel (J t : addr) (m : Machine) : option Machine :=
  '(slot, ma) ← junction_current_kevent_slot J m;
  mb ← kfilter_cancel J t slot ma;
  modify J Junction_ConsumeKEventSlot mb.

(** The body of the transfer loop of [_junction_flow]. *)
Definition junction_flow_step (J t : addr) (m : Machine) : option Machine :=
  m1 ← modify J Junction_IncrementTransferCount m;
  c ← load t m1;
  if Channel_ShouldTerminate c then
    m2 ← (if negb (Channel_GetControl c ctl_requeue) then junction_cancel J t m1
          else Some m1);
    modify t (Channel_NoteEvent tev_terminate) m2
  else if Channel_ShouldTransfer c then
    let rsize := Word.u32 (view_len c) in
    let pos := Word.u32 (window_stop c) in
    let request := Word.u32 (rsize - pos) in
    m2 ← modify t (Channel_NoteEvent tev_transfer) m1;
    let '(stat, xfer) := k_io (kern m2) t request in
    m3 ← modify t (Channel_ExpandWindow xfer) m2;
    match stat with
    | io_flow => modify t (Channel_INQualify teq_transfer) m3
    | io_stop => modify t (Channel_XNQualify teq_transfer) m3
    | io_terminate =>
        m4 ← modify t (Channel_XQualify teq_terminate) m3;
        m5 ← modify t (Channel_NoteEvent tev_terminate) m4;
        c5 ← load t m5;
        if negb (Channel_GetControl c5 ctl_requeue) then junction_cancel J t m5
        else Some m5
    end
  else Some m1.

(** [for (t = Channel_GetNextTransfer(J); t != J;
         t = Channel_GetNextTransfer(t))]. *)
Fixpoint junction_flow_loop (fuel : nat) (J t : addr) (m : Machine) : option Machine :=
  if bool_decide (t = J) then Some m
  else match fuel with
  | O => None
  | S n =>
      m1 ← junction_flow_step J t m;
      c ← load t m1;
      t' ← lltransfer c;
      junction_flow_loop n J t' m1
  end.

Definition set_will_wait_of (n : Z) (c : Channel) : Channel :=
  set_choice (set_will_wait n (choice c)) c.

(** [_junction_flow]: one cycle up to the point where the events can be
    observed. *)
Definition _junction_flow (J : addr) (m : Machine) : option Machine :=
  m1 ← junction_start_cycle J m;
  cJ ← load J m1;
  m2 ← (if Channel_Terminating cJ then _junction_terminate J m1
        else
          latched ← Channel_PortLatched J m1;
          if negb latched then
            ma ← junction_init J m1;
            junction_reload J ma
          else Some m1);
  m3 ← modify J Channel_ClearDelta m2;
  m4 ← junction_transfer_delta J m3;
  cJ4 ← load J m4;
  m5 ← (if Junction_ShouldWait J cJ4 then modify J (set_will_wait_of 1) m4
        else Some m4);
  m6 ← junction_apply_delta J m5;
  cJ6 ← load J m6;
  m7 ← (if negb (Channel_Terminating cJ6) then
          ma ← junction_kevent_collect J (Junction_ShouldWait J cJ6) m6;
          mb ← modify J (set_will_wait_of 0) ma;
          mc ← junction_kevent_transform J mb;
          junction_recollect 3 J mc
        else Some m6);
  m8 ← modify J Junction_ResetWindow m7;
  cJ8 ← load J m8;
  t ← lltransfer cJ8;
  m9 ← junction_flow_loop (fuel_of m8) J t m8;
  cJ9 ← load J m9;
  if negb (Channel_Terminating cJ9) then junction_kevent_change J m9
  else Some m9.

(** The body of the loop of [_junction_flush]; the result carries the
    saved [next] pointer. *)
Definition _junction_flush_step (J t : addr) (m : Machine) : option (addr * Machine) :=
  c ← load t m;
  nxt ← lltransfer c;
  m1 ← Channel_SetNextTransfer t None m;
  m2 ← modify t Channel_CollapseWindow m1;
  c2 ← load t m2;
  m3 ← (if Channel_HasEvent c2 tev_terminate then
          ma ← modify t Channel_ReleaseResource m2;
          mb ← modify t Channel_ReleaseLink ma;
          '(p, _) ← channel_port t mb;
          mc ← modify_port p (port_unlatch (Channel_Polarity c2)) mb;
          md ← TRANSIT_DETACH t mc;
          modify J Junction_DecrementChannelCount md
        else
          let exhausted := negb (Channel_DQualified c2 teq_transfer)
                           && negb (Channel_IQualified c2 teq_transfer) in
          if exhausted then modify t Channel_ReleaseResource m2 else Some m2);
  m4 ← modify t Channel_ClearEvents m3;
  Some (nxt, m4).

Fixpoint _junction_flush_loop (fuel : nat) (J t : addr) (m : Machine) : option Machine :=
  if bool_decide (t = J) then Some m
  else match fuel with
  | O => None
  | S n =>
      '(nxt, m1) ← _junction_flush_step J t m;
      _junction_flush_loop n J nxt m1
  end.

Definition _junction_flush (J : addr) (m : Machine) : option Machine :=
  cJ ← load J m;
  t ← lltransfer cJ;
  m1 ← _junction_flush_loop (fuel_of m) J t m;
  junction_finish_cycle J m1.

(** [junction_enter] ([__enter__], the spec's [begin_cycle]). *)
Definition junction_enter (self : addr) (m : Machine) : option (PyResult * Machine) :=
  J ← load self m;
  gone ← (if Channel_Terminating J then
            latched ← Channel_PortLatched self m; Some (negb latched)
          else Some false);
  if gone : bool then Some (Raised ChannelTerminatedError, m)
  else if Channel_InCycle J then
    Some (Raised (RuntimeError "cycle must be completed before starting another"), m)
  else
    m1 ← _junction_flow self m;
    Some (Returned (Py_Ref self), m1).

(** [junction_exit] ([__exit__], the spec's [end_cycle]). *)
Definition junction_exit (self : addr) (m : Machine) : option (PyResult * Machine) :=
  J ← load self m;
  if Channel_InCycle J then
    m1 ← _junction_flush self m;
    Some (Returned Py_None, m1)
  else Some (Returned Py_None, m).

(** ** Calls inside a cycle

    What a program may call between [begin_cycle] and [end_cycle]: the
    methods of a Channel [t] and the methods of the Junction.  An
    exception is left to the caller; the program goes on from the state
    the method left. *)
Inductive call : Type :=
| call_acquire (t : addr) (res : PyObject)
| call_force (t : addr)
| call_terminate (t : addr)
| call_transfer (t : addr)
| call_slice (t : addr)
| call_sizeof_transfer (t : addr)
| call_junction_acquire (t : addr)
| call_junction_force
| call_junction_enter.

Definition run_call (J : addr) (c : call) (m : Machine) : option (PyResult * Machine) :=
  match c with
  | call_acquire t res => transit_acquire t res m
  | call_force t => transit_force t m
  | call_terminate t => transit_terminate t m
  | call_transfer t => transit_transfer t m
  | call_slice t => transit_slice t m
  | call_sizeof_transfer t => transit_sizeof_transfer t m
  | call_junction_acquire t => junction_acquire J t m
  | call_junction_force => junction_force J m
  | call_junction_enter => junction_enter J m
  end.

Fixpoint run_calls (J : addr) (cs : list call) (m : Machine) : option Machine :=
  match cs with
  | [] => Some m
  | c :: cs' => '(_, m1) ← run_call J c m; run_calls J cs' m1
  end.

(** The type of the Junction overrides [acquire] and [force]: the Channel
    versions are never applied to the Junction. *)
Definition call_ok (J : addr) (c : call) : Prop :=
  match c with
  | call_acquire t _ | call_force t => t <> J
  | _ => True
  end.

(** ** Allocation

    Objects are created at addresses chosen by the caller of the model. *)

Definition CONFIG_DEFAULT_JUNCTION_SIZE : Z := 16.

(** [INIT_TRANSIT(t, J)] on zeroed memory. *)
Definition INIT_TRANSIT (J : ptr) (p : addr) (unit : Z) (isj : bool) : Channel :=
  mkChannel None None None J (Some p) None 0 None 0 0 0 0 0 unit isj
    (mkChoice 0 0 0 []).
Definition INIT_INPUT_TRANSIT (J : ptr) (p : addr) (unit : Z) (isj : bool) : Channel :=
  Channel_SetControl ctl_polarity (INIT_TRANSIT J p unit isj).
Definition INIT_OUTPUT_TRANSIT (J : ptr) (p : addr) (unit : Z) (isj : bool) : Channel :=
  Channel_NulControl ctl_polarity (INIT_TRANSIT J p unit isj).

(** [alloc_port]. *)
Definition alloc_port : Port := mkPort (-1) kc_pyalloc 0 0.

(** [alloci] and [alloco], followed by the descriptor the allocator
    obtained for the port. *)
Definition alloci (t p : addr) (unit fd : Z) (m : Machine) : Machine :=
  set_ports (<[p := mkPort fd kc_none 0 1]> (ports m))
    (store t (INIT_INPUT_TRANSIT None p unit false) m).
Definition alloco (t p : addr) (unit fd : Z) (m : Machine) : Machine :=
  set_ports (<[p := mkPort fd kc_none 0 16]> (ports m))
    (store t (INIT_OUTPUT_TRANSIT None p unit false) m).

(** [junction_new]. *)
Definition junction_new (J p : addr) (m : Machine) : option Machine :=
  let c := INIT_INPUT_TRANSIT None p 1 true in
  let c := set_junction (Some J) c in
  let c := Channel_XQualify teq_transfer c in
  let c := Channel_SetControl ctl_polarity c in
  let c := Junction_ResetChannelCount c in
  let c := Junction_ResetTransferCount c in
  let c := set_window_stop CONFIG_DEFAULT_JUNCTION_SIZE (set_window_start 0 c) in
  let c := set_choice
             (set_kevents
                (replicate (Z.to_nat (window_stop c)) (mkKevent 0 EVFILT_USER 0 0 0 J))
                (choice c)) c in
  let c := set_prev (Some J) (set_next (Some J) c) in
  junction_init J
    (set_ports (<[p := mkPort (-1) kc_pyalloc 0 1]> (ports m)) (store J c m)).

(** ** Shapes of the heap *)

(** The pointer stored in the field [f] of the object at [a]. *)
Definition ptr_at (f : Channel -> ptr) (m : Machine) (a : addr) : ptr :=
  c ← load a m; f c.

(** [chain f m l]: every object of [l] but the last exists and its field
    [f] points to the object that follows it in [l]. *)
Fixpoint chain (f : Channel -> ptr) (m : Machine) (l : list addr) : Prop :=
  match l with
  | a :: l' =>
      match l' with
      | b :: _ => ptr_at f m a = Some b /\ chain f m l'
      | [] => True
      end
  | [] => True
  end.

Arguments chain : simpl never.

(** What the delta scan makes of a Channel [c]: the delta is merged into
    the state and cleared, and the Channel is linked in front of [nx]. *)
Definition delta_flushed (c : Channel) (nx : ptr) : Channel :=
  set_lltransfer nx (Channel_ClearDelta (Channel_StateMerge (delta c) c)).

(** The transfer list of the Junction [J] is [l]: the Junction is in a
    cycle and its [lltransfer] chain runs through [l] back to [J],
    without repetition. *)
Definition tlist (m : Machine) (J : addr) (l : list addr) : Prop :=
  chain lltransfer m (J :: l ++ [J]) /\ NoDup (J :: l).

(** The ring of the Junction [J] has the members [l]: following [next]
    from [J] visits [l] and returns to [J], and following [prev] visits
    them in the opposite order. *)
Definition ring (m : Machine) (J : addr) (l : list addr) : Prop :=
  chain next m (J :: l ++ [J]) /\ chain prev m (J :: rev l ++ [J])
  /\ NoDup (J :: l).

(** Every Channel object has a port, and the port exists. *)
Definition ports_ok (m : Machine) : Prop :=
  forall a c, load a m = Some c -> exists p x, port c = Some p /\ load_port p m = Some x.

(** Outside of a cycle no Channel carries events or is linked on a
    transfer list. *)
Definition quiescent (m : Machine) : Prop :=
  forall a c, load a m = Some c -> events c = 0 /\ lltransfer c = None.

(** The changes submitted to the kernel according to the log, oldest
    first. *)
Fixpoint submitted (log : list syscall) : list kevent_t :=
  match log with
  | [] => []
  | sys_change l :: rest => submitted rest ++ l
  | _ :: rest => submitted rest
  end.

(** The changes queued in the array of the Junction. *)
Definition queued (cJ : Channel) : list kevent_t :=
  take (Z.to_nat (window_start cJ)) (kevents (choice cJ)).

(** All changes emitted so far by the Junction at [J]: submitted or
    queued. *)
Definition emitted (J : addr) (m : Machine) : option (list kevent_t) :=
  cJ ← load J m; Some (submitted (k_log (kern m)) ++ queued cJ).

(** The kevent array of a Junction is in order: the window of the Junction
    lies within the array, whose size is the stop of the window. *)
Definition kevents_ok (cJ : Channel) : Prop :=
  0 <= window_start cJ <= window_stop cJ
  /\ window_stop cJ = Z.of_nat (length (kevents (choice cJ)))
  /\ 0 < window_stop cJ < 2 ^ 32.

(** A Junction whose window start and kevent array were rewritten. *)
Definition upd_kev (ws : Z) (kevs : list kevent_t) (cJ : Channel) : Channel :=
  set_window_start ws (set_choice (set_kevents kevs (choice cJ)) cJ).

(** The events the kernel will report all name members of the ring of
    [J], or [J] itself (the wake-up event). *)
Definition pending_ok (J : addr) (r : list addr) (m : Machine) : Prop :=
  forall batch kev, batch ∈ k_pending (kern m) -> kev ∈ batch -> kev_udata kev ∈ J :: r.

(** The Junction and the members of its ring name the Junction in their
    [junction] field; an object outside of the ring has no ring
    pointers. *)
Definition attach_ok (J : addr) (r : list addr) (m : Machine) : Prop :=
  forall a c, load a m = Some c ->
    (a ∈ J :: r -> junction c = Some J)
    /\ (a ∉ J :: r -> prev c = None /\ next c = None).

(** The shape of the heap inside a cycle of the Junction [J] with ring [r]
    and transfer list [l]: the list runs through members of the ring, and
    no other Channel is linked. *)
Definition cycle_inv (J : addr) (r l : list addr) (m : Machine) : Prop :=
  tlist m J l
  /\ l ⊆ r
  /\ ring m J r
  /\ ports_ok m
  /\ (forall a c, load a m = Some c -> a ∉ l -> a <> J -> lltransfer c = None)
  /\ (exists cJ, load J m = Some cJ /\ kevents_ok cJ)
  /\ pending_ok J r m
  /\ attach_ok J r m.

(** The events found in the array of the Junction name members of the
    ring. *)
Definition collected_ok (J : addr) (r : list addr) (m : Machine) : Prop :=
  exists cJ, load J m = Some cJ /\ forall kev, kev ∈ queued cJ -> kev_udata kev ∈ J :: r.

(** Only the objects of [l] carry events. *)
Definition events_in (l : list addr) (m : Machine) : Prop :=
  forall a c, load a m = Some c -> a ∉ l -> events c = 0.

(** The Junction [J] is inside a cycle with the transfer list [l]. *)
Definition mid_cycle (J : addr) (l : list addr) (m : Machine) : Prop :=
  exists r, cycle_inv J r l m /\ events_in l m.

(** Two states of an object with the same pointers. *)
Definition links_same (c c' : Channel) : Prop :=
  prev c' = prev c /\ next c' = next c /\ lltransfer c' = lltransfer c
  /\ port c' = port c /\ junction c' = junction c.

(** The shape of the heap while the transfer list is drained: [rest] is
    what remains of the list, the objects that left it are unlinked and,
    unless they are in [S], carry no events. *)
Definition flush_inv (J : addr) (r rest S : list addr) (m : Machine) : Prop :=
  chain lltransfer m (rest ++ [J])
  /\ NoDup rest /\ (J ∉ rest) /\ rest ⊆ r
  /\ ring m J r
  /\ ports_ok m
  /\ (forall a c, load a m = Some c -> a ∉ rest ->
        (a ∉ S -> events c = 0) /\ (a <> J -> lltransfer c = None)).

(** Two states of an object that differ at most in the ring pointers. *)
Definition ring_diff (c c' : Channel) : Prop :=
  c' = set_next (next c') (set_prev (prev c') c).

(** [step J S m m']: from [m] to [m'] no object was created, freed or
    relinked, events changed at most on the objects of [S], no port was
    created or freed, the kernel has no new events to report and the kevent
    array of [J] is still in order. *)
Definition step (J : addr) (S : list addr) (m m' : Machine) : Prop :=
  (forall a, option_Forall2
               (fun c c' => links_same c c' /\ (a ∉ S -> events c' = events c))
               (load a m) (load a m'))
  /\ dom (ports m') = dom (ports m)
  /\ (forall b, b ∈ k_pending (kern m') -> b ∈ k_pending (kern m))
  /\ (forall cJ cJ', load J m = Some cJ -> load J m' = Some cJ' ->
        kevents_ok cJ -> kevents_ok cJ').

(** ** Concrete machines

    A Junction at address 1 (port 10), an input Channel at address 2
    (port 11) and an output Channel at address 3 (port 12), driven through
    the functions above. *)
Module Ex.

Definition J : addr := 1%positive.
Definition rd : addr := 2%positive.
Definition wr : addr := 3%positive.

(** A kernel whose transfer functions move the whole request
    ([io_flow]) and which has no events to report. *)
Definition kernel0 : Kernel :=
  mkKernel [] (fun _ r => (io_flow, r)) false
    (fun _ => (false, mkPort 3 kc_kqueue 0 1)) [].

Definition boot : Machine := mkMachine ∅ ∅ kernel0.

Definition bytes (n : Z) : PyObject := mkPyObject 1%positive true true n.
Definition not_a_buffer : PyObject := mkPyObject 2%positive false false 0.

Definition after {A} (o : option (A * Machine)) : option Machine := snd <$> o.

(** The kernel reports the given batches from now on. *)
Definition with_events (evs : list (list kevent_t)) (m : Machine) : Machine :=
  set_kern (mkKernel evs (k_io (kern m)) (k_trigger_fails (kern m))
              (k_kqueue (kern m)) (k_log (kern m))) m.

Definition readable (t : addr) : kevent_t := mkKevent 5 EVFILT_READ 0 0 0 t.
Definition writable (t : addr) : kevent_t := mkKevent 6 EVFILT_WRITE 0 0 0 t.

(** A fresh Junction. *)
Definition fresh : Machine := default boot (junction_new J 10%positive boot).

(** A detached input Channel that acquired a four byte buffer. *)
Definition detached_loaded : Machine :=
  default boot (after (transit_acquire rd (bytes 4) (alloci rd 11%positive 1 5 boot))).

(** A detached Channel after [terminate()]. *)
Definition detached_terminated : Machine :=
  default boot (after (transit_terminate rd (alloci rd 11%positive 1 5 boot))).

(** Both Channels attached to the Junction, each with a buffer. *)
Definition attached : Machine :=
  default boot (
    let m := alloco wr 12%positive 1 6 (alloci rd 11%positive 1 5 fresh) in
    m ← after (junction_acquire J rd m);
    m ← after (junction_acquire J wr m);
    m ← after (transit_acquire rd (bytes 4) m);
    after (transit_acquire wr (bytes 4) m)).

(** Inside the first cycle: both Channels were reported ready and moved
    their four bytes. *)
Definition in_cycle : Machine :=
  default boot
    (after (junction_enter J (with_events [[writable wr; readable rd]] attached))).

(** Inside that cycle the exhausted reader is offered an object without a
    buffer. *)
Definition in_cycle_bad_acquire : Machine :=
  default boot (after (transit_acquire rd not_a_buffer in_cycle)).

(** After the cycle. *)
Definition cycled : Machine := default boot (after (junction_exit J in_cycle)).

(** [terminate()] on the Junction, then the cycle that carries it out. *)
Definition terminating : Machine :=
  default boot (after (transit_terminate J attached)).
Definition in_final_cycle : Machine :=
  default boot (after (junction_enter J terminating)).

(** A third Channel at address 4 (port 13).  The three Channels are
    attached without buffers and taken through one cycle; then the first
    is forced (it has nothing to transfer, so it stays where it is in the
    ring with its delta set) and the third acquires a buffer (which moves
    it behind the Junction).  The second Channel, with an empty delta,
    sits between them. *)
Definition aux : addr := 4%positive.

Definition three : Machine :=
  default boot (
    let m := alloci aux 13%positive 1 7
               (alloco wr 12%positive 1 6 (alloci rd 11%positive 1 5 fresh)) in
    m ← after (junction_acquire J rd m);
    m ← after (junction_acquire J wr m);
    m ← after (junction_acquire J aux m);
    m ← after (junction_enter J m);
    m ← after (junction_exit J m);
    m ← after (transit_force rd m);
    after (transit_acquire aux (bytes 4) m)).

(** The start of the next cycle, up to the delta scan. *)
Definition three_started : Machine :=
  default boot (m ← junction_start_cycle J three; modify J Channel_ClearDelta m).

(** After the first cycle the reader acquires a new buffer; the next
    cycle is run up to the transfer loop (the reader is still readable),
    with a kernel whose transfer functions report the end of the
    stream. *)
Definition ready_eof : Machine :=
  default boot (
    m ← after (transit_acquire rd (bytes 4) cycled);
    m ← junction_start_cycle J m;
    m ← modify J Channel_ClearDelta m;
    m ← junction_transfer_delta J m;
    Some (set_kern (mkKernel [] (fun _ _ => (io_terminate, 0)) false
                      (k_kqueue (kern m)) (k_log (kern m))) m)).

(** Both Channels are ready when the next cycle begins; inside the cycle
    the program reads what the reader moved, gives it a new buffer,
    terminates the writer and wakes the Junction. *)
Definition ready : Machine := with_events [[writable wr; readable rd]] attached.
Definition calls : list call :=
  [call_transfer rd; call_acquire rd (bytes 4); call_terminate wr; call_junction_force].

(** The filter-delete change of the reader. *)
Definition readable_delete : kevent_t :=
  mkKevent 5 EVFILT_READ (Z.lor EV_CLEAR (Z.lor EV_DELETE EV_RECEIPT)) 0 0 rd.

End Ex.

(** ** Attributes of a Channel *)

(** [transit_get_polarity]: [polarity_objects[0]] is the integer [1],
    [polarity_objects[1]] the integer [-1] (module initialisation). *)
Definition transit_get_polarity (self : addr) (m : Machine) : option PyVal :=
  t ← load self m;
  Some (Py_Long (if negb (Channel_GetControl t ctl_polarity) then -1 else 1)).

Definition transit_get_terminated (self : addr) (m : Machine) : option PyVal :=
  t ← load self m;
  Some (if Channel_Terminating t then Py_True else Py_False).

Definition transit_get_exhausted (self : addr) (m : Machine) : option PyVal :=
  t ← load self m;
  if Channel_Terminating t then Some Py_False
  else if Channel_IQualified t teq_transfer || Channel_DQualified t teq_transfer
  then Some Py_False
  else Some Py_True.

(** The Channel record after the steps of [transit_acquire] that take the
    resource: release, set, fill the view, clear the window. *)
Definition acquired (res : PyObject) (len : Z) (c : Channel) : Channel :=
  Channel_ClearWindow (set_view_len len (set_resource (Some res) (Channel_ReleaseResource c))).


(** ** The [resource] attribute of a Junction *)

(** [while (t != J) { ...; t = t->next; }]: the members of the ring in
    the order of the walk. *)
Fixpoint junction_resource_walk (fuel : nat) (J t : addr) (m : Machine)
  : option (list addr) :=
  if bool_decide (t = J) then Some []
  else match fuel with
  | O => None
  | S n =>
      c ← load t m;
      nx ← next c;
      l ← junction_resource_walk n J nx m;
      Some (t :: l)
  end.

(** What [junction_get_resource] returns: [NULL] (with the exception of
    [PyList_New]) or a list whose slots hold object pointers. *)
Inductive resource_result :=
  | resource_error
  | resource_list (l : list ptr).

(** [junction_get_resource]: a list of [Junction_GetChannelCount(J)] slots
    is allocated and filled from the front with [PyList_SET_ITEM], which
    checks neither the list nor the index: a slot that is not reached
    stays [NULL], a store behind the last slot or into the [NULL] that
    [PyList_New] returns for a negative size is a fault. *)
Definition junction_get_resource (self : addr) (m : Machine) : option resource_result :=
  J ← load self m;
  t ← next J;
  l ← junction_resource_walk (fuel_of m) self t m;
  let n := ntransits (choice J) in
  if n <? 0 then
    match l with [] => Some resource_error | _ => None end
  else if Z.of_nat (length l) <=? n then
    Some (resource_list ((Some <$> l) ++ replicate (Z.to_nat n - length l) None))
  else None.

(** ** The transfer iterator ([jxi]) *)

(** [struct jxi]: the Junction and the position in its transfer list; both
    are [NULL] once the iterator is exhausted. *)
Record jxi := mkJxi { jxi_J : ptr; jxi_t : ptr }.

(** [new_jxi(J, 0)]. *)
Definition new_jxi (J : addr) (cJ : Channel) : jxi := mkJxi (Some J) (lltransfer cJ).

(** What [junction_transfer] returns: the empty tuple or an iterator. *)
Inductive transfer_result :=
  | transfer_empty
  | transfer_iter (i : jxi).

Definition junction_transfer (self : addr) (m : Machine) : option transfer_result :=
  J ← load self m;
  if negb (Channel_InCycle J) then Some transfer_empty
  else Some (transfer_iter (new_jxi self J)).

Definition junction_sizeof_transfer (self : addr) (m : Machine) : option PyVal :=
  J ← load self m;
  if negb (Channel_InCycle J) then Some (Py_Long 0)
  else Some (Py_Long (ntransfers (choice J))).

(** [for (this = i->t; this != i->J && Channel_GetEvents(this) == 0;
         this = Channel_GetNextTransfer(this));] *)
Fixpoint jxi_seek (fuel : nat) (J this : ptr) (m : Machine) : option ptr :=
  if bool_decide (this = J) then Some this
  else
    t ← this;
    c ← load t m;
    if events c =? 0 then
      match fuel with
      | O => None
      | S n => jxi_seek n J (lltransfer c) m
      end
    else Some this.

(** The outcome of [jxi_next]: [NULL] without an exception (the end of the
    iteration), [NULL] with an exception, or a Channel. *)
Inductive jxi_result :=
  | jxi_stop
  | jxi_raise (e : PyExc)
  | jxi_yield (t : addr).

Definition jxi_next (i : jxi) (m : Machine) : option (jxi_result * jxi) :=
  match jxi_t i with
  | None => Some (jxi_stop, i)
  | Some t =>
      c ← load t m;
      if negb (Channel_InCycle c) then
        Some (jxi_raise (RuntimeError "junction transfer iterator used outside of cycle"), i)
      else
        this ← jxi_seek (fuel_of m) (jxi_J i) (Some t) m;
        if bool_decide (this = jxi_J i) then
          _ ← jxi_J i;
          Some (jxi_stop, mkJxi None None)
        else
          x ← this;
          c' ← load x m;
          Some (jxi_yield x, mkJxi (jxi_J i) (lltransfer c'))
  end.

(** What a [for] loop over the iterator sees: the Channels produced until
    the iterator stops, and the exception if it raises instead. *)
Fixpoint jxi_collect (n : nat) (i : jxi) (m : Machine)
  : option (list addr * option PyExc) :=
  match n with
  | O => None
  | S n' =>
      '(r, i') ← jxi_next i m;
      match r with
      | jxi_stop => Some ([], None)
      | jxi_raise e => Some ([], Some e)
      | jxi_yield t =>
          '(l, e) ← jxi_collect n' i' m;
          Some (t :: l, e)
      end
  end.

(** The Channel at [t] carries events. *)
Definition has_events (m : Machine) (t : addr) : Prop :=
  exists c, load t m = Some c /\ events c <> 0.

#[global] Instance has_events_dec m t : Decision (has_events m t).
Proof.
  unfold has_events. destruct (load t m) as [c|].
  - destruct (decide (events c = 0)) as [Hz|Hnz].
    + right. intros (c' & [= <-] & H). done.
    + left. by exists c.
  - right. intros (c' & [=] & _).
Defined.

(** ** Resizing the kevent array *)

(** [PyMem_Realloc] to [n] elements: the elements that fit are kept, the
    ones behind them are not initialised ([junk i] stands for whatever
    slot [i] holds). *)
Definition realloc_kevents (n : nat) (junk : nat -> kevent_t) (kevs : list kevent_t)
  : list kevent_t :=
  take n kevs ++ (junk <$> seq (length kevs) (n - length kevs)).

(** [junction_resize_exoresource].  The argument is parsed with the format
    ["I"], which reduces a Python integer to an [unsigned int] without an
    overflow check; [realloc_ok] tells whether [PyMem_Realloc] returned
    memory. *)
Definition junction_resize_exoresource (self : addr) (size : Z) (realloc_ok : bool)
    (junk : nat -> kevent_t) (m : Machine) : option (PyResult * Machine) :=
  let new_size := Word.u32 size in
  J ← load self m;
  if Junction_Cycling J then
    Some (Raised (RuntimeError "cannot resize junction inside cycle"), m)
  else
    m1 ← (if realloc_ok then
            ma ← modify self
                   (fun c => set_choice
                               (set_kevents
                                  (realloc_kevents (Z.to_nat new_size) junk
                                     (kevents (choice c)))
                                  (choice c)) c) m;
            modify self (set_window_stop new_size) ma
          else Some m);
    J1 ← load self m1;
    Some (Returned (Py_Long (window_stop J1)), m1).

(** ** [Junction.void()] *)

(** The body of the loop of [junction_void]. *)
Definition junction_void_step (t : addr) (m : Machine) : option Machine :=
  '(p, _) ← channel_port t m;
  m1 ← modify t (Channel_IQualify teq_terminate) m;
  m2 ← Channel_SetNextTransfer t None m1;
  m3 ← modify_port p (port_unlatch p_neutral) m2;
  m4 ← modify_port p (Port_SetCause kc_void) m3;
  c ← load t m4;
  pv ← prev c;
  m5 ← modify pv (set_next None) m4;
  modify t (set_prev None) m5.

(** [for (t = J->next; t != (Channel) J; t = t->next)]. *)
Fixpoint junction_void_loop (fuel : nat) (J t : addr) (m : Machine) : option Machine :=
  if bool_decide (t = J) then Some m
  else match fuel with
  | O => None
  | S n =>
      m1 ← junction_void_step t m;
      c ← load t m1;
      nx ← next c;
      junction_void_loop n J nx m1
  end.

(** [junction_void].  After the loop [t] is the Junction. *)
Definition junction_void (self : addr) (m : Machine) : option (PyResult * Machine) :=
  J ← load self m;
  m0 ← (if Junction_Cycling J then junction_finish_cycle self m else Some m);
  J0 ← load self m0;
  t ← next J0;
  m1 ← junction_void_loop (fuel_of m0) self t m0;
  m2 ← modify self (set_next None) m1;
  m3 ← modify self (set_next (Some self)) m2;
  m4 ← modify self (set_prev (Some self)) m3;
  m5 ← modify self Junction_ResetTransferCount m4;
  m6 ← modify self Junction_ResetChannelCount m5;
  '(p, _) ← channel_port self m6;
  m7 ← modify_port p (port_unlatch p_neutral) m6;
  Some (Returned Py_None, m7).

(** A former member of the ring after [junction_void]: terminated, off the
    transfer list, without a predecessor; [nx] is what is left in its
    [next] pointer. *)
Definition voided (nx : ptr) (c : Channel) : Channel :=
  set_next nx (set_prev None (set_lltransfer None (Channel_IQualify teq_terminate c))).

(** ** [Port.leak()] and [Port.shatter()] *)

(** [port_leak]: forget the latches without closing the descriptor. *)
Definition port_leak (self : addr) (m : Machine) : option (PyResult * Machine) :=
  p ← load_port self m;
  let rob := if latches p =? 0 then Py_False else Py_True in
  m1 ← modify_port self (fun p => mkPort (point p) (cause p) (error p) 0) m;
  m2 ← modify_port self (Port_SetCause kc_leak) m1;
  Some (Returned rob, m2).

(** [port_shatter]: release both latches, which closes the descriptor. *)
Definition port_shatter (self : addr) (m : Machine) : option (PyResult * Machine) :=
  p ← load_port self m;
  let rob := if latches p =? 0 then Py_False else Py_True in
  m1 ← modify_port self (port_unlatch p_neutral) m;
  m2 ← modify_port self (Port_SetCause kc_shatter) m1;
  Some (Returned rob, m2).

(** A Port before and after all of its latches were released: no latch is
    left, and the descriptor is closed when a latch was held. *)
Definition port_released (y y' : Port) : Prop :=
  latches y' = 0 /\ point y' = (if latches y =? 0 then point y else -1).

(** ** Datagram arrays *)

Module Dga.

(** [struct DatagramArray].  Addresses are byte offsets; [indexes] holds
    the slots that [tp_alloc] reserved behind the object ([ngrams + 1] of
    them when the array is in order), [data_obj] is [data.obj]. *)
Record DatagramArray := mkDatagramArray {
  ngrams : Z;
  addrlen : Z;
  pf : Z;
  space : Z;
  data_obj : option positive;
  data_buf : Z;
  data_len : Z;
  indexes : list Z;
}.

(** [a->indexes[i]]; reading outside of the slots is a fault. *)
Definition index_at (l : list Z) (i : Z) : option Z :=
  if i <? 0 then None else l !! Z.to_nat i.

(** What [slicedga] returns: its argument, a new array, or [NULL] with
    an exception of the interpreter set. *)
Inductive slice_result :=
  | slice_self
  | slice_new (d : DatagramArray)
  | slice_error.

Definition slice_object (src : DatagramArray) (r : slice_result) : option DatagramArray :=
  match r with
  | slice_self => Some src
  | slice_new d => Some d
  | slice_error => None
  end.

(** [for (i = 0; start <= stop; ++i, ++start) dga->indexes[i] = src->indexes[start]];
    [acc] is what was stored so far, [i] its length. *)
Fixpoint slicedga_loop (fuel : nat) (src : list Z) (start stop : Z) (acc : list Z)
  : option (list Z) :=
  if start <=? stop then
    match fuel with
    | O => None
    | S n =>
        x ← index_at src start;
        slicedga_loop n src (start + 1) stop (acc ++ [x])
    end
  else Some acc.

(** [slicedga].  [alloc_ok] and [getbuf_ok] say whether [tp_alloc] and
    [PyObject_GetBuffer] succeed. *)
Definition slicedga (alloc_ok getbuf_ok : bool) (src : DatagramArray) (start stop : Z)
  : option slice_result :=
  let n := ngrams src in
  let '(start, stop) :=
    if start >? n then (n, n)
    else if stop >? n then (start, n)
    else if stop <? start then (start, start)
    else (start, stop) in
  if (n =? 0) || ((start =? 0) && (stop =? n)) then Some slice_self
  else if negb alloc_ok then Some slice_error
  else
    obj ← data_obj src;
    if negb getbuf_ok then Some slice_error
    else
      idx ← slicedga_loop (S (Z.to_nat (stop - start + 1))) (indexes src) start stop [];
      let i := Word.u32 (Z.of_nat (length idx)) in
      buf ← index_at (indexes src) stop;
      last ← index_at idx (Word.u32 (i - 1));
      first ← index_at idx 0;
      Some (slice_new (mkDatagramArray (Word.u32 (stop - start)) (addrlen src) (pf src)
                         (space src) (Some obj) buf (last - first) idx)).

(** [datagramarray_getbuffer]: [Some (buf, len)] is the view of a return
    of [0], [None] a failure of [PyObject_GetBuffer]. *)
Definition datagramarray_getbuffer (getbuf_ok : bool) (dga : DatagramArray)
  : option (option (Z * Z)) :=
  _ ← data_obj dga;
  if negb getbuf_ok then Some None
  else
    first ← index_at (indexes dga) 0;
    last ← index_at (indexes dga) (ngrams dga);
    Some (Some (first, last - first)).

(** The argument of a subscript: a slice with the indices that
    [PySlice_GetIndicesEx] gave, or an object with the value that
    [PyLong_AsSsize_t] gave for it; [item_slice_error] and
    [item_long_error] are the failures of [PySlice_GetIndicesEx] and of
    [PyNumber_Long]. *)
Inductive item :=
  | item_slice (start stop step : Z)
  | item_slice_error
  | item_long (i : Z)
  | item_long_error.

(** What a subscript returns.  [sub_endpoint dg], [sub_memory dg] and
    [sub_pair dg dg'] stand for the objects built from the datagram at the
    address [dg]: the endpoint, the view of the payload and the tuple of
    both. *)
Inductive subscript_result :=
  | sub_IndexError
  | sub_TypeError
  | sub_error
  | sub_slice (r : slice_result)
  | sub_endpoint (dg : Z)
  | sub_memory (dg : Z)
  | sub_pair (ep mv : Z).

Definition datagramarray_get_endpoint (alloc_ok : bool) (dga : DatagramArray) (offset : Z)
  : option subscript_result :=
  if offset >=? ngrams dga then Some sub_IndexError
  else
    dg ← index_at (indexes dga) offset;
    Some (if alloc_ok then sub_endpoint dg else sub_error).

Definition datagramarray_get_memory (alloc_ok getbuf_ok : bool) (dga : DatagramArray)
    (offset : Z) : option subscript_result :=
  if offset >=? ngrams dga then Some sub_IndexError
  else
    dg ← index_at (indexes dga) offset;
    _ ← data_obj dga;
    if negb getbuf_ok then Some sub_error
    else Some (if alloc_ok then sub_memory dg else sub_error).

(** [datagramarray_getitem]: the index is converted to [uint32_t] when it
    is passed on. *)
Definition datagramarray_getitem (alloc_ok getbuf_ok : bool) (dga : DatagramArray)
    (index : Z) : option subscript_result :=
  ep ← datagramarray_get_endpoint alloc_ok dga (Word.u32 index);
  match ep with
  | sub_endpoint e =>
      mv ← datagramarray_get_memory alloc_ok getbuf_ok dga (Word.u32 index);
      match mv with
      | sub_memory v => Some (if alloc_ok then sub_pair e v else sub_error)
      | r => Some r
      end
  | r => Some r
  end.

Definition datagramarray_subscript (alloc_ok getbuf_ok : bool) (dga : DatagramArray)
    (it : item) : option subscript_result :=
  match it with
  | item_slice start stop step =>
      if negb (step =? 1) then Some sub_TypeError
      else r ← slicedga alloc_ok getbuf_ok dga start stop; Some (sub_slice r)
  | item_slice_error => Some sub_error
  | item_long i =>
      let i := if i <? 0 then i + ngrams dga else i in
      if (i >? ngrams dga) || (i <? 0) then Some sub_IndexError
      else datagramarray_getitem alloc_ok getbuf_ok dga i
  | item_long_error => Some sub_error
  end.

(** An array in order: the count fits [uint32_t], there is one slot per
    datagram and one for the end, and the array holds a buffer. *)
Definition wf (d : DatagramArray) : Prop :=
  0 <= ngrams d < 2 ^ 32
  /\ Z.of_nat (length (indexes d)) = ngrams d + 1
  /\ data_obj d <> None.

End Dga.

(** ** Pairs on one port *)

(** [allocio], followed by the descriptor the allocator obtained for the
    port: an input and an output Channel that share it, with both latches
    set. *)
Definition allocio (i o p : addr) (unit fd : Z) (m : Machine) : Machine :=
  set_ports (<[p := mkPort fd kc_none 0 (Z.lor (Z.shiftl 1 4) 1)]> (ports m))
    (store o (INIT_OUTPUT_TRANSIT None p unit false)
       (store i (INIT_INPUT_TRANSIT None p unit false) m)).

(** ** Further concrete machines *)
Module Ex2.

(** A Junction and, beside it, a detached Channel after [terminate()]. *)
Definition terminated_beside : Machine :=
  default Ex.boot
    (Ex.after (transit_terminate Ex.rd (alloci Ex.rd 11%positive 1 5 Ex.fresh))).

(** The first cycle of [Ex.attached] up to the delta scan: the connect
    controls of both Channels are part of their state. *)
Definition connecting : Machine :=
  default Ex.boot (
    m ← junction_start_cycle Ex.J Ex.attached;
    m ← modify Ex.J Channel_ClearDelta m;
    junction_transfer_delta Ex.J m).

(** The same with an error recorded on the port of the reader, as a failed
    system call leaves it. *)
Definition failed_port : Machine :=
  default Ex.boot (modify_port 11%positive (Port_SetError 9 kc_other) connecting).

(** A datagram array of three datagrams of 24 bytes each. *)
Definition grams : Dga.DatagramArray :=
  Dga.mkDatagramArray 3 16 2 8 (Some 1%positive) 0 72 [0; 24; 48; 72].

End Ex2.

(** * Properties *)

(** ** Bits of a word *)

Lemma word_test_set_eq w b : 0 <= b -> Word.test (Word.set w b) b = true.
Proof.
  intros Hb. unfold Word.test, Word.set.
  rewrite Z.lor_spec, Z.shiftl_spec, Z.sub_diag by lia.
  simpl. apply orb_true_r.
Qed.

Lemma word_test_set_ne w b b' : 0 <= b -> 0 <= b' -> b <> b' ->
  Word.test (Word.set w b) b' = Word.test w b'.
Proof.
  intros Hb Hb' Hne. unfold Word.test, Word.set.
  rewrite Z.lor_spec, Z.shiftl_spec by lia.
  destruct (Z.ltb_spec b' b).
  - rewrite (Z.testbit_neg_r 1) by lia. apply orb_false_r.
  - replace (Z.testbit 1 (b' - b)) with false; [apply orb_false_r|].
    symmetry. replace 1 with (2 ^ 0) by reflexivity.
    apply Z.pow2_bits_false. lia.
Qed.

Lemma word_test_nul_eq w b : 0 <= b < 8 -> Word.test (Word.nul w b) b = false.
Proof.
  intros Hb. unfold Word.test, Word.nul.
  rewrite Z.land_spec, Z.lxor_spec, Z.shiftl_spec, Z.sub_diag by lia.
  assert (Z.testbit 255 b = true) as ->.
  { assert (b = 0 \/ b = 1 \/ b = 2 \/ b = 3 \/ b = 4 \/ b = 5 \/ b = 6 \/ b = 7)
      as Hc by lia.
    destruct Hc as [->|[->|[->|[->|[->|[->|[->| ->]]]]]]]; reflexivity. }
  simpl. apply andb_false_r.
Qed.

Lemma word_test_nul_ne w b b' : 0 <= b -> 0 <= b' < 8 -> b <> b' ->
  Word.test (Word.nul w b) b' = Word.test w b'.
Proof.
  intros Hb Hb' Hne. unfold Word.test, Word.nul.
  rewrite Z.land_spec, Z.lxor_spec, Z.shiftl_spec by lia.
  assert (Z.testbit 255 b' = true) as ->.
  { assert (b' = 0 \/ b' = 1 \/ b' = 2 \/ b' = 3 \/ b' = 4 \/ b' = 5 \/ b' = 6 \/ b' = 7)
      as Hc by lia.
    destruct Hc as [->|[->|[->|[->|[->|[->|[->| ->]]]]]]]; reflexivity. }
  assert (Z.testbit 1 (b' - b) = false) as ->.
  { destruct (Z.ltb_spec b' b).
    - apply Z.testbit_neg_r. lia.
    - replace 1 with (2 ^ 0) by reflexivity. apply Z.pow2_bits_false. lia. }
  simpl. apply andb_true_r.
Qed.

(** ** Reading and writing *)

Lemma load_store_eq t c m : load t (store t c m) = Some c.
Proof. unfold load, store. simpl. apply lookup_insert_eq. Qed.

Lemma load_store_ne t t' c m : t <> t' -> load t' (store t c m) = load t' m.
Proof. intros. unfold load, store. simpl. by apply lookup_insert_ne. Qed.

Lemma modify_Some t f m c : load t m = Some c -> modify t f m = Some (store t (f c) m).
Proof. intros H. unfold modify. by rewrite H. Qed.

(** ** Chains of pointers *)

Lemma ptr_at_store_eq f t c m : ptr_at f (store t c m) t = f c.
Proof. unfold ptr_at. rewrite load_store_eq. reflexivity. Qed.

Lemma ptr_at_store_ne f t c m a : a <> t -> ptr_at f (store t c m) a = ptr_at f m a.
Proof. intros. unfold ptr_at. rewrite load_store_ne by done. reflexivity. Qed.

Lemma ptr_at_Some f m a b :
  ptr_at f m a = Some b <-> exists c, load a m = Some c /\ f c = Some b.
Proof.
  unfold ptr_at. destruct (load a m) as [c|]; simpl; split.
  - eauto.
  - intros (c' & [= <-] & H). done.
  - discriminate.
  - intros (c' & [=] & _).
Qed.

Lemma chain_cons f m a b l :
  chain f m (a :: b :: l) <-> ptr_at f m a = Some b /\ chain f m (b :: l).
Proof. reflexivity. Qed.

Lemma chain_single f m a : chain f m [a] <-> True.
Proof. reflexivity. Qed.

Lemma chain_app f m l1 x l2 :
  chain f m (l1 ++ x :: l2) <-> chain f m (l1 ++ [x]) /\ chain f m (x :: l2).
Proof.
  induction l1 as [|a l1 IH].
  - change ([] ++ [x]) with [x]. rewrite chain_single. simpl app. tauto.
  - destruct l1 as [|b l1].
    + change ([a] ++ x :: l2) with (a :: x :: l2).
      change ([a] ++ [x]) with (a :: x :: []).
      rewrite !chain_cons, chain_single. tauto.
    + change ((a :: b :: l1) ++ x :: l2) with (a :: b :: (l1 ++ x :: l2)).
      change ((a :: b :: l1) ++ [x]) with (a :: b :: (l1 ++ [x])).
      rewrite !chain_cons.
      change (b :: l1 ++ x :: l2) with ((b :: l1) ++ x :: l2).
      change (b :: l1 ++ [x]) with ((b :: l1) ++ [x]).
      tauto.
Qed.

Lemma chain_frame f m m' l z :
  (forall a, a ∈ l -> ptr_at f m' a = ptr_at f m a) ->
  chain f m (l ++ [z]) -> chain f m' (l ++ [z]).
Proof.
  induction l as [|a l IH]; intros Hfr Hc; [done|].
  assert (ptr_at f m' a = ptr_at f m a) as Ha by (apply Hfr; left).
  assert (forall x, x ∈ l -> ptr_at f m' x = ptr_at f m x) as Hl
    by (intros x Hx; apply Hfr; by right).
  destruct l as [|b l].
  - change ([a] ++ [z]) with (a :: z :: []) in *.
    rewrite chain_cons in *. by rewrite Ha.
  - change ((a :: b :: l) ++ [z]) with (a :: b :: (l ++ [z])) in *.
    rewrite chain_cons in *. destruct Hc as [Hab Hc]. split.
    + by rewrite Ha.
    + by apply IH.
Qed.

Lemma chain_source f m l z a :
  chain f m (l ++ [z]) -> a ∈ l -> exists b, ptr_at f m a = Some b.
Proof.
  induction l as [|x l IH]; intros Hc Ha; [by apply elem_of_nil in Ha|].
  assert (exists y, ptr_at f m x = Some y /\ chain f m (l ++ [z])) as (y & Hy & Hc').
  { destruct l as [|b l].
    - change ([x] ++ [z]) with (x :: z :: []) in Hc.
      apply chain_cons in Hc as [? ?]. eauto.
    - change ((x :: b :: l) ++ [z]) with (x :: b :: (l ++ [z])) in Hc.
      apply chain_cons in Hc as [? ?]. eauto. }
  apply elem_of_cons in Ha as [->|Ha]; eauto.
Qed.

Lemma tlist_head m J l :
  tlist m J l -> exists cJ, load J m = Some cJ /\ lltransfer cJ = Some (default J (head l)).
Proof.
  intros [Hc _]. apply ptr_at_Some.
  destruct l as [|x l].
  - change (J :: [] ++ [J]) with (J :: J :: []) in Hc.
    by apply chain_cons in Hc as [? _].
  - change (J :: (x :: l) ++ [J]) with (J :: x :: (l ++ [J])) in Hc.
    by apply chain_cons in Hc as [? _].
Qed.

Lemma AddTransfer_linked J t m c n :
  load t m = Some c -> lltransfer c = Some n -> Junction_AddTransfer J t m = Some m.
Proof. intros Hl Hn. unfold Junction_AddTransfer. rewrite Hl. simpl. by rewrite Hn. Qed.

Lemma AddTransfer_fresh J t m l c :
  tlist m J l -> load t m = Some c -> lltransfer c = None ->
  exists cJ, load J m = Some cJ /\ t <> J /\ (t ∉ l)
    /\ Junction_AddTransfer J t m
       = Some (store J (set_lltransfer (Some t) cJ)
                 (store t (set_lltransfer (lltransfer cJ) c) m))
    /\ tlist (store J (set_lltransfer (Some t) cJ)
                 (store t (set_lltransfer (lltransfer cJ) c) m)) J (t :: l).
Proof.
  intros Htl Hl Hn.
  destruct (tlist_head _ _ _ Htl) as (cJ & HJ & Hh).
  destruct Htl as [Hc Hnd].
  assert (t <> J) as HtJ by (intros ->; congruence).
  assert (t ∉ l) as Htl.
  { intros Hin.
    destruct (chain_source lltransfer m (J :: l) J t Hc) as [b Hb]; [set_solver|].
    apply ptr_at_Some in Hb as (c' & Hc' & Hb). congruence. }
  exists cJ. split; [done|]. split; [done|]. split; [done|]. split.
  - unfold Junction_AddTransfer, Channel_SetNextTransfer. rewrite Hl. simpl. rewrite Hn, HJ. simpl.
    rewrite (modify_Some _ _ _ _ Hl). simpl.
    erewrite modify_Some; [done|]. rewrite load_store_ne by done. done.
  - split.
    + change (J :: (t :: l) ++ [J]) with (J :: t :: l ++ [J]).
      rewrite chain_cons. split.
      * rewrite ptr_at_store_eq. done.
      * destruct l as [|x l].
        -- change (t :: [] ++ [J]) with (t :: J :: []).
           apply chain_cons. split; [|done].
           rewrite ptr_at_store_ne, ptr_at_store_eq by done.
           rewrite Hh. done.
        -- change (t :: (x :: l) ++ [J]) with (t :: x :: l ++ [J]).
           rewrite chain_cons. split.
           ++ rewrite ptr_at_store_ne, ptr_at_store_eq by done. rewrite Hh. done.
           ++ change (J :: (x :: l) ++ [J]) with (J :: x :: l ++ [J]) in Hc.
              rewrite chain_cons in Hc. destruct Hc as [_ Hc].
              change (x :: l ++ [J]) with ((x :: l) ++ [J]) in *.
              eapply chain_frame; [|exact Hc].
              intros a Ha. apply NoDup_cons in Hnd as [HJl _].
              rewrite !ptr_at_store_ne; [done| |]; set_solver.
    + apply NoDup_cons. split.
      * apply not_elem_of_cons. split; [done|]. by apply NoDup_cons in Hnd as [? _].
      * apply NoDup_cons. split; [done|]. by apply NoDup_cons in Hnd as [_ ?].
Qed.

Lemma ptr_at_store_same f t c c' m a :
  load t m = Some c -> f c' = f c -> ptr_at f (store t c' m) a = ptr_at f m a.
Proof.
  intros Hl Hf. destruct (decide (a = t)) as [->|Hne].
  - rewrite ptr_at_store_eq. unfold ptr_at. rewrite Hl. done.
  - by apply ptr_at_store_ne.
Qed.

(** C9: enqueueing a Channel on the transfer list of a Junction that is in
    a cycle keeps the list free of repetition and ending at the Junction:
    the list is unchanged, or the Channel, which was not on it, is its new
    head; enqueueing the same Channel again changes nothing. *)
Theorem Junction_AddTransfer_once (J t : addr) (m : Machine) (l : list addr) :
  tlist m J l ->
  is_Some (load t m) ->
  exists m' l',
    Junction_AddTransfer J t m = Some m'
    /\ tlist m' J l'
    /\ (l' = l \/ (l' = t :: l /\ t ∉ l))
    /\ Junction_AddTransfer J t m' = Some m'.
Proof.
  intros Htl [c Hc]. destruct (lltransfer c) as [n|] eqn:Hn.
  - exists m, l. rewrite (AddTransfer_linked _ _ _ _ _ Hc Hn). auto.
  - destruct (AddTransfer_fresh _ _ _ _ _ Htl Hc Hn) as (cJ & HJ & HtJ & Htl' & Hrun & Htl2).
    destruct (tlist_head _ _ _ Htl) as (cJ' & HJ' & Hh).
    rewrite HJ in HJ'. injection HJ' as <-.
    eexists _, (t :: l). split; [exact Hrun|]. split; [exact Htl2|].
    split; [auto|].
    eapply AddTransfer_linked.
    + rewrite load_store_ne, load_store_eq by done. reflexivity.
    + simpl. exact Hh.
Qed.

Lemma Junction_AddTransfer_once_witness :
  exists m' l',
    Junction_AddTransfer Ex.J Ex.rd Ex.in_cycle = Some m'
    /\ tlist m' Ex.J l'
    /\ (l' = [Ex.rd; Ex.wr] \/ (l' = Ex.rd :: [Ex.rd; Ex.wr] /\ Ex.rd ∉ [Ex.rd; Ex.wr]))
    /\ Junction_AddTransfer Ex.J Ex.rd m' = Some m'.
Proof.
  apply Junction_AddTransfer_once.
  - split.
    + change (Ex.J :: [Ex.rd; Ex.wr] ++ [Ex.J]) with [Ex.J; Ex.rd; Ex.wr; Ex.J].
      apply chain_cons. split; [vm_compute; reflexivity|].
      apply chain_cons. split; [vm_compute; reflexivity|].
      apply chain_cons. split; [vm_compute; reflexivity|]. exact I.
    + apply (bool_decide_unpack _). vm_compute. exact I.
  - vm_compute. eexists. reflexivity.
Defined.

Lemma set_lltransfer_id c : set_lltransfer (lltransfer c) c = c.
Proof. by destruct c. Qed.

Lemma transfer_delta_loop_spec J d vis : forall m cJ h fuel,
  (length vis < fuel)%nat ->
  load J m = Some cJ -> lltransfer cJ = Some h ->
  chain prev m (vis ++ [d]) ->
  NoDup vis -> J ∉ vis ->
  (forall x, x ∈ vis -> exists c, load x m = Some c /\ delta c <> 0 /\ lltransfer c = None) ->
  (exists cd, load d m = Some cd /\ delta cd = 0) ->
  exists m',
    junction_transfer_delta_loop fuel J (default d (head vis)) m = Some m'
    /\ ports m' = ports m /\ kern m' = kern m
    /\ (forall a, a ∉ vis -> a <> J -> load a m' = load a m)
    /\ load J m' = Some (set_lltransfer (Some (default h (last vis))) cJ)
    /\ (forall x, x ∈ vis -> exists c nx, load x m = Some c
          /\ load x m' = Some (delta_flushed c (Some nx)))
    /\ chain lltransfer m' (J :: rev vis ++ [h]).
Proof.
  induction vis as [|x vis IH]; intros m cJ h fuel Hfuel HJ Hh Hprev Hnd HJv Hvis Hd.
  - destruct fuel as [|fuel]; [simpl in Hfuel; lia|].
    destruct Hd as (cd & Hcd & Hz). exists m. simpl.
    rewrite Hcd. simpl. rewrite Hz. simpl.
    repeat split; try done.
    + rewrite HJ. f_equal. simpl. rewrite <- Hh. symmetry. apply set_lltransfer_id.
    + set_solver.
    + apply ptr_at_Some. eauto.
  - destruct fuel as [|fuel]; [simpl in Hfuel; lia|].
    destruct (Hvis x) as (c & Hc & Hdelta & Hll); [set_solver|].
    apply NoDup_cons in Hnd as [Hxv Hnd].
    assert (x <> J) as HxJ by set_solver.
    assert (J ∉ vis) as HJv' by set_solver.
    (* the pointer to follow *)
    assert (exists p, prev c = Some p /\ p = default d (head vis)
                      /\ chain prev m (vis ++ [d])) as (p & Hp & Hpd & Hprev').
    { destruct vis as [|y vis].
      - change ([x] ++ [d]) with (x :: d :: []) in Hprev.
        apply chain_cons in Hprev as [Hx Hr].
        apply ptr_at_Some in Hx as (c' & Hc' & Hx).
        rewrite Hc in Hc'. injection Hc' as <-. eauto.
      - change ((x :: y :: vis) ++ [d]) with (x :: y :: (vis ++ [d])) in Hprev.
        apply chain_cons in Hprev as [Hx Hr].
        apply ptr_at_Some in Hx as (c' & Hc' & Hx).
        rewrite Hc in Hc'. injection Hc' as <-. eauto. }
    set (c1 := Channel_StateMerge (delta c) c).
    set (c2 := Channel_ClearDelta c1).
    set (m1 := store x c1 m).
    set (m2 := store x c2 m1).
    set (c3 := set_lltransfer (lltransfer cJ) c2).
    set (m3 := store J (set_lltransfer (Some x) cJ) (store x c3 m2)).
    assert (load x m3 = Some (delta_flushed c (Some h))) as Hx3.
    { unfold m3. rewrite load_store_ne, load_store_eq by done. unfold c3. rewrite Hh. done. }
    assert (load J m3 = Some (set_lltransfer (Some x) cJ)) as HJ3.
    { unfold m3. by rewrite load_store_eq. }
    assert (forall a, a <> x -> a <> J -> load a m3 = load a m) as Hfr3.
    { intros a Hax HaJ. unfold m3, m2, m1. by rewrite !load_store_ne. }
    assert (forall a, ptr_at prev m3 a = ptr_at prev m a) as Hprev3.
    { intros a. unfold ptr_at. destruct (decide (a = x)) as [->|Hax].
      - rewrite Hx3, Hc. done.
      - destruct (decide (a = J)) as [->|HaJ].
        + rewrite HJ3, HJ. done.
        + by rewrite Hfr3. }
    destruct (IH m3 (set_lltransfer (Some x) cJ) x fuel) as
      (m' & Hloop & Hports & Hkern & Hfr & HJ' & Hvis' & Hchain); try done.
    { simpl in Hfuel. lia. }
    { eapply chain_frame; [|exact Hprev']. intros; apply Hprev3. }
    { intros y Hy. destruct (Hvis y) as (cy & Hcy & ? & ?); [set_solver|].
      exists cy. rewrite Hfr3; [done| |]; set_solver. }
    { destruct Hd as (cd & Hcd & Hz).
      destruct (decide (d = J)) as [->|HdJ].
      - rewrite HJ3. eexists. split; [done|]. simpl. congruence.
      - destruct (decide (d = x)) as [->|Hdx]; [congruence|].
        exists cd. by rewrite Hfr3. }
    exists m'. split; [|split; [|split; [|split; [|split; [|split]]]]].
    + simpl. rewrite Hc. simpl.
      destruct (Z.eqb_spec (delta c) 0) as [?|_]; [contradiction|].
      rewrite (modify_Some _ _ _ _ Hc). simpl. fold c1 m1.
      rewrite (modify_Some x _ m1 c1) by apply load_store_eq. simpl. fold c2 m2.
      unfold Junction_AddTransfer, Channel_SetNextTransfer.
      assert (load x m2 = Some c2) as Hx2 by apply load_store_eq.
      assert (load J m2 = Some cJ) as HJ2.
      { unfold m2, m1. by rewrite !load_store_ne. }
      rewrite Hx2. simpl. rewrite Hll, HJ2. simpl.
      rewrite (modify_Some _ _ _ _ Hx2). simpl. fold c3.
      erewrite (modify_Some J); [|rewrite load_store_ne by done; exact HJ2].
      simpl. fold m3. rewrite Hx3. simpl. rewrite Hp. simpl.
      rewrite Hpd. exact Hloop.
    + done.
    + done.
    + intros a Ha HaJ. rewrite Hfr by set_solver. apply Hfr3; set_solver.
    + rewrite HJ'. f_equal.
      replace (default x (last vis)) with (default h (last (x :: vis))).
      * done.
      * destruct vis; [done|]. rewrite last_cons_cons. 
        destruct (last (a :: vis)) eqn:E; [done|]. by apply last_None in E.
    + intros y Hy. apply elem_of_cons in Hy as [->|Hy].
      * exists c, h. split; [done|]. rewrite Hfr by done. done.
      * destruct (Hvis' y Hy) as (cy & nx & Hcy & Hy').
        exists cy, nx. split; [|done]. rewrite <- Hcy. symmetry. apply Hfr3; set_solver.
    + replace (J :: rev (x :: vis) ++ [h]) with ((J :: rev vis) ++ x :: [h])
        by (simpl; by rewrite <- app_assoc).
      apply chain_app. split; [done|]. split; [|done].
      apply ptr_at_Some. eexists. split.
      * rewrite Hfr by set_solver. exact Hx3.
      * done.
Qed.

Lemma length_le_size (l : list addr) (m : Machine) :
  NoDup l -> (forall x, x ∈ l -> is_Some (load x m)) ->
  (length l <= size (chans m))%nat.
Proof.
  intros Hnd Hin.
  rewrite <- (size_list_to_set (C := gset addr) l Hnd).
  rewrite <- (size_dom (chans m)).
  apply subseteq_size. intros x Hx.
  apply elem_of_list_to_set in Hx. apply elem_of_dom. by apply Hin.
Qed.

(** ** The delta scan *)

(** C1: the delta scan walks the ring backward from the Junction's [prev]
    pointer.  When the Channels met are those of [vis], all with a
    non-zero delta (and, as at the start of a cycle, not yet on a transfer
    list), followed by [d] whose delta is zero, then every Channel of [vis]
    has its delta merged into its state and cleared, and is linked into the
    transfer list, which now runs through [vis] (last visited first) to the
    old head [h]; the walk stops at [d]: every object outside [vis] other
    than the Junction is left as it was, and the Junction only has its
    list head changed. *)
Theorem junction_transfer_delta_flush (J d h : addr) (vis : list addr) (m : Machine)
    (cJ : Channel) :
  load J m = Some cJ ->
  lltransfer cJ = Some h ->
  chain prev m (J :: vis ++ [d]) ->
  NoDup vis -> J ∉ vis ->
  (forall x, x ∈ vis ->
     exists c, load x m = Some c /\ delta c <> 0 /\ lltransfer c = None) ->
  (exists cd, load d m = Some cd /\ delta cd = 0) ->
  exists m',
    junction_transfer_delta J m = Some m'
    /\ (forall x, x ∈ vis -> exists c nx,
          load x m = Some c /\ load x m' = Some (delta_flushed c (Some nx)))
    /\ chain lltransfer m' (J :: rev vis ++ [h])
    /\ load J m' = Some (set_lltransfer (Some (default h (last vis))) cJ)
    /\ (forall a, a ∉ vis -> a <> J -> load a m' = load a m)
    /\ ports m' = ports m /\ kern m' = kern m.
Proof.
  intros HJ Hh Hprev Hnd HJv Hvis Hd.
  assert (prev cJ = Some (default d (head vis)) /\ chain prev m (vis ++ [d]))
    as [Hp Hprev'].
  { destruct vis as [|y vis].
    - change (J :: [] ++ [d]) with (J :: d :: []) in Hprev.
      apply chain_cons in Hprev as [Hx Hr].
      apply ptr_at_Some in Hx as (c' & Hc' & Hx). rewrite HJ in Hc'.
      injection Hc' as <-. done.
    - change (J :: (y :: vis) ++ [d]) with (J :: y :: (vis ++ [d])) in Hprev.
      apply chain_cons in Hprev as [Hx Hr].
      apply ptr_at_Some in Hx as (c' & Hc' & Hx). rewrite HJ in Hc'.
      injection Hc' as <-. done. }
  destruct (transfer_delta_loop_spec J d vis m cJ h (fuel_of m))
    as (m' & Hloop & Hports & Hkern & Hfr & HJ' & Hvis' & Hchain); try done.
  { unfold fuel_of. apply Nat.lt_succ_r. apply length_le_size; [done|].
    intros x Hx. destruct (Hvis x Hx) as (c & -> & _). eauto. }
  exists m'. split.
  { unfold junction_transfer_delta. rewrite HJ. simpl. rewrite Hp. simpl. exact Hloop. }
  repeat split; try done.
Qed.

Lemma junction_transfer_delta_flush_witness :
  exists m',
    junction_transfer_delta Ex.J Ex.three_started = Some m'
    /\ load Ex.aux m'
       = (fun c => delta_flushed c (Some Ex.J)) <$> load Ex.aux Ex.three_started
    /\ load Ex.wr m' = load Ex.wr Ex.three_started
    /\ load Ex.rd m' = load Ex.rd Ex.three_started
    /\ (fun c => delta c) <$> load Ex.rd m' = Some 2.
Proof.
  destruct (junction_transfer_delta_flush Ex.J Ex.wr Ex.J [Ex.aux] Ex.three_started
              (default (INIT_TRANSIT None 1%positive 0 false) (load Ex.J Ex.three_started)))
    as (m' & Hrun & Hvis & Hchain & HJ & Hfr & _).
  - vm_compute. reflexivity.
  - vm_compute. reflexivity.
  - change (Ex.J :: [Ex.aux] ++ [Ex.wr]) with [Ex.J; Ex.aux; Ex.wr].
    apply chain_cons. split; [vm_compute; reflexivity|].
    apply chain_cons. split; [vm_compute; reflexivity|]. exact I.
  - apply NoDup_singleton.
  - apply not_elem_of_cons. split; [discriminate|apply not_elem_of_nil].
  - intros x Hx. apply list_elem_of_singleton in Hx as ->.
    eexists. split; [vm_compute; reflexivity|]. split; [|reflexivity].
    vm_compute. discriminate.
  - eexists. split; [vm_compute; reflexivity|]. reflexivity.
  - exists m'. split; [exact Hrun|].
    assert (Ex.aux ∈ [Ex.aux]) as Hin by apply list_elem_of_singleton, eq_refl.
    destruct (Hvis _ Hin) as (c & nx & Hc & Hc').
    assert (nx = Ex.J) as ->.
    { change (Ex.J :: rev [Ex.aux] ++ [Ex.J]) with [Ex.J; Ex.aux; Ex.J] in Hchain.
      apply chain_cons in Hchain as [_ Hchain].
      apply chain_cons in Hchain as [Haux _].
      unfold ptr_at in Haux. rewrite Hc' in Haux. simpl in Haux. congruence. }
    split; [rewrite Hc', Hc; reflexivity|].
    assert (load Ex.wr m' = load Ex.wr Ex.three_started) as Hwr.
    { apply Hfr; [|discriminate].
      apply not_elem_of_cons. split; [discriminate|apply not_elem_of_nil]. }
    assert (load Ex.rd m' = load Ex.rd Ex.three_started) as Hrd.
    { apply Hfr; [|discriminate].
      apply not_elem_of_cons. split; [discriminate|apply not_elem_of_nil]. }
    split; [exact Hwr|]. split; [exact Hrd|].
    rewrite Hrd. vm_compute. reflexivity.
Defined.

(** ** Channel.acquire *)

(** C4: on a Channel that is not terminating and whose internal transfer
    qualification is still set, [acquire(resource)] raises the resource
    error ([TransitionViolation], "resource already present") and returns
    the machine as it was: resource, window, state, delta and ring are
    untouched. *)
Theorem transit_acquire_unexhausted (self : addr) (res : PyObject) (m : Machine)
    (t : Channel) :
  load self m = Some t ->
  Channel_Terminating t = false ->
  Channel_IQualified t teq_transfer = true ->
  transit_acquire self res m = Some (Raised ChannelResourceError, m).
Proof.
  intros Hl Hterm Hi. unfold transit_acquire, transit_can_acquire.
  rewrite Hl. simpl. rewrite Hterm, Hi. reflexivity.
Qed.

Lemma transit_acquire_unexhausted_witness :
  transit_acquire Ex.rd (Ex.bytes 8) Ex.detached_loaded
  = Some (Raised ChannelResourceError, Ex.detached_loaded).
Proof.
  eapply transit_acquire_unexhausted; vm_compute; reflexivity.
Defined.

(** C5: on a terminating Channel [acquire(resource)] returns [None]
    without an exception and without touching the machine: nothing is
    borrowed, window, state and delta stay as they were. *)
Theorem transit_acquire_terminating (self : addr) (res : PyObject) (m : Machine)
    (t : Channel) :
  load self m = Some t ->
  Channel_Terminating t = true ->
  transit_acquire self res m = Some (Returned Py_None, m).
Proof.
  intros Hl Hterm. unfold transit_acquire. rewrite Hl. simpl.
  rewrite Hterm. reflexivity.
Qed.

Lemma transit_acquire_terminating_witness :
  transit_acquire Ex.rd (Ex.bytes 8) Ex.detached_terminated
  = Some (Returned Py_None, Ex.detached_terminated).
Proof.
  eapply transit_acquire_terminating; vm_compute; reflexivity.
Defined.

(** ** Channel.transfer *)




(** ** Junction.force *)

(** A fresh Junction is neither terminating nor waiting, and [force()]
    answers [True]. *)
Lemma junction_force_not_waiting :
  exists cJ, load Ex.J Ex.fresh = Some cJ
    /\ Channel_Terminating cJ = false
    /\ will_wait (choice cJ) = 0
    /\ fst <$> junction_force Ex.J Ex.fresh = Some (Returned Py_True).
Proof. eexists. split; [|split; [|split]]; vm_compute; reflexivity. Qed.

(** C7 (amended): on a Junction that is not terminating, [force()] issues
    the wake-up trigger and returns [True] whether or not the Junction is
    waiting (and whether or not the kernel accepted the trigger). *)
Theorem junction_force_returns_true (self : addr) (m : Machine) (cJ : Channel) :
  load self m = Some cJ ->
  Channel_Terminating cJ = false ->
  is_Some (channel_port self m) ->
  junction_force self m
  = Some (Returned Py_True, set_kern (k_record sys_trigger (kern m)) m).
Proof.
  intros Hl Hterm [pp Hp]. unfold junction_force, junction_fall.
  rewrite Hl. simpl. rewrite Hterm, ?Hl. simpl. rewrite Hp. simpl.
  destruct (k_trigger_fails (kern m)); reflexivity.
Qed.

Lemma junction_force_returns_true_witness :
  junction_force Ex.J Ex.fresh
  = Some (Returned Py_True, set_kern (k_record sys_trigger (kern Ex.fresh)) Ex.fresh).
Proof.
  eapply junction_force_returns_true.
  - vm_compute. reflexivity.
  - vm_compute. reflexivity.
  - vm_compute. eexists. reflexivity.
Defined.

(** ** Junction.acquire *)

(** The reader is attached to the Junction and not terminated, but the
    Junction is terminating: acquiring the reader again raises. *)
Lemma junction_acquire_again_terminating :
  exists t, load Ex.rd Ex.terminating = Some t
    /\ junction t = Some Ex.J
    /\ Channel_Terminated t = false
    /\ junction_acquire Ex.J Ex.rd Ex.terminating
       = Some (Raised ChannelTerminatedError, Ex.terminating).
Proof. eexists. split; [|split; [|split]]; vm_compute; reflexivity. Qed.

(** C10 (amended): for a Channel already attached to the Junction,
    [Junction.acquire(channel)] on a Junction that is not terminating
    returns the Channel and leaves the machine as it was (no insertion
    into the ring, no connect flag, no change of the channel count).  An
    error is raised only when the Junction is terminating, when the
    Channel is attached to a different Junction, or when it was terminated
    while detached; an error leaves the machine as it was. *)
Theorem junction_acquire_attached (self ob : addr) (m : Machine) (cJ t : Channel) :
  load self m = Some cJ ->
  load ob m = Some t ->
  (junction t = Some self -> Channel_Terminating cJ = false ->
     junction_acquire self ob m = Some (Returned (Py_Ref ob), m))
  /\ (forall e m', junction_acquire self ob m = Some (Raised e, m') ->
        m' = m
        /\ (Channel_Terminating cJ = true
            \/ (exists J', junction t = Some J' /\ J' <> self)
            \/ (junction t = None /\ Channel_Terminated t = true))).
Proof.
  intros HJ Ht. unfold junction_acquire, Channel_Attached.
  rewrite HJ. simpl. rewrite Ht. simpl. split.
  - intros Hj Hterm. rewrite Hterm, Hj.
    rewrite bool_decide_eq_true_2 by done. simpl.
    rewrite bool_decide_eq_false_2 by (intros H; by apply H). reflexivity.
  - intros e m'. destruct (Channel_Terminating cJ) eqn:Hterm.
    { intros [= <- <-]. auto. }
    destruct (junction t) as [J'|] eqn:Hj.
    + rewrite bool_decide_eq_true_2 by done. simpl.
      case_bool_decide as Hne; [|discriminate].
      intros [= <- <-]. split; [reflexivity|]. right. left.
      exists J'. split; [reflexivity|congruence].
    + rewrite bool_decide_eq_false_2 by (intros H; by apply H). simpl.
      destruct (Channel_Terminated t) eqn:Htd.
      * intros [= <- <-]. auto.
      * intros H. exfalso.
        repeat match type of H with
               | context [mbind _ ?o] => destruct o; simpl in H; [|discriminate]
               end.
        discriminate.
Qed.

Lemma junction_acquire_attached_witness :
  junction_acquire Ex.J Ex.rd Ex.attached = Some (Returned (Py_Ref Ex.rd), Ex.attached).
Proof.
  eapply junction_acquire_attached; vm_compute; reflexivity.
Defined.

(** ** Entering a cycle *)

(** The Junction carries out its termination in a cycle; entering again
    inside that cycle raises the terminated error, not [RuntimeError]. *)
Lemma junction_enter_nested_terminated :
  exists cJ, load Ex.J Ex.in_final_cycle = Some cJ
    /\ Channel_InCycle cJ = true
    /\ junction_enter Ex.J Ex.in_final_cycle
       = Some (Raised ChannelTerminatedError, Ex.in_final_cycle).
Proof. eexists. split; [|split]; vm_compute; reflexivity. Qed.

(** C6 (amended): entering a cycle on a Junction that is inside a cycle
    raises an exception and leaves the machine as it was; the exception is
    [RuntimeError], except on a terminating Junction whose port is no
    longer latched, where it is the terminated error. *)
Theorem junction_enter_in_cycle (self : addr) (m : Machine) (cJ : Channel)
    (latched : bool) :
  load self m = Some cJ ->
  Channel_InCycle cJ = true ->
  Channel_PortLatched self m = Some latched ->
  junction_enter self m
  = Some (Raised (if Channel_Terminating cJ && negb latched
                  then ChannelTerminatedError
                  else RuntimeError "cycle must be completed before starting another"),
          m).
Proof.
  intros Hl Hc Hp. unfold junction_enter. rewrite Hl. simpl.
  destruct (Channel_Terminating cJ); simpl.
  - rewrite Hp. simpl. destruct latched; simpl; [|reflexivity].
    rewrite Hc. reflexivity.
  - rewrite Hc. reflexivity.
Qed.

Lemma junction_enter_in_cycle_witness :
  junction_enter Ex.J Ex.in_cycle
  = Some (Raised (RuntimeError "cycle must be completed before starting another"),
          Ex.in_cycle).
Proof.
  etransitivity.
  - eapply junction_enter_in_cycle; vm_compute; reflexivity.
  - vm_compute. reflexivity.
Defined.

(** ** The kevent array *)

Lemma channel_port_Some t m pa p :
  channel_port t m = Some (pa, p)
  <-> exists c, load t m = Some c /\ port c = Some pa /\ load_port pa m = Some p.
Proof.
  unfold channel_port. split.
  - destruct (load t m) as [c|]; [|discriminate]. simpl.
    destruct (port c) as [pa'|] eqn:Hpc; [|discriminate]. simpl.
    destruct (load_port pa' m) as [p'|] eqn:Hlp; [|discriminate]. simpl.
    intros [= <- <-]. eauto.
  - intros (c & -> & Hp & Hl). simpl. rewrite Hp. simpl. rewrite Hl. done.
Qed.

Lemma channel_port_frame t m m' :
  (port <$> load t m') = (port <$> load t m) -> ports m' = ports m ->
  is_Some (channel_port t m) -> is_Some (channel_port t m').
Proof.
  intros Hl Hp [[pa p] H]. apply channel_port_Some in H as (c & Hc & Hpc & Hlp).
  rewrite Hc in Hl. destruct (load t m') as [c'|] eqn:Hc'; [|discriminate].
  injection Hl as Hl. exists (pa, p). apply channel_port_Some.
  exists c'. split; [done|]. split; [congruence|].
  unfold load_port in *. by rewrite Hp.
Qed.

Lemma junction_kevent_change_spec J m cJ :
  load J m = Some cJ -> is_Some (channel_port J m) ->
  exists m', junction_kevent_change J m = Some m'
    /\ chans m' = <[J := set_window_start 0 cJ]> (chans m)
    /\ ports m' = ports m
    /\ k_pending (kern m') = k_pending (kern m)
    /\ k_io (kern m') = k_io (kern m)
    /\ submitted (k_log (kern m')) = submitted (k_log (kern m)) ++ queued cJ.
Proof.
  intros HJ Hp. unfold junction_kevent_change. rewrite HJ. simpl.
  rewrite (modify_Some _ _ _ _ HJ). simpl.
  destruct (Z.eqb_spec (Junction_NChanges cJ) 0) as [Hz|Hnz].
  - eexists. split; [done|]. repeat split; try done.
    unfold queued. unfold Junction_NChanges in Hz. rewrite Hz. simpl.
    by rewrite app_nil_r.
  - assert (is_Some (channel_port J (store J (Junction_ResetWindow cJ) m))) as [pp Hpp].
    { eapply channel_port_frame; [| |exact Hp]; [|done].
      rewrite load_store_eq, HJ. done. }
    rewrite Hpp. simpl. eexists. split; [done|]. repeat split; done.
Qed.

Lemma take_push {A} (l : list A) (n : nat) (x : A) :
  (n < length l)%nat -> take (S n) (<[n := x]> l) = take n l ++ [x].
Proof.
  intros Hn. rewrite (take_S_r _ _ x) by (by apply list_lookup_insert_eq).
  by rewrite take_insert_ge.
Qed.

Lemma u32_small z : 0 <= z < 2 ^ 32 -> Word.u32 z = z.
Proof. intros. unfold Word.u32. by apply Z.mod_small. Qed.

Lemma store_store t c c' m : store t c' (store t c m) = store t c' m.
Proof. unfold store, set_chans. simpl. f_equal. apply insert_insert_eq. Qed.

Lemma junction_current_kevent_slot_spec J m cJ :
  load J m = Some cJ -> kevents_ok cJ -> is_Some (channel_port J m) ->
  exists m1 slot,
    junction_current_kevent_slot J m = Some (slot, m1)
    /\ 0 <= slot < window_stop cJ
    /\ chans m1 = <[J := set_window_start slot cJ]> (chans m)
    /\ ports m1 = ports m
    /\ k_pending (kern m1) = k_pending (kern m)
    /\ k_io (kern m1) = k_io (kern m)
    /\ submitted (k_log (kern m1)) ++ take (Z.to_nat slot) (kevents (choice cJ))
       = submitted (k_log (kern m)) ++ queued cJ.
Proof.
  intros HJ (Hws & Hlen & Hcap) HpJ.
  unfold junction_current_kevent_slot. rewrite HJ. simpl.
  unfold Junction_MaxCollected.
  destruct (Z.eqb_spec (window_start cJ) (window_stop cJ)) as [Hfull|Hroom].
  - destruct (junction_kevent_change_spec J m cJ HJ HpJ)
      as (m1 & Hrun & Hch & Hp & Hk & Hio & Hsub).
    rewrite Hrun. simpl.
    assert (load J m1 = Some (set_window_start 0 cJ)) as HJ1.
    { unfold load. rewrite Hch. apply lookup_insert_eq. }
    rewrite HJ1. simpl. exists m1, 0. split; [done|]. split; [lia|].
    repeat split; try done. rewrite Hsub. simpl. by rewrite app_nil_r.
  - simpl. rewrite HJ. simpl.
    exists m, (window_start cJ). split; [done|]. split; [lia|].
    repeat split; try done.
    rewrite insert_id; [done|]. unfold load in HJ. rewrite HJ. f_equal. by destruct cJ.
Qed.

(** Taking the current slot, writing a change into it and consuming it. *)
Lemma push_slot_spec J m cJ kev :
  load J m = Some cJ -> kevents_ok cJ -> is_Some (channel_port J m) ->
  exists m1 slot m' ws kevs,
    junction_current_kevent_slot J m = Some (slot, m1)
    /\ chans m1 = <[J := set_window_start slot cJ]> (chans m)
    /\ ports m1 = ports m
    /\ (mb ← write_slot J slot kev m1; modify J Junction_ConsumeKEventSlot mb) = Some m'
    /\ chans m' = <[J := upd_kev ws kevs cJ]> (chans m)
    /\ ports m' = ports m
    /\ k_pending (kern m') = k_pending (kern m)
    /\ k_io (kern m') = k_io (kern m)
    /\ kevents_ok (upd_kev ws kevs cJ)
    /\ submitted (k_log (kern m')) ++ queued (upd_kev ws kevs cJ)
       = submitted (k_log (kern m)) ++ queued cJ ++ [kev].
Proof.
  intros HJ Hok HpJ.
  destruct (junction_current_kevent_slot_spec J m cJ HJ Hok HpJ)
    as (m1 & slot & Hslot & Hrange & Hch1 & Hp1 & Hk1 & Hio1 & Hsub1).
  destruct Hok as (Hws & Hlen & Hcap).
  assert (load J m1 = Some (set_window_start slot cJ)) as HJ1.
  { unfold load. rewrite Hch1. apply lookup_insert_eq. }
  set (kevs := <[Z.to_nat slot := kev]> (kevents (choice cJ))).
  set (m2 := store J (upd_kev (slot + 1) kevs cJ) m1).
  exists m1, slot, m2, (slot + 1), kevs.
  split; [done|]. split; [done|]. split; [done|]. split.
  { unfold write_slot. rewrite HJ1. simpl.
    destruct (Z.leb_spec 0 slot) as [_|?]; [|lia].
    destruct (Z.ltb_spec slot (Z.of_nat (length (kevents (choice cJ))))) as [_|?]; [|lia].
    simpl. rewrite (modify_Some _ _ _ _ HJ1). simpl.
    erewrite modify_Some by apply load_store_eq. simpl.
    rewrite store_store. f_equal. unfold m2. f_equal.
    unfold Junction_ConsumeKEventSlot, upd_kev. simpl.
    rewrite u32_small by lia. by destruct cJ. }
  split.
  { unfold m2, store. simpl. rewrite Hch1. apply insert_insert_eq. }
  split; [done|]. split; [done|]. split; [done|]. split.
  { unfold kevents_ok, upd_kev. simpl. unfold kevs. rewrite length_insert. lia. }
  simpl. rewrite app_assoc, <- Hsub1, <- app_assoc. f_equal.
  unfold queued, upd_kev. simpl. unfold kevs.
  replace (Z.to_nat (slot + 1)) with (S (Z.to_nat slot)) by lia.
  apply take_push. lia.
Qed.

Lemma junction_cancel_spec J t m cJ c pa p :
  t <> J -> load J m = Some cJ -> kevents_ok cJ -> is_Some (channel_port J m) ->
  load t m = Some c -> channel_port t m = Some (pa, p) ->
  exists m' ws kevs,
    junction_cancel J t m = Some m'
    /\ chans m' = <[J := upd_kev ws kevs cJ]> (chans m)
    /\ ports m' = ports m
    /\ k_pending (kern m') = k_pending (kern m)
    /\ k_io (kern m') = k_io (kern m)
    /\ kevents_ok (upd_kev ws kevs cJ)
    /\ submitted (k_log (kern m')) ++ queued (upd_kev ws kevs cJ)
       = submitted (k_log (kern m)) ++ queued cJ ++ [filter_delete t c p].
Proof.
  intros HtJ HJ Hok HpJ Ht Hpt.
  destruct (push_slot_spec J m cJ (filter_delete t c p) HJ Hok HpJ)
    as (m1 & slot & m' & ws & kevs & Hslot & Hch1 & Hp1 & Hrun & Hrest).
  assert (load t m1 = Some c) as Ht1.
  { unfold load. rewrite Hch1. rewrite lookup_insert_ne by done. exact Ht. }
  assert (channel_port t m1 = Some (pa, p)) as Hpt1.
  { apply channel_port_Some. apply channel_port_Some in Hpt as (c' & Hc' & Hpc & Hlp).
    exists c'. split; [congruence|]. split; [done|]. unfold load_port in *. by rewrite Hp1. }
  exists m', ws, kevs. split; [|exact Hrest].
  unfold junction_cancel. rewrite Hslot. simpl.
  unfold kfilter_cancel. rewrite Ht1. simpl. rewrite Hpt1. simpl. exact Hrun.
Qed.

Lemma channel_port_store t a c c' m pp :
  load a m = Some c -> port c' = port c ->
  channel_port t m = Some pp -> channel_port t (store a c' m) = Some pp.
Proof.
  intros Ha Hp H. destruct pp as [pa p].
  apply channel_port_Some in H as (ct & Hct & Hpc & Hlp).
  apply channel_port_Some. destruct (decide (t = a)) as [->|Hne].
  - exists c'. rewrite load_store_eq. split; [done|]. split; [congruence|done].
  - exists ct. rewrite load_store_ne by done. done.
Qed.

Lemma kfilter_of_state c c' :
  Channel_GetControl c' ctl_polarity = Channel_GetControl c ctl_polarity ->
  kfilter_of c' = kfilter_of c.
Proof. unfold kfilter_of. by intros ->. Qed.

Lemma emitted_store_other J t c m : t <> J -> emitted J (store t c m) = emitted J m.
Proof. intros. unfold emitted. by rewrite load_store_ne. Qed.

(** ** The transfer step *)

(** C2: for a Channel on the transfer list that is ready to transfer and
    not due to terminate, the step notes the transfer event, runs the
    transfer function, expands the window by the bytes moved, and maps the
    status: [io_flow] clears the internal transfer qualification,
    [io_stop] clears the external transfer qualification, [io_terminate]
    sets the external terminate qualification, notes the terminate event
    and, unless the requeue control is set, emits the filter-delete change
    of the Channel; the other statuses emit nothing. *)
Theorem junction_flow_step_transfer (J t : addr) (m : Machine) (cJ c : Channel)
    (pa : addr) (p : Port) (stat : io_status_t) (xfer : Z) :
  t <> J ->
  load J m = Some cJ -> kevents_ok cJ -> is_Some (channel_port J m) ->
  load t m = Some c -> channel_port t m = Some (pa, p) ->
  Channel_ShouldTerminate c = false ->
  Channel_ShouldTransfer c = true ->
  k_io (kern m) t (Word.u32 (Word.u32 (view_len c) - Word.u32 (window_stop c)))
  = (stat, xfer) ->
  let moved := Channel_ExpandWindow xfer (Channel_NoteEvent tev_transfer c) in
  let c' := match stat with
            | io_flow => Channel_INQualify teq_transfer moved
            | io_stop => Channel_XNQualify teq_transfer moved
            | io_terminate =>
                Channel_NoteEvent tev_terminate (Channel_XQualify teq_terminate moved)
            end in
  exists m', junction_flow_step J t m = Some m'
    /\ load t m' = Some c'
    /\ window_stop c' = Word.u32 (window_stop c + xfer)
    /\ match stat with
       | io_flow =>
           Channel_IQualified c' teq_transfer = false
           /\ Channel_XQualified c' teq_transfer = true
           /\ Channel_ShouldTerminate c' = false
           /\ Channel_HasEvent c' tev_terminate = Channel_HasEvent c tev_terminate
       | io_stop =>
           Channel_XQualified c' teq_transfer = false
           /\ Channel_IQualified c' teq_transfer = true
           /\ Channel_ShouldTerminate c' = false
           /\ Channel_HasEvent c' tev_terminate = Channel_HasEvent c tev_terminate
       | io_terminate =>
           Channel_XQualified c' teq_terminate = true
           /\ Channel_IQualified c' teq_transfer = true
           /\ Channel_XQualified c' teq_transfer = true
           /\ Channel_HasEvent c' tev_terminate = true
       end
    /\ emitted J m'
       = (l ← emitted J m;
          Some (l ++ match stat with
                     | io_terminate =>
                         if Channel_GetControl c ctl_requeue then []
                         else [filter_delete t c p]
                     | _ => []
                     end)).
Proof.
  intros HtJ HJ Hok HpJ Ht Hpt Hterm Htrans Hio moved c'.
  unfold Channel_ShouldTerminate, Channel_ShouldTransfer in *.
  apply orb_false_iff in Hterm as [Hit Hxt].
  apply andb_true_iff in Htrans as [Hi Hx].
  unfold Channel_IQualified, Channel_XQualified in Hit, Hxt, Hi, Hx.
  pose proof Hit as Hit'. pose proof Hxt as Hxt'.
  pose proof Hi as Hi'. pose proof Hx as Hx'.
  simpl in Hit', Hxt', Hi', Hx'.
  set (cJ1 := Junction_IncrementTransferCount cJ).
  set (m1 := store J cJ1 m).
  assert (load t m1 = Some c) as Ht1 by (unfold m1; by rewrite load_store_ne).
  assert (emitted J m1 = emitted J m) as Hem1.
  { unfold emitted, m1. rewrite load_store_eq, HJ. reflexivity. }
  assert (junction_flow_step J t m
          = (let m2 := store t (Channel_NoteEvent tev_transfer c) m1 in
             let m3 := store t moved m2 in
             match stat with
             | io_flow => modify t (Channel_INQualify teq_transfer) m3
             | io_stop => modify t (Channel_XNQualify teq_transfer) m3
             | io_terminate =>
                 m4 ← modify t (Channel_XQualify teq_terminate) m3;
                 m5 ← modify t (Channel_NoteEvent tev_terminate) m4;
                 c5 ← load t m5;
                 if negb (Channel_GetControl c5 ctl_requeue) then junction_cancel J t m5
                 else Some m5
             end)) as ->.
  { unfold junction_flow_step. rewrite (modify_Some _ _ _ _ HJ). simpl. fold cJ1 m1.
    rewrite Ht1. simpl.
    unfold Channel_ShouldTerminate, Channel_ShouldTransfer,
      Channel_IQualified, Channel_XQualified.
    rewrite Hit, Hxt, Hi, Hx. simpl.
    rewrite (modify_Some _ _ _ _ Ht1). simpl.
    change (kern (store t (Channel_NoteEvent tev_transfer c) m1)) with (kern m).
    rewrite Hio.
    erewrite modify_Some by apply load_store_eq. simpl. reflexivity. }
  simpl.
  set (m3 := store t moved (store t (Channel_NoteEvent tev_transfer c) m1)).
  assert (load t m3 = Some moved) as Ht3 by apply load_store_eq.
  assert (emitted J m3 = emitted J m) as Hem3.
  { unfold m3. by rewrite !emitted_store_other. }
  assert (Channel_GetControl c ctl_requeue = Channel_GetControl c ctl_requeue) as _ by done.
  destruct stat.
  - (* io_flow *)
    rewrite (modify_Some _ _ _ _ Ht3). eexists. split; [done|].
    split; [apply load_store_eq|]. split; [done|]. split.
    + unfold c', Channel_IQualified, Channel_XQualified, Channel_ShouldTerminate,
        Channel_HasEvent. simpl.
      rewrite word_test_nul_eq by lia.
      rewrite !word_test_nul_ne by (simpl; lia).
      rewrite Hx', Hit', Hxt'. repeat split; try done.
      apply word_test_set_ne; simpl; lia.
    + rewrite emitted_store_other by done. rewrite Hem3.
      destruct (emitted J m); simpl; [|done]. by rewrite app_nil_r.
  - (* io_stop *)
    rewrite (modify_Some _ _ _ _ Ht3). eexists. split; [done|].
    split; [apply load_store_eq|]. split; [done|]. split.
    + unfold c', Channel_IQualified, Channel_XQualified, Channel_ShouldTerminate,
        Channel_HasEvent. simpl.
      rewrite word_test_nul_eq by lia.
      rewrite !word_test_nul_ne by (simpl; lia).
      rewrite Hi', Hit', Hxt'. repeat split; try done.
      apply word_test_set_ne; simpl; lia.
    + rewrite emitted_store_other by done. rewrite Hem3.
      destruct (emitted J m); simpl; [|done]. by rewrite app_nil_r.
  - (* io_terminate *)
    rewrite (modify_Some _ _ _ _ Ht3). simpl.
    erewrite modify_Some by apply load_store_eq. simpl.
    rewrite load_store_eq. simpl. fold c'.
    set (m5 := store t c' (store t (Channel_XQualify teq_terminate moved) m3)).
    assert (load t m5 = Some c') as Ht5 by apply load_store_eq.
    assert (emitted J m5 = emitted J m) as Hem5.
    { unfold m5. by rewrite !emitted_store_other. }
    assert (Channel_GetControl c' ctl_requeue = Channel_GetControl c ctl_requeue) as Hrq.
    { unfold c', Channel_GetControl. simpl. apply word_test_set_ne; simpl; lia. }
    assert (Channel_XQualified c' teq_terminate = true
            /\ Channel_IQualified c' teq_transfer = true
            /\ Channel_XQualified c' teq_transfer = true
            /\ Channel_HasEvent c' tev_terminate = true) as Hquals.
    { unfold c', Channel_IQualified, Channel_XQualified, Channel_HasEvent. simpl.
      rewrite !word_test_set_eq by lia.
      rewrite !word_test_set_ne by (simpl; lia). done. }
    rewrite Hrq. destruct (Channel_GetControl c ctl_requeue) eqn:Hreq; simpl.
    + exists m5. split; [done|]. split; [done|]. split; [done|]. split; [done|].
      rewrite Hem5. destruct (emitted J m); simpl; [|done]. by rewrite app_nil_r.
    + assert (load J m5 = Some cJ1) as HJ5.
      { unfold m5, m3, m1. rewrite !load_store_ne by done. apply load_store_eq. }
      assert (kevents_ok cJ1) as Hok1 by exact Hok.
      assert (channel_port t m5 = Some (pa, p)) as Hpt5.
      { unfold m5, m3, m1.
        eapply channel_port_store; [apply load_store_eq|done|].
        eapply channel_port_store; [apply load_store_eq|done|].
        eapply channel_port_store; [apply load_store_eq|done|].
        eapply channel_port_store; [by rewrite load_store_ne|done|].
        eapply channel_port_store; [exact HJ|done|done]. }
      assert (is_Some (channel_port J m5)) as HpJ5.
      { destruct HpJ as [pp HpJ]. exists pp. unfold m5, m3, m1.
        eapply channel_port_store; [apply load_store_eq|done|].
        eapply channel_port_store; [apply load_store_eq|done|].
        eapply channel_port_store; [apply load_store_eq|done|].
        eapply channel_port_store; [by rewrite load_store_ne|done|].
        eapply channel_port_store; [exact HJ|done|done]. }
      destruct (junction_cancel_spec J t m5 cJ1 c' pa p HtJ HJ5 Hok1 HpJ5 Ht5 Hpt5)
        as (m' & ws & kevs & Hrun & Hch & Hports & Hpend & Hio' & Hok' & Hsub).
      exists m'. split; [done|]. split.
      { unfold load. rewrite Hch, lookup_insert_ne by done. exact Ht5. }
      split; [done|]. split; [done|].
      unfold emitted at 1. unfold load. rewrite Hch, lookup_insert_eq. simpl.
      rewrite Hsub. rewrite <- Hem5. unfold emitted. rewrite HJ5. simpl.
      rewrite app_assoc. do 3 f_equal.
      unfold filter_delete. f_equal. apply kfilter_of_state.
      unfold c', Channel_GetControl. simpl. apply word_test_set_ne; simpl; lia.
Qed.

Lemma junction_flow_step_transfer_witness :
  exists m' c',
    junction_flow_step Ex.J Ex.rd Ex.ready_eof = Some m'
    /\ load Ex.rd m' = Some c'
    /\ Channel_XQualified c' teq_terminate = true
    /\ Channel_HasEvent c' tev_terminate = true
    /\ emitted Ex.J m'
       = (l ← emitted Ex.J Ex.ready_eof; Some (l ++ [Ex.readable_delete])).
Proof.
  destruct (junction_flow_step_transfer Ex.J Ex.rd Ex.ready_eof
              (default (INIT_TRANSIT None 1%positive 0 false) (load Ex.J Ex.ready_eof))
              (default (INIT_TRANSIT None 1%positive 0 false) (load Ex.rd Ex.ready_eof))
              11%positive (mkPort 5 kc_none 0 1) io_terminate 0)
    as (m' & Hrun & Hload & _ & (Hx & _ & _ & He) & Hem).
  - discriminate.
  - vm_compute. reflexivity.
  - vm_compute. split; [split; discriminate|]. split; [reflexivity|]. split; reflexivity.
  - vm_compute. eexists. reflexivity.
  - vm_compute. reflexivity.
  - vm_compute. reflexivity.
  - vm_compute. reflexivity.
  - vm_compute. reflexivity.
  - vm_compute. reflexivity.
  - eexists m', _. split; [exact Hrun|]. split; [exact Hload|].
    split; [exact Hx|]. split; [exact He|]. exact Hem.
Defined.

(** ** Steps that keep the shape of the heap *)

Lemma links_same_refl c : links_same c c.
Proof. by repeat split. Qed.

Lemma links_same_trans c1 c2 c3 :
  links_same c1 c2 -> links_same c2 c3 -> links_same c1 c3.
Proof.
  intros (? & ? & ? & ? & ?) (? & ? & ? & ? & ?). repeat split; congruence.
Qed.

Lemma step_refl J S m : step J S m m.
Proof.
  split; [|split; [done|split; [done|]]].
  - intros a. destruct (load a m); constructor. split; [apply links_same_refl|done].
  - intros cJ cJ' H1 H2. congruence.
Qed.

Lemma step_trans J S m1 m2 m3 : step J S m1 m2 -> step J S m2 m3 -> step J S m1 m3.
Proof.
  intros (Ha & Hp & Hk & HJ) (Ha' & Hp' & Hk' & HJ').
  split; [|split; [congruence|split; [auto|]]].
  - intros a. specialize (Ha a). specialize (Ha' a).
    destruct Ha as [c1 c2 [Hl He]|]; [|done].
    inversion Ha' as [? c3 [Hl' He']|]; subst. constructor. split.
    + by eapply links_same_trans.
    + intros Hn. rewrite He' by done. by apply He.
  - intros cJ cJ' H1 H3 Hok. specialize (Ha J). rewrite H1 in Ha.
    inversion Ha as [? c2 _ Heq1 Heq2|]; subst. symmetry in Heq2. eauto.
Qed.

Lemma step_mono J S S' m m' : S ⊆ S' -> step J S m m' -> step J S' m m'.
Proof.
  intros Hsub (Ha & Hrest). split; [|done].
  intros a. specialize (Ha a). destruct Ha as [c c' [Hl He]|]; constructor.
  split; [done|]. intros Hn. apply He. intros Hin. apply Hn. by apply Hsub.
Qed.

Lemma step_store J S t c c' m :
  load t m = Some c ->
  links_same c c' ->
  (t ∉ S -> events c' = events c) ->
  (t = J -> kevents_ok c -> kevents_ok c') ->
  step J S m (store t c' m).
Proof.
  intros Ht Hl He Hok. split; [|split; [done|split; [done|]]].
  - intros a. destruct (decide (a = t)) as [->|Hne].
    + rewrite load_store_eq, Ht. by constructor.
    + rewrite load_store_ne by done. destruct (load a m); constructor.
      split; [apply links_same_refl|done].
  - intros cJ cJ' H1 H2. destruct (decide (J = t)) as [->|Hne].
    + rewrite load_store_eq in H2. rewrite Ht in H1.
      injection H1 as <-. injection H2 as <-. by apply Hok.
    + rewrite load_store_ne in H2 by done. congruence.
Qed.

Lemma step_set_kern J S m k :
  (forall b, b ∈ k_pending k -> b ∈ k_pending (kern m)) -> step J S m (set_kern k m).
Proof.
  intros Hk. split; [|split; [done|split; [done|]]].
  - intros a. change (load a (set_kern k m)) with (load a m).
    destruct (load a m); constructor. split; [apply links_same_refl|done].
  - intros cJ cJ' H1 H2. change (load J (set_kern k m)) with (load J m) in H2. congruence.
Qed.

Lemma step_set_ports J S m p x x' :
  load_port p m = Some x -> step J S m (set_ports (<[p := x']> (ports m)) m).
Proof.
  intros Hp. split; [|split; [|split; [done|]]].
  - intros a. change (load a (set_ports _ m)) with (load a m).
    destruct (load a m); constructor. split; [apply links_same_refl|done].
  - simpl. rewrite dom_insert_L. unfold load_port in Hp.
    apply (elem_of_dom_2 (D := gset addr)) in Hp. set_solver.
  - intros cJ cJ' H1 H2. change (load J (set_ports _ m)) with (load J m) in H2. congruence.
Qed.

Lemma step_load J S m m' a c :
  step J S m m' -> load a m = Some c ->
  exists c', load a m' = Some c' /\ links_same c c' /\ (a ∉ S -> events c' = events c).
Proof.
  intros (Ha & _) Hl. specialize (Ha a). rewrite Hl in Ha.
  inversion Ha as [? c' [? ?] Heq1 Heq2|]; subst. eauto.
Qed.

Lemma step_load_inv J S m m' a c' :
  step J S m m' -> load a m' = Some c' ->
  exists c, load a m = Some c /\ links_same c c' /\ (a ∉ S -> events c' = events c).
Proof.
  intros (Ha & _) Hl. specialize (Ha a). rewrite Hl in Ha.
  inversion Ha as [c ? [? ?] Heq1 Heq2|]; subst. eauto.
Qed.

Lemma step_ptr_at J S m m' f a :
  (forall c c', links_same c c' -> f c' = f c) ->
  step J S m m' -> ptr_at f m' a = ptr_at f m a.
Proof.
  intros Hf (Ha & _). specialize (Ha a). unfold ptr_at.
  destruct Ha as [c c' [Hl _]|]; simpl; [|done]. by apply Hf.
Qed.

Lemma chain_ext f m m' l :
  (forall a, ptr_at f m' a = ptr_at f m a) -> chain f m l -> chain f m' l.
Proof.
  intros Hf. induction l as [|a l IH]; [done|].
  destruct l as [|b l]; [done|].
  rewrite !chain_cons. intros [? ?]. split; [by rewrite Hf|auto].
Qed.

Lemma links_prev c c' : links_same c c' -> prev c' = prev c.
Proof. by intros (? & ? & ? & ?). Qed.
Lemma links_next c c' : links_same c c' -> next c' = next c.
Proof. by intros (? & ? & ? & ?). Qed.
Lemma links_lltransfer c c' : links_same c c' -> lltransfer c' = lltransfer c.
Proof. by intros (? & ? & ? & ?). Qed.
Lemma links_port c c' : links_same c c' -> port c' = port c.
Proof. by intros (? & ? & ? & ? & ?). Qed.
Lemma links_junction c c' : links_same c c' -> junction c' = junction c.
Proof. by intros (? & ? & ? & ? & ?). Qed.

Lemma step_attach_ok J r S m m' : step J S m m' -> attach_ok J r m -> attach_ok J r m'.
Proof.
  intros Hs Hok a c' Hl.
  destruct (step_load_inv _ _ _ _ _ _ Hs Hl) as (c & Hc & Hlinks & _).
  rewrite (links_junction _ _ Hlinks), (links_prev _ _ Hlinks), (links_next _ _ Hlinks).
  by apply Hok.
Qed.

Lemma step_chain J S m m' f l :
  (forall c c', links_same c c' -> f c' = f c) ->
  step J S m m' -> chain f m l -> chain f m' l.
Proof.
  intros Hf Hs. apply chain_ext. intros a. by eapply step_ptr_at.
Qed.

Lemma step_ports_ok J S m m' : step J S m m' -> ports_ok m -> ports_ok m'.
Proof.
  intros Hs Hok a c' Hl.
  destruct (step_load_inv _ _ _ _ _ _ Hs Hl) as (c & Hc & Hlinks & _).
  destruct (Hok a c Hc) as (p & x & Hp & Hx).
  destruct Hs as (_ & Hdom & _).
  assert (p ∈ dom (ports m')) as Hin.
  { rewrite Hdom. unfold load_port in Hx.
    by apply (elem_of_dom_2 (D := gset addr)) in Hx. }
  apply elem_of_dom in Hin as [x' Hx']. exists p, x'. split; [|done].
  rewrite (links_port _ _ Hlinks). done.
Qed.

Lemma cycle_inv_step J r l S m m' :
  cycle_inv J r l m -> step J S m m' -> cycle_inv J r l m'.
Proof.
  intros ([Hc Hnd] & Hsub & (Hn & Hp & Hndr) & Hports & Hoff & (cJ & HJ & Hok) & Hpend
            & Hatt) Hs.
  split; [|split; [done|split; [|split; [|split; [|split; [|split]]]]]].
  - split; [|done]. eapply step_chain; [apply links_lltransfer|done|done].
  - split; [|split; [|done]].
    + eapply step_chain; [apply links_next|done|done].
    + eapply step_chain; [apply links_prev|done|done].
  - by eapply step_ports_ok.
  - intros a c' Hl Hal HaJ.
    destruct (step_load_inv _ _ _ _ _ _ Hs Hl) as (c & Hc' & Hlinks & _).
    rewrite (links_lltransfer _ _ Hlinks). by eapply Hoff.
  - destruct (step_load _ _ _ _ _ _ Hs HJ) as (cJ' & HJ' & _).
    exists cJ'. split; [done|]. destruct Hs as (_ & _ & _ & HokJ). by eapply HokJ.
  - intros b kev Hb Hkev. destruct Hs as (_ & _ & Hk & _). eapply Hpend; eauto.
  - by eapply step_attach_ok.
Qed.

Lemma events_in_step J l S m m' :
  S ⊆ l -> events_in l m -> step J S m m' -> events_in l m'.
Proof.
  intros Hsub He Hs a c' Hl Hal.
  destruct (step_load_inv _ _ _ _ _ _ Hs Hl) as (c & Hc & _ & Hev).
  rewrite Hev; [by eapply He|]. intros Hin. apply Hal. by apply Hsub.
Qed.

Lemma ports_ok_channel_port m t c :
  ports_ok m -> load t m = Some c -> exists pa p, channel_port t m = Some (pa, p).
Proof.
  intros Hok Hl. destruct (Hok t c Hl) as (pa & p & Hp & Hx).
  exists pa, p. apply channel_port_Some. eauto.
Qed.

Lemma step_chans J S t c c' m m' :
  load t m = Some c ->
  chans m' = <[t := c']> (chans m) ->
  ports m' = ports m ->
  k_pending (kern m') = k_pending (kern m) ->
  links_same c c' ->
  (t ∉ S -> events c' = events c) ->
  (t = J -> kevents_ok c -> kevents_ok c') ->
  step J S m m'.
Proof.
  intros Ht Hch Hp Hk Hl He Hok. split; [|split; [by rewrite Hp|split; [by rewrite Hk|]]].
  - intros a. unfold load at 2. rewrite Hch. destruct (decide (a = t)) as [->|Hne].
    + rewrite lookup_insert_eq, Ht. by constructor.
    + rewrite lookup_insert_ne by done. fold (load a m).
      destruct (load a m); constructor. split; [apply links_same_refl|done].
  - intros cJ cJ' H1 H2. unfold load in H2. rewrite Hch in H2.
    destruct (decide (J = t)) as [->|Hne].
    + rewrite lookup_insert_eq in H2. rewrite Ht in H1.
      injection H1 as <-. injection H2 as <-. by apply Hok.
    + rewrite lookup_insert_ne in H2 by done. fold (load J m) in H2. congruence.
Qed.

Lemma modify_step J S t f m c :
  load t m = Some c ->
  links_same c (f c) ->
  (t ∉ S -> events (f c) = events c) ->
  (t = J -> kevents_ok c -> kevents_ok (f c)) ->
  exists m', modify t f m = Some m' /\ step J S m m' /\ load t m' = Some (f c)
    /\ (forall a, a <> t -> load a m' = load a m)
    /\ ports m' = ports m /\ kern m' = kern m.
Proof.
  intros Ht Hl He Hok. exists (store t (f c) m). split; [by apply modify_Some|].
  split; [by apply (step_store J S t c)|]. split; [apply load_store_eq|].
  split; [|done]. intros a Ha. by apply load_store_ne.
Qed.

Lemma kevents_ok_reset cJ : kevents_ok cJ -> kevents_ok (set_window_start 0 cJ).
Proof. unfold kevents_ok. simpl. lia. Qed.

Lemma junction_kevent_change_step J S m cJ :
  load J m = Some cJ -> kevents_ok cJ -> is_Some (channel_port J m) ->
  exists m', junction_kevent_change J m = Some m' /\ step J S m m'
    /\ (forall a, a <> J -> load a m' = load a m).
Proof.
  intros HJ Hok Hp.
  destruct (junction_kevent_change_spec J m cJ HJ Hp)
    as (m' & Hrun & Hch & Hports & Hk & _).
  exists m'. split; [done|]. split.
  - eapply (step_chans J S J cJ (set_window_start 0 cJ)); eauto.
    + by repeat split.
    + intros _ _. by apply kevents_ok_reset.
  - intros a Ha. unfold load. rewrite Hch. by apply lookup_insert_ne.
Qed.

Lemma upd_kev_links ws kevs cJ : links_same cJ (upd_kev ws kevs cJ).
Proof. by repeat split. Qed.

Lemma junction_cancel_step J S t m cJ c :
  t <> J -> load J m = Some cJ -> kevents_ok cJ -> ports_ok m ->
  load t m = Some c ->
  exists m', junction_cancel J t m = Some m' /\ step J S m m'
    /\ (forall a, a <> J -> load a m' = load a m).
Proof.
  intros HtJ HJ Hok Hports Ht.
  destruct (ports_ok_channel_port _ _ _ Hports Ht) as (pa & p & Hpt).
  destruct (ports_ok_channel_port _ _ _ Hports HJ) as (paJ & pJ & HpJ).
  destruct (junction_cancel_spec J t m cJ c pa p HtJ HJ Hok (mk_is_Some _ _ HpJ) Ht Hpt)
    as (m' & ws & kevs & Hrun & Hch & Hp' & Hk & _ & Hok' & _).
  exists m'. split; [done|]. split.
  - eapply (step_chans J S J cJ (upd_kev ws kevs cJ)); eauto using upd_kev_links.
  - intros a Ha. unfold load. rewrite Hch. by apply lookup_insert_ne.
Qed.

(** The same for the subscription of [junction_apply_delta]. *)
Lemma junction_attach_step J S t m cJ c :
  t <> J -> load J m = Some cJ -> kevents_ok cJ -> ports_ok m ->
  load t m = Some c ->
  exists m',
    ('(slot, ma) ← junction_current_kevent_slot J m;
     mb ← kfilter_attach J t slot ma;
     modify J Junction_ConsumeKEventSlot mb) = Some m'
    /\ step J S m m'
    /\ (forall a, a <> J -> load a m' = load a m).
Proof.
  intros HtJ HJ Hok Hports Ht.
  destruct (ports_ok_channel_port _ _ _ Hports Ht) as (pa & p & Hpt).
  destruct (ports_ok_channel_port _ _ _ Hports HJ) as (paJ & pJ & HpJ).
  destruct (push_slot_spec J m cJ (filter_add t c p) HJ Hok (mk_is_Some _ _ HpJ))
    as (m1 & slot & m' & ws & kevs & Hslot & Hch1 & Hp1 & Hrun & Hch & Hp' & Hk & _ & Hok' & _).
  assert (load t m1 = Some c) as Ht1.
  { unfold load. rewrite Hch1. rewrite lookup_insert_ne by done. exact Ht. }
  assert (channel_port t m1 = Some (pa, p)) as Hpt1.
  { apply channel_port_Some. apply channel_port_Some in Hpt as (c' & Hc' & Hpc & Hlp).
    exists c'. split; [congruence|]. split; [done|]. unfold load_port in *. by rewrite Hp1. }
  exists m'. split.
  - rewrite Hslot. simpl. unfold kfilter_attach. rewrite Ht1. simpl. rewrite Hpt1. simpl.
    exact Hrun.
  - split.
    + eapply (step_chans J S J cJ (upd_kev ws kevs cJ)); eauto using upd_kev_links.
    + intros a Ha. unfold load. rewrite Hch. by apply lookup_insert_ne.
Qed.

Lemma step_kevents_ok J S m m' cJ :
  step J S m m' -> load J m = Some cJ -> kevents_ok cJ ->
  exists cJ', load J m' = Some cJ' /\ kevents_ok cJ'.
Proof.
  intros Hs HJ Hok. destruct (step_load _ _ _ _ _ _ Hs HJ) as (cJ' & HJ' & _).
  exists cJ'. split; [done|]. destruct Hs as (_ & _ & _ & H). eauto.
Qed.

Lemma junction_apply_delta_step_step J t m cJ c :
  t <> J -> load J m = Some cJ -> kevents_ok cJ -> ports_ok m ->
  load t m = Some c ->
  exists m', junction_apply_delta_step J t m = Some m' /\ step J [] m m'.
Proof.
  intros HtJ HJ Hok Hports Ht.
  destruct (ports_ok_channel_port _ _ _ Hports Ht) as (pa & p & Hpt).
  unfold junction_apply_delta_step. rewrite Ht. simpl.
  (* the subscription *)
  assert (exists m1 c1,
    (if Channel_ShouldXConnect c
     then err ← Channel_PortError t m;
          latched ← Channel_PortLatched t m;
          m' ← (if err || negb latched
                then modify t (Channel_XQualify teq_terminate) m
                else if negb (Channel_GetControl c ctl_requeue)
                     then '(slot, ma) ← junction_current_kevent_slot J m;
                          mb ← kfilter_attach J t slot ma;
                          modify J Junction_ConsumeKEventSlot mb
                     else Some m);
          modify t (Channel_NulControl ctl_connect) m'
     else Some m) = Some m1
    /\ step J [] m m1 /\ load t m1 = Some c1) as (m1 & c1 & -> & Hs1 & Ht1).
  { destruct (Channel_ShouldXConnect c).
    - unfold Channel_PortError, Channel_PortLatched. rewrite Hpt, ?Ht. simpl.
      rewrite ?Hpt, ?Ht. simpl.
      assert (exists m2 c2,
        (if negb (error p =? 0) || negb (Port_Latched (Channel_Polarity c) p)
         then modify t (Channel_XQualify teq_terminate) m
         else if negb (Channel_GetControl c ctl_requeue)
              then '(slot, ma) ← junction_current_kevent_slot J m;
                   mb ← kfilter_attach J t slot ma;
                   modify J Junction_ConsumeKEventSlot mb
              else Some m) = Some m2
        /\ step J [] m m2 /\ load t m2 = Some c2) as (m2 & c2 & -> & Hs2 & Ht2).
      { destruct (negb (error p =? 0) || negb (Port_Latched (Channel_Polarity c) p)).
        - destruct (modify_step J [] t (Channel_XQualify teq_terminate) m c Ht)
            as (m2 & Hrun & Hs & Hl & _); [by repeat split|done|done|].
          eexists m2, _. eauto.
        - destruct (negb (Channel_GetControl c ctl_requeue)).
          + destruct (junction_attach_step J [] t m cJ c HtJ HJ Hok Hports Ht)
              as (m2 & Hrun & Hs & Hfr).
            exists m2, c. split; [done|]. split; [done|]. by rewrite Hfr.
          + exists m, c. split; [done|]. split; [apply step_refl|done]. }
      simpl.
      destruct (modify_step J [] t (Channel_NulControl ctl_connect) m2 c2 Ht2)
        as (m3 & Hrun & Hs & Hl & _); [by repeat split|done|done|].
      eexists m3, _. split; [done|]. split; [|done]. by eapply step_trans.
    - exists m, c. split; [done|]. split; [apply step_refl|done]. }
  simpl. rewrite Ht1. simpl.
  destruct (Channel_GetControl c1 ctl_force).
  - destruct (modify_step J [] t (Channel_NulControl ctl_force) m1 c1 Ht1)
      as (m2 & -> & Hs2 & Hl2 & _); [by repeat split|done|done|].
    simpl.
    destruct (modify_step J [] t (Channel_XQualify teq_transfer) m2 _ Hl2)
      as (m3 & -> & Hs3 & Hl3 & _); [by repeat split|done|done|].
    exists m3. split; [done|]. eapply step_trans; [done|]. by eapply step_trans.
  - exists m1. done.
Qed.

(** ** Relinking *)

Lemma chain_head f m t l z :
  chain f m (t :: l ++ [z]) -> ptr_at f m t = Some (default z (head l)) /\ chain f m (l ++ [z]).
Proof.
  destruct l as [|x l].
  - change (t :: [] ++ [z]) with (t :: z :: []). rewrite chain_cons. tauto.
  - change (t :: (x :: l) ++ [z]) with (t :: x :: (l ++ [z])). rewrite chain_cons. tauto.
Qed.

Lemma chain_head_intro f m t l z :
  ptr_at f m t = Some (default z (head l)) -> chain f m (l ++ [z]) ->
  chain f m (t :: l ++ [z]).
Proof.
  destruct l as [|x l].
  - change (t :: [] ++ [z]) with (t :: z :: []). rewrite chain_cons. tauto.
  - change (t :: (x :: l) ++ [z]) with (t :: x :: (l ++ [z])). rewrite chain_cons. tauto.
Qed.

(** Unlinking [t], which follows [p], by pointing [p] to the follower of
    [t]. *)
Lemma chain_remove f m m' A p t l2 z :
  chain f m (A ++ p :: t :: l2 ++ [z]) ->
  ptr_at f m' p = Some (default z (head l2)) ->
  (forall a, a ∈ A ++ l2 -> ptr_at f m' a = ptr_at f m a) ->
  chain f m' (A ++ p :: l2 ++ [z]).
Proof.
  intros Hc Hp Hfr.
  apply chain_app in Hc as [HA Hc].
  apply chain_cons in Hc as [_ Hc].
  apply chain_head in Hc as [_ Hc].
  apply chain_app. split.
  - eapply chain_frame; [|exact HA]. intros a Ha. apply Hfr. apply elem_of_app. by left.
  - apply chain_head_intro; [done|].
    eapply chain_frame; [|exact Hc]. intros a Ha. apply Hfr. apply elem_of_app. by right.
Qed.

Lemma cons_snoc (a : addr) (l : list addr) :
  exists A p, a :: l = A ++ [p] /\ p = default a (last l).
Proof.
  revert a. induction l as [|x l IH]; intros a.
  - by exists [], a.
  - destruct (IH x) as (A & p & HA & Hp). exists (a :: A), p. split.
    + simpl. by rewrite HA.
    + rewrite Hp. destruct l as [|y l]; [done|]. rewrite last_cons_cons.
      destruct (last (y :: l)) eqn:E; [done|]. by apply last_None in E.
Qed.

Lemma snoc_app_eq (a : addr) l A p k :
  a :: l = A ++ [p] -> a :: (l ++ k) = A ++ p :: k.
Proof. intros H. rewrite app_comm_cons, H, <- app_assoc. done. Qed.

Lemma chain_members f m l z a :
  chain f m (l ++ [z]) -> a ∈ l -> is_Some (load a m).
Proof.
  intros Hc Ha. destruct (chain_source _ _ _ _ _ Hc Ha) as [b Hb].
  apply ptr_at_Some in Hb as (c & -> & _). eauto.
Qed.

(** A store that only relinks the transfer pointer keeps the rest of the
    shape. *)
Lemma store_tl_cycle J r S t p c m :
  load t m = Some c ->
  ring m J r /\ ports_ok m /\ (exists cJ, load J m = Some cJ /\ kevents_ok cJ)
  /\ pending_ok J r m /\ attach_ok J r m /\ events_in S m ->
  ring (store t (set_lltransfer p c) m) J r
  /\ ports_ok (store t (set_lltransfer p c) m)
  /\ (exists cJ, load J (store t (set_lltransfer p c) m) = Some cJ /\ kevents_ok cJ)
  /\ pending_ok J r (store t (set_lltransfer p c) m)
  /\ attach_ok J r (store t (set_lltransfer p c) m)
  /\ events_in S (store t (set_lltransfer p c) m).
Proof.
  intros Ht ((Hn & Hp & Hnd) & Hports & (cJ & HJ & Hok) & Hpend & Hatt & Hev).
  split; [|split; [|split; [|split; [|split]]]].
  - split; [|split; [|done]].
    + eapply chain_ext; [|exact Hn]. intros a. by eapply ptr_at_store_same.
    + eapply chain_ext; [|exact Hp]. intros a. by eapply ptr_at_store_same.
  - intros a c' Hl. destruct (decide (a = t)) as [->|Hne].
    + rewrite load_store_eq in Hl. injection Hl as <-. by apply (Hports t c).
    + rewrite load_store_ne in Hl by done. by apply (Hports a c').
  - destruct (decide (J = t)) as [->|Hne].
    + rewrite load_store_eq. eexists. split; [done|].
      rewrite Ht in HJ. injection HJ as <-. exact Hok.
    + rewrite load_store_ne by done. eauto.
  - exact Hpend.
  - intros a c' Hl. destruct (decide (a = t)) as [->|Hne].
    + rewrite load_store_eq in Hl. injection Hl as <-. by apply (Hatt t c).
    + rewrite load_store_ne in Hl by done. by apply (Hatt a c').
  - intros a c' Hl Ha. destruct (decide (a = t)) as [->|Hne].
    + rewrite load_store_eq in Hl. injection Hl as <-. simpl. by apply (Hev t c).
    + rewrite load_store_ne in Hl by done. by apply (Hev a c').
Qed.

Lemma cycle_inv_rest J r l S m :
  cycle_inv J r l m -> events_in S m ->
  ring m J r /\ ports_ok m /\ (exists cJ, load J m = Some cJ /\ kevents_ok cJ)
  /\ pending_ok J r m /\ attach_ok J r m /\ events_in S m.
Proof. intros (_ & _ & ? & ? & _ & ? & ? & ?) ?. tauto. Qed.

Lemma cycle_inv_intro J r l S m :
  tlist m J l -> l ⊆ r ->
  (forall a c, load a m = Some c -> a ∉ l -> a <> J -> lltransfer c = None) ->
  ring m J r /\ ports_ok m /\ (exists cJ, load J m = Some cJ /\ kevents_ok cJ)
  /\ pending_ok J r m /\ attach_ok J r m /\ events_in S m ->
  cycle_inv J r l m /\ events_in S m.
Proof. intros ? ? ? (? & ? & ? & ? & ? & ?). unfold cycle_inv. tauto. Qed.

Lemma tlist_J_not_in m J l : tlist m J l -> J ∉ l.
Proof. intros [_ Hnd]. by apply NoDup_cons in Hnd as [? _]. Qed.

Lemma tlist_member m J l a : tlist m J l -> a ∈ J :: l -> is_Some (load a m).
Proof.
  intros [Hc _] Ha. eapply (chain_members _ _ (J :: l)); [exact Hc|exact Ha].
Qed.

Lemma junction_apply_delta_loop_inv J r : forall rest kept m fuel,
  (length rest < fuel)%nat ->
  cycle_inv J r (kept ++ rest) m -> events_in [] m ->
  exists m' l',
    junction_apply_delta_loop fuel J (default J (last kept)) (default J (head rest)) m
    = Some m'
    /\ cycle_inv J r l' m' /\ events_in [] m'.
Proof.
  induction rest as [|x rest IH]; intros kept m fuel Hfuel Hinv Hev.
  - exists m, (kept ++ []). destruct fuel; simpl; rewrite bool_decide_eq_true_2 by done; done.
  - destruct fuel as [|fuel]; [simpl in Hfuel; lia|].
    pose proof (tlist_J_not_in _ _ _ (proj1 Hinv)) as HJl.
    assert (x <> J) as HxJ.
    { intros ->. apply HJl. apply elem_of_app. right. left. }
    pose proof Hinv as (Htl & Hsub & Hring & Hports & Hoff & (cJ & HJ & Hok) & Hpend).
    assert (is_Some (load x m)) as [c0 Hx0].
    { eapply tlist_member; [exact Htl|]. right. apply elem_of_app. right. left. }
    destruct (junction_apply_delta_step_step J x m cJ c0 HxJ HJ Hok Hports Hx0)
      as (m1 & Hstep & Hs1).
    pose proof (cycle_inv_step _ _ _ _ _ _ Hinv Hs1) as Hinv1.
    pose proof (events_in_step _ _ _ _ _ (reflexivity _) Hev Hs1) as Hev1.
    destruct (step_load _ _ _ _ _ _ Hs1 Hx0) as (c & Hx1 & _).
    pose proof Hinv1 as (Htl1 & _ & _ & _ & Hoff1 & _).
    pose proof Htl1 as [Hc1 Hnd1].
    (* the pointers around [x] *)
    destruct (cons_snoc J kept) as (A & p & HA & Hp).
    assert (chain lltransfer m1 (A ++ p :: x :: rest ++ [J])) as Hc1'.
    { replace (A ++ p :: x :: rest ++ [J]) with (J :: (kept ++ x :: rest) ++ [J]); [done|].
      rewrite <- app_assoc. by apply snoc_app_eq. }
    assert (lltransfer c = Some (default J (head rest))) as Hnx.
    { apply chain_app in Hc1' as [_ Hc1']. apply chain_cons in Hc1' as [_ Hc1'].
      apply chain_head in Hc1' as [Hh _].
      apply ptr_at_Some in Hh as (c' & Hc' & Hh). congruence. }
    simpl. rewrite bool_decide_eq_false_2 by done.
    rewrite Hstep. simpl. rewrite Hx1. simpl.
    destruct (Channel_EventState c).
    + (* kept on the list *)
      simpl. rewrite Hx1. simpl. rewrite Hnx. simpl.
      destruct (IH (kept ++ [x]) m1 fuel) as (m' & l' & Hrun & Hinv' & Hev').
      * simpl in Hfuel. lia.
      * by rewrite <- app_assoc.
      * done.
      * exists m', l'. rewrite last_snoc in Hrun. done.
    + (* spliced out *)
      apply NoDup_cons in Hnd1 as [HJn Hnd1].
      apply NoDup_app in Hnd1 as (Hndk & Hdis & Hndx).
      apply NoDup_cons in Hndx as [Hxr Hndr].
      assert (x ∉ kept) as Hxk.
      { intros Hin. apply (Hdis x Hin). left. }
      assert (p ∈ J :: kept) as HpJk by (rewrite HA; apply elem_of_app; right; left).
      assert (p <> x) as Hpx.
      { intros ->. apply elem_of_cons in HpJk as [->|Hin]; done. }
      assert (NoDup (A ++ [p])) as HndA.
      { rewrite <- HA. apply NoDup_cons. split; [|done].
        intros Hin. apply HJn. apply elem_of_app. by left. }
      apply NoDup_app in HndA as (HndA & HdisA & _).
      assert (is_Some (load p m1)) as [cp Hcp].
      { eapply tlist_member; [exact Htl1|].
        apply elem_of_cons in HpJk as [->|Hin]; [left|right; apply elem_of_app; by left]. }
      unfold Channel_SetNextTransfer.
      rewrite <- Hp. rewrite (modify_Some _ _ _ _ Hcp). simpl.
      set (ma := store p (set_lltransfer (lltransfer c) cp) m1).
      assert (load x ma = Some c) as Hxa by (unfold ma; by rewrite load_store_ne).
      rewrite (modify_Some _ _ _ _ Hxa). simpl.
      set (mb := store x (set_lltransfer None c) ma).
      assert (load p mb = Some (set_lltransfer (lltransfer c) cp)) as Hpb.
      { unfold mb, ma. rewrite load_store_ne by done. apply load_store_eq. }
      rewrite Hpb. simpl. rewrite Hnx. simpl.
      assert (forall a, a <> x -> a <> p -> load a mb = load a m1) as Hfr.
      { intros a Hax Hap. unfold mb, ma. by rewrite !load_store_ne. }
      destruct (cycle_inv_intro J r (kept ++ rest) [] mb) as [Hinvb Hevb].
      * split.
        -- replace (J :: (kept ++ rest) ++ [J]) with (A ++ p :: rest ++ [J]).
           2:{ rewrite <- app_assoc. symmetry. by apply snoc_app_eq. }
           eapply chain_remove; [exact Hc1'| |].
           ++ apply ptr_at_Some. eexists. split; [exact Hpb|]. simpl. exact Hnx.
           ++ intros a Ha. unfold ptr_at. rewrite Hfr; [done| |].
              ** intros ->. apply elem_of_app in Ha as [Ha|Ha]; [|done].
                 apply Hxk. assert (x ∈ J :: kept) as Hin
                   by (rewrite HA; apply elem_of_app; by left).
                 apply elem_of_cons in Hin as [->|Hin]; done.
              ** intros ->. apply elem_of_app in Ha as [Ha|Ha].
                 --- apply (HdisA p Ha). left.
                 --- apply elem_of_cons in HpJk as [->|Hin].
                     +++ apply HJn. apply elem_of_app. right. by right.
                     +++ apply (Hdis p Hin). by right.
        -- apply NoDup_cons. split.
           ++ intros Hin. apply HJn. apply elem_of_app.
              apply elem_of_app in Hin as [Hin|Hin]; [by left|right; by right].
           ++ apply NoDup_app. split; [done|]. split; [|done].
              intros a Ha Har. apply (Hdis a Ha). by right.
      * intros a Ha. apply Hsub. apply elem_of_app.
        apply elem_of_app in Ha as [Ha|Ha]; [by left|right; by right].
      * intros a c' Hl Hal HaJ. destruct (decide (a = x)) as [->|Hax].
        -- unfold mb in Hl. rewrite load_store_eq in Hl. by injection Hl as <-.
        -- assert (a <> p) as Hap.
           { intros ->. apply Hal. apply elem_of_app. left.
             apply elem_of_cons in HpJk as [->|Hin]; done. }
           rewrite Hfr in Hl by done. eapply Hoff1; [exact Hl| |done].
           intros Hin. apply Hal. apply elem_of_app.
           apply elem_of_app in Hin as [Hin|Hin]; [by left|].
           apply elem_of_cons in Hin as [->|Hin]; [done|by right].
      * unfold mb. apply store_tl_cycle; [done|].
        unfold ma. apply store_tl_cycle; [done|].
        by eapply cycle_inv_rest.
      * destruct (IH kept mb fuel) as (m' & l' & Hrun & Hinv' & Hev'); try done.
        { simpl in Hfuel. lia. }
        exists m', l'. rewrite <- Hp in Hrun. done.
Qed.

Lemma tlist_fuel m J l : tlist m J l -> (length l < fuel_of m)%nat.
Proof.
  intros Htl. unfold fuel_of. apply Nat.lt_succ_r. apply length_le_size.
  - destruct Htl as [_ Hnd]. by apply NoDup_cons in Hnd as [_ ?].
  - intros x Hx. eapply tlist_member; [exact Htl|]. by right.
Qed.

Lemma junction_apply_delta_inv J r l m :
  cycle_inv J r l m -> events_in [] m ->
  exists m' l', junction_apply_delta J m = Some m'
    /\ cycle_inv J r l' m' /\ events_in [] m'.
Proof.
  intros Hinv Hev.
  pose proof Hinv as (Htl & _ & _ & _ & _ & (cJ & HJ & Hok) & _).
  destruct (modify_step J [] J Junction_ResetWindow m cJ HJ)
    as (m1 & Hrun1 & Hs1 & HJ1 & _); [by repeat split|done| |].
  { intros _. apply kevents_ok_reset. }
  pose proof (cycle_inv_step _ _ _ _ _ _ Hinv Hs1) as Hinv1.
  pose proof (events_in_step _ _ _ _ _ (reflexivity _) Hev Hs1) as Hev1.
  destruct (tlist_head _ _ _ (proj1 Hinv1)) as (cJ1 & HJ1' & Hh).
  destruct (junction_apply_delta_loop_inv J r l [] m1 (fuel_of m1))
    as (m2 & l2 & Hrun2 & Hinv2 & Hev2); [|done|done|].
  { apply tlist_fuel with J. apply Hinv1. }
  pose proof Hinv2 as (_ & _ & _ & Hports2 & _ & (cJ2 & HJ2 & Hok2) & _).
  destruct (ports_ok_channel_port _ _ _ Hports2 HJ2) as (pa & pp & Hpp).
  destruct (junction_kevent_change_step J [] m2 cJ2 HJ2 Hok2 (mk_is_Some _ _ Hpp))
    as (m3 & Hrun3 & Hs3 & _).
  exists m3, l2. split.
  - unfold junction_apply_delta. rewrite Hrun1. simpl. rewrite HJ1'. simpl.
    rewrite Hh. simpl. simpl in Hrun2. rewrite Hrun2. simpl. exact Hrun3.
  - split; [by eapply cycle_inv_step|by eapply events_in_step].
Qed.

Lemma ring_member m J r a : ring m J r -> a ∈ J :: r -> is_Some (load a m).
Proof.
  intros (Hn & _) Ha. eapply (chain_members _ _ (J :: r)); [exact Hn|exact Ha].
Qed.

Lemma ring_J_not_in m J r : ring m J r -> J ∉ r.
Proof. intros (_ & _ & Hnd). by apply NoDup_cons in Hnd as [? _]. Qed.

(** Enqueueing a member of the ring inside a cycle. *)
Lemma AddTransfer_inv J r l S t m :
  cycle_inv J r l m -> events_in S m -> t ∈ r ->
  exists m' l', Junction_AddTransfer J t m = Some m'
    /\ cycle_inv J r l' m' /\ events_in S m'
    /\ (forall a c', load a m' = Some c' ->
          exists c, load a m = Some c /\ c' = set_lltransfer (lltransfer c') c).
Proof.
  intros Hinv Hev Htr.
  pose proof Hinv as (Htl & Hsub & Hring & Hports & Hoff & HJok & Hpend).
  destruct (ring_member _ _ _ t Hring) as [c Hc]; [by right|].
  destruct (lltransfer c) as [n|] eqn:Hn.
  - exists m, l. rewrite (AddTransfer_linked _ _ _ _ _ Hc Hn).
    split; [done|]. split; [done|]. split; [done|].
    intros a c' Hl. exists c'. split; [done|]. symmetry. apply set_lltransfer_id.
  - destruct (AddTransfer_fresh _ _ _ _ _ Htl Hc Hn)
      as (cJ & HJ & HtJ & Htl' & Hrun & Htl2).
    eexists _, (t :: l). split; [exact Hrun|].
    assert (load J (store t (set_lltransfer (lltransfer cJ) c) m) = Some cJ) as HJ1
      by (by rewrite load_store_ne).
    destruct (cycle_inv_intro J r (t :: l) S
                (store J (set_lltransfer (Some t) cJ)
                   (store t (set_lltransfer (lltransfer cJ) c) m))) as [Hi He].
    + done.
    + intros a Ha. apply elem_of_cons in Ha as [->|Ha]; [done|by apply Hsub].
    + intros a c' Hl Hal HaJ.
      apply not_elem_of_cons in Hal as [Hat Hal].
      rewrite !load_store_ne in Hl by done. by eapply Hoff.
    + apply store_tl_cycle; [done|]. apply store_tl_cycle; [done|].
      by eapply cycle_inv_rest.
    + split; [done|]. split; [done|].
      intros a c' Hl. destruct (decide (a = J)) as [->|HaJ].
      * rewrite load_store_eq in Hl. injection Hl as <-. exists cJ. done.
      * rewrite load_store_ne in Hl by done. destruct (decide (a = t)) as [->|Hat].
        -- rewrite load_store_eq in Hl. injection Hl as <-. exists c. done.
        -- rewrite load_store_ne in Hl by done. exists c'. split; [done|].
           symmetry. apply set_lltransfer_id.
Qed.

Lemma junction_kevent_collect_inv J r l waiting m :
  cycle_inv J r l m ->
  exists m', junction_kevent_collect J waiting m = Some m'
    /\ step J [] m m' /\ collected_ok J r m'.
Proof.
  intros Hinv.
  pose proof Hinv as (_ & _ & _ & Hports & _ & (cJ & HJ & Hok) & Hpend).
  destruct (ports_ok_channel_port _ _ _ Hports HJ) as (pa & pp & Hpp).
  unfold junction_kevent_collect. rewrite HJ. simpl. rewrite Hpp. simpl.
  set (batch := take (Z.to_nat (window_stop cJ)) (default [] (head (k_pending (kern m))))).
  set (k1 := k_record (sys_collect waiting) (k_pop (kern m))).
  set (m1 := set_kern k1 m).
  assert (step J [] m m1) as Hs1.
  { apply step_set_kern. intros b Hb. simpl in Hb.
    destruct (k_pending (kern m)); [done|]. by right. }
  assert (load J m1 = Some cJ) as HJ1 by done.
  destruct Hok as (Hws & Hlen & Hcap).
  assert (length batch <= length (kevents (choice cJ)))%nat as Hbl.
  { unfold batch. rewrite length_take. lia. }
  set (f2 := fun c : Channel =>
               set_choice (set_kevents (batch ++ drop (length batch) (kevents (choice cJ)))
                             (choice c)) c).
  destruct (modify_step J [] J f2 m1 cJ HJ1) as (m2 & Hrun2 & Hs2 & HJ2 & _);
    [by repeat split|done| |].
  { intros _ _. unfold kevents_ok, f2. simpl.
    rewrite length_app, length_drop. lia. }
  rewrite Hrun2. simpl.
  destruct (modify_step J [] J (Junction_SetNCollected (Z.of_nat (length batch))) m2 _ HJ2)
    as (m3 & Hrun3 & Hs3 & HJ3 & _); [by repeat split|done| |].
  { intros _ _. unfold kevents_ok, f2. simpl.
    rewrite length_app, length_drop. lia. }
  exists m3. split; [done|]. split.
  - eapply step_trans; [exact Hs1|]. eapply step_trans; [exact Hs2|exact Hs3].
  - eexists. split; [exact HJ3|]. intros kev Hkev.
    unfold queued in Hkev. simpl in Hkev. rewrite Nat2Z.id in Hkev.
    rewrite take_app_length in Hkev.
    unfold batch in Hkev. apply elem_of_take in Hkev as (i & Hi & _).
    apply list_elem_of_lookup_2 in Hi.
    destruct (k_pending (kern m)) as [|b bs] eqn:Hpd; simpl in Hi.
    + by apply elem_of_nil in Hi.
    + eapply Hpend; [|exact Hi]. rewrite Hpd. left.
Qed.

Lemma modify_port_step J S p f m x :
  load_port p m = Some x ->
  exists m', modify_port p f m = Some m' /\ step J S m m'
    /\ (forall a, load a m' = load a m).
Proof.
  intros Hp. unfold modify_port. rewrite Hp. simpl. eexists. split; [done|].
  split; [by eapply step_set_ports|done].
Qed.

Lemma junction_kevent_transform_step_inv J r l kev m :
  cycle_inv J r l m -> events_in [] m -> kev_udata kev ∈ J :: r ->
  exists m' l', junction_kevent_transform_step J kev m = Some m'
    /\ cycle_inv J r l' m' /\ events_in [] m'.
Proof.
  intros Hinv Hev Hu. unfold junction_kevent_transform_step.
  case_bool_decide as HtJ; [by exists m, l|].
  apply elem_of_cons in Hu as [?|Htr]; [done|].
  pose proof Hinv as (_ & _ & Hring & Hports & _).
  destruct (ring_member _ _ _ (kev_udata kev) Hring) as [c Hc]; [by right|].
  rewrite Hc. simpl.
  destruct (bool_decide (kev_filter kev = EVFILT_WRITE)
            && negb (Z.land (kev_flags kev) EV_EOF =? 0)).
  - destruct (modify_step J [] _ (Channel_XQualify teq_terminate) m c Hc)
      as (m1 & -> & Hs1 & Hl1 & _); [by repeat split|done|done|].
    simpl.
    pose proof (cycle_inv_step _ _ _ _ _ _ Hinv Hs1) as Hinv1.
    pose proof (events_in_step _ _ _ _ _ (reflexivity _) Hev Hs1) as Hev1.
    destruct (Hports _ _ Hc) as (p & x & Hp & Hx).
    rewrite Hp. simpl.
    pose proof Hinv1 as (_ & _ & _ & Hports1 & _).
    destruct (Hports1 _ _ Hl1) as (p' & x' & Hp' & Hx').
    simpl in Hp'. rewrite Hp in Hp'. injection Hp' as <-.
    destruct (modify_port_step J [] p (Port_SetError (kev_fflags kev) kc_eof) m1 x' Hx')
      as (m2 & -> & Hs2 & _).
    simpl.
    pose proof (cycle_inv_step _ _ _ _ _ _ Hinv1 Hs2) as Hinv2.
    pose proof (events_in_step _ _ _ _ _ (reflexivity _) Hev1 Hs2) as Hev2.
    destruct (AddTransfer_inv J r l [] _ m2 Hinv2 Hev2 Htr) as (m3 & l3 & -> & ? & ? & _).
    by exists m3, l3.
  - destruct (modify_step J [] _ (Channel_XQualify teq_transfer) m c Hc)
      as (m1 & -> & Hs1 & Hl1 & _); [by repeat split|done|done|].
    simpl. rewrite Hl1. simpl.
    pose proof (cycle_inv_step _ _ _ _ _ _ Hinv Hs1) as Hinv1.
    pose proof (events_in_step _ _ _ _ _ (reflexivity _) Hev Hs1) as Hev1.
    destruct (Channel_IQualified _ teq_transfer).
    + destruct (AddTransfer_inv J r l [] _ m1 Hinv1 Hev1 Htr) as (m3 & l3 & -> & ? & ? & _).
      by exists m3, l3.
    + by exists m1, l.
Qed.

Lemma junction_kevent_transform_loop_inv J r kevs : forall l m,
  cycle_inv J r l m -> events_in [] m ->
  (forall kev, kev ∈ kevs -> kev_udata kev ∈ J :: r) ->
  exists m' l', junction_kevent_transform_loop J kevs m = Some m'
    /\ cycle_inv J r l' m' /\ events_in [] m'.
Proof.
  induction kevs as [|kev kevs IH]; intros l m Hinv Hev Hk.
  - by exists m, l.
  - destruct (junction_kevent_transform_step_inv J r l kev m Hinv Hev)
      as (m1 & l1 & Hrun & Hinv1 & Hev1); [apply Hk; left|].
    destruct (IH l1 m1 Hinv1 Hev1) as (m2 & l2 & Hrun2 & ? & ?).
    { intros k Hin. apply Hk. by right. }
    exists m2, l2. simpl. rewrite Hrun. simpl. by rewrite Hrun2.
Qed.

Lemma junction_kevent_transform_inv J r l m :
  cycle_inv J r l m -> events_in [] m -> collected_ok J r m ->
  exists m' l', junction_kevent_transform J m = Some m'
    /\ cycle_inv J r l' m' /\ events_in [] m'.
Proof.
  intros Hinv Hev (cJ & HJ & Hcol).
  pose proof Hinv as (_ & _ & _ & _ & _ & (cJ' & HJ' & Hok) & _).
  rewrite HJ in HJ'. injection HJ' as <-.
  unfold junction_kevent_transform. rewrite HJ. simpl.
  destruct Hok as (Hws & Hlen & Hcap). unfold Junction_NCollected.
  destruct (Z.leb_spec 0 (window_start cJ)) as [_|?]; [|lia].
  destruct (Z.leb_spec (window_start cJ) (Z.of_nat (length (kevents (choice cJ)))))
    as [_|?]; [|lia].
  simpl. by apply junction_kevent_transform_loop_inv with l.
Qed.

Lemma junction_recollect_inv J r n : forall l m,
  cycle_inv J r l m -> events_in [] m ->
  exists m' l', junction_recollect n J m = Some m'
    /\ cycle_inv J r l' m' /\ events_in [] m'.
Proof.
  induction n as [|n IH]; intros l m Hinv Hev.
  - by exists m, l.
  - pose proof Hinv as (_ & _ & _ & _ & _ & (cJ & HJ & Hok) & _).
    simpl. rewrite HJ. simpl. destruct (Junction_MaxCollected cJ); [|by exists m, l].
    destruct (junction_kevent_collect_inv J r l false m Hinv) as (m1 & -> & Hs1 & Hcol).
    simpl.
    pose proof (cycle_inv_step _ _ _ _ _ _ Hinv Hs1) as Hinv1.
    pose proof (events_in_step _ _ _ _ _ (reflexivity _) Hev Hs1) as Hev1.
    destruct (junction_kevent_transform_inv J r l m1 Hinv1 Hev1 Hcol)
      as (m2 & l2 & -> & Hinv2 & Hev2).
    simpl. by apply IH with l2.
Qed.

(** ** The transfer loop *)

Lemma junction_flow_step_inv J r l t m :
  cycle_inv J r l m -> t ∈ l ->
  exists m', junction_flow_step J t m = Some m' /\ step J [t] m m'.
Proof.
  intros Hinv Htl.
  pose proof Hinv as (Htlist & _ & _ & Hports & _ & (cJ & HJ & Hok) & _).
  assert (t <> J) as HtJ.
  { intros ->. by apply (tlist_J_not_in _ _ _ Htlist). }
  destruct (tlist_member _ _ _ t Htlist) as [c Hc]; [by right|].
  unfold junction_flow_step.
  destruct (modify_step J [t] J Junction_IncrementTransferCount m cJ HJ)
    as (m1 & -> & Hs1 & HJ1 & Hfr1 & _); [by repeat split|done|by intros _|].
  simpl. rewrite Hfr1 by done. rewrite Hc. simpl.
  assert (ports_ok m1) as Hports1 by (by eapply step_ports_ok).
  assert (load t m1 = Some c) as Hc1 by (by rewrite Hfr1).
  assert (forall m2 c2, step J [t] m1 m2 -> load t m2 = Some c2 ->
            exists m', junction_cancel J t m2 = Some m' /\ step J [t] m m') as Hcancel.
  { intros m2 c2 Hs2 Hc2.
    destruct (step_kevents_ok _ _ _ _ _ Hs2 HJ1 Hok) as (cJ2 & HJ2 & Hok2).
    destruct (junction_cancel_step J [t] t m2 cJ2 c2 HtJ HJ2 Hok2) as (m' & ? & ? & _);
      [by eapply step_ports_ok|done|].
    exists m'. split; [done|].
    eapply step_trans; [exact Hs1|]. by eapply step_trans. }
  assert (forall f m2 c2, step J [t] m1 m2 -> load t m2 = Some c2 ->
            links_same c2 (f c2) ->
            exists m', modify t f m2 = Some m' /\ step J [t] m1 m'
                       /\ load t m' = Some (f c2)) as Hmod.
  { intros f m2 c2 Hs2 Hc2 Hl.
    destruct (modify_step J [t] t f m2 c2 Hc2 Hl) as (m' & ? & ? & ? & _).
    - intros Hn. exfalso. apply Hn. left.
    - intros ->. done.
    - exists m'. split; [done|]. split; [by eapply step_trans|done]. }
  destruct (Channel_ShouldTerminate c).
  - destruct (negb (Channel_GetControl c ctl_requeue)).
    + destruct (Hcancel m1 c (step_refl _ _ _) Hc1) as (m2 & -> & Hs2).
      simpl.
      destruct (step_load _ _ _ _ _ _ Hs2 Hc) as (c2 & Hc2 & _).
      destruct (modify_step J [t] t (Channel_NoteEvent tev_terminate) m2 c2 Hc2)
        as (m3 & ? & ? & _); [by repeat split| | |].
      * intros Hn. exfalso. apply Hn. left.
      * intros ->. done.
      * exists m3. split; [done|]. by eapply step_trans.
    + simpl.
      destruct (Hmod (Channel_NoteEvent tev_terminate) m1 c (step_refl _ _ _) Hc1)
        as (m3 & ? & ? & _); [by repeat split|].
      exists m3. split; [done|]. by eapply step_trans.
  - destruct (Channel_ShouldTransfer c); [|by exists m1].
    destruct (Hmod (Channel_NoteEvent tev_transfer) m1 c (step_refl _ _ _) Hc1)
      as (m2 & -> & Hs2 & Hc2); [by repeat split|].
    simpl.
    destruct (k_io (kern m2) t _) as [stat xfer].
    destruct (Hmod (Channel_ExpandWindow xfer) m2 _ Hs2 Hc2)
      as (m3 & -> & Hs3 & Hc3); [by repeat split|].
    simpl. destruct stat.
    + destruct (Hmod (Channel_INQualify teq_transfer) m3 _ Hs3 Hc3)
        as (m4 & -> & Hs4 & Hc4); [by repeat split|].
      exists m4. split; [done|]. by eapply step_trans.
    + destruct (Hmod (Channel_XNQualify teq_transfer) m3 _ Hs3 Hc3)
        as (m4 & -> & Hs4 & Hc4); [by repeat split|].
      exists m4. split; [done|]. by eapply step_trans.
    + destruct (Hmod (Channel_XQualify teq_terminate) m3 _ Hs3 Hc3)
        as (m4 & -> & Hs4 & Hc4); [by repeat split|].
      simpl.
      destruct (Hmod (Channel_NoteEvent tev_terminate) m4 _ Hs4 Hc4)
        as (m5 & -> & Hs5 & Hc5); [by repeat split|].
      simpl. rewrite Hc5. simpl.
      destruct (negb (Channel_GetControl _ ctl_requeue)).
      * by eapply Hcancel.
      * exists m5. split; [done|]. by eapply step_trans.
Qed.

Lemma junction_flow_loop_inv J r l : forall rest m fuel,
  (length rest < fuel)%nat ->
  (exists pre, l = pre ++ rest) ->
  cycle_inv J r l m -> events_in l m ->
  exists m', junction_flow_loop fuel J (default J (head rest)) m = Some m'
    /\ cycle_inv J r l m' /\ events_in l m'.
Proof.
  induction rest as [|x rest IH]; intros m fuel Hfuel [pre Hpre] Hinv Hev.
  - exists m. destruct fuel; simpl; rewrite bool_decide_eq_true_2 by done; done.
  - destruct fuel as [|fuel]; [simpl in Hfuel; lia|].
    assert (x ∈ l) as Hxl by (rewrite Hpre; apply elem_of_app; right; left).
    assert (x <> J) as HxJ.
    { intros ->. by apply (tlist_J_not_in _ _ _ (proj1 Hinv)). }
    destruct (junction_flow_step_inv J r l x m Hinv Hxl) as (m1 & Hrun & Hs1).
    pose proof (cycle_inv_step _ _ _ _ _ _ Hinv Hs1) as Hinv1.
    assert (events_in l m1) as Hev1.
    { eapply events_in_step; [|exact Hev|exact Hs1].
      intros a Ha. apply list_elem_of_singleton in Ha as ->. done. }
    assert (ptr_at lltransfer m1 x = Some (default J (head rest))) as Hnx.
    { destruct Hinv1 as ([Hc _] & _). rewrite Hpre in Hc.
      rewrite <- app_assoc in Hc. rewrite app_comm_cons in Hc.
      apply chain_app in Hc as [_ Hc].
      change ((x :: rest) ++ [J]) with (x :: rest ++ [J]) in Hc.
      by apply chain_head in Hc as [? _]. }
    apply ptr_at_Some in Hnx as (c & Hc & Hnx).
    destruct (IH m1 fuel) as (m' & Hrun' & Hinv' & Hev'); try done.
    { simpl in Hfuel. lia. }
    { exists (pre ++ [x]). by rewrite <- app_assoc. }
    exists m'. simpl. rewrite bool_decide_eq_false_2 by done.
    rewrite Hrun. simpl. rewrite Hc. simpl. rewrite Hnx. simpl. done.
Qed.

(** ** Walks along the ring *)

Lemma rev_reverse {A} (l : list A) : rev l = reverse l.
Proof. apply rev_alt. Qed.

Lemma ring_fuel m J r : ring m J r -> (length r < fuel_of m)%nat.
Proof.
  intros Hr. unfold fuel_of. apply Nat.lt_succ_r. apply length_le_size.
  - destruct Hr as (_ & _ & Hnd). by apply NoDup_cons in Hnd as [_ ?].
  - intros x Hx. eapply ring_member; [exact Hr|]. by right.
Qed.

Opaque fuel_of.

Lemma ring_each_step J S f :
  (forall c, links_same c (f c) /\ events (f c) = events c) ->
  forall rest m fuel,
  (length rest < fuel)%nat -> J ∉ rest -> chain next m (rest ++ [J]) ->
  exists m', ring_each fuel J (default J (head rest)) f m = Some m'
    /\ step J S m m' /\ load J m' = load J m.
Proof.
  intros Hf. induction rest as [|x rest IH]; intros m fuel Hfuel HJ Hc.
  - exists m. destruct fuel; simpl; rewrite bool_decide_eq_true_2 by done;
      (split; [done|split; [apply step_refl|done]]).
  - destruct fuel as [|fuel]; [simpl in Hfuel; lia|].
    apply not_elem_of_cons in HJ as [HxJ HJ].
    change ((x :: rest) ++ [J]) with (x :: rest ++ [J]) in Hc.
    apply chain_head in Hc as [Hx Hc].
    apply ptr_at_Some in Hx as (c & Hc0 & Hnx).
    destruct (Hf c) as [Hl He].
    destruct (modify_step J S x f m c Hc0 Hl) as (m1 & Hrun & Hs1 & Hl1 & Hfr1 & _);
      [done|by intros ->|].
    destruct (IH m1 fuel) as (m' & Hrun' & Hs' & HJ').
    { simpl in Hfuel. lia. }
    { done. }
    { eapply step_chain; [apply links_next|exact Hs1|exact Hc]. }
    exists m'. simpl. rewrite bool_decide_eq_false_2 by done.
    rewrite Hrun. simpl. rewrite Hl1. simpl.
    rewrite (links_next _ _ Hl), Hnx. simpl.
    split; [done|]. split; [by eapply step_trans|].
    rewrite HJ'. apply Hfr1. done.
Qed.

Lemma ring_next_head m J r cJ :
  ring m J r -> load J m = Some cJ ->
  next cJ = Some (default J (head r)) /\ chain next m (r ++ [J]).
Proof.
  intros (Hn & _) HJ. apply chain_head in Hn as [Hh Hn].
  apply ptr_at_Some in Hh as (c & Hc & Hh). split; [congruence|done].
Qed.

Lemma junction_reload_step J r S m :
  ring m J r -> exists m', junction_reload J m = Some m' /\ step J S m m'.
Proof.
  intros Hr. destruct (ring_member _ _ _ J Hr) as [cJ HJ]; [left|].
  destruct (ring_next_head _ _ _ _ Hr HJ) as [Hh Hn].
  destruct (ring_each_step J S (Channel_DControl ctl_connect)) with (rest := r) (m := m)
    (fuel := fuel_of m) as (m' & Hrun & Hs & _).
  - intros c. by repeat split.
  - by apply ring_fuel with J.
  - by eapply ring_J_not_in.
  - done.
  - exists m'. unfold junction_reload. rewrite HJ. simpl. rewrite Hh. simpl. done.
Qed.

Lemma junction_init_step J S m c :
  load J m = Some c -> ports_ok m ->
  exists m', junction_init J m = Some m' /\ step J S m m'.
Proof.
  intros HJ Hports. destruct (ports_ok_channel_port _ _ _ Hports HJ) as (pa & p & Hp).
  unfold junction_init. rewrite Hp. simpl.
  destruct (k_kqueue (kern m) p) as [failed p'].
  apply channel_port_Some in Hp as (c' & _ & _ & Hlp).
  destruct (modify_port_step J S pa (fun _ => p') m p Hlp) as (m1 & -> & Hs1 & _).
  simpl. destruct failed.
  - eexists. split; [done|]. eapply step_trans; [exact Hs1|].
    apply step_set_kern. done.
  - eexists. split; [done|]. eapply step_trans; [exact Hs1|].
    eapply step_trans; apply step_set_kern; done.
Qed.

Lemma _junction_terminate_step J r S m cJ :
  ring m J r -> load J m = Some cJ -> ports_ok m ->
  exists m', _junction_terminate J m = Some m' /\ step J S m m'.
Proof.
  intros Hr HJ Hports. unfold _junction_terminate.
  destruct (modify_step J S J (Channel_IQualify teq_terminate) m cJ HJ)
    as (m1 & -> & Hs1 & HJ1 & _); [by repeat split|done|by intros _|].
  simpl. rewrite HJ1. simpl.
  assert (ring m1 J r) as Hr1.
  { destruct Hr as (Hn & Hp & Hnd). split; [|split; [|done]].
    - eapply step_chain; [apply links_next|exact Hs1|exact Hn].
    - eapply step_chain; [apply links_prev|exact Hs1|exact Hp]. }
  destruct (ring_next_head _ _ _ _ Hr1 HJ1) as [Hh Hn].
  simpl in Hh. rewrite Hh. simpl.
  destruct (ring_each_step J S (Channel_DQualify teq_terminate)) with (rest := r) (m := m1)
    (fuel := fuel_of m1) as (m2 & -> & Hs2 & HJ2).
  - intros c. by repeat split.
  - by apply ring_fuel with J.
  - by eapply ring_J_not_in.
  - done.
  - simpl.
    assert (ports_ok m2) as Hports2.
    { eapply step_ports_ok; [|exact Hports]. by eapply step_trans. }
    rewrite HJ1 in HJ2.
    destruct (ports_ok_channel_port _ _ _ Hports2 HJ2) as (pa & p & Hp).
    rewrite Hp. simpl.
    apply channel_port_Some in Hp as (c' & _ & _ & Hlp).
    destruct (modify_port_step J S pa (port_unlatch p_neutral) m2 p Hlp) as (m3 & -> & Hs3 & _).
    eexists. split; [done|].
    eapply step_trans; [exact Hs1|]. by eapply step_trans.
Qed.

(** ** The delta scan inside a cycle *)

Lemma junction_transfer_delta_loop_inv J r : forall path l m fuel,
  (length path < fuel)%nat ->
  (exists pre, rev r = pre ++ path) ->
  cycle_inv J r l m -> events_in [] m ->
  (exists cJ, load J m = Some cJ /\ delta cJ = 0) ->
  exists m' l', junction_transfer_delta_loop fuel J (default J (head path)) m = Some m'
    /\ cycle_inv J r l' m' /\ events_in [] m'.
Proof.
  induction path as [|x path IH]; intros l m fuel Hfuel [pre Hpre] Hinv Hev (cJ & HJ & HdJ).
  - destruct fuel as [|fuel]; [simpl in Hfuel; lia|].
    exists m, l. simpl. rewrite HJ. simpl. rewrite HdJ. done.
  - destruct fuel as [|fuel]; [simpl in Hfuel; lia|].
    pose proof Hinv as (_ & _ & Hring & _).
    assert (x ∈ r) as Hxr.
    { apply list_elem_of_In. apply in_rev. apply list_elem_of_In.
      rewrite Hpre. apply elem_of_app. right. left. }
    assert (x <> J) as HxJ.
    { intros ->. by apply (ring_J_not_in _ _ _ Hring). }
    destruct (ring_member _ _ _ x Hring) as [c Hc]; [by right|].
    simpl. rewrite Hc. simpl.
    destruct (Z.eqb_spec (delta c) 0) as [?|Hd]; [by exists m, l|].
    destruct (modify_step J [] x (Channel_StateMerge (delta c)) m c Hc)
      as (m1 & -> & Hs1 & Hl1 & Hfr1 & _); [by repeat split|done|by intros ->|].
    simpl.
    destruct (modify_step J [] x Channel_ClearDelta m1 _ Hl1)
      as (m2 & -> & Hs2 & Hl2 & Hfr2 & _); [by repeat split|done|by intros ->|].
    simpl.
    assert (step J [] m m2) as Hs by (by eapply step_trans).
    pose proof (cycle_inv_step _ _ _ _ _ _ Hinv Hs) as Hinv2.
    pose proof (events_in_step _ _ _ _ _ (reflexivity _) Hev Hs) as Hev2.
    destruct (AddTransfer_inv J r l [] x m2 Hinv2 Hev2 Hxr)
      as (m3 & l3 & -> & Hinv3 & Hev3 & Htl3).
    simpl.
    (* the pointer to follow *)
    pose proof Hinv3 as (_ & _ & (_ & Hprev3 & _) & _).
    rewrite Hpre in Hprev3. rewrite <- app_assoc, app_comm_cons in Hprev3.
    apply chain_app in Hprev3 as [_ Hprev3].
    change ((x :: path) ++ [J]) with (x :: path ++ [J]) in Hprev3.
    apply chain_head in Hprev3 as [Hx3 _].
    apply ptr_at_Some in Hx3 as (c3 & Hc3 & Hp3).
    rewrite Hc3. simpl. rewrite Hp3. simpl.
    apply IH with l3; try done.
    + simpl in Hfuel. lia.
    + exists (pre ++ [x]). by rewrite <- app_assoc.
    + destruct (ring_member _ _ _ J (proj1 (proj2 (proj2 Hinv3)))) as [cJ3 HJ3]; [left|].
      exists cJ3. split; [done|].
      destruct (Htl3 _ _ HJ3) as (cJ2 & HJ2 & ->). simpl.
      rewrite Hfr2, Hfr1 in HJ2 by done. congruence.
Qed.

Lemma junction_transfer_delta_inv J r l m :
  cycle_inv J r l m -> events_in [] m ->
  (exists cJ, load J m = Some cJ /\ delta cJ = 0) ->
  exists m' l', junction_transfer_delta J m = Some m'
    /\ cycle_inv J r l' m' /\ events_in [] m'.
Proof.
  intros Hinv Hev (cJ & HJ & HdJ).
  pose proof Hinv as (_ & _ & Hring & _).
  pose proof Hring as (_ & Hprev & _).
  apply chain_head in Hprev as [Hh _].
  apply ptr_at_Some in Hh as (c & Hc & Hh). rewrite HJ in Hc. injection Hc as <-.
  destruct (junction_transfer_delta_loop_inv J r (rev r) l m (fuel_of m))
    as (m' & l' & Hrun & ? & ?); try done.
  - rewrite length_rev. by apply ring_fuel with J.
  - by exists [].
  - by exists cJ.
  - exists m', l'. unfold junction_transfer_delta. rewrite HJ. simpl. rewrite Hh. simpl. done.
Qed.

(** ** Detaching from the ring *)

Lemma ring_diff_refl c : ring_diff c c.
Proof. unfold ring_diff. by destruct c. Qed.

Lemma ring_diff_set_next c c' x : ring_diff c c' -> ring_diff c (set_next x c').
Proof. unfold ring_diff. intros ->. by destruct c. Qed.

Lemma ring_diff_set_prev c c' x : ring_diff c c' -> ring_diff c (set_prev x c').
Proof. unfold ring_diff. intros ->. by destruct c. Qed.

Lemma ring_diff_fields c c' :
  ring_diff c c' ->
  lltransfer c' = lltransfer c /\ events c' = events c /\ port c' = port c.
Proof. unfold ring_diff. intros ->. done. Qed.

Lemma detach_segment_loads m p s cp cs :
  load p m = Some cp -> load s m = Some cs ->
  exists m2,
    (m1 ← modify p (set_next (Some s)) m; modify s (set_prev (Some p)) m1) = Some m2
    /\ ptr_at next m2 p = Some s
    /\ ptr_at prev m2 s = Some p
    /\ (forall a, a <> p -> ptr_at next m2 a = ptr_at next m a)
    /\ (forall a, a <> s -> ptr_at prev m2 a = ptr_at prev m a)
    /\ (forall a, option_Forall2 ring_diff (load a m) (load a m2))
    /\ (forall a, a <> p -> a <> s -> load a m2 = load a m)
    /\ ports m2 = ports m /\ kern m2 = kern m.
Proof.
  intros Hp Hs. rewrite (modify_Some _ _ _ _ Hp). simpl.
  set (m1 := store p (set_next (Some s) cp) m).
  destruct (decide (s = p)) as [->|Hne].
  - assert (load p m1 = Some (set_next (Some p) cp)) as Hp1 by apply load_store_eq.
    rewrite (modify_Some _ _ _ _ Hp1). eexists. split; [done|].
    unfold m1. rewrite store_store.
    split; [by rewrite ptr_at_store_eq|]. split; [by rewrite ptr_at_store_eq|].
    split; [intros a Ha; by rewrite ptr_at_store_ne|].
    split; [intros a Ha; by rewrite ptr_at_store_ne|].
    split; [|split; [intros a Ha _; by rewrite load_store_ne|done]].
    intros a. destruct (decide (a = p)) as [->|Ha].
    + rewrite load_store_eq, Hp. constructor.
      apply ring_diff_set_prev, ring_diff_set_next, ring_diff_refl.
    + rewrite load_store_ne by done. destruct (load a m); constructor. apply ring_diff_refl.
  - assert (load s m1 = Some cs) as Hs1 by (unfold m1; by rewrite load_store_ne).
    rewrite (modify_Some _ _ _ _ Hs1). eexists. split; [done|].
    split.
    { rewrite ptr_at_store_ne by congruence. unfold m1. by rewrite ptr_at_store_eq. }
    split; [by rewrite ptr_at_store_eq|].
    split.
    { intros a Ha. rewrite (ptr_at_store_same next s cs) by done.
      unfold m1. by rewrite ptr_at_store_ne. }
    split.
    { intros a Ha. rewrite ptr_at_store_ne by done. unfold m1.
      by rewrite (ptr_at_store_same prev p cp). }
    split; [|split; [|done]].
    + intros a. destruct (decide (a = s)) as [->|Has].
      * rewrite load_store_eq, Hs. constructor. apply ring_diff_set_prev, ring_diff_refl.
      * rewrite load_store_ne by done. unfold m1. destruct (decide (a = p)) as [->|Hap].
        -- rewrite load_store_eq, Hp. constructor. apply ring_diff_set_next, ring_diff_refl.
        -- rewrite load_store_ne by done. destruct (load a m); constructor.
           apply ring_diff_refl.
    + intros a Hap Has. rewrite load_store_ne by done. unfold m1.
      by rewrite load_store_ne.
Qed.

Lemma rev_middle (r1 r2 : list addr) t : rev (r1 ++ t :: r2) = rev r2 ++ t :: rev r1.
Proof. rewrite rev_app_distr. simpl. by rewrite <- app_assoc. Qed.

Lemma default_head_rev (J : addr) l : default J (head (rev l)) = default J (last l).
Proof. by rewrite rev_reverse, head_reverse. Qed.

Lemma default_last_rev (J : addr) l : default J (last (rev l)) = default J (head l).
Proof. by rewrite rev_reverse, last_reverse. Qed.

Lemma default_head_in (J : addr) l : default J (head l) ∈ J :: l.
Proof. destruct l; simpl; [left|right; left]. Qed.

Lemma default_last_in (J : addr) l : default J (last l) ∈ J :: l.
Proof.
  destruct (cons_snoc J l) as (A & p & HA & Hp). rewrite <- Hp, HA.
  apply elem_of_app. right. left.
Qed.

(** A store outside of the ring. *)
Lemma ring_store_off m J r t c : ring m J r -> t ∉ J :: r -> ring (store t c m) J r.
Proof.
  intros (Hn & Hp & Hnd) Ht. split; [|split; [|done]].
  - change (J :: r ++ [J]) with ((J :: r) ++ [J]) in *.
    eapply chain_frame; [|exact Hn]. intros a Ha. apply ptr_at_store_ne. by intros ->.
  - change (J :: rev r ++ [J]) with ((J :: rev r) ++ [J]) in *.
    eapply chain_frame; [|exact Hp]. intros a Ha. apply ptr_at_store_ne. intros ->.
    apply Ht. apply elem_of_cons in Ha as [->|Ha]; [left|right].
    by apply list_elem_of_In, in_rev, list_elem_of_In in Ha.
Qed.

(** [TRANSIT_DETACH_SEGMENT(t, t)] takes a member out of the ring and
    leaves its own pointers as they are. *)
Lemma TRANSIT_DETACH_SEGMENT_ring J r1 t r2 m :
  ring m J (r1 ++ t :: r2) ->
  exists m' ct, TRANSIT_DETACH_SEGMENT t t m = Some m'
    /\ load t m = Some ct /\ load t m' = Some ct
    /\ (t ∉ J :: r1 ++ r2)
    /\ ring m' J (r1 ++ r2)
    /\ (forall a, option_Forall2 ring_diff (load a m) (load a m'))
    /\ (forall a, a ∉ J :: r1 ++ r2 -> load a m' = load a m)
    /\ ports m' = ports m /\ kern m' = kern m.
Proof.
  intros Hring. pose proof Hring as (Hn & Hp & Hnd).
  set (p := default J (last r1)). set (s := default J (head r2)).
  apply NoDup_cons in Hnd as [HJ Hnd].
  apply NoDup_app in Hnd as (Hnd1 & Hdis & Hnd2).
  apply NoDup_cons in Hnd2 as [Ht2 Hnd2].
  assert (t <> J) as HtJ.
  { intros ->. apply HJ. apply elem_of_app. right. left. }
  assert (t ∉ r1) as Ht1.
  { intros Hin. apply (Hdis t Hin). left. }
  assert (J ∉ r1) as HJ1 by (intros Hin; apply HJ; apply elem_of_app; by left).
  assert (J ∉ r2) as HJ2 by (intros Hin; apply HJ; apply elem_of_app; right; by right).
  assert (p ∈ J :: r1) as Hpin by apply default_last_in.
  assert (s ∈ J :: r2) as Hsin by apply default_head_in.
  assert (p <> t) as Hpt.
  { intros Heq. rewrite Heq in Hpin. apply elem_of_cons in Hpin as [?|?]; done. }
  assert (s <> t) as Hst.
  { intros Heq. rewrite Heq in Hsin. apply elem_of_cons in Hsin as [?|?]; done. }
  (* the two chains around [t] *)
  destruct (cons_snoc J r1) as (A & p' & HA & Hp'). fold p in Hp'. subst p'.
  assert (chain next m (A ++ p :: t :: r2 ++ [J])) as Hn'.
  { replace (A ++ p :: t :: r2 ++ [J]) with (J :: (r1 ++ t :: r2) ++ [J]); [done|].
    rewrite <- app_assoc. by apply snoc_app_eq. }
  destruct (cons_snoc J (rev r2)) as (B & s' & HB & Hs').
  rewrite default_last_rev in Hs'. fold s in Hs'. subst s'.
  assert (chain prev m (B ++ s :: t :: rev r1 ++ [J])) as Hp'.
  { replace (B ++ s :: t :: rev r1 ++ [J]) with (J :: rev (r1 ++ t :: r2) ++ [J]); [done|].
    rewrite rev_middle. rewrite <- app_assoc. by apply snoc_app_eq. }
  assert (ptr_at next m t = Some s) as Htn.
  { apply chain_app in Hn' as [_ H]. apply chain_cons in H as [_ H].
    by apply chain_head in H as [? _]. }
  assert (ptr_at prev m t = Some p) as Htp.
  { apply chain_app in Hp' as [_ H]. apply chain_cons in H as [_ H].
    apply chain_head in H as [H _]. by rewrite default_head_rev in H. }
  apply ptr_at_Some in Htn as (ct & Hct & Hnext).
  apply ptr_at_Some in Htp as (ct' & Hct' & Hprev).
  rewrite Hct in Hct'. injection Hct' as <-.
  destruct (ring_member _ _ _ p Hring) as [cp Hcp].
  { apply elem_of_cons in Hpin as [->|?]; [left|right; apply elem_of_app; by left]. }
  destruct (ring_member _ _ _ s Hring) as [cs Hcs].
  { apply elem_of_cons in Hsin as [->|?]; [left|right; apply elem_of_app; right; by right]. }
  destruct (detach_segment_loads m p s cp cs Hcp Hcs)
    as (m2 & Hseg & Hpn & Hsp & Hfn & Hfp & Hdiff & Hoff & Hports & Hkern).
  exists m2, ct. split.
  { unfold TRANSIT_DETACH_SEGMENT. rewrite Hct. simpl.
    rewrite Hprev, Hnext. simpl. exact Hseg. }
  split; [done|]. split; [rewrite Hoff; done|].
  split.
  { intros Hin. apply elem_of_cons in Hin as [?|Hin]; [done|].
    apply elem_of_app in Hin as [?|?]; done. }
  split; [|split; [done|split; [|done]]].
  - split; [|split].
    + replace (J :: (r1 ++ r2) ++ [J]) with (A ++ p :: r2 ++ [J]).
      2:{ rewrite <- app_assoc. symmetry. by apply snoc_app_eq. }
      eapply chain_remove; [exact Hn'|exact Hpn|].
      intros a Ha. apply Hfn.
      assert (NoDup (A ++ [p])) as HndA.
      { rewrite <- HA. by apply NoDup_cons. }
      apply NoDup_app in HndA as (_ & HdisA & _).
      apply elem_of_app in Ha as [Ha|Ha].
      * intros ->. apply (HdisA p Ha). left.
      * intros ->. apply elem_of_cons in Hpin as [->|Hin]; [done|].
        apply (Hdis p Hin). by right.
    + replace (J :: rev (r1 ++ r2) ++ [J]) with (B ++ s :: rev r1 ++ [J]).
      2:{ rewrite rev_app_distr. rewrite <- app_assoc. symmetry. by apply snoc_app_eq. }
      eapply chain_remove; [exact Hp'| |].
      * rewrite default_head_rev. exact Hsp.
      * intros a Ha. apply Hfp.
        assert (NoDup (B ++ [s])) as HndB.
        { rewrite <- HB. apply NoDup_cons. split.
          - intros Hin. apply list_elem_of_In, in_rev, list_elem_of_In in Hin. done.
          - rewrite rev_reverse, reverse_Permutation. done. }
        apply NoDup_app in HndB as (_ & HdisB & _).
        apply elem_of_app in Ha as [Ha|Ha].
        -- intros ->. apply (HdisB s Ha). left.
        -- apply list_elem_of_In, in_rev, list_elem_of_In in Ha.
           intros ->. apply elem_of_cons in Hsin as [->|Hin]; [done|].
           apply (Hdis s Ha). by right.
    + apply NoDup_cons. split.
      * intros Hin. apply elem_of_app in Hin as [?|?]; done.
      * apply NoDup_app. split; [done|]. split; [|done].
        intros a Ha Har. apply (Hdis a Ha). by right.
  - intros a Ha. apply Hoff.
    + intros ->. apply Ha. apply elem_of_cons in Hpin as [->|?]; [left|right].
      apply elem_of_app. by left.
    + intros ->. apply Ha. apply elem_of_cons in Hsin as [->|?]; [left|right].
      apply elem_of_app. by right.
Qed.

Lemma TRANSIT_DETACH_ring J r1 t r2 m :
  ring m J (r1 ++ t :: r2) ->
  exists m', TRANSIT_DETACH t m = Some m'
    /\ ring m' J (r1 ++ r2)
    /\ (forall a, option_Forall2 ring_diff (load a m) (load a m'))
    /\ ports m' = ports m /\ kern m' = kern m.
Proof.
  intros Hring.
  destruct (TRANSIT_DETACH_SEGMENT_ring J r1 t r2 m Hring)
    as (m2 & ct & Hseg & Hct & Hct2 & Hnot & Hring2 & Hdiff & _ & Hports & Hkern).
  set (m4 := store t (set_next None (set_prev None ct)) m2).
  exists m4. split.
  { unfold TRANSIT_DETACH. rewrite Hseg. simpl.
    rewrite (modify_Some _ _ _ _ Hct2). simpl.
    erewrite modify_Some by apply load_store_eq. simpl. by rewrite store_store. }
  split; [by apply ring_store_off|]. split; [|done].
  intros a. destruct (decide (a = t)) as [->|Hat].
  - unfold m4. rewrite load_store_eq, Hct. constructor.
    apply ring_diff_set_next, ring_diff_set_prev, ring_diff_refl.
  - unfold m4. rewrite load_store_ne by done. apply Hdiff.
Qed.

(** ** Draining the transfer list *)

Lemma flush_inv_start J r l m :
  cycle_inv J r l m -> events_in l m -> flush_inv J r l [] m.
Proof.
  intros ([Hc Hnd] & Hsub & Hring & Hports & Hoff & _) Hev.
  apply NoDup_cons in Hnd as [HJ Hnd]. apply chain_head in Hc as [_ Hc].
  split; [done|]. split; [done|]. split; [done|]. split; [done|].
  split; [done|]. split; [done|].
  intros a c Hl Ha. split; [intros _; by eapply Hev|intros HaJ; by eapply Hoff].
Qed.

Lemma flush_inv_step J r rest S m m' :
  flush_inv J r rest S m -> step J S m m' -> flush_inv J r rest S m'.
Proof.
  intros (Hc & Hnd & HJ & Hsub & (Hn & Hp & Hndr) & Hports & Hcl) Hs.
  split; [eapply step_chain; [apply links_lltransfer|done|done]|].
  split; [done|]. split; [done|]. split; [done|]. split.
  { split; [|split; [|done]].
    - eapply step_chain; [apply links_next|done|done].
    - eapply step_chain; [apply links_prev|done|done]. }
  split; [by eapply step_ports_ok|].
  intros a c' Hl Ha.
  destruct (step_load_inv _ _ _ _ _ _ Hs Hl) as (c & Hc' & Hlinks & Hev).
  destruct (Hcl a c Hc' Ha) as [He Ht]. split.
  - intros HaS. rewrite Hev by done. by apply He.
  - intros HaJ. rewrite (links_lltransfer _ _ Hlinks). by apply Ht.
Qed.

Lemma flush_inv_unlink J r x rest m c :
  flush_inv J r (x :: rest) [] m -> load x m = Some c ->
  flush_inv J r rest [x] (store x (set_lltransfer None c) m)
  /\ lltransfer c = Some (default J (head rest))
  /\ x ∈ r /\ x <> J /\ (x ∉ rest).
Proof.
  intros (Hc & Hnd & HJ & Hsub & (Hn & Hp & Hndr) & Hports & Hcl) Hx.
  apply NoDup_cons in Hnd as [Hxr Hnd].
  apply not_elem_of_cons in HJ as [HJx HJ].
  change ((x :: rest) ++ [J]) with (x :: rest ++ [J]) in Hc.
  apply chain_head in Hc as [Hh Hc].
  apply ptr_at_Some in Hh as (c' & Hc' & Hh). rewrite Hx in Hc'. injection Hc' as <-.
  split; [|split; [done|split; [apply Hsub; left|split; [done|done]]]].
  split.
  { eapply chain_frame; [|exact Hc]. intros a Ha. apply ptr_at_store_ne. by intros ->. }
  split; [done|]. split; [done|]. split; [intros a Ha; apply Hsub; by right|].
  split.
  { split; [|split; [|done]].
    - eapply chain_ext; [|exact Hn]. intros a. by eapply ptr_at_store_same.
    - eapply chain_ext; [|exact Hp]. intros a. by eapply ptr_at_store_same. }
  split.
  { intros a c' Hl. destruct (decide (a = x)) as [->|Hne].
    - rewrite load_store_eq in Hl. injection Hl as <-. by apply (Hports x c).
    - rewrite load_store_ne in Hl by done. by apply (Hports a c'). }
  intros a c' Hl Ha. destruct (decide (a = x)) as [->|Hne].
  - rewrite load_store_eq in Hl. injection Hl as <-. split; [|done].
    intros Hn'. exfalso. apply Hn'. left.
  - rewrite load_store_ne in Hl by done.
    destruct (Hcl a c' Hl) as [He Ht].
    { apply not_elem_of_cons. done. }
    split; [|done]. intros _. apply He. apply not_elem_of_nil.
Qed.

Lemma flush_inv_detach J r x rest m :
  flush_inv J r rest [x] m -> x ∈ r -> x ∉ rest ->
  exists m' r', TRANSIT_DETACH x m = Some m'
    /\ flush_inv J r' rest [x] m'
    /\ (forall c, load x m = Some c -> exists c', load x m' = Some c').
Proof.
  intros (Hc & Hnd & HJ & Hsub & Hring & Hports & Hcl) Hxr Hxrest.
  apply list_elem_of_split in Hxr as (r1 & r2 & ->).
  destruct (TRANSIT_DETACH_ring J r1 x r2 m Hring) as (m' & Hrun & Hring' & Hdiff & Hp' & _).
  assert (forall a c', load a m' = Some c' ->
            exists c, load a m = Some c /\ lltransfer c' = lltransfer c
                      /\ events c' = events c /\ port c' = port c) as Hback.
  { intros a c' Hl. specialize (Hdiff a). rewrite Hl in Hdiff.
    inversion Hdiff as [c ? Hd|]; subst. exists c. split; [done|].
    by apply ring_diff_fields. }
  exists m', (r1 ++ r2). split; [done|]. split.
  - split.
    { eapply chain_ext; [|exact Hc]. intros a. unfold ptr_at.
      specialize (Hdiff a). destruct Hdiff as [c c' Hd|]; simpl; [|done].
      by apply ring_diff_fields in Hd as (? & _). }
    split; [done|]. split; [done|]. split.
    { intros a Ha. specialize (Hsub a Ha).
      apply elem_of_app in Hsub as [?|Hin]; [apply elem_of_app; by left|].
      apply elem_of_cons in Hin as [->|?]; [done|apply elem_of_app; by right]. }
    split; [done|]. split.
    { intros a c' Hl. destruct (Hback a c' Hl) as (c & Hc' & _ & _ & Hpc).
      destruct (Hports a c Hc') as (p & y & Hp & Hy).
      exists p, y. split; [congruence|]. unfold load_port in *. by rewrite Hp'. }
    intros a c' Hl Ha. destruct (Hback a c' Hl) as (c & Hc' & Htl & Hev & _).
    rewrite Htl, Hev. by apply Hcl.
  - intros c Hl. specialize (Hdiff x). rewrite Hl in Hdiff.
    inversion Hdiff; subst. eauto.
Qed.

Lemma flush_inv_clear J r x rest m c :
  flush_inv J r rest [x] m -> load x m = Some c ->
  flush_inv J r rest [] (store x (Channel_ClearEvents c) m).
Proof.
  intros (Hc & Hnd & HJ & Hsub & (Hn & Hp & Hndr) & Hports & Hcl) Hx.
  split; [eapply chain_ext; [|exact Hc]; intros a; by eapply ptr_at_store_same|].
  split; [done|]. split; [done|]. split; [done|]. split.
  { split; [|split; [|done]].
    - eapply chain_ext; [|exact Hn]. intros a. by eapply ptr_at_store_same.
    - eapply chain_ext; [|exact Hp]. intros a. by eapply ptr_at_store_same. }
  split.
  { intros a c' Hl. destruct (decide (a = x)) as [->|Hne].
    - rewrite load_store_eq in Hl. injection Hl as <-. by apply (Hports x c).
    - rewrite load_store_ne in Hl by done. by apply (Hports a c'). }
  intros a c' Hl Ha. destruct (decide (a = x)) as [->|Hne].
  - rewrite load_store_eq in Hl. injection Hl as <-. split; [done|].
    simpl. by apply (Hcl x c).
  - rewrite load_store_ne in Hl by done. destruct (Hcl a c' Hl Ha) as [He Ht].
    split; [|done]. intros _. apply He. apply not_elem_of_cons. split; [done|].
    apply not_elem_of_nil.
Qed.

Lemma flush_inv_modify J r x rest m c f :
  flush_inv J r rest [x] m -> load x m = Some c -> links_same c (f c) -> x <> J ->
  exists m', modify x f m = Some m' /\ flush_inv J r rest [x] m'
    /\ load x m' = Some (f c).
Proof.
  intros Hinv Hx Hl HxJ.
  destruct (modify_step J [x] x f m c Hx Hl) as (m' & Hrun & Hs & Hl' & _).
  - intros Hn. exfalso. apply Hn. left.
  - by intros ->.
  - exists m'. split; [done|]. split; [by eapply flush_inv_step|done].
Qed.

Lemma _junction_flush_step_inv J r x rest m :
  flush_inv J r (x :: rest) [] m ->
  exists m' r', _junction_flush_step J x m = Some (default J (head rest), m')
    /\ flush_inv J r' rest [] m'.
Proof.
  intros Hinv.
  assert (is_Some (load x m)) as [c Hx].
  { destruct Hinv as (Hc & _). eapply (chain_members _ _ (x :: rest)); [exact Hc|left]. }
  destruct (flush_inv_unlink J r x rest m c Hinv Hx) as (Hinv1 & Hnx & Hxr & HxJ & Hxrest).
  unfold _junction_flush_step, Channel_SetNextTransfer.
  rewrite Hx. simpl. rewrite Hnx. simpl. rewrite (modify_Some _ _ _ _ Hx). simpl.
  set (m1 := store x (set_lltransfer None c) m).
  assert (load x m1 = Some (set_lltransfer None c)) as Hx1 by apply load_store_eq.
  destruct (flush_inv_modify J r x rest m1 _ Channel_CollapseWindow Hinv1 Hx1)
    as (m2 & -> & Hinv2 & Hx2); [by repeat split|done|].
  simpl. rewrite Hx2. simpl.
  set (c2 := Channel_CollapseWindow (set_lltransfer None c)).
  assert (exists m3 r3 c3,
    (if Channel_HasEvent c2 tev_terminate
     then ma ← modify x Channel_ReleaseResource m2;
          mb ← modify x Channel_ReleaseLink ma;
          '(p, _) ← channel_port x mb;
          mc ← modify_port p (port_unlatch (Channel_Polarity c2)) mb;
          md ← TRANSIT_DETACH x mc;
          modify J Junction_DecrementChannelCount md
     else if negb (Channel_DQualified c2 teq_transfer)
             && negb (Channel_IQualified c2 teq_transfer)
          then modify x Channel_ReleaseResource m2 else Some m2) = Some m3
    /\ flush_inv J r3 rest [x] m3 /\ load x m3 = Some c3) as (m3 & r3 & c3 & -> & Hinv3 & Hx3).
  { assert (forall cc, links_same cc (Channel_ReleaseResource cc)) as Hrel.
    { intros cc. unfold Channel_ReleaseResource.
      destruct (Channel_HasResource cc); by repeat split. }
    destruct (Channel_HasEvent c2 tev_terminate).
    - destruct (flush_inv_modify J r x rest m2 _ Channel_ReleaseResource Hinv2 Hx2)
        as (ma & -> & Hinva & Hxa); [apply Hrel|done|].
      simpl.
      destruct (flush_inv_modify J r x rest ma _ Channel_ReleaseLink Hinva Hxa)
        as (mb & -> & Hinvb & Hxb); [|done|].
      { unfold Channel_ReleaseLink. destruct (link _); by repeat split. }
      simpl.
      pose proof Hinvb as (_ & _ & _ & _ & _ & Hportsb & _).
      destruct (ports_ok_channel_port _ _ _ Hportsb Hxb) as (pa & p & Hp).
      rewrite Hp. simpl.
      apply channel_port_Some in Hp as (cb & _ & _ & Hlp).
      destruct (modify_port_step J [x] pa (port_unlatch (Channel_Polarity c2)) mb p Hlp)
        as (mc & -> & Hsc & Hfrc).
      simpl.
      pose proof (flush_inv_step _ _ _ _ _ _ Hinvb Hsc) as Hinvc.
      destruct (flush_inv_detach J r x rest mc Hinvc Hxr Hxrest)
        as (md & r' & -> & Hinvd & Hxd).
      simpl.
      destruct (Hxd _ (eq_trans (Hfrc x) Hxb)) as (cd & Hcd).
      destruct (ring_member _ _ _ J (proj1 (proj2 (proj2 (proj2 (proj2 Hinvd))))))
        as [cJ HJ]; [left|].
      destruct (modify_step J [x] J Junction_DecrementChannelCount md cJ HJ)
        as (me & -> & Hse & _ & Hfre & _); [by repeat split|done|by intros _|].
      exists me, r', cd. split; [done|]. split; [by eapply flush_inv_step|].
      by rewrite Hfre.
    - destruct (negb (Channel_DQualified c2 teq_transfer)
                && negb (Channel_IQualified c2 teq_transfer)).
      + destruct (flush_inv_modify J r x rest m2 _ Channel_ReleaseResource Hinv2 Hx2)
          as (ma & -> & Hinva & Hxa); [apply Hrel|done|].
        by eexists ma, r, _.
      + by eexists m2, r, _. }
  simpl. rewrite (modify_Some _ _ _ _ Hx3). simpl.
  eexists _, r3. split; [done|]. by apply flush_inv_clear.
Qed.

Lemma _junction_flush_loop_inv J : forall rest r m fuel,
  (length rest < fuel)%nat ->
  flush_inv J r rest [] m ->
  exists m' r', _junction_flush_loop fuel J (default J (head rest)) m = Some m'
    /\ flush_inv J r' [] [] m'.
Proof.
  induction rest as [|x rest IH]; intros r m fuel Hfuel Hinv.
  - exists m, r. destruct fuel; simpl; rewrite bool_decide_eq_true_2 by done; done.
  - destruct fuel as [|fuel]; [simpl in Hfuel; lia|].
    assert (x <> J) as HxJ.
    { destruct Hinv as (_ & _ & HJ & _). by apply not_elem_of_cons in HJ as [? _]. }
    destruct (_junction_flush_step_inv J r x rest m Hinv) as (m1 & r1 & Hrun & Hinv1).
    destruct (IH r1 m1 fuel) as (m' & r' & Hrun' & Hinv'); [simpl in Hfuel; lia|done|].
    exists m', r'. simpl. rewrite bool_decide_eq_false_2 by done.
    rewrite Hrun. simpl. done.
Qed.

Lemma flush_inv_quiescent J r m cJ :
  flush_inv J r [] [] m -> load J m = Some cJ ->
  exists m', junction_finish_cycle J m = Some m' /\ quiescent m'.
Proof.
  intros (_ & _ & _ & _ & _ & _ & Hcl) HJ.
  unfold junction_finish_cycle, Channel_SetNextTransfer.
  rewrite (modify_Some _ _ _ _ HJ). simpl.
  erewrite modify_Some by apply load_store_eq. simpl. rewrite store_store.
  eexists. split; [done|]. intros a c Hl.
  destruct (decide (a = J)) as [->|Hne].
  - rewrite load_store_eq in Hl. injection Hl as <-. split; [|done].
    simpl. apply (Hcl J cJ HJ); apply not_elem_of_nil.
  - rewrite load_store_ne in Hl by done.
    destruct (Hcl a c Hl) as [He Ht]; [apply not_elem_of_nil|].
    split; [apply He; apply not_elem_of_nil|by apply Ht].
Qed.

Lemma junction_exit_quiescent J r l m :
  cycle_inv J r l m -> events_in l m ->
  exists m', junction_exit J m = Some (Returned Py_None, m') /\ quiescent m'.
Proof.
  intros Hinv Hev.
  destruct (tlist_head _ _ _ (proj1 Hinv)) as (cJ & HJ & Hh).
  pose proof (flush_inv_start _ _ _ _ Hinv Hev) as Hf.
  destruct (_junction_flush_loop_inv J l r m (fuel_of m)) as (m1 & r1 & Hrun & Hf1);
    [by apply tlist_fuel with J; apply Hinv|done|].
  destruct (ring_member _ _ _ J (proj1 (proj2 (proj2 (proj2 (proj2 Hf1))))))
    as [cJ1 HJ1]; [left|].
  destruct (flush_inv_quiescent J r1 m1 cJ1 Hf1 HJ1) as (m2 & Hfin & Hq).
  exists m2. split; [|done].
  unfold junction_exit, Channel_InCycle. rewrite HJ. simpl.
  rewrite bool_decide_eq_true_2 by (by rewrite Hh).
  unfold _junction_flush. rewrite HJ. simpl. rewrite Hh. simpl.
  rewrite Hrun. simpl. rewrite Hfin. done.
Qed.

(** ** The cycle as a whole *)

Lemma events_in_mono l l' m : l ⊆ l' -> events_in l m -> events_in l' m.
Proof. intros Hsub Hev a c Hl Ha. apply (Hev a c Hl). intros Hin. apply Ha, Hsub, Hin. Qed.

Lemma cycle_modify J r l S m f c :
  cycle_inv J r l m -> events_in S m -> load J m = Some c ->
  links_same c (f c) -> events (f c) = events c ->
  (kevents_ok c -> kevents_ok (f c)) ->
  exists m', modify J f m = Some m' /\ cycle_inv J r l m' /\ events_in S m'
    /\ load J m' = Some (f c)
    /\ (forall a, a <> J -> load a m' = load a m).
Proof.
  intros Hinv Hev HJ Hl He Hk.
  destruct (modify_step J [] J f m c HJ Hl) as (m' & Hrun & Hs & HJ' & Hfr & _);
    [done|by intros _|].
  exists m'. split; [done|]. split; [by eapply cycle_inv_step|].
  split; [eapply events_in_step; [|done|done]; set_solver|done].
Qed.

Lemma junction_start_cycle_inv J r m cJ :
  quiescent m -> ring m J r -> ports_ok m ->
  load J m = Some cJ -> kevents_ok cJ -> pending_ok J r m -> attach_ok J r m ->
  exists m', junction_start_cycle J m = Some m'
    /\ cycle_inv J r [] m' /\ events_in [] m'.
Proof.
  intros Hq Hring Hports HJ Hk Hpend Hatt.
  unfold junction_start_cycle, Channel_SetNextTransfer.
  rewrite (modify_Some _ _ _ _ HJ). eexists. split; [done|].
  apply cycle_inv_intro.
  - split; [|apply NoDup_singleton].
    change (J :: [] ++ [J]) with [J; J]. apply chain_cons.
    split; [apply ptr_at_store_eq|done].
  - set_solver.
  - intros a c Hl _ Hne. rewrite load_store_ne in Hl by done. by apply Hq in Hl as [_ ?].
  - apply store_tl_cycle; [done|].
    split; [done|]. split; [done|]. split; [eauto|]. split; [done|]. split; [done|].
    intros a c Hl _. by apply Hq in Hl as [? _].
Qed.

Lemma junction_flow_prepare J r l m cJ :
  cycle_inv J r l m -> events_in [] m -> load J m = Some cJ ->
  exists m',
    (if Channel_Terminating cJ then _junction_terminate J m
     else
       latched ← Channel_PortLatched J m;
       if negb latched then
         ma ← junction_init J m;
         junction_reload J ma
       else Some m) = Some m'
    /\ cycle_inv J r l m' /\ events_in [] m'.
Proof.
  intros Hinv Hev HJ.
  pose proof Hinv as (_ & _ & Hring & Hports & _).
  destruct (Channel_Terminating cJ).
  - destruct (_junction_terminate_step J r [] m cJ Hring HJ Hports) as (m' & -> & Hs).
    exists m'. split; [done|]. split; [by eapply cycle_inv_step|].
    by eapply events_in_step.
  - destruct (ports_ok_channel_port _ _ _ Hports HJ) as (pa & p & Hp).
    unfold Channel_PortLatched. rewrite HJ. simpl. rewrite Hp. simpl.
    destruct (negb _).
    + destruct (junction_init_step J [] m cJ HJ Hports) as (ma & -> & Hsa).
      simpl.
      pose proof (cycle_inv_step _ _ _ _ _ _ Hinv Hsa) as Hinva.
      destruct (junction_reload_step J r [] ma) as (m' & -> & Hs); [apply Hinva|].
      exists m'. split; [done|]. split; [by eapply cycle_inv_step|].
      eapply events_in_step; [done| |exact Hs]. by eapply events_in_step.
    + by exists m.
Qed.

Lemma junction_flow_collect J r l m cJ :
  cycle_inv J r l m -> events_in [] m -> load J m = Some cJ ->
  exists m' l',
    (if negb (Channel_Terminating cJ) then
       ma ← junction_kevent_collect J (Junction_ShouldWait J cJ) m;
       mb ← modify J (set_will_wait_of 0) ma;
       mc ← junction_kevent_transform J mb;
       junction_recollect 3 J mc
     else Some m) = Some m'
    /\ cycle_inv J r l' m' /\ events_in [] m'.
Proof.
  intros Hinv Hev HJ. generalize 3%nat. intros n.
  destruct (negb _); [|by exists m, l].
  destruct (junction_kevent_collect_inv J r l (Junction_ShouldWait J cJ) m Hinv)
    as (ma & -> & Hsa & (ca & Hca & Hcol)).
  simpl.
  pose proof (cycle_inv_step _ _ _ _ _ _ Hinv Hsa) as Hinva.
  assert (events_in [] ma) as Heva by (by eapply events_in_step).
  destruct (cycle_modify J r l [] ma (set_will_wait_of 0) ca Hinva Heva Hca)
    as (mb & -> & Hinvb & Hevb & Hcb & _); [done|done|done|].
  simpl.
  destruct (junction_kevent_transform_inv J r l mb Hinvb Hevb) as (mc & lc & -> & Hinvc & Hevc).
  { exists (set_will_wait_of 0 ca). split; [done|]. exact Hcol. }
  simpl.
  destruct (junction_recollect_inv J r n lc mc Hinvc Hevc) as (m' & l' & -> & Hinv' & Hev').
  by exists m', l'.
Qed.

Lemma _junction_flow_inv J r m cJ :
  quiescent m -> ring m J r -> ports_ok m ->
  load J m = Some cJ -> kevents_ok cJ -> pending_ok J r m -> attach_ok J r m ->
  exists m' l, _junction_flow J m = Some m'
    /\ cycle_inv J r l m' /\ events_in l m'.
Proof.
  intros Hq Hring Hports HJ Hk Hpend Hatt.
  destruct (junction_start_cycle_inv J r m cJ Hq Hring Hports HJ Hk Hpend Hatt)
    as (m1 & Hrun1 & Hinv1 & Hev1).
  unfold _junction_flow. rewrite Hrun1. cbn [mbind option_bind].
  destruct (tlist_head _ _ _ (proj1 Hinv1)) as (c1 & Hc1 & _).
  rewrite Hc1. cbn [mbind option_bind].
  destruct (junction_flow_prepare J r [] m1 c1 Hinv1 Hev1 Hc1) as (m2 & -> & Hinv2 & Hev2).
  cbn [mbind option_bind].
  destruct (tlist_head _ _ _ (proj1 Hinv2)) as (c2 & Hc2 & _).
  destruct (cycle_modify J r [] [] m2 Channel_ClearDelta c2 Hinv2 Hev2 Hc2)
    as (m3 & -> & Hinv3 & Hev3 & Hc3 & _); [done|done|done|].
  cbn [mbind option_bind].
  destruct (junction_transfer_delta_inv J r [] m3 Hinv3 Hev3)
    as (m4 & l4 & -> & Hinv4 & Hev4); [by eexists|].
  cbn [mbind option_bind].
  destruct (tlist_head _ _ _ (proj1 Hinv4)) as (c4 & Hc4 & _).
  rewrite Hc4. cbn [mbind option_bind].
  assert (exists m5,
    (if Junction_ShouldWait J c4 then modify J (set_will_wait_of 1) m4 else Some m4) = Some m5
    /\ cycle_inv J r l4 m5 /\ events_in [] m5) as (m5 & -> & Hinv5 & Hev5).
  { destruct (Junction_ShouldWait J c4); [|by exists m4].
    destruct (cycle_modify J r l4 [] m4 (set_will_wait_of 1) c4 Hinv4 Hev4 Hc4)
      as (m5 & ? & ? & ? & _); [done|done|done|]. by exists m5. }
  cbn [mbind option_bind].
  destruct (junction_apply_delta_inv J r l4 m5 Hinv5 Hev5) as (m6 & l6 & -> & Hinv6 & Hev6).
  cbn [mbind option_bind].
  destruct (tlist_head _ _ _ (proj1 Hinv6)) as (c6 & Hc6 & _).
  rewrite Hc6. cbn [mbind option_bind].
  destruct (junction_flow_collect J r l6 m6 c6 Hinv6 Hev6 Hc6)
    as (m7 & l7 & -> & Hinv7 & Hev7).
  cbn [mbind option_bind].
  destruct (tlist_head _ _ _ (proj1 Hinv7)) as (c7 & Hc7 & Hh7).
  destruct (cycle_modify J r l7 [] m7 Junction_ResetWindow c7 Hinv7 Hev7 Hc7)
    as (m8 & -> & Hinv8 & Hev8 & Hc8 & _); [done|done|apply kevents_ok_reset|].
  cbn [mbind option_bind]. rewrite Hc8. cbn [mbind option_bind].
  change (lltransfer (Junction_ResetWindow c7)) with (lltransfer c7). rewrite Hh7. cbn [mbind option_bind].
  destruct (junction_flow_loop_inv J r l7 l7 m8 (fuel_of m8))
    as (m9 & -> & Hinv9 & Hev9).
  { eapply tlist_fuel, Hinv8. }
  { by exists []. }
  { done. }
  { eapply events_in_mono; [|exact Hev8]. set_solver. }
  cbn [mbind option_bind].
  pose proof Hinv9 as (_ & _ & _ & Hports9 & _ & (c9 & Hc9 & Hk9) & _).
  rewrite Hc9. cbn [mbind option_bind].
  destruct (negb _).
  - destruct (junction_kevent_change_step J l7 m9 c9 Hc9 Hk9) as (m' & -> & Hs & _).
    { destruct (ports_ok_channel_port _ _ _ Hports9 Hc9) as (? & ? & ->). eauto. }
    exists m', l7. split; [done|]. split.
    + by eapply cycle_inv_step.
    + by eapply events_in_step.
  - by exists m9, l7.
Qed.

(** Decidable forms of the hypotheses, for concrete machines. *)

Lemma quiescent_map m :
  map_Forall (fun _ c => events c = 0 /\ lltransfer c = None) (chans m) -> quiescent m.
Proof. intros H a c Hl. exact (H a c Hl). Qed.

Lemma ports_ok_map m :
  map_Forall (fun _ c => is_Some (p ← port c; ports m !! p)) (chans m) -> ports_ok m.
Proof.
  intros H a c Hl. destruct (H a c Hl) as [x Hx].
  destruct (port c) as [p|]; [|discriminate]. exists p, x. done.
Qed.

Lemma pending_ok_Forall J r m :
  Forall (Forall (fun kev => kev_udata kev ∈ J :: r)) (k_pending (kern m)) ->
  pending_ok J r m.
Proof.
  intros H batch kev Hb Hk. rewrite Forall_forall in H.
  specialize (H batch Hb). rewrite Forall_forall in H. by apply H.
Qed.

Lemma cycle_inv_linked J r l m a c :
  cycle_inv J r l m -> load a m = Some c ->
  (lltransfer c <> None <-> a ∈ J :: l).
Proof.
  intros (Htl & _ & _ & _ & Hoff & _) Hl. split.
  - intros Hn. destruct (decide (a ∈ J :: l)) as [|Hni]; [done|].
    apply not_elem_of_cons in Hni as [? ?]. exfalso. apply Hn. by eapply Hoff.
  - intros Ha. destruct Htl as [Hc _].
    change (J :: l ++ [J]) with ((J :: l) ++ [J]) in Hc.
    destruct (chain_source _ _ _ _ _ Hc Ha) as [b Hb].
    unfold ptr_at in Hb. rewrite Hl in Hb. simpl in Hb. by rewrite Hb.
Qed.


(** ** Attaching to the ring and moving inside it *)

Lemma ring_diff_trans c1 c2 c3 : ring_diff c1 c2 -> ring_diff c2 c3 -> ring_diff c1 c3.
Proof.
  unfold ring_diff. destruct c1, c2, c3. simpl. intros [= -> -> -> -> -> -> -> -> -> -> -> -> -> ->].
  intros [= -> -> -> -> -> -> -> -> -> -> -> -> -> ->]. done.
Qed.

Lemma ring_diff_loads_trans m1 m2 m3 :
  (forall a, option_Forall2 ring_diff (load a m1) (load a m2)) ->
  (forall a, option_Forall2 ring_diff (load a m2) (load a m3)) ->
  forall a, option_Forall2 ring_diff (load a m1) (load a m3).
Proof.
  intros H12 H23 a. specialize (H12 a). specialize (H23 a).
  destruct H12 as [c1 c2 Hd|]; inversion H23; subst; constructor.
  by eapply ring_diff_trans.
Qed.

Lemma chain_insert f m m' A p t l2 z :
  chain f m (A ++ p :: l2 ++ [z]) ->
  ptr_at f m' p = Some t ->
  ptr_at f m' t = Some (default z (head l2)) ->
  (forall a, a ∈ A ++ l2 -> ptr_at f m' a = ptr_at f m a) ->
  chain f m' (A ++ p :: t :: l2 ++ [z]).
Proof.
  intros Hc Hp Ht Hfr. apply chain_app in Hc as [HA Hl].
  apply chain_app. split.
  - eapply chain_frame; [|exact HA]. intros a Ha. apply Hfr, elem_of_app. by left.
  - apply chain_cons. split; [done|]. apply chain_head_intro; [done|].
    apply chain_head in Hl as [_ Hl].
    eapply chain_frame; [|exact Hl]. intros a Ha. apply Hfr, elem_of_app. by right.
Qed.

Lemma attach_segment_loads m J t P cJ cP ct :
  load J m = Some cJ -> prev cJ = Some P -> load P m = Some cP ->
  load t m = Some ct -> t <> J -> t <> P ->
  exists m4, TRANSIT_ATTACH_SEGMENT_BEFORE J t t m = Some m4
    /\ ptr_at next m4 P = Some t /\ ptr_at next m4 t = Some J
    /\ ptr_at prev m4 J = Some t /\ ptr_at prev m4 t = Some P
    /\ (forall a, a <> P -> a <> t -> ptr_at next m4 a = ptr_at next m a)
    /\ (forall a, a <> J -> a <> t -> ptr_at prev m4 a = ptr_at prev m a)
    /\ (forall a, option_Forall2 ring_diff (load a m) (load a m4))
    /\ (forall a, a <> J -> a <> P -> a <> t -> load a m4 = load a m)
    /\ ports m4 = ports m /\ kern m4 = kern m.
Proof.
  intros HJ Hprev HP Ht HtJ HtP.
  unfold TRANSIT_ATTACH_SEGMENT_BEFORE. rewrite HJ. cbn [mbind option_bind].
  rewrite (modify_Some _ _ _ _ Ht). cbn [mbind option_bind].
  erewrite modify_Some by apply load_store_eq. cbn [mbind option_bind].
  rewrite store_store.
  set (ct' := set_next (Some J) (set_prev (prev cJ) ct)).
  erewrite modify_Some by (rewrite load_store_ne by done; exact HJ).
  cbn [mbind option_bind]. rewrite Hprev. cbn [mbind option_bind].
  set (cJ' := set_prev (Some t) cJ).
  destruct (decide (P = J)) as [->|HPJ].
  - erewrite modify_Some by apply load_store_eq. rewrite store_store.
    eexists. split; [done|].
    split; [by rewrite ptr_at_store_eq|].
    split; [rewrite ptr_at_store_ne by done; by rewrite ptr_at_store_eq|].
    split; [by rewrite ptr_at_store_eq|].
    split; [rewrite ptr_at_store_ne by done; rewrite ptr_at_store_eq; subst ct'; simpl;
            by rewrite Hprev|].
    split; [intros a Ha1 Ha2; by rewrite !ptr_at_store_ne|].
    split; [intros a Ha1 Ha2; by rewrite !ptr_at_store_ne|].
    split; [|split; [intros a Ha1 _ Ha2; by rewrite !load_store_ne|done]].
    intros a. destruct (decide (a = J)) as [->|HaJ].
    { rewrite load_store_eq, HJ. constructor.
      apply ring_diff_set_next, ring_diff_set_prev, ring_diff_refl. }
    rewrite load_store_ne by done. destruct (decide (a = t)) as [->|Hat].
    { rewrite load_store_eq, Ht. constructor.
      apply ring_diff_set_next, ring_diff_set_prev, ring_diff_refl. }
    rewrite load_store_ne by done. destruct (load a m); constructor. apply ring_diff_refl.
  - erewrite modify_Some by (rewrite !load_store_ne by done; exact HP).
    eexists. split; [done|].
    split; [by rewrite ptr_at_store_eq|].
    split; [rewrite !ptr_at_store_ne by done; by rewrite ptr_at_store_eq|].
    split; [rewrite ptr_at_store_ne by done; by rewrite ptr_at_store_eq|].
    split; [rewrite !ptr_at_store_ne by done; rewrite ptr_at_store_eq; subst ct'; simpl;
            by rewrite Hprev|].
    split.
    { intros a Ha1 Ha2. rewrite ptr_at_store_ne by done.
      destruct (decide (a = J)) as [->|HaJ].
      - rewrite ptr_at_store_eq. unfold ptr_at. by rewrite HJ.
      - by rewrite !ptr_at_store_ne. }
    split.
    { intros a Ha1 Ha2. destruct (decide (a = P)) as [->|HaP].
      - rewrite ptr_at_store_eq. unfold ptr_at. by rewrite HP.
      - by rewrite !ptr_at_store_ne. }
    split; [|split; [intros a Ha1 Ha2 Ha3; by rewrite !load_store_ne|done]].
    intros a. destruct (decide (a = P)) as [->|HaP].
    { rewrite load_store_eq, HP. constructor. apply ring_diff_set_next, ring_diff_refl. }
    rewrite load_store_ne by done. destruct (decide (a = J)) as [->|HaJ].
    { rewrite load_store_eq, HJ. constructor. apply ring_diff_set_prev, ring_diff_refl. }
    rewrite load_store_ne by done. destruct (decide (a = t)) as [->|Hat].
    { rewrite load_store_eq, Ht. constructor.
      apply ring_diff_set_next, ring_diff_set_prev, ring_diff_refl. }
    rewrite load_store_ne by done. destruct (load a m); constructor. apply ring_diff_refl.
Qed.

(** [TRANSIT_ATTACH_SEGMENT_BEFORE(J, t, t)] puts an object that is not in
    the ring behind the Junction. *)
Lemma TRANSIT_ATTACH_SEGMENT_BEFORE_ring J r t m ct :
  ring m J r -> t ∉ J :: r -> load t m = Some ct ->
  exists m', TRANSIT_ATTACH_SEGMENT_BEFORE J t t m = Some m'
    /\ ring m' J (r ++ [t])
    /\ (forall a, option_Forall2 ring_diff (load a m) (load a m'))
    /\ (forall a, a ∉ J :: r -> a <> t -> load a m' = load a m)
    /\ ports m' = ports m /\ kern m' = kern m.
Proof.
  intros Hring Ht Hct. pose proof Hring as (Hn & Hp & Hnd).
  apply not_elem_of_cons in Ht as [HtJ Htr].
  set (P := default J (last r)).
  assert (P ∈ J :: r) as HPin by apply default_last_in.
  assert (t <> P) as HtP.
  { intros Heq. rewrite <- Heq in HPin. apply elem_of_cons in HPin as [?|?]; done. }
  assert (ptr_at prev m J = Some P) as HJp.
  { apply chain_head in Hp as [H _]. by rewrite default_head_rev in H. }
  apply ptr_at_Some in HJp as (cJ & HJ & Hprev).
  destruct (ring_member _ _ _ P Hring HPin) as [cP HP].
  destruct (attach_segment_loads m J t P cJ cP ct HJ Hprev HP Hct HtJ HtP)
    as (m4 & Hrun & HPn & Htn & HJp & Htp & Hfn & Hfp & Hdiff & Hoff & Hports & Hkern).
  exists m4. split; [done|].
  apply NoDup_cons in Hnd as [HJr Hnd].
  split; [|split; [done|split; [|done]]].
  - split; [|split].
    + destruct (cons_snoc J r) as (A & p' & HA & Hp'). fold P in Hp'. subst p'.
      replace (J :: (r ++ [t]) ++ [J]) with (A ++ P :: t :: [] ++ [J]).
      2:{ rewrite <- app_assoc. symmetry. by apply snoc_app_eq. }
      apply (chain_insert next m); [|done|done|].
      * replace (A ++ P :: [] ++ [J]) with (J :: r ++ [J]); [done|].
        by apply snoc_app_eq.
      * intros a Ha. rewrite app_nil_r in Ha.
        assert (NoDup (A ++ [P])) as HndA.
        { rewrite <- HA. by apply NoDup_cons. }
        apply NoDup_app in HndA as (_ & HdisA & _).
        apply Hfn.
        -- intros ->. apply (HdisA P Ha). left.
        -- intros ->. assert (t ∈ J :: r) as Hin by (rewrite HA; apply elem_of_app; by left).
           apply elem_of_cons in Hin as [?|?]; done.
    + replace (J :: rev (r ++ [t]) ++ [J]) with ([] ++ J :: t :: rev r ++ [J]).
      2:{ rewrite rev_app_distr. done. }
      apply (chain_insert prev m); [done|done| |].
      * by rewrite default_head_rev.
      * intros a Ha. simpl in Ha.
        apply list_elem_of_In, in_rev, list_elem_of_In in Ha.
        apply Hfp; by intros ->.
    + apply NoDup_cons. split.
      * intros Hin. apply elem_of_app in Hin as [?|Hin]; [done|].
        apply list_elem_of_singleton in Hin. done.
      * apply NoDup_app. split; [done|]. split; [|apply NoDup_singleton].
        intros a Ha Hin. apply list_elem_of_singleton in Hin. by subst.
  - intros a Ha Hat. apply not_elem_of_cons in Ha as [HaJ Har].
    apply Hoff; [done| |done]. intros ->.
    apply elem_of_cons in HPin as [?|?]; done.
Qed.

(** [TRANSIT_RELOCATE_SEGMENT_BEFORE(J, t, t)] moves a member of the ring
    behind the Junction. *)
Lemma TRANSIT_RELOCATE_SEGMENT_BEFORE_ring J r1 t r2 m :
  ring m J (r1 ++ t :: r2) ->
  exists m', TRANSIT_RELOCATE_SEGMENT_BEFORE J t t m = Some m'
    /\ ring m' J ((r1 ++ r2) ++ [t])
    /\ (forall a, option_Forall2 ring_diff (load a m) (load a m'))
    /\ (forall a, a ∉ J :: r1 ++ t :: r2 -> load a m' = load a m)
    /\ ports m' = ports m /\ kern m' = kern m.
Proof.
  intros Hring.
  destruct (TRANSIT_DETACH_SEGMENT_ring J r1 t r2 m Hring)
    as (m1 & ct & Hseg & Hct & Hct1 & Hnot & Hring1 & Hdiff1 & Hoff1 & Hports1 & Hkern1).
  destruct (TRANSIT_ATTACH_SEGMENT_BEFORE_ring J (r1 ++ r2) t m1 ct Hring1 Hnot Hct1)
    as (m2 & Hatt & Hring2 & Hdiff2 & Hoff2 & Hports2 & Hkern2).
  exists m2. split.
  { unfold TRANSIT_RELOCATE_SEGMENT_BEFORE. rewrite Hseg. done. }
  split; [done|]. split; [by eapply ring_diff_loads_trans|].
  split; [|split; congruence].
  intros a Ha.
  assert ((a ∉ J :: r1 ++ r2) /\ a <> t) as [Ha1 Ha2].
  { split.
    - intros Hin. apply Ha. apply elem_of_cons in Hin as [->|Hin]; [left|right].
      apply elem_of_app in Hin as [?|?]; apply elem_of_app; [by left|right; by right].
    - intros ->. apply Ha. right. apply elem_of_app. right. left. }
  rewrite Hoff2 by done. by apply Hoff1.
Qed.

(** ** Calls inside a cycle keep the shape of the heap *)

Lemma ring_diff_junction c c' : ring_diff c c' -> junction c' = junction c.
Proof. unfold ring_diff. intros ->. done. Qed.

Lemma ring_diff_kevents_ok c c' : ring_diff c c' -> kevents_ok c -> kevents_ok c'.
Proof. unfold ring_diff. intros ->. done. Qed.

Lemma ring_diff_load_inv m m' a c' :
  (forall a, option_Forall2 ring_diff (load a m) (load a m')) ->
  load a m' = Some c' -> exists c, load a m = Some c /\ ring_diff c c'.
Proof.
  intros Hd Hl. specialize (Hd a). rewrite Hl in Hd. inversion Hd; subst. eauto.
Qed.

Lemma ring_diff_ptr_at m m' f a :
  (forall c c', ring_diff c c' -> f c' = f c) ->
  (forall a, option_Forall2 ring_diff (load a m) (load a m')) ->
  ptr_at f m' a = ptr_at f m a.
Proof.
  intros Hf Hd. unfold ptr_at. specialize (Hd a).
  destruct Hd as [c c' Hd|]; simpl; [by apply Hf|done].
Qed.

(** The ring was rearranged or extended; everything else is as before. *)
Lemma cycle_inv_ring_diff J r r' l S m m' :
  cycle_inv J r l m -> events_in S m ->
  (forall a, option_Forall2 ring_diff (load a m) (load a m')) ->
  ring m' J r' -> r ⊆ r' ->
  (forall a c, load a m = Some c -> a ∈ r' -> junction c = Some J) ->
  (forall a, a ∉ J :: r' -> load a m' = load a m) ->
  ports m' = ports m -> kern m' = kern m ->
  cycle_inv J r' l m' /\ events_in S m'.
Proof.
  intros ([Hc Hnd] & Hsub & _ & Hports & Hoff & (cJ & HJ & Hok) & Hpend & Hatt)
         Hev Hd Hring Hrr Hnew Hfr Hp Hk.
  split; [split; [|split; [|split; [|split; [|split; [|split; [|split]]]]]]|].
  - split; [|done]. eapply chain_ext; [|exact Hc]. intros a.
    apply ring_diff_ptr_at; [|done]. intros c c' H. by apply ring_diff_fields in H as (? & _).
  - intros a Ha. by apply Hrr, Hsub.
  - done.
  - intros a c' Hl. destruct (ring_diff_load_inv _ _ _ _ Hd Hl) as (c & Hc' & Hdc).
    apply ring_diff_fields in Hdc as (_ & _ & Hpc).
    destruct (Hports a c Hc') as (p & x & Hpp & Hx). exists p, x.
    split; [congruence|]. unfold load_port in *. by rewrite Hp.
  - intros a c' Hl Hal HaJ. destruct (ring_diff_load_inv _ _ _ _ Hd Hl) as (c & Hc' & Hdc).
    apply ring_diff_fields in Hdc as (Htl & _). rewrite Htl. by eapply Hoff.
  - specialize (Hd J). rewrite HJ in Hd. inversion Hd as [? cJ' HdJ|]; subst.
    exists cJ'. split; [done|]. by eapply ring_diff_kevents_ok.
  - intros b kev Hb Hkev. rewrite Hk in Hb.
    specialize (Hpend b kev Hb Hkev). apply elem_of_cons in Hpend as [->|Hin]; [left|right].
    by apply Hrr.
  - intros a c' Hl. split.
    + intros Hin. destruct (ring_diff_load_inv _ _ _ _ Hd Hl) as (c & Hc' & Hdc).
      rewrite (ring_diff_junction _ _ Hdc).
      apply elem_of_cons in Hin as [->|Hin]; [|by eapply Hnew].
      apply (Hatt J c Hc'). left.
    + intros Hni. rewrite Hfr in Hl by done. apply (Hatt a c' Hl).
      intros Hin. apply Hni. apply elem_of_cons in Hin as [->|Hin]; [left|right].
      by apply Hrr.
  - intros a c' Hl Ha. destruct (ring_diff_load_inv _ _ _ _ Hd Hl) as (c & Hc' & Hdc).
    apply ring_diff_fields in Hdc as (_ & He & _). rewrite He. by eapply Hev.
Qed.

Lemma mid_cycle_step J l m m' : mid_cycle J l m -> step J [] m m' -> mid_cycle J l m'.
Proof.
  intros (r & Hinv & Hev) Hs. exists r. split; [by eapply cycle_inv_step|].
  eapply events_in_step; [|done|done]. set_solver.
Qed.

Lemma mid_cycle_modify J l t f m m' :
  mid_cycle J l m -> modify t f m = Some m' ->
  (forall c, links_same c (f c)) -> (forall c, events (f c) = events c) ->
  (t = J -> forall c, kevents_ok c -> kevents_ok (f c)) ->
  mid_cycle J l m'.
Proof.
  intros Hmid Hrun Hl He Hk. unfold modify in Hrun.
  destruct (load t m) as [c|] eqn:Hc; [|discriminate]. injection Hrun as <-.
  eapply mid_cycle_step; [done|]. apply (step_store J [] t c (f c) m Hc (Hl c)).
  - intros _. apply He.
  - intros Ht. by apply Hk.
Qed.

Lemma mid_cycle_modify_port J l p f m m' :
  mid_cycle J l m -> modify_port p f m = Some m' -> mid_cycle J l m'.
Proof.
  intros Hmid Hrun. unfold modify_port in Hrun.
  destruct (load_port p m) as [x|] eqn:Hx; [|discriminate]. injection Hrun as <-.
  eapply mid_cycle_step; [done|]. by eapply step_set_ports.
Qed.

Lemma mid_cycle_fall J l a force m res m' :
  mid_cycle J l m -> junction_fall a force m = Some (res, m') -> mid_cycle J l m'.
Proof.
  intros Hmid Hrun. unfold junction_fall in Hrun.
  destruct (load a m) as [c|]; [|discriminate]. simpl in Hrun.
  destruct (negb force && _); [by injection Hrun as _ <-|].
  destruct (channel_port a m); [|discriminate]. simpl in Hrun.
  assert (m' = set_kern (k_record sys_trigger (kern m)) m) as ->.
  { destruct (k_trigger_fails (kern m)); by injection Hrun as _ <-. }
  eapply mid_cycle_step; [done|]. by apply step_set_kern.
Qed.

Lemma mid_cycle_EnqueueDelta J l t m m' :
  mid_cycle J l m -> Channel_EnqueueDelta t m = Some m' -> mid_cycle J l m'.
Proof.
  intros Hmid Hrun. unfold Channel_EnqueueDelta in Hrun.
  destruct (load t m) as [c|] eqn:Hc; [|discriminate]. simpl in Hrun.
  destruct (junction c) as [J'|] eqn:HJ'.
  2:{ destruct (negb _); [discriminate|]. by injection Hrun as <-. }
  destruct (negb (delta c =? 0) && negb (bool_decide (t = J'))) eqn:Hcond.
  2:{ by injection Hrun as <-. }
  apply andb_true_iff in Hcond as [_ Hne]. apply negb_true_iff in Hne.
  apply bool_decide_eq_false in Hne.
  destruct Hmid as (r & Hinv & Hev).
  pose proof Hinv as (_ & _ & Hring & _ & _ & _ & _ & Hatt).
  destruct (Hatt t c Hc) as [Hon Hoff].
  destruct (decide (t ∈ J :: r)) as [Hin|Hni].
  - specialize (Hon Hin). rewrite HJ' in Hon. injection Hon as ->.
    apply elem_of_cons in Hin as [?|Hin]; [done|].
    apply list_elem_of_split in Hin as (r1 & r2 & ->).
    destruct (TRANSIT_RELOCATE_SEGMENT_BEFORE_ring J r1 t r2 m Hring)
      as (m1 & Hrel & Hring1 & Hdiff & Hfr & Hports & Hkern).
    rewrite Hrel in Hrun. simpl in Hrun.
    destruct (junction_fall J false m1) as [[res m2]|] eqn:Hfall; [|discriminate].
    injection Hrun as <-.
    eapply mid_cycle_fall; [|exact Hfall].
    exists ((r1 ++ r2) ++ [t]).
    eapply cycle_inv_ring_diff; [exact Hinv|exact Hev|done|done| | | |done|done].
    + intros a Ha. apply elem_of_app in Ha as [Ha|Ha].
      * apply elem_of_app. left. apply elem_of_app. by left.
      * apply elem_of_cons in Ha as [->|Ha].
        -- apply elem_of_app. right. left.
        -- apply elem_of_app. left. apply elem_of_app. by right.
    + intros a ca Hca Ha. apply (Hatt a ca Hca). right.
      apply elem_of_app in Ha as [Ha|Ha].
      * apply elem_of_app in Ha as [Ha|Ha]; apply elem_of_app; [by left|right; by right].
      * apply list_elem_of_singleton in Ha as ->. apply elem_of_app. right. left.
    + intros a Ha. apply Hfr. intros Hin. apply Ha.
      apply elem_of_cons in Hin as [->|Hin]; [left|right].
      apply elem_of_app in Hin as [Hin|Hin].
      * apply elem_of_app. left. apply elem_of_app. by left.
      * apply elem_of_cons in Hin as [->|Hin].
        -- apply elem_of_app. right. left.
        -- apply elem_of_app. left. apply elem_of_app. by right.
  - destruct (Hoff Hni) as [Hprev _]. exfalso.
    unfold TRANSIT_RELOCATE_SEGMENT_BEFORE, TRANSIT_DETACH_SEGMENT in Hrun.
    rewrite Hc in Hrun. simpl in Hrun. rewrite Hprev in Hrun. discriminate.
Qed.

Lemma links_same_ReleaseResource c : links_same c (Channel_ReleaseResource c).
Proof. unfold Channel_ReleaseResource. destruct (Channel_HasResource c); by repeat split. Qed.

Lemma links_same_ReleaseLink c : links_same c (Channel_ReleaseLink c).
Proof. unfold Channel_ReleaseLink. destruct (link c); by repeat split. Qed.

Lemma events_ReleaseResource c : events (Channel_ReleaseResource c) = events c.
Proof. unfold Channel_ReleaseResource. by destruct (Channel_HasResource c). Qed.

Lemma events_ReleaseLink c : events (Channel_ReleaseLink c) = events c.
Proof. unfold Channel_ReleaseLink. by destruct (link c). Qed.

Lemma transit_acquire_mid_cycle J l t res m r m' :
  mid_cycle J l m -> t <> J -> transit_acquire t res m = Some (r, m') ->
  mid_cycle J l m'.
Proof.
  intros Hmid HtJ Hrun. unfold transit_acquire in Hrun.
  destruct (load t m) as [c|] eqn:Hc; [|discriminate]. cbn [mbind option_bind] in Hrun.
  destruct (Channel_Terminating c); [by injection Hrun as _ <-|].
  destruct (transit_can_acquire c); [by injection Hrun as _ <-|].
  destruct (modify t Channel_ReleaseResource m) as [m1|] eqn:E1; [|discriminate].
  cbn [mbind option_bind] in Hrun.
  assert (mid_cycle J l m1) as H1.
  { eapply mid_cycle_modify; [exact Hmid|exact E1|apply links_same_ReleaseResource
                              |apply events_ReleaseResource|done]. }
  destruct (modify t (set_resource (Some res)) m1) as [m2|] eqn:E2; [|discriminate].
  cbn [mbind option_bind] in Hrun.
  assert (mid_cycle J l m2) as H2.
  { eapply mid_cycle_modify; [exact H1|exact E2| | |done]; by repeat split. }
  destruct (PyObject_GetBuffer res (Channel_Receives c)) as [len|].
  - destruct (modify t (set_view_len len) m2) as [m3|] eqn:E3; [|discriminate].
    cbn [mbind option_bind] in Hrun.
    assert (mid_cycle J l m3) as H3.
    { eapply mid_cycle_modify; [exact H2|exact E3| | |done]; by repeat split. }
    destruct (modify t Channel_ClearWindow m3) as [m4|] eqn:E4; [|discriminate].
    cbn [mbind option_bind] in Hrun.
    assert (mid_cycle J l m4) as H4.
    { eapply mid_cycle_modify; [exact H3|exact E4| | |done]; by repeat split. }
    destruct (junction c).
    + destruct (modify t (Channel_DQualify teq_transfer) m4) as [m5|] eqn:E5; [|discriminate].
      cbn [mbind option_bind] in Hrun.
      assert (mid_cycle J l m5) as H5.
      { eapply mid_cycle_modify; [exact H4|exact E5| | |done]; by repeat split. }
      destruct (Channel_EnqueueDelta t m5) as [m6|] eqn:E6; [|discriminate].
      injection Hrun as _ <-. by eapply mid_cycle_EnqueueDelta.
    + destruct (modify t (Channel_IQualify teq_transfer) m4) as [m5|] eqn:E5; [|discriminate].
      injection Hrun as _ <-.
      eapply mid_cycle_modify; [exact H4|exact E5| | |done]; by repeat split.
  - destruct (modify t (set_resource None) m2) as [m3|] eqn:E3; [|discriminate].
    injection Hrun as _ <-.
    eapply mid_cycle_modify; [exact H2|exact E3| | |done]; by repeat split.
Qed.

Lemma transit_force_mid_cycle J l t m r m' :
  mid_cycle J l m -> t <> J -> transit_force t m = Some (r, m') -> mid_cycle J l m'.
Proof.
  intros Hmid HtJ Hrun. unfold transit_force in Hrun.
  destruct (modify t (Channel_DControl ctl_force) m) as [m1|] eqn:E1; [|discriminate].
  cbn [mbind option_bind] in Hrun.
  assert (mid_cycle J l m1) as H1.
  { eapply mid_cycle_modify; [exact Hmid|exact E1| | |done]; by repeat split. }
  destruct (load t m1) as [c|]; [|discriminate]. cbn [mbind option_bind] in Hrun.
  destruct (Channel_Attached c && Channel_IQualified c teq_transfer).
  - destruct (Channel_EnqueueDelta t m1) as [m2|] eqn:E2; [|discriminate].
    injection Hrun as _ <-. by eapply mid_cycle_EnqueueDelta.
  - by injection Hrun as _ <-.
Qed.

Lemma transit_terminate_mid_cycle J l t m r m' :
  mid_cycle J l m -> transit_terminate t m = Some (r, m') -> mid_cycle J l m'.
Proof.
  intros Hmid Hrun. unfold transit_terminate in Hrun.
  destruct (load t m) as [c|] eqn:Hc; [|discriminate]. cbn [mbind option_bind] in Hrun.
  assert (t = J -> Channel_Attached c = true) as HJatt.
  { intros ->. destruct Hmid as (r0 & Hinv & _).
    destruct Hinv as (_ & _ & _ & _ & _ & _ & _ & Hatt).
    destruct (Hatt J c Hc) as [Hon _]. unfold Channel_Attached.
    rewrite Hon by left. done. }
  destruct (Channel_Attached c) eqn:Hat; simpl in Hrun.
  - destruct (Channel_Terminating c); simpl in Hrun; [by injection Hrun as _ <-|].
    destruct (modify t (Channel_DQualify teq_terminate) m) as [m1|] eqn:E1; [|discriminate].
    cbn [mbind option_bind] in Hrun.
    assert (mid_cycle J l m1) as H1.
    { eapply mid_cycle_modify; [exact Hmid|exact E1|by repeat split|done|].
      by intros _ c0 Hk. }
    destruct (is_junction c).
    + destruct (junction_fall t false m1) as [[res m2]|] eqn:E2; [|discriminate].
      injection Hrun as _ <-. by eapply mid_cycle_fall.
    + destruct (Channel_EnqueueDelta t m1) as [m2|] eqn:E2; [|discriminate].
      injection Hrun as _ <-. by eapply mid_cycle_EnqueueDelta.
  - assert (t <> J) as HtJ by (intros Heq; by specialize (HJatt Heq)).
    destruct (Channel_Terminated c); simpl in Hrun; [by injection Hrun as _ <-|].
    destruct (modify t (Channel_IQualify teq_terminate) m) as [m1|] eqn:E1; [|discriminate].
    cbn [mbind option_bind] in Hrun.
    assert (mid_cycle J l m1) as H1.
    { eapply mid_cycle_modify; [exact Hmid|exact E1| | |done]; by repeat split. }
    destruct (modify t Channel_ReleaseResource m1) as [m2|] eqn:E2; [|discriminate].
    cbn [mbind option_bind] in Hrun.
    assert (mid_cycle J l m2) as H2.
    { eapply mid_cycle_modify; [exact H1|exact E2|apply links_same_ReleaseResource
                                |apply events_ReleaseResource|done]. }
    destruct (modify t Channel_ReleaseLink m2) as [m3|] eqn:E3; [|discriminate].
    cbn [mbind option_bind] in Hrun.
    assert (mid_cycle J l m3) as H3.
    { eapply mid_cycle_modify; [exact H2|exact E3|apply links_same_ReleaseLink
                                |apply events_ReleaseLink|done]. }
    destruct (channel_port t m3) as [[p x]|]; [|discriminate].
    cbn [mbind option_bind] in Hrun.
    destruct (modify_port p (port_unlatch (Channel_Polarity c)) m3) as [m4|] eqn:E4;
      [|discriminate].
    injection Hrun as _ <-. by eapply mid_cycle_modify_port.
Qed.

Lemma transit_reads_mid_cycle t m r m' :
  transit_transfer t m = Some (r, m') \/ transit_slice t m = Some (r, m')
  \/ transit_sizeof_transfer t m = Some (r, m') ->
  m' = m.
Proof.
  unfold transit_transfer, transit_slice, transit_sizeof_transfer.
  destruct (load t m) as [c|]; [|by intros [?|[?|?]]].
  cbn [mbind option_bind].
  destruct (negb (Channel_HasResource c)); simpl;
    [intros [H|[H|H]]; by injection H as _ <-|].
  destruct (negb (Channel_HasEvent c tev_transfer)); simpl.
  - intros [H|[H|H]]; by injection H as _ <-.
  - intros [H|[H|H]]; [|by injection H as _ <-|by injection H as _ <-].
    destruct (ti_unit c =? 0); [discriminate|].
    destruct (resource c); [|discriminate]. by injection H as _ <-.
Qed.

(** A store to an object outside of the ring that keeps its pointers and
    its events. *)
Lemma cycle_inv_store_off J r l S t c c' m :
  cycle_inv J r l m -> events_in S m -> load t m = Some c -> t ∉ J :: r ->
  prev c' = prev c -> next c' = next c -> lltransfer c' = lltransfer c ->
  port c' = port c -> events c' = events c ->
  cycle_inv J r l (store t c' m) /\ events_in S (store t c' m).
Proof.
  intros ([Hc Hnd] & Hsub & Hring & Hports & Hoff & (cJ & HJ & Hok) & Hpend & Hatt)
         Hev Ht Hni Hp Hn Htl Hpo He.
  assert (t <> J) as HtJ by (intros ->; apply Hni; left).
  split; [split; [|split; [|split; [|split; [|split; [|split; [|split]]]]]]|].
  - split; [|done]. eapply chain_ext; [|exact Hc]. intros a. by eapply ptr_at_store_same.
  - done.
  - by apply ring_store_off.
  - intros a c0 Hl. destruct (decide (a = t)) as [->|Hne].
    + rewrite load_store_eq in Hl. injection Hl as <-. rewrite Hpo. by apply (Hports t c).
    + rewrite load_store_ne in Hl by done. by apply (Hports a c0).
  - intros a c0 Hl Hal HaJ. destruct (decide (a = t)) as [->|Hne].
    + rewrite load_store_eq in Hl. injection Hl as <-. rewrite Htl. by eapply Hoff.
    + rewrite load_store_ne in Hl by done. by eapply Hoff.
  - exists cJ. rewrite load_store_ne by done. done.
  - exact Hpend.
  - intros a c0 Hl. destruct (decide (a = t)) as [->|Hne].
    + rewrite load_store_eq in Hl. injection Hl as <-. split; [done|].
      rewrite Hp, Hn. by apply (Hatt t c).
    + rewrite load_store_ne in Hl by done. by apply (Hatt a c0).
  - intros a c0 Hl Ha. destruct (decide (a = t)) as [->|Hne].
    + rewrite load_store_eq in Hl. injection Hl as <-. rewrite He. by eapply Hev.
    + rewrite load_store_ne in Hl by done. by eapply Hev.
Qed.

Lemma junction_acquire_mid_cycle J l t m r m' :
  mid_cycle J l m -> junction_acquire J t m = Some (r, m') -> mid_cycle J l m'.
Proof.
  intros Hmid Hrun. unfold junction_acquire in Hrun.
  destruct (load J m) as [cJ|] eqn:HJ; [|discriminate]. cbn [mbind option_bind] in Hrun.
  destruct (load t m) as [ct|] eqn:Ht; [|discriminate]. cbn [mbind option_bind] in Hrun.
  destruct (Channel_Terminating cJ); [by injection Hrun as _ <-|].
  destruct (Channel_Attached ct) eqn:Hat; simpl in Hrun.
  { destruct (bool_decide _); by injection Hrun as _ <-. }
  destruct (Channel_Terminated ct); [by injection Hrun as _ <-|].
  destruct Hmid as (r0 & Hinv & Hev).
  pose proof Hinv as (_ & _ & Hring & _ & _ & _ & _ & Hatt).
  assert (t ∉ J :: r0) as Hni.
  { intros Hin. destruct (Hatt t ct Ht) as [Hon _]. specialize (Hon Hin).
    unfold Channel_Attached in Hat. rewrite Hon in Hat. done. }
  rewrite (modify_Some _ _ _ _ Ht) in Hrun. cbn [mbind option_bind] in Hrun.
  erewrite modify_Some in Hrun by apply load_store_eq. cbn [mbind option_bind] in Hrun.
  rewrite store_store in Hrun.
  set (c2 := set_junction (Some J) (Channel_DControl ctl_connect ct)) in Hrun.
  set (m2 := store t c2 m) in Hrun.
  destruct (cycle_inv_store_off J r0 l l t ct c2 m Hinv Hev Ht Hni) as [Hinv2 Hev2];
    [done|done|done|done|done|].
  fold m2 in Hinv2, Hev2.
  assert (load t m2 = Some c2) as Ht2 by apply load_store_eq.
  unfold TRANSIT_ATTACH in Hrun. rewrite Ht2 in Hrun.
  cbn [mbind option_bind] in Hrun.
  change (junction c2) with (Some J) in Hrun. cbn [mbind option_bind] in Hrun.
  pose proof Hinv2 as (_ & _ & Hring2 & _ & _ & _ & _ & Hatt2).
  destruct (TRANSIT_ATTACH_SEGMENT_BEFORE_ring J r0 t m2 c2 Hring2 Hni Ht2)
    as (m3 & Hrun3 & Hring3 & Hdiff & Hfr & Hports & Hkern).
  rewrite Hrun3 in Hrun. cbn [mbind option_bind] in Hrun.
  destruct (modify J Junction_IncrementChannelCount m3) as [m4|] eqn:E4; [|discriminate].
  injection Hrun as _ <-.
  eapply mid_cycle_modify; [|exact E4|by repeat split|done|by intros _ c0 Hk].
  exists (r0 ++ [t]).
  eapply cycle_inv_ring_diff; [exact Hinv2|exact Hev2|done|done| | | |done|done].
  - intros a Ha. apply elem_of_app. by left.
  - intros a ca Hca Ha. apply elem_of_app in Ha as [Ha|Ha].
    + apply (Hatt2 a ca Hca). by right.
    + apply list_elem_of_singleton in Ha as ->. rewrite Ht2 in Hca. by injection Hca as <-.
  - intros a Ha. apply Hfr.
    + intros Hin. apply Ha. apply elem_of_cons in Hin as [->|Hin]; [left|right].
      apply elem_of_app. by left.
    + intros ->. apply Ha. right. apply elem_of_app. right. left.
Qed.

Lemma junction_force_mid_cycle J l m r m' :
  mid_cycle J l m -> junction_force J m = Some (r, m') -> mid_cycle J l m'.
Proof.
  intros Hmid Hrun. unfold junction_force in Hrun.
  destruct (load J m) as [cJ|]; [|discriminate]. cbn [mbind option_bind] in Hrun.
  destruct (Channel_Terminating cJ); [by injection Hrun as _ <-|].
  destruct (junction_fall J true m) as [[res m1]|] eqn:E; [|discriminate].
  injection Hrun as _ <-. by eapply mid_cycle_fall.
Qed.

(** [begin_cycle] inside a cycle changes nothing. *)
Lemma junction_enter_mid_cycle J l m r m' :
  mid_cycle J l m -> junction_enter J m = Some (r, m') -> m' = m.
Proof.
  intros (r0 & Hinv & _) Hrun. unfold junction_enter in Hrun.
  destruct (tlist_head _ _ _ (proj1 Hinv)) as (cJ & HJ & Hh).
  rewrite HJ in Hrun. cbn [mbind option_bind] in Hrun.
  destruct (if Channel_Terminating cJ
            then latched ← Channel_PortLatched J m; Some (negb latched)
            else Some false) as [gone|]; [|discriminate].
  cbn [mbind option_bind] in Hrun.
  destruct gone; [by injection Hrun as _ <-|].
  unfold Channel_InCycle in Hrun.
  rewrite bool_decide_eq_true_2 in Hrun by (by rewrite Hh).
  by injection Hrun as _ <-.
Qed.

Lemma run_call_mid_cycle J l c m r m' :
  mid_cycle J l m -> call_ok J c -> run_call J c m = Some (r, m') -> mid_cycle J l m'.
Proof.
  intros Hmid Hok Hrun. destruct c as [t res|t|t|t|t|t|t| |]; simpl in Hrun, Hok.
  - by eapply transit_acquire_mid_cycle.
  - by eapply transit_force_mid_cycle.
  - by eapply transit_terminate_mid_cycle.
  - by rewrite (transit_reads_mid_cycle t m r m') by auto.
  - by rewrite (transit_reads_mid_cycle t m r m') by auto.
  - by rewrite (transit_reads_mid_cycle t m r m') by auto.
  - by eapply junction_acquire_mid_cycle.
  - by eapply junction_force_mid_cycle.
  - by rewrite (junction_enter_mid_cycle J l m r m').
Qed.

Lemma run_calls_mid_cycle J l cs : forall m m',
  mid_cycle J l m -> Forall (call_ok J) cs -> run_calls J cs m = Some m' ->
  mid_cycle J l m'.
Proof.
  induction cs as [|c cs IH]; intros m m' Hmid Hok Hrun.
  - simpl in Hrun. by injection Hrun as <-.
  - apply Forall_cons in Hok as [Hc Hcs]. simpl in Hrun.
    destruct (run_call J c m) as [[r m1]|] eqn:E; [|discriminate].
    cbn [mbind option_bind] in Hrun.
    eapply IH; [|done|exact Hrun]. by eapply run_call_mid_cycle.
Qed.

Lemma attach_ok_map J r m :
  map_Forall (fun a c => (a ∈ J :: r -> junction c = Some J)
                          /\ (a ∉ J :: r -> prev c = None /\ next c = None)) (chans m) ->
  attach_ok J r m.
Proof. intros H a c Hl. exact (H a c Hl). Qed.



(** * Further properties of the Channel methods *)

(** Writes that only relink the ring. *)
Lemma modify_set_prev_ring_diff x p m m' :
  modify x (set_prev p) m = Some m' ->
  forall a, option_Forall2 ring_diff (load a m) (load a m').
Proof.
  unfold modify. destruct (load x m) as [c|] eqn:Hc; [|discriminate].
  intros [= <-] a. destruct (decide (a = x)) as [->|Hne].
  - rewrite load_store_eq, Hc. constructor. apply ring_diff_set_prev, ring_diff_refl.
  - rewrite load_store_ne by done. destruct (load a m); constructor. apply ring_diff_refl.
Qed.

Lemma modify_set_next_ring_diff x p m m' :
  modify x (set_next p) m = Some m' ->
  forall a, option_Forall2 ring_diff (load a m) (load a m').
Proof.
  unfold modify. destruct (load x m) as [c|] eqn:Hc; [|discriminate].
  intros [= <-] a. destruct (decide (a = x)) as [->|Hne].
  - rewrite load_store_eq, Hc. constructor. apply ring_diff_set_next, ring_diff_refl.
  - rewrite load_store_ne by done. destruct (load a m); constructor. apply ring_diff_refl.
Qed.

Lemma ring_diff_loads_refl m : forall a, option_Forall2 ring_diff (load a m) (load a m).
Proof. intros a. destruct (load a m); constructor. apply ring_diff_refl. Qed.

(** Whatever the shape of the heap, a relocation writes ring pointers
    only. *)
Lemma TRANSIT_RELOCATE_SEGMENT_BEFORE_ring_diff T f l m m' :
  TRANSIT_RELOCATE_SEGMENT_BEFORE T f l m = Some m' ->
  (forall a, option_Forall2 ring_diff (load a m) (load a m'))
  /\ ports m' = ports m /\ kern m' = kern m.
Proof.
  unfold TRANSIT_RELOCATE_SEGMENT_BEFORE, TRANSIT_DETACH_SEGMENT,
    TRANSIT_ATTACH_SEGMENT_BEFORE.
  intros H.
  destruct (load f m) as [cf|]; [|discriminate]. cbn [mbind option_bind] in H.
  destruct (load l m) as [cl|]; [|discriminate]. cbn [mbind option_bind] in H.
  destruct (prev cf) as [fp|]; [|discriminate]. cbn [mbind option_bind] in H.
  destruct (next cl) as [ln|]; [|discriminate]. cbn [mbind option_bind] in H.
  destruct (modify fp (set_next (Some ln)) m) as [m1|] eqn:E1; [|discriminate].
  cbn [mbind option_bind] in H.
  destruct (modify ln (set_prev (Some fp)) m1) as [m2|] eqn:E2; [|discriminate].
  cbn [mbind option_bind] in H.
  destruct (load T m2) as [cT|]; [|discriminate]. cbn [mbind option_bind] in H.
  destruct (modify f (set_prev (prev cT)) m2) as [m3|] eqn:E3; [|discriminate].
  cbn [mbind option_bind] in H.
  destruct (modify l (set_next (Some T)) m3) as [m4|] eqn:E4; [|discriminate].
  cbn [mbind option_bind] in H.
  destruct (modify T (set_prev (Some l)) m4) as [m5|] eqn:E5; [|discriminate].
  cbn [mbind option_bind] in H.
  destruct (prev cT) as [tp|]; [|discriminate]. cbn [mbind option_bind] in H.
  split.
  - eapply ring_diff_loads_trans; [by eapply modify_set_next_ring_diff|].
    eapply ring_diff_loads_trans; [by eapply modify_set_prev_ring_diff|].
    eapply ring_diff_loads_trans; [by eapply modify_set_prev_ring_diff|].
    eapply ring_diff_loads_trans; [by eapply modify_set_next_ring_diff|].
    eapply ring_diff_loads_trans; [by eapply modify_set_prev_ring_diff|].
    by eapply modify_set_next_ring_diff.
  - unfold modify in *.
    repeat match goal with
    | E : (_ ← load ?x ?mm; _) = Some _ |- _ =>
        destruct (load x mm); [|discriminate]; injection E as <-
    end. done.
Qed.

Lemma junction_fall_frame J force m r m' :
  junction_fall J force m = Some (r, m') -> chans m' = chans m /\ ports m' = ports m.
Proof.
  unfold junction_fall. destruct (load J m) as [c|]; [|discriminate].
  cbn [mbind option_bind].
  destruct (negb force && _); [by intros [= _ <-]|].
  destruct (channel_port J m); [|discriminate]. cbn [mbind option_bind].
  destruct (k_trigger_fails (kern m)); by intros [= _ <-].
Qed.

Lemma Channel_EnqueueDelta_ring_diff t m m' :
  Channel_EnqueueDelta t m = Some m' ->
  (forall a, option_Forall2 ring_diff (load a m) (load a m')) /\ ports m' = ports m.
Proof.
  unfold Channel_EnqueueDelta. destruct (load t m) as [c|]; [|discriminate].
  cbn [mbind option_bind].
  destruct (junction c) as [J|].
  - destruct (negb (delta c =? 0) && negb (bool_decide (t = J))).
    + destruct (TRANSIT_RELOCATE_SEGMENT_BEFORE J t t m) as [m1|] eqn:E1; [|discriminate].
      cbn [mbind option_bind].
      destruct (junction_fall J false m1) as [[r m2]|] eqn:E2; [|discriminate].
      intros [= <-].
      apply TRANSIT_RELOCATE_SEGMENT_BEFORE_ring_diff in E1 as (Hd & Hp & _).
      apply junction_fall_frame in E2 as [Hc Hp2].
      split; [|congruence]. intros a. unfold load. rewrite Hc. apply Hd.
    + intros [= <-]. split; [apply ring_diff_loads_refl|done].
  - destruct (negb (delta c =? 0)); [discriminate|].
    intros [= <-]. split; [apply ring_diff_loads_refl|done].
Qed.

Lemma ring_diff_state c c' : ring_diff c c' ->
  state c' = state c /\ delta c' = delta c /\ junction c' = junction c
  /\ resource c' = resource c.
Proof. unfold ring_diff. intros ->. done. Qed.

(** After [terminate()] the Channel is terminating, and a detached Channel
    is terminated. *)
Lemma transit_terminate_terminating t m r m1 :
  transit_terminate t m = Some (r, m1) ->
  exists c1, load t m1 = Some c1
    /\ Channel_Terminating c1 = true
    /\ (Channel_Attached c1 = false -> Channel_Terminated c1 = true).
Proof.
  unfold transit_terminate. destruct (load t m) as [c|] eqn:Hc; [|discriminate].
  cbn [mbind option_bind].
  destruct (Channel_Attached c) eqn:Hat; simpl.
  - destruct (Channel_Terminating c) eqn:Htg; simpl.
    { intros [= _ <-]. exists c. by rewrite Hat. }
    rewrite (modify_Some _ _ _ _ Hc). cbn [mbind option_bind].
    set (c1 := Channel_DQualify teq_terminate c).
    assert (Channel_Terminating c1 = true) as Ht1.
    { unfold Channel_Terminating, Channel_DQualified, c1. simpl.
      rewrite word_test_set_eq by done. apply orb_true_r. }
    destruct (is_junction c).
    + destruct (junction_fall t false _) as [[res m2]|] eqn:E2; [|discriminate].
      intros [= _ <-]. apply junction_fall_frame in E2 as [Hch _].
      exists c1. unfold load. rewrite Hch. fold (load t (store t c1 m)).
      rewrite load_store_eq. split; [done|]. split; [done|].
      unfold c1, Channel_Attached in *. simpl. by rewrite Hat.
    + destruct (Channel_EnqueueDelta t _) as [m2|] eqn:E2; [|discriminate].
      intros [= _ <-]. apply Channel_EnqueueDelta_ring_diff in E2 as [Hd _].
      specialize (Hd t). rewrite load_store_eq in Hd.
      inversion Hd as [? c2 Hrd|]; subst. exists c2. split; [done|].
      apply ring_diff_state in Hrd as (Hs & Hdl & Hj & _).
      unfold Channel_Terminating, Channel_Terminated, Channel_ShouldTerminate,
        Channel_IQualified, Channel_XQualified, Channel_DQualified, Channel_Attached in *.
      rewrite Hs, Hdl, Hj. split; [exact Ht1|]. unfold c1. simpl. by rewrite Hat.
  - destruct (Channel_Terminated c) eqn:Htd; simpl.
    { intros [= _ <-]. exists c. split; [done|].
      unfold Channel_Terminating. rewrite Htd. done. }
    rewrite (modify_Some _ _ _ _ Hc). cbn [mbind option_bind].
    erewrite modify_Some by apply load_store_eq. cbn [mbind option_bind].
    erewrite modify_Some by apply load_store_eq. cbn [mbind option_bind].
    rewrite !store_store.
    set (c3 := Channel_ReleaseLink (Channel_ReleaseResource (Channel_IQualify teq_terminate c))).
    destruct (channel_port t _) as [[p x]|]; [|discriminate]. cbn [mbind option_bind].
    unfold modify_port. destruct (load_port p _); [|discriminate]. cbn [mbind option_bind].
    intros [= _ <-]. exists c3. split; [apply load_store_eq|].
    assert (state c3 = Word.set (state c) (iq_bit teq_terminate)) as Hs.
    { unfold c3, Channel_ReleaseLink, Channel_ReleaseResource.
      destruct (Channel_HasResource _); destruct (link _); done. }
    assert (Channel_Terminated c3 = true) as Ht3.
    { unfold Channel_Terminated, Channel_ShouldTerminate, Channel_IQualified.
      rewrite Hs, word_test_set_eq by done. done. }
    split; [|done]. unfold Channel_Terminating. by rewrite Ht3.
Qed.

(** X1: [terminate()] is idempotent: once a call has returned, a second
    call returns [None] and changes nothing. *)
Theorem transit_terminate_idempotent t m r m1 :
  transit_terminate t m = Some (r, m1) ->
  transit_terminate t m1 = Some (Returned Py_None, m1).
Proof.
  intros H. destruct (transit_terminate_terminating _ _ _ _ H) as (c1 & Hc1 & Htg & Htd).
  unfold transit_terminate. rewrite Hc1. cbn [mbind option_bind].
  destruct (Channel_Attached c1); simpl.
  - by rewrite Htg.
  - by rewrite Htd.
Qed.

Lemma transit_terminate_idempotent_witness :
  exists r m1, transit_terminate Ex.rd Ex.attached = Some (r, m1)
    /\ transit_terminate Ex.rd m1 = Some (Returned Py_None, m1).
Proof.
  destruct (transit_terminate Ex.rd Ex.attached) as [[r m1]|] eqn:E.
  - exists r, m1. split; [reflexivity|].
    exact (transit_terminate_idempotent Ex.rd Ex.attached r m1 E).
  - exfalso. vm_compute in E. discriminate.
Defined.

(** X2: after [terminate()] has returned, [acquire(resource)] returns
    [None] and changes nothing, whatever the resource. *)
Theorem transit_terminate_then_acquire t res m r m1 :
  transit_terminate t m = Some (r, m1) ->
  transit_acquire t res m1 = Some (Returned Py_None, m1).
Proof.
  intros H. destruct (transit_terminate_terminating _ _ _ _ H) as (c1 & Hc1 & Htg & _).
  unfold transit_acquire. rewrite Hc1. cbn [mbind option_bind]. by rewrite Htg.
Qed.

Lemma transit_terminate_then_acquire_witness :
  exists r m1, transit_terminate Ex.rd Ex.detached_loaded = Some (r, m1)
    /\ transit_acquire Ex.rd (Ex.bytes 4) m1 = Some (Returned Py_None, m1).
Proof.
  destruct (transit_terminate Ex.rd Ex.detached_loaded) as [[r m1]|] eqn:E.
  - exists r, m1. split; [reflexivity|].
    exact (transit_terminate_then_acquire Ex.rd (Ex.bytes 4) Ex.detached_loaded r m1 E).
  - exfalso. vm_compute in E. discriminate.
Defined.

Lemma ring_store_same m J r t c c' :
  ring m J r -> load t m = Some c -> prev c' = prev c -> next c' = next c ->
  ring (store t c' m) J r.
Proof.
  intros (Hn & Hp & Hnd) Hc Hpv Hnx. split; [|split; [|done]].
  - eapply chain_ext; [|exact Hn]. intros a. by eapply ptr_at_store_same.
  - eapply chain_ext; [|exact Hp]. intros a. by eapply ptr_at_store_same.
Qed.

Lemma word_set_nonzero w b : 0 <= b -> Word.set w b <> 0.
Proof.
  intros Hb Hz. pose proof (word_test_set_eq w b Hb) as Ht.
  rewrite Hz in Ht. unfold Word.test in Ht. by rewrite Z.bits_0 in Ht.
Qed.

Lemma acquired_fields res len c :
  prev (acquired res len c) = prev c /\ next (acquired res len c) = next c
  /\ lltransfer (acquired res len c) = lltransfer c
  /\ junction (acquired res len c) = junction c
  /\ port (acquired res len c) = port c
  /\ state (acquired res len c) = state c /\ delta (acquired res len c) = delta c
  /\ events (acquired res len c) = events c
  /\ resource (acquired res len c) = Some res
  /\ view_len (acquired res len c) = len
  /\ window_start (acquired res len c) = 0 /\ window_stop (acquired res len c) = 0.
Proof.
  unfold acquired, Channel_ReleaseResource.
  destruct (Channel_HasResource c); by repeat split.
Qed.

Lemma transit_acquire_prefix t res m c len :
  load t m = Some c -> Channel_Terminating c = false ->
  Channel_IQualified c teq_transfer = false ->
  PyObject_GetBuffer res (Channel_Receives c) = Some len ->
  transit_acquire t res m =
    match junction c with
    | Some _ =>
        m5 ← modify t (Channel_DQualify teq_transfer) (store t (acquired res len c) m);
        m6 ← Channel_EnqueueDelta t m5;
        Some (Returned (Py_Ref t), m6)
    | None =>
        m5 ← modify t (Channel_IQualify teq_transfer) (store t (acquired res len c) m);
        Some (Returned (Py_Ref t), m5)
    end.
Proof.
  intros Hc Htg Hiq Hbuf. unfold transit_acquire. rewrite Hc. cbn [mbind option_bind].
  rewrite Htg. unfold transit_can_acquire. rewrite Hiq.
  rewrite (modify_Some _ _ _ _ Hc). cbn [mbind option_bind].
  erewrite modify_Some by apply load_store_eq. cbn [mbind option_bind].
  rewrite Hbuf.
  erewrite modify_Some by apply load_store_eq. cbn [mbind option_bind].
  erewrite modify_Some by apply load_store_eq. cbn [mbind option_bind].
  rewrite !store_store. done.
Qed.

Lemma transit_acquire_raises_BufferError t res m c :
  load t m = Some c -> Channel_Terminating c = false ->
  Channel_IQualified c teq_transfer = false ->
  PyObject_GetBuffer res (Channel_Receives c) = None ->
  exists m1, transit_acquire t res m = Some (Raised BufferError, m1).
Proof.
  intros Hc Htg Hiq Hbuf. unfold transit_acquire. rewrite Hc. cbn [mbind option_bind].
  rewrite Htg. unfold transit_can_acquire. rewrite Hiq.
  rewrite (modify_Some _ _ _ _ Hc). cbn [mbind option_bind].
  erewrite modify_Some by apply load_store_eq. cbn [mbind option_bind].
  rewrite Hbuf.
  erewrite modify_Some by apply load_store_eq. cbn [mbind option_bind].
  eexists. reflexivity.
Qed.





(** X5: a detached Channel that may acquire takes the resource at once:
    [acquire] returns the Channel, the window is empty ([slice()] is
    [slice(0, 0)]), the Channel is no longer exhausted, and a second
    [acquire] raises the resource error and changes nothing. *)
Theorem transit_acquire_detached_twice t res res' m c len :
  load t m = Some c -> junction c = None ->
  Channel_Terminating c = false ->
  Channel_IQualified c teq_transfer = false ->
  PyObject_GetBuffer res (Channel_Receives c) = Some len ->
  exists m1, transit_acquire t res m = Some (Returned (Py_Ref t), m1)
    /\ transit_slice t m1 = Some (Returned (Py_Slice 0 0), m1)
    /\ transit_get_exhausted t m1 = Some Py_False
    /\ transit_acquire t res' m1 = Some (Raised ChannelResourceError, m1).
Proof.
  intros Hc Hj Htg Hiq Hbuf.
  rewrite (transit_acquire_prefix t res m c len Hc Htg Hiq Hbuf), Hj.
  erewrite modify_Some by apply load_store_eq. cbn [mbind option_bind].
  rewrite store_store.
  set (c1 := Channel_IQualify teq_transfer (acquired res len c)).
  destruct (acquired_fields res len c)
    as (_ & _ & _ & _ & _ & Hst & Hdl & _ & Hres & _ & Hws & Hwe).
  assert (state c1 = Word.set (state c) (iq_bit teq_transfer)) as Hs1
    by (rewrite <- Hst; reflexivity).
  assert (delta c1 = delta c) as Hd1 by (rewrite <- Hdl; reflexivity).
  assert (resource c1 = Some res) as Hr1 by (rewrite <- Hres; reflexivity).
  assert (window_start c1 = 0) as Hws1 by (rewrite <- Hws; reflexivity).
  assert (window_stop c1 = 0) as Hwe1 by (rewrite <- Hwe; reflexivity).
  clearbody c1.
  assert (Channel_IQualified c1 teq_transfer = true) as Hiq1.
  { unfold Channel_IQualified. rewrite Hs1. by apply word_test_set_eq. }
  assert (Channel_Terminating c1 = false) as Htg1.
  { revert Htg. unfold Channel_Terminating, Channel_Terminated, Channel_ShouldTerminate,
      Channel_IQualified, Channel_XQualified, Channel_DQualified.
    rewrite Hs1, Hd1, !word_test_set_ne by done. done. }
  eexists. split; [done|]. split; [|split].
  - unfold transit_slice. rewrite load_store_eq. cbn [mbind option_bind].
    unfold Channel_HasResource. rewrite Hr1.
    rewrite bool_decide_eq_true_2 by done. simpl. by rewrite Hws1, Hwe1.
  - unfold transit_get_exhausted. rewrite load_store_eq. cbn [mbind option_bind].
    rewrite Htg1, Hiq1. done.
  - unfold transit_acquire. rewrite load_store_eq. cbn [mbind option_bind].
    rewrite Htg1. unfold transit_can_acquire. rewrite Hiq1. done.
Qed.

Lemma transit_acquire_detached_twice_witness :
  exists m1,
    transit_acquire Ex.rd (Ex.bytes 4) (alloci Ex.rd 11%positive 1 5 Ex.boot)
      = Some (Returned (Py_Ref Ex.rd), m1)
    /\ transit_slice Ex.rd m1 = Some (Returned (Py_Slice 0 0), m1)
    /\ transit_get_exhausted Ex.rd m1 = Some Py_False
    /\ transit_acquire Ex.rd (Ex.bytes 8) m1 = Some (Raised ChannelResourceError, m1).
Proof.
  eapply (transit_acquire_detached_twice Ex.rd (Ex.bytes 4) (Ex.bytes 8) _ _ 4);
    vm_compute; reflexivity.
Defined.

Lemma junction_fall_returns J force m :
  is_Some (load J m) -> is_Some (channel_port J m) ->
  exists r m', junction_fall J force m = Some (r, m').
Proof.
  intros [cJ HJ] [pp Hp]. unfold junction_fall. rewrite HJ. cbn [mbind option_bind].
  destruct (negb force && _); [by eexists _, _|].
  rewrite Hp. cbn [mbind option_bind].
  destruct (k_trigger_fails (kern m)); by eexists _, _.
Qed.

Lemma ring_chans m m' J r : chans m' = chans m -> ring m J r -> ring m' J r.
Proof.
  intros Hc (Hn & Hp & Hnd). split; [|split; [|done]].
  - eapply chain_ext; [|exact Hn]. intros a. unfold ptr_at, load. by rewrite Hc.
  - eapply chain_ext; [|exact Hp]. intros a. unfold ptr_at, load. by rewrite Hc.
Qed.

(** [acquire] on a member of the ring. *)
Lemma transit_acquire_attached_spec J ra t rb res m c len :
  ring m J (ra ++ t :: rb) -> load t m = Some c -> junction c = Some J ->
  Channel_Terminating c = false ->
  Channel_IQualified c teq_transfer = false ->
  PyObject_GetBuffer res (Channel_Receives c) = Some len ->
  is_Some (channel_port J m) ->
  exists m1 c1, transit_acquire t res m = Some (Returned (Py_Ref t), m1)
    /\ ring m1 J ((ra ++ rb) ++ [t])
    /\ load t m1 = Some c1
    /\ ring_diff (Channel_DQualify teq_transfer (acquired res len c)) c1
    /\ (forall a, a <> t -> option_Forall2 ring_diff (load a m) (load a m1))
    /\ (forall a, a ∉ J :: ra ++ t :: rb -> load a m1 = load a m)
    /\ ports m1 = ports m
    /\ is_Some (channel_port J m1).
Proof.
  intros Hring Hc Hj Htg Hiq Hbuf HJp.
  rewrite (transit_acquire_prefix t res m c len Hc Htg Hiq Hbuf), Hj.
  erewrite modify_Some by apply load_store_eq. cbn [mbind option_bind].
  rewrite store_store.
  set (c5 := Channel_DQualify teq_transfer (acquired res len c)).
  set (m5 := store t c5 m).
  destruct (acquired_fields res len c)
    as (Hpv & Hnx & Htl & Hjn & Hpo & Hst & Hdl & Hev & Hres & _).
  assert (ring m5 J (ra ++ t :: rb)) as Hring5.
  { eapply ring_store_same; [done|done|exact Hpv|exact Hnx]. }
  assert (t <> J) as HtJ.
  { intros ->. destruct Hring as (_ & _ & Hnd). apply NoDup_cons in Hnd as [HJ _].
    apply HJ. apply elem_of_app. right. left. }
  destruct (TRANSIT_RELOCATE_SEGMENT_BEFORE_ring J ra t rb m5 Hring5)
    as (m6 & Hrel & Hring6 & Hdiff & Hoff & Hports & Hkern).
  assert (is_Some (channel_port J m6)) as HJp6.
  { eapply channel_port_frame; [| |exact HJp]; [|done].
    specialize (Hdiff J). unfold m5 in Hdiff. rewrite load_store_ne in Hdiff by done.
    destruct Hdiff as [cJ cJ' Hd|]; simpl; [|done].
    f_equal. by apply ring_diff_fields in Hd as (_ & _ & ?). }
  destruct (junction_fall_returns J false m6) as (rr & m7 & Hfall); [|done|].
  { eapply ring_member; [exact Hring6|left]. }
  pose proof (junction_fall_frame _ _ _ _ _ Hfall) as [Hch7 Hp7].
  assert (load t m5 = Some c5) as Hc5 by apply load_store_eq.
  unfold Channel_EnqueueDelta. rewrite Hc5. cbn [mbind option_bind].
  change (junction c5) with (junction (acquired res len c)). rewrite Hjn, Hj.
  assert ((delta c5 =? 0) = false) as ->.
  { apply Z.eqb_neq. unfold c5. simpl. by apply word_set_nonzero. }
  rewrite bool_decide_eq_false_2 by done. simpl.
  rewrite Hrel. cbn [mbind option_bind]. rewrite Hfall.
  cbn [mbind option_bind].
  pose proof (Hdiff t) as Hdt. rewrite Hc5 in Hdt.
  inversion Hdt as [? c6 Hrd Heq1 Heq2|]; subst.
  exists m7, c6. split; [done|].
  split; [by eapply ring_chans|].
  split; [unfold load; rewrite Hch7; done|]. split; [done|].
  split.
  { intros a Ha. unfold load. rewrite Hch7. specialize (Hdiff a).
    unfold m5 in Hdiff. by rewrite load_store_ne in Hdiff. }
  split.
  { intros a Ha. unfold load. rewrite Hch7. fold (load a m6). rewrite Hoff by done.
    unfold m5. rewrite load_store_ne; [done|].
    intros ->. apply Ha. right. apply elem_of_app. right. left. }
  split; [by rewrite Hp7, Hports|].
  destruct HJp6 as [pp Hpp]. exists pp. unfold channel_port, load, load_port in *.
  by rewrite Hch7, Hp7.
Qed.

(** X6: [acquire] on a Channel in the ring of a Junction takes the
    resource, publishes the transfer qualification in the delta word
    (the state word is as before) and moves the Channel to the end of the
    ring, where the delta scan of the next cycle starts; the other members
    keep their order. *)
Theorem transit_acquire_attached_tail J ra t rb res m c len :
  ring m J (ra ++ t :: rb) -> load t m = Some c -> junction c = Some J ->
  Channel_Terminating c = false ->
  Channel_IQualified c teq_transfer = false ->
  PyObject_GetBuffer res (Channel_Receives c) = Some len ->
  is_Some (channel_port J m) ->
  exists m1 c1 cJ, transit_acquire t res m = Some (Returned (Py_Ref t), m1)
    /\ ring m1 J ((ra ++ rb) ++ [t])
    /\ load J m1 = Some cJ /\ prev cJ = Some t
    /\ load t m1 = Some c1
    /\ resource c1 = Some res
    /\ Channel_DQualified c1 teq_transfer = true
    /\ state c1 = state c.
Proof.
  intros Hring Hc Hj Htg Hiq Hbuf HJp.
  destruct (transit_acquire_attached_spec J ra t rb res m c len Hring Hc Hj Htg Hiq Hbuf HJp)
    as (m1 & c1 & Hrun & Hring1 & Hc1 & Hrd & _).
  pose proof Hring1 as (_ & Hp1 & _).
  apply chain_head in Hp1 as [HJprev _].
  rewrite rev_app_distr in HJprev. simpl in HJprev.
  apply ptr_at_Some in HJprev as (cJ & HcJ & HJprev).
  exists m1, c1, cJ. split; [done|]. split; [done|]. split; [done|]. split; [done|].
  split; [done|].
  apply ring_diff_state in Hrd as (Hs & Hd & _ & Hr).
  destruct (acquired_fields res len c)
    as (_ & _ & _ & _ & _ & Hst & Hdl & _ & Hres & _).
  split; [by rewrite Hr|]. split.
  - unfold Channel_DQualified. rewrite Hd. simpl. by apply word_test_set_eq.
  - by rewrite Hs.
Qed.

Lemma transit_acquire_attached_tail_witness :
  exists m1 c1 cJ,
    transit_acquire Ex.rd (Ex.bytes 8) Ex.cycled = Some (Returned (Py_Ref Ex.rd), m1)
    /\ ring m1 Ex.J (([] ++ [Ex.wr]) ++ [Ex.rd])
    /\ load Ex.J m1 = Some cJ /\ prev cJ = Some Ex.rd
    /\ load Ex.rd m1 = Some c1
    /\ resource c1 = Some (Ex.bytes 8)
    /\ Channel_DQualified c1 teq_transfer = true.
Proof.
  edestruct (transit_acquire_attached_tail Ex.J [] Ex.rd [Ex.wr] (Ex.bytes 8) Ex.cycled)
    as (m1 & c1 & cJ & H1 & H2 & H3 & H4 & H5 & H6 & H7 & _).
  - split; [|split].
    + change (Ex.J :: ([] ++ Ex.rd :: [Ex.wr]) ++ [Ex.J]) with [Ex.J; Ex.rd; Ex.wr; Ex.J].
      apply chain_cons. split; [vm_compute; reflexivity|].
      apply chain_cons. split; [vm_compute; reflexivity|].
      apply chain_cons. split; [vm_compute; reflexivity|]. exact I.
    + change (Ex.J :: rev ([] ++ Ex.rd :: [Ex.wr]) ++ [Ex.J])
        with [Ex.J; Ex.wr; Ex.rd; Ex.J].
      apply chain_cons. split; [vm_compute; reflexivity|].
      apply chain_cons. split; [vm_compute; reflexivity|].
      apply chain_cons. split; [vm_compute; reflexivity|]. exact I.
    + apply (bool_decide_unpack _). vm_compute. exact I.
  - vm_compute. reflexivity.
  - vm_compute. reflexivity.
  - vm_compute. reflexivity.
  - vm_compute. reflexivity.
  - vm_compute. reflexivity.
  - vm_compute. eexists. reflexivity.
  - exists m1, c1, cJ. split; [exact H1|]. split; [exact H2|]. split; [exact H3|].
    split; [exact H4|]. split; [exact H5|]. split; [exact H6|exact H7].
Defined.

(** X7: as long as no cycle has merged the delta word, the transfer
    qualification of an attached Channel is not part of its state: a
    second [acquire] is accepted as well and replaces the resource. *)
Theorem transit_acquire_attached_twice J ra t rb res res' m c len len' :
  ring m J (ra ++ t :: rb) -> load t m = Some c -> junction c = Some J ->
  Channel_Terminating c = false ->
  Channel_IQualified c teq_transfer = false ->
  PyObject_GetBuffer res (Channel_Receives c) = Some len ->
  PyObject_GetBuffer res' (Channel_Receives c) = Some len' ->
  is_Some (channel_port J m) ->
  exists m1 m2 c2,
    transit_acquire t res m = Some (Returned (Py_Ref t), m1)
    /\ transit_acquire t res' m1 = Some (Returned (Py_Ref t), m2)
    /\ load t m2 = Some c2 /\ resource c2 = Some res'
    /\ ring m2 J ((ra ++ rb) ++ [t]).
Proof.
  intros Hring Hc Hj Htg Hiq Hbuf Hbuf' HJp.
  destruct (transit_acquire_attached_spec J ra t rb res m c len Hring Hc Hj Htg Hiq Hbuf HJp)
    as (m1 & c1 & Hrun & Hring1 & Hc1 & Hrd & _ & _ & _ & HJp1).
  apply ring_diff_state in Hrd as (Hs & Hd & Hjn & Hr).
  destruct (acquired_fields res len c)
    as (_ & _ & _ & Hjn0 & _ & Hst & Hdl & _ & Hres & _).
  assert (state c1 = state c) as Hs' by (rewrite Hs, <- Hst; reflexivity).
  assert (delta c1 = Word.set (delta c) (iq_bit teq_transfer)) as Hd'
    by (rewrite Hd, <- Hdl; reflexivity).
  assert (junction c1 = junction c) as Hj' by (rewrite Hjn, <- Hjn0; reflexivity).
  assert (Channel_Terminating c1 = false) as Htg1.
  { revert Htg. unfold Channel_Terminating, Channel_Terminated, Channel_ShouldTerminate,
      Channel_IQualified, Channel_XQualified, Channel_DQualified.
    rewrite Hs', Hd', word_test_set_ne by done. done. }
  assert (Channel_IQualified c1 teq_transfer = false) as Hiq1.
  { revert Hiq. unfold Channel_IQualified. by rewrite Hs'. }
  assert (Channel_Receives c1 = Channel_Receives c) as Hrc.
  { unfold Channel_Receives, Channel_GetControl. by rewrite Hs'. }
  destruct (transit_acquire_attached_spec J (ra ++ rb) t [] res' m1 c1 len')
    as (m2 & c2 & Hrun2 & Hring2 & Hc2 & Hrd2 & _); try done.
  { by rewrite Hj'. }
  { by rewrite Hrc. }
  exists m1, m2, c2. split; [done|]. split; [done|]. split; [done|].
  split.
  - apply ring_diff_state in Hrd2 as (_ & _ & _ & ->).
    by destruct (acquired_fields res' len' c1) as (_ & _ & _ & _ & _ & _ & _ & _ & ? & _).
  - by rewrite app_nil_r in Hring2.
Qed.

Lemma transit_acquire_attached_twice_witness :
  exists m1 m2 c2,
    transit_acquire Ex.rd (Ex.bytes 8) Ex.cycled = Some (Returned (Py_Ref Ex.rd), m1)
    /\ transit_acquire Ex.rd (Ex.bytes 4) m1 = Some (Returned (Py_Ref Ex.rd), m2)
    /\ load Ex.rd m2 = Some c2 /\ resource c2 = Some (Ex.bytes 4)
    /\ ring m2 Ex.J (([] ++ [Ex.wr]) ++ [Ex.rd]).
Proof.
  eapply (transit_acquire_attached_twice Ex.J [] Ex.rd [Ex.wr] (Ex.bytes 8) (Ex.bytes 4)
            Ex.cycled _ 8 4).
  - split; [|split].
    + change (Ex.J :: ([] ++ Ex.rd :: [Ex.wr]) ++ [Ex.J]) with [Ex.J; Ex.rd; Ex.wr; Ex.J].
      apply chain_cons. split; [vm_compute; reflexivity|].
      apply chain_cons. split; [vm_compute; reflexivity|].
      apply chain_cons. split; [vm_compute; reflexivity|]. exact I.
    + change (Ex.J :: rev ([] ++ Ex.rd :: [Ex.wr]) ++ [Ex.J])
        with [Ex.J; Ex.wr; Ex.rd; Ex.J].
      apply chain_cons. split; [vm_compute; reflexivity|].
      apply chain_cons. split; [vm_compute; reflexivity|].
      apply chain_cons. split; [vm_compute; reflexivity|]. exact I.
    + apply (bool_decide_unpack _). vm_compute. exact I.
  - vm_compute. reflexivity.
  - vm_compute. reflexivity.
  - vm_compute. reflexivity.
  - vm_compute. reflexivity.
  - vm_compute. reflexivity.
  - vm_compute. reflexivity.
  - vm_compute. eexists. reflexivity.
Defined.

(** * The ring of a Junction *)

Lemma junction_resource_walk_spec J m : forall rest fuel,
  (length rest <= fuel)%nat ->
  chain next m (rest ++ [J]) -> J ∉ rest ->
  junction_resource_walk fuel J (default J (head rest)) m = Some rest.
Proof.
  induction rest as [|x rest IH]; intros fuel Hfuel Hc HJ.
  - destruct fuel; simpl; by rewrite bool_decide_eq_true_2.
  - destruct fuel as [|fuel]; [simpl in Hfuel; lia|].
    apply not_elem_of_cons in HJ as [HxJ HJ].
    change ((x :: rest) ++ [J]) with (x :: rest ++ [J]) in Hc.
    apply chain_head in Hc as [Hx Hc].
    apply ptr_at_Some in Hx as (c & Hcx & Hnx).
    simpl. rewrite bool_decide_eq_false_2 by done.
    rewrite Hcx. cbn [mbind option_bind]. rewrite Hnx. cbn [mbind option_bind].
    rewrite IH; [done|simpl in Hfuel; lia|done|done].
Qed.

Lemma junction_get_resource_ring J r m cJ :
  ring m J r -> load J m = Some cJ ->
  ntransits (choice cJ) = Z.of_nat (length r) ->
  junction_get_resource J m = Some (resource_list (Some <$> r)).
Proof.
  intros Hring HJ Hn. unfold junction_get_resource. rewrite HJ. cbn [mbind option_bind].
  destruct (ring_next_head _ _ _ _ Hring HJ) as [Hnx Hc]. rewrite Hnx.
  cbn [mbind option_bind].
  rewrite (junction_resource_walk_spec J m r);
    [|pose proof (ring_fuel _ _ _ Hring); lia|done|by eapply ring_J_not_in].
  cbn [mbind option_bind]. rewrite Hn.
  destruct (Z.ltb_spec (Z.of_nat (length r)) 0) as [?|_]; [lia|].
  destruct (Z.leb_spec (Z.of_nat (length r)) (Z.of_nat (length r))) as [_|?]; [|lia].
  rewrite Nat2Z.id, Nat.sub_diag. simpl. by rewrite app_nil_r.
Qed.

(** X8: when the channel count equals the number of members of the ring,
    the [resource] attribute of a Junction is the list of the members in
    ring order (the Junction left out), without empty slots. *)
Theorem junction_get_resource_members J r m cJ :
  ring m J r -> load J m = Some cJ ->
  ntransits (choice cJ) = Z.of_nat (length r) ->
  junction_get_resource J m = Some (resource_list (Some <$> r)).
Proof. apply junction_get_resource_ring. Qed.

Lemma junction_get_resource_members_witness :
  junction_get_resource Ex.J Ex.attached
    = Some (resource_list (Some <$> [Ex.rd; Ex.wr])).
Proof.
  eapply (junction_get_resource_members Ex.J [Ex.rd; Ex.wr]).
  - split; [|split].
    + change (Ex.J :: [Ex.rd; Ex.wr] ++ [Ex.J]) with [Ex.J; Ex.rd; Ex.wr; Ex.J].
      apply chain_cons. split; [vm_compute; reflexivity|].
      apply chain_cons. split; [vm_compute; reflexivity|].
      apply chain_cons. split; [vm_compute; reflexivity|]. exact I.
    + change (Ex.J :: rev [Ex.rd; Ex.wr] ++ [Ex.J]) with [Ex.J; Ex.wr; Ex.rd; Ex.J].
      apply chain_cons. split; [vm_compute; reflexivity|].
      apply chain_cons. split; [vm_compute; reflexivity|].
      apply chain_cons. split; [vm_compute; reflexivity|]. exact I.
    + apply (bool_decide_unpack _). vm_compute. exact I.
  - vm_compute. reflexivity.
  - vm_compute. reflexivity.
Defined.

(** X9: [Junction.acquire] of a detached Channel that is not terminated:
    the Channel becomes the last member of the ring, names the Junction,
    carries the connect control in its delta word (its state word is as
    before), and the channel count is incremented, so that it still equals
    the number of members and the [resource] attribute lists the new ring. *)
Theorem junction_acquire_fresh J r t m cJ ct :
  ring m J r -> (t ∉ J :: r) ->
  load J m = Some cJ -> Channel_Terminating cJ = false ->
  load t m = Some ct -> junction ct = None -> Channel_Terminated ct = false ->
  ntransits (choice cJ) = Z.of_nat (length r) ->
  exists m1 c1 cJ1,
    junction_acquire J t m = Some (Returned (Py_Ref t), m1)
    /\ ring m1 J (r ++ [t])
    /\ load t m1 = Some c1
    /\ junction c1 = Some J
    /\ Word.test (delta c1) (ctl_bit ctl_connect) = true
    /\ state c1 = state ct
    /\ load J m1 = Some cJ1
    /\ ntransits (choice cJ1) = Z.of_nat (length (r ++ [t]))
    /\ junction_get_resource J m1 = Some (resource_list (Some <$> (r ++ [t])))
    /\ (forall a, a ∉ J :: r -> a <> t -> load a m1 = load a m).
Proof.
  intros Hring Hni HJ HtgJ Ht Hj Htd Hn.
  assert (t <> J) as HtJ by (intros ->; apply Hni; left).
  unfold junction_acquire. rewrite HJ. cbn [mbind option_bind].
  rewrite Ht. cbn [mbind option_bind]. rewrite HtgJ.
  unfold Channel_Attached. rewrite Hj.
  rewrite bool_decide_eq_false_2 by (intros H; by apply H). simpl. rewrite Htd.
  rewrite (modify_Some _ _ _ _ Ht). cbn [mbind option_bind].
  erewrite modify_Some by apply load_store_eq. cbn [mbind option_bind].
  rewrite store_store.
  set (c2 := set_junction (Some J) (Channel_DControl ctl_connect ct)).
  set (m2 := store t c2 m).
  assert (load t m2 = Some c2) as Ht2 by apply load_store_eq.
  assert (ring m2 J r) as Hring2 by (by apply ring_store_off).
  unfold TRANSIT_ATTACH. rewrite Ht2. cbn [mbind option_bind].
  change (junction c2) with (Some J). cbn [mbind option_bind].
  destruct (TRANSIT_ATTACH_SEGMENT_BEFORE_ring J r t m2 c2 Hring2 Hni Ht2)
    as (m3 & -> & Hring3 & Hdiff & Hoff & Hports & Hkern).
  cbn [mbind option_bind].
  pose proof (Hdiff J) as HdJ. unfold m2 in HdJ.
  rewrite load_store_ne, HJ in HdJ by done.
  inversion HdJ as [? cJ3 HrdJ Heq1 Heq2|]; subst. symmetry in Heq2.
  rewrite (modify_Some _ _ _ _ Heq2). cbn [mbind option_bind].
  set (cJ4 := Junction_IncrementChannelCount cJ3).
  set (m4 := store J cJ4 m3).
  pose proof (Hdiff t) as Hdt. rewrite Ht2 in Hdt.
  inversion Hdt as [? c3 Hrdt Heq3 Heq4|]; subst. symmetry in Heq4.
  assert (ring m4 J (r ++ [t])) as Hring4.
  { eapply ring_store_same; [exact Hring3|exact Heq2|done|done]. }
  assert (choice cJ3 = choice cJ) as Hch.
  { unfold ring_diff in HrdJ. rewrite HrdJ. done. }
  assert (ntransits (choice cJ4) = Z.of_nat (length (r ++ [t]))) as Hn4.
  { unfold cJ4. simpl. rewrite Hch, Hn, length_app. simpl. lia. }
  exists m4, c3, cJ4. split; [done|]. split; [done|].
  split; [unfold m4; by rewrite load_store_ne|].
  apply ring_diff_state in Hrdt as (Hs & Hd & Hjn & _).
  split; [by rewrite Hjn|]. split.
  { rewrite Hd. unfold c2. simpl. by apply word_test_set_eq. }
  split; [by rewrite Hs|]. split; [apply load_store_eq|]. split; [done|].
  split.
  - eapply junction_get_resource_ring; [done|apply load_store_eq|done].
  - intros a Ha Hat. unfold m4. rewrite load_store_ne.
    + rewrite Hoff by done. unfold m2. by rewrite load_store_ne.
    + intros ->. apply Ha. left.
Qed.

Lemma junction_acquire_fresh_witness :
  exists m1 c1 cJ1,
    junction_acquire Ex.J Ex.aux (alloci Ex.aux 13%positive 1 7 Ex.attached)
      = Some (Returned (Py_Ref Ex.aux), m1)
    /\ ring m1 Ex.J ([Ex.rd; Ex.wr] ++ [Ex.aux])
    /\ load Ex.aux m1 = Some c1
    /\ junction c1 = Some Ex.J
    /\ Word.test (delta c1) (ctl_bit ctl_connect) = true
    /\ load Ex.J m1 = Some cJ1
    /\ ntransits (choice cJ1) = Z.of_nat (length ([Ex.rd; Ex.wr] ++ [Ex.aux]))
    /\ junction_get_resource Ex.J m1
         = Some (resource_list (Some <$> ([Ex.rd; Ex.wr] ++ [Ex.aux]))).
Proof.
  edestruct (junction_acquire_fresh Ex.J [Ex.rd; Ex.wr] Ex.aux
               (alloci Ex.aux 13%positive 1 7 Ex.attached))
    as (m1 & c1 & cJ1 & H1 & H2 & H3 & H4 & H5 & _ & H7 & H8 & H9 & _).
  - split; [|split].
    + change (Ex.J :: [Ex.rd; Ex.wr] ++ [Ex.J]) with [Ex.J; Ex.rd; Ex.wr; Ex.J].
      apply chain_cons. split; [vm_compute; reflexivity|].
      apply chain_cons. split; [vm_compute; reflexivity|].
      apply chain_cons. split; [vm_compute; reflexivity|]. exact I.
    + change (Ex.J :: rev [Ex.rd; Ex.wr] ++ [Ex.J]) with [Ex.J; Ex.wr; Ex.rd; Ex.J].
      apply chain_cons. split; [vm_compute; reflexivity|].
      apply chain_cons. split; [vm_compute; reflexivity|].
      apply chain_cons. split; [vm_compute; reflexivity|]. exact I.
    + apply (bool_decide_unpack _). vm_compute. exact I.
  - apply (bool_decide_unpack _). vm_compute. exact I.
  - vm_compute. reflexivity.
  - vm_compute. reflexivity.
  - vm_compute. reflexivity.
  - vm_compute. reflexivity.
  - vm_compute. reflexivity.
  - vm_compute. reflexivity.
  - exists m1, c1, cJ1. split; [exact H1|]. split; [exact H2|]. split; [exact H3|].
    split; [exact H4|]. split; [exact H5|]. split; [exact H7|]. split; [exact H8|exact H9].
Defined.



(** The pointers of a chain are determined by the list it follows. *)
Lemma chain_determines f m m' z : forall l,
  chain f m (l ++ [z]) -> chain f m' (l ++ [z]) ->
  forall a, a ∈ l -> ptr_at f m' a = ptr_at f m a.
Proof.
  induction l as [|x l IH]; intros Hc Hc' a Ha; [by apply elem_of_nil in Ha|].
  change ((x :: l) ++ [z]) with (x :: l ++ [z]) in Hc, Hc'.
  apply chain_head in Hc as [Hx Hc]. apply chain_head in Hc' as [Hx' Hc'].
  apply elem_of_cons in Ha as [->|Ha]; [congruence|]. by apply IH.
Qed.

Lemma ring_determines m m' J r a :
  ring m J r -> ring m' J r -> a ∈ J :: r ->
  ptr_at next m' a = ptr_at next m a /\ ptr_at prev m' a = ptr_at prev m a.
Proof.
  intros (Hn & Hp & _) (Hn' & Hp' & _) Ha. split.
  - eapply (chain_determines next m m' J (J :: r)); done.
  - eapply (chain_determines prev m m' J (J :: rev r)); [done|done|].
    apply elem_of_cons in Ha as [->|Ha]; [left|right].
    apply list_elem_of_In. apply -> in_rev. by apply list_elem_of_In.
Qed.

Lemma ring_diff_same_ptrs c c' :
  ring_diff c c' -> prev c' = prev c -> next c' = next c -> c' = c.
Proof.
  unfold ring_diff. intros Hd Hp Hn. rewrite Hd, Hn, Hp. by destruct c.
Qed.

(** X11: attaching an object behind the Junction and detaching it again
    restores the ring and every other object; the object itself is left
    with both ring pointers [NULL]. *)
Theorem TRANSIT_ATTACH_DETACH J r t m ct :
  ring m J r -> (t ∉ J :: r) -> load t m = Some ct -> junction ct = Some J ->
  exists m1 m2,
    TRANSIT_ATTACH t m = Some m1
    /\ ring m1 J (r ++ [t])
    /\ TRANSIT_DETACH t m1 = Some m2
    /\ ring m2 J r
    /\ (forall a, a <> t -> load a m2 = load a m)
    /\ load t m2 = Some (set_next None (set_prev None ct))
    /\ ports m2 = ports m /\ kern m2 = kern m.
Proof.
  intros Hring Hni Ht Hj.
  destruct (TRANSIT_ATTACH_SEGMENT_BEFORE_ring J r t m ct Hring Hni Ht)
    as (m1 & Hatt & Hring1 & Hdiff1 & Hoff1 & Hports1 & Hkern1).
  assert (ring m1 J (r ++ t :: [])) as Hring1' by done.
  destruct (TRANSIT_DETACH_SEGMENT_ring J r t [] m1 Hring1')
    as (m2 & ct1 & Hseg & Hct1 & Hct2 & _ & Hring2 & Hdiff2 & Hoff2 & Hports2 & Hkern2).
  rewrite app_nil_r in Hring2, Hoff2.
  set (m4 := store t (set_next None (set_prev None ct1)) m2).
  exists m1, m4. split.
  { unfold TRANSIT_ATTACH. rewrite Ht. cbn [mbind option_bind]. rewrite Hj. done. }
  split; [done|]. split.
  { unfold TRANSIT_DETACH. rewrite Hseg. cbn [mbind option_bind].
    rewrite (modify_Some _ _ _ _ Hct2). cbn [mbind option_bind].
    erewrite modify_Some by apply load_store_eq. cbn [mbind option_bind].
    by rewrite store_store. }
  assert (ring m4 J r) as Hring4 by (by apply ring_store_off).
  split; [done|].
  assert (forall a, option_Forall2 ring_diff (load a m) (load a m2)) as Hdiff
    by (by eapply ring_diff_loads_trans).
  split; [|split; [|unfold m4; simpl; split; congruence]].
  - intros a Hat. unfold m4. rewrite load_store_ne by done.
    destruct (decide (a ∈ J :: r)) as [Hin|Hout].
    + destruct (ring_determines m m2 J r a Hring Hring2 Hin) as [Hn Hp].
      specialize (Hdiff a). unfold ptr_at in Hn, Hp.
      destruct Hdiff as [c c2 Hd|]; [|done]. simpl in Hn, Hp.
      f_equal. by apply ring_diff_same_ptrs.
    + rewrite Hoff2 by done. by apply Hoff1.
  - unfold m4. rewrite load_store_eq. f_equal.
    specialize (Hdiff1 t). rewrite Ht, Hct1 in Hdiff1.
    inversion Hdiff1 as [? ? Hd|]; subst. unfold ring_diff in Hd. rewrite Hd.
    by destruct ct.
Qed.

Lemma TRANSIT_ATTACH_DETACH_witness :
  exists m1 m2 ct,
    load Ex.aux (store Ex.aux (INIT_INPUT_TRANSIT (Some Ex.J) 13%positive 1 false)
                   Ex.attached) = Some ct
    /\ TRANSIT_ATTACH Ex.aux
         (store Ex.aux (INIT_INPUT_TRANSIT (Some Ex.J) 13%positive 1 false) Ex.attached)
       = Some m1
    /\ ring m1 Ex.J ([Ex.rd; Ex.wr] ++ [Ex.aux])
    /\ TRANSIT_DETACH Ex.aux m1 = Some m2
    /\ ring m2 Ex.J [Ex.rd; Ex.wr]
    /\ load Ex.aux m2 = Some (set_next None (set_prev None ct)).
Proof.
  edestruct (TRANSIT_ATTACH_DETACH Ex.J [Ex.rd; Ex.wr] Ex.aux
               (store Ex.aux (INIT_INPUT_TRANSIT (Some Ex.J) 13%positive 1 false)
                  Ex.attached))
    as (m1 & m2 & H1 & H2 & H3 & H4 & _ & H6 & _).
  - split; [|split].
    + change (Ex.J :: [Ex.rd; Ex.wr] ++ [Ex.J]) with [Ex.J; Ex.rd; Ex.wr; Ex.J].
      apply chain_cons. split; [vm_compute; reflexivity|].
      apply chain_cons. split; [vm_compute; reflexivity|].
      apply chain_cons. split; [vm_compute; reflexivity|]. exact I.
    + change (Ex.J :: rev [Ex.rd; Ex.wr] ++ [Ex.J]) with [Ex.J; Ex.wr; Ex.rd; Ex.J].
      apply chain_cons. split; [vm_compute; reflexivity|].
      apply chain_cons. split; [vm_compute; reflexivity|].
      apply chain_cons. split; [vm_compute; reflexivity|]. exact I.
    + apply (bool_decide_unpack _). vm_compute. exact I.
  - apply (bool_decide_unpack _). vm_compute. exact I.
  - apply load_store_eq.
  - reflexivity.
  - eexists m1, m2, _. split; [apply load_store_eq|]. split; [exact H1|].
    split; [exact H2|]. split; [exact H3|]. split; [exact H4|exact H6].
Defined.

(** * The transfer iterator *)

Lemma jxi_seek_skip J m target : forall zs fuel,
  (length zs <= fuel)%nat ->
  chain lltransfer m (zs ++ [target]) ->
  (forall z, z ∈ zs -> z <> J /\ ~ has_events m z) ->
  target = J \/ has_events m target ->
  jxi_seek fuel (Some J) (Some (default target (head zs))) m = Some (Some target).
Proof.
  induction zs as [|z zs IH]; intros fuel Hfuel Hc Hz Ht.
  - simpl. destruct (decide (target = J)) as [->|Hne].
    + destruct fuel; simpl; by rewrite bool_decide_eq_true_2.
    + destruct Ht as [?|(c & Hc' & Hev)]; [done|].
      assert (jxi_seek fuel (Some J) (Some target) m
              = (c ← load target m;
                 if events c =? 0
                 then match fuel with
                      | O => None
                      | S n => jxi_seek n (Some J) (lltransfer c) m
                      end
                 else Some (Some target))) as ->.
      { destruct fuel; simpl; rewrite bool_decide_eq_false_2 by congruence; done. }
      rewrite Hc'. cbn [mbind option_bind].
      destruct (Z.eqb_spec (events c) 0); done.
  - destruct fuel as [|fuel]; [simpl in Hfuel; lia|].
    change ((z :: zs) ++ [target]) with (z :: zs ++ [target]) in Hc.
    apply chain_head in Hc as [Hzp Hc].
    apply ptr_at_Some in Hzp as (c & Hcz & Hnx).
    destruct (Hz z) as [HzJ Hnev]; [left|].
    simpl. rewrite bool_decide_eq_false_2 by congruence.
    rewrite Hcz. cbn [mbind option_bind].
    destruct (Z.eqb_spec (events c) 0) as [_|Hne].
    + rewrite Hnx. apply IH; [simpl in Hfuel; lia|done| |done].
      intros z' Hz'. apply Hz. by right.
    + exfalso. apply Hnev. by exists c.
Qed.

Lemma filter_first (P : addr -> Prop) `{!forall x, Decision (P x)} (l : list addr) y fs :
  filter P l = y :: fs ->
  exists zs rest, l = zs ++ y :: rest /\ (forall z, z ∈ zs -> ~ P z) /\ P y
    /\ fs = filter P rest.
Proof.
  induction l as [|x l IH]; [done|].
  rewrite filter_cons. destruct (decide (P x)) as [Hx|Hx].
  - intros [= -> <-]. exists [], l. split; [done|]. split; [|done].
    intros z Hz. by apply elem_of_nil in Hz.
  - intros Hfl. destruct (IH Hfl) as (zs & rest & -> & Hzs & Hy & Hfs).
    exists (x :: zs), rest. split; [done|]. split; [|done].
    intros z Hz. apply elem_of_cons in Hz as [->|Hz]; [done|by apply Hzs].
Qed.

Lemma filter_none (P : addr -> Prop) `{!forall x, Decision (P x)} (l : list addr) :
  filter P l = [] -> forall z, z ∈ l -> ~ P z.
Proof.
  intros Hfl z Hz HP.
  assert (z ∈ filter P l) as Hin by (by apply list_elem_of_filter).
  rewrite Hfl in Hin. by apply elem_of_nil in Hin.
Qed.

Lemma jxi_collect_spec J m cJ :
  load J m = Some cJ -> lltransfer cJ <> None ->
  forall n rest,
  (length rest < n)%nat -> (length rest < fuel_of m)%nat ->
  chain lltransfer m (rest ++ [J]) -> J ∉ rest ->
  jxi_collect n (mkJxi (Some J) (Some (default J (head rest)))) m
    = Some (filter (has_events m) rest, None).
Proof.
  intros HJ HJin. induction n as [|n IH]; intros rest Hn Hfuel Hc HJr; [lia|].
  assert (exists c, load (default J (head rest)) m = Some c /\ lltransfer c <> None)
    as (c0 & Hc0 & Hin0).
  { destruct rest as [|x rest]; [by exists cJ|].
    change ((x :: rest) ++ [J]) with (x :: rest ++ [J]) in Hc.
    apply chain_head in Hc as [Hx _].
    apply ptr_at_Some in Hx as (c & Hcx & Hnx). exists c. split; [done|]. by rewrite Hnx. }
  cbn [jxi_collect]. unfold jxi_next. cbn [jxi_t jxi_J].
  rewrite Hc0. cbn [mbind option_bind].
  unfold Channel_InCycle. rewrite bool_decide_eq_true_2 by done. simpl negb. cbv iota.
  destruct (filter (has_events m) rest) as [|y fs] eqn:Hf.
  - pose proof (filter_none _ _ Hf) as Hnone.
    rewrite (jxi_seek_skip J m J rest); [|lia|done| |by left].
    2:{ intros z Hz. split; [by intros ->|by apply Hnone]. }
    cbn [mbind option_bind]. rewrite bool_decide_eq_true_2 by done.
    done.
  - destruct (filter_first _ _ _ _ Hf) as (zs & rest' & -> & Hzs & Hy & ->).
    rewrite <- app_assoc in Hc. simpl in Hc.
    apply chain_app in Hc as [Hc1 Hc2].
    assert (y <> J) as HyJ.
    { intros ->. apply HJr. apply elem_of_app. right. left. }
    assert (default y (head zs) = default J (head (zs ++ y :: rest'))) as Hhd
      by (by destruct zs).
    rewrite <- Hhd.
    rewrite (jxi_seek_skip J m y zs); [|rewrite length_app in Hfuel; lia|done| |by right].
    2:{ intros z Hz. split; [|by apply Hzs].
        intros ->. apply HJr. apply elem_of_app. by left. }
    cbn [mbind option_bind]. rewrite bool_decide_eq_false_2 by congruence.
    cbn [mbind option_bind].
    apply chain_head in Hc2 as [Hyp Hc2].
    apply ptr_at_Some in Hyp as (cy & Hcy & Hnx).
    rewrite Hcy. cbn [mbind option_bind]. rewrite Hnx.
    rewrite IH; [done| | |done|].
    + rewrite length_app in Hn. simpl in Hn. lia.
    + rewrite length_app in Hfuel. simpl in Hfuel. lia.
    + intros Hin. apply HJr. apply elem_of_app. right. by right.
Qed.

(** X12: inside a cycle [Junction.transfer()] returns an iterator, and
    iterating it produces exactly the Channels of the transfer list that
    carry events, in the order of the list, and then stops without an
    exception. *)
Theorem junction_transfer_iterates J l m :
  tlist m J l ->
  exists i, junction_transfer J m = Some (transfer_iter i)
    /\ jxi_collect (S (length l)) i m = Some (filter (has_events m) l, None).
Proof.
  intros Htl. destruct (tlist_head _ _ _ Htl) as (cJ & HJ & Hh).
  exists (new_jxi J cJ). split.
  - unfold junction_transfer. rewrite HJ. cbn [mbind option_bind].
    unfold Channel_InCycle. rewrite bool_decide_eq_true_2 by (by rewrite Hh). done.
  - unfold new_jxi. rewrite Hh.
    apply (jxi_collect_spec J m cJ HJ); [by rewrite Hh|lia|by eapply tlist_fuel| |].
    + destruct Htl as [Hc _]. by apply chain_head in Hc as [_ ?].
    + by eapply tlist_J_not_in.
Qed.

Lemma junction_transfer_iterates_witness :
  exists i, junction_transfer Ex.J Ex.in_cycle = Some (transfer_iter i)
    /\ jxi_collect (S (length [Ex.rd; Ex.wr])) i Ex.in_cycle
       = Some (filter (has_events Ex.in_cycle) [Ex.rd; Ex.wr], None).
Proof.
  apply junction_transfer_iterates. split.
  - change (Ex.J :: [Ex.rd; Ex.wr] ++ [Ex.J]) with [Ex.J; Ex.rd; Ex.wr; Ex.J].
    apply chain_cons. split; [vm_compute; reflexivity|].
    apply chain_cons. split; [vm_compute; reflexivity|].
    apply chain_cons. split; [vm_compute; reflexivity|]. exact I.
  - apply (bool_decide_unpack _). vm_compute. exact I.
Defined.

(** * Objects outlive the cycle *)

Lemma modify_dom t f m m' :
  modify t f m = Some m' -> dom (chans m') = dom (chans m).
Proof.
  unfold modify. destruct (load t m) as [c|] eqn:Hc; [|discriminate].
  intros [= <-]. unfold store. simpl. apply set_eq. intros a.
  rewrite dom_insert. unfold load in Hc.
  apply (elem_of_dom_2 (D := gset addr)) in Hc. set_solver.
Qed.

Lemma modify_port_chans p f m m' : modify_port p f m = Some m' -> chans m' = chans m.
Proof.
  unfold modify_port. destruct (load_port p m); [|discriminate]. by intros [= <-].
Qed.

Lemma ring_diff_loads_dom m m' :
  (forall a, option_Forall2 ring_diff (load a m) (load a m')) ->
  dom (chans m') = dom (chans m).
Proof.
  intros Hd. apply set_eq. intros a. rewrite !elem_of_dom.
  specialize (Hd a). unfold load in Hd. destruct Hd; split; intros [? ?]; eauto; done.
Qed.

Lemma TRANSIT_DETACH_dom t m m' :
  TRANSIT_DETACH t m = Some m' -> dom (chans m') = dom (chans m).
Proof.
  unfold TRANSIT_DETACH, TRANSIT_DETACH_SEGMENT. intros H.
  destruct (load t m) as [c|]; [|discriminate]. cbn [mbind option_bind] in H.
  destruct (prev c) as [p|]; [|discriminate]. cbn [mbind option_bind] in H.
  destruct (next c) as [n|]; [|discriminate]. cbn [mbind option_bind] in H.
  destruct (modify p _ m) as [m1|] eqn:E1; [|discriminate]. cbn [mbind option_bind] in H.
  destruct (modify n _ m1) as [m2|] eqn:E2; [|discriminate]. cbn [mbind option_bind] in H.
  destruct (modify t _ m2) as [m3|] eqn:E3; [|discriminate]. cbn [mbind option_bind] in H.
  apply modify_dom in E1, E2, E3, H. congruence.
Qed.

Lemma _junction_flush_step_dom J t m nxt m' :
  _junction_flush_step J t m = Some (nxt, m') -> dom (chans m') = dom (chans m).
Proof.
  unfold _junction_flush_step, Channel_SetNextTransfer. intros H.
  destruct (load t m) as [c|]; [|discriminate]. cbn [mbind option_bind] in H.
  destruct (lltransfer c) as [nx|]; [|discriminate]. cbn [mbind option_bind] in H.
  destruct (modify t _ m) as [m1|] eqn:E1; [|discriminate]. cbn [mbind option_bind] in H.
  destruct (modify t _ m1) as [m2|] eqn:E2; [|discriminate]. cbn [mbind option_bind] in H.
  destruct (load t m2) as [c2|]; [|discriminate]. cbn [mbind option_bind] in H.
  apply modify_dom in E1, E2.
  match type of H with
  | (?X ≫= _) = _ => destruct X as [m3|] eqn:E3; [|discriminate]
  end.
  cbn [mbind option_bind] in H.
  destruct (modify t _ m3) as [m4|] eqn:E4; [|discriminate].
  cbn [mbind option_bind] in H. injection H as _ <-.
  apply modify_dom in E4. rewrite E4, <- E1, <- E2. clear E4 E1 E2.
  destruct (Channel_HasEvent c2 tev_terminate).
  - destruct (modify t _ m2) as [ma|] eqn:Ea; [|discriminate].
    cbn [mbind option_bind] in E3.
    destruct (modify t _ ma) as [mb|] eqn:Eb; [|discriminate].
    cbn [mbind option_bind] in E3.
    destruct (channel_port t mb) as [[p x]|]; [|discriminate].
    cbn [mbind option_bind] in E3.
    destruct (modify_port p _ mb) as [mc|] eqn:Ec; [|discriminate].
    cbn [mbind option_bind] in E3.
    destruct (TRANSIT_DETACH t mc) as [md|] eqn:Ed; [|discriminate].
    cbn [mbind option_bind] in E3.
    apply modify_dom in Ea, Eb, E3. apply modify_port_chans in Ec.
    apply TRANSIT_DETACH_dom in Ed. congruence.
  - destruct (negb _ && negb _).
    + by apply modify_dom in E3.
    + by injection E3 as <-.
Qed.

Lemma _junction_flush_loop_dom J : forall fuel t m m',
  _junction_flush_loop fuel J t m = Some m' -> dom (chans m') = dom (chans m).
Proof.
  induction fuel as [|fuel IH]; intros t m m'; simpl.
  - destruct (bool_decide (t = J)); [by intros [= <-]|discriminate].
  - destruct (bool_decide (t = J)); [by intros [= <-]|].
    destruct (_junction_flush_step J t m) as [[nxt m1]|] eqn:E; [|discriminate].
    cbn [mbind option_bind]. intros H. apply IH in H.
    apply _junction_flush_step_dom in E. congruence.
Qed.

Lemma junction_exit_dom J m r m' :
  junction_exit J m = Some (r, m') -> dom (chans m') = dom (chans m).
Proof.
  unfold junction_exit, _junction_flush, junction_finish_cycle, Channel_SetNextTransfer.
  destruct (load J m) as [cJ|]; [|discriminate]. cbn [mbind option_bind].
  destruct (Channel_InCycle cJ); [|by intros [= _ <-]].
  destruct (lltransfer cJ) as [t|]; [|discriminate]. cbn [mbind option_bind].
  destruct (_junction_flush_loop (fuel_of m) J t m) as [m1|] eqn:E1; [|discriminate].
  cbn [mbind option_bind].
  destruct (modify J _ m1) as [m2|] eqn:E2; [|discriminate]. cbn [mbind option_bind].
  destruct (modify J _ m2) as [m3|] eqn:E3; [|discriminate]. cbn [mbind option_bind].
  intros [= _ <-]. apply _junction_flush_loop_dom in E1.
  apply modify_dom in E2, E3. congruence.
Qed.

Lemma load_dom m m' a :
  dom (chans m') = dom (chans m) -> is_Some (load a m) -> is_Some (load a m').
Proof.
  intros Hd H. unfold load in *. apply elem_of_dom. rewrite Hd. by apply elem_of_dom.
Qed.


(** X14: [end_cycle] is idempotent: after the [end_cycle] of a cycle a
    second [end_cycle] returns [None] and changes nothing. *)
Theorem junction_exit_idempotent J r l m :
  cycle_inv J r l m -> events_in l m ->
  exists m2, junction_exit J m = Some (Returned Py_None, m2)
    /\ junction_exit J m2 = Some (Returned Py_None, m2).
Proof.
  intros Hinv Hev.
  destruct (junction_exit_quiescent J r l m Hinv Hev) as (m2 & Hrun & Hq).
  pose proof (junction_exit_dom _ _ _ _ Hrun) as Hd.
  exists m2. split; [done|].
  destruct (load_dom m m2 J Hd) as [cJ HcJ]; [eapply tlist_member; [apply Hinv|left]|].
  unfold junction_exit. rewrite HcJ. cbn [mbind option_bind].
  unfold Channel_InCycle. destruct (Hq J cJ HcJ) as [_ ->].
  rewrite bool_decide_eq_false_2 by (intros H; by apply H). done.
Qed.

(** Decidable forms of the shape of a cycle, for concrete machines. *)
Lemma cycle_inv_map J r l m cJ :
  tlist m J l -> l ⊆ r -> ring m J r ->
  map_Forall (fun _ c => is_Some (p ← port c; ports m !! p)) (chans m) ->
  map_Forall (fun a c => a ∉ l -> a <> J -> lltransfer c = None) (chans m) ->
  load J m = Some cJ -> kevents_ok cJ ->
  Forall (Forall (fun kev => kev_udata kev ∈ J :: r)) (k_pending (kern m)) ->
  map_Forall (fun a c => (a ∈ J :: r -> junction c = Some J)
                          /\ (a ∉ J :: r -> prev c = None /\ next c = None)) (chans m) ->
  cycle_inv J r l m.
Proof.
  intros Htl Hsub Hring Hports Hoff HJ Hk Hpend Hatt.
  split; [done|]. split; [done|]. split; [done|].
  split; [by apply ports_ok_map|]. split; [intros a c Hl; exact (Hoff a c Hl)|].
  split; [by exists cJ|]. split; [by apply pending_ok_Forall|by apply attach_ok_map].
Qed.

Lemma events_in_map l m :
  map_Forall (fun a c => a ∉ l -> events c = 0) (chans m) -> events_in l m.
Proof. intros H a c Hl. exact (H a c Hl). Qed.

Lemma in_cycle_shape :
  cycle_inv Ex.J [Ex.rd; Ex.wr] [Ex.rd; Ex.wr] Ex.in_cycle
  /\ events_in [Ex.rd; Ex.wr] Ex.in_cycle.
Proof.
  split.
  - eapply cycle_inv_map.
    + split.
      * change (Ex.J :: [Ex.rd; Ex.wr] ++ [Ex.J]) with [Ex.J; Ex.rd; Ex.wr; Ex.J].
        apply chain_cons. split; [vm_compute; reflexivity|].
        apply chain_cons. split; [vm_compute; reflexivity|].
        apply chain_cons. split; [vm_compute; reflexivity|]. exact I.
      * apply (bool_decide_unpack _). vm_compute. exact I.
    + intros a Ha. exact Ha.
    + split; [|split].
      * change (Ex.J :: [Ex.rd; Ex.wr] ++ [Ex.J]) with [Ex.J; Ex.rd; Ex.wr; Ex.J].
        apply chain_cons. split; [vm_compute; reflexivity|].
        apply chain_cons. split; [vm_compute; reflexivity|].
        apply chain_cons. split; [vm_compute; reflexivity|]. exact I.
      * change (Ex.J :: rev [Ex.rd; Ex.wr] ++ [Ex.J]) with [Ex.J; Ex.wr; Ex.rd; Ex.J].
        apply chain_cons. split; [vm_compute; reflexivity|].
        apply chain_cons. split; [vm_compute; reflexivity|].
        apply chain_cons. split; [vm_compute; reflexivity|]. exact I.
      * apply (bool_decide_unpack _). vm_compute. exact I.
    + apply (bool_decide_unpack _). vm_compute. exact I.
    + apply (bool_decide_unpack _). vm_compute. exact I.
    + vm_compute. reflexivity.
    + split; [|split]; vm_compute; [split; discriminate|reflexivity|split; reflexivity].
    + apply (bool_decide_unpack _). vm_compute. exact I.
    + apply (bool_decide_unpack _). vm_compute. exact I.
  - apply events_in_map. apply (bool_decide_unpack _). vm_compute. exact I.
Qed.


Lemma junction_exit_idempotent_witness :
  exists m2, junction_exit Ex.J Ex.in_cycle = Some (Returned Py_None, m2)
    /\ junction_exit Ex.J m2 = Some (Returned Py_None, m2).
Proof.
  apply (junction_exit_idempotent Ex.J [Ex.rd; Ex.wr] [Ex.rd; Ex.wr] Ex.in_cycle);
    apply in_cycle_shape.
Defined.

(** * A new Junction *)

Lemma junction_init_frame J m m' :
  junction_init J m = Some m' ->
  chans m' = chans m /\ dom (ports m') = dom (ports m)
  /\ k_pending (kern m') = k_pending (kern m).
Proof.
  unfold junction_init.
  destruct (channel_port J m) as [[pa p]|] eqn:Hp; [|discriminate].
  cbn [mbind option_bind].
  destruct (k_kqueue (kern m) p) as [failed p'].
  apply channel_port_Some in Hp as (c & _ & _ & Hlp).
  unfold modify_port. rewrite Hlp. cbn [mbind option_bind].
  assert (dom (<[pa := p']> (ports m)) = dom (ports m)) as Hd.
  { apply set_eq. intros a. rewrite dom_insert. unfold load_port in Hlp.
    apply (elem_of_dom_2 (D := gset addr)) in Hlp. set_solver. }
  destruct failed; intros [= <-]; done.
Qed.

(** X15: [junction_new] yields a Junction whose ring is empty, whose
    channel count is zero and whose [resource] attribute is the empty
    list; a first cycle runs on it at once.  (The other objects of the heap
    are at rest and detached, and the kernel reports only the wake-up
    event of the Junction.) *)
Theorem junction_new_cycle J p m :
  quiescent m -> ports_ok m ->
  (forall a c, load a m = Some c -> prev c = None /\ next c = None) ->
  pending_ok J [] m ->
  exists m1 m2 m3,
    junction_new J p m = Some m1
    /\ ring m1 J []
    /\ junction_get_resource J m1 = Some (resource_list [])
    /\ junction_enter J m1 = Some (Returned (Py_Ref J), m2)
    /\ junction_exit J m2 = Some (Returned Py_None, m3)
    /\ quiescent m3.
Proof.
  intros Hq Hports Hdet Hpend. unfold junction_new.
  match goal with
  | |- context [junction_init J (set_ports ?ps (store J ?c m))] =>
      set (cJ := c); set (m0 := set_ports ps (store J cJ m))
  end.
  assert (load J m0 = Some cJ) as HJ0 by apply load_store_eq.
  assert (forall a, a <> J -> load a m0 = load a m) as Hfr0.
  { intros a Ha. unfold m0. by apply (load_store_ne J a cJ m). }
  assert (is_Some (channel_port J m0)) as [[pa x] Hp0].
  { eexists (p, _). apply channel_port_Some. exists cJ. split; [done|]. split; [done|].
    unfold load_port, m0. simpl. apply lookup_insert_eq. }
  destruct (junction_init J m0) as [m1|] eqn:Hinit.
  2:{ exfalso. unfold junction_init in Hinit. rewrite Hp0 in Hinit.
      cbn [mbind option_bind] in Hinit.
      destruct (k_kqueue (kern m0) x) as [failed p'].
      apply channel_port_Some in Hp0 as (c & _ & _ & Hlp).
      unfold modify_port in Hinit. rewrite Hlp in Hinit.
      cbn [mbind option_bind] in Hinit. destruct failed; discriminate. }
  destruct (junction_init_frame _ _ _ Hinit) as (Hch & Hdp & Hkp).
  assert (forall a, load a m1 = load a m0) as Hl1.
  { intros a. unfold load. by rewrite Hch. }
  assert (ring m1 J []) as Hring.
  { split; [|split].
    - change (J :: [] ++ [J]) with [J; J]. apply chain_cons. split; [|done].
      unfold ptr_at. rewrite Hl1, HJ0. done.
    - change (J :: rev [] ++ [J]) with [J; J]. apply chain_cons. split; [|done].
      unfold ptr_at. rewrite Hl1, HJ0. done.
    - apply NoDup_singleton. }
  assert (ntransits (choice cJ) = 0) as Hcount by done.
  assert (kevents_ok cJ) as Hk.
  { split; [|split]; vm_compute; [split; discriminate|reflexivity|split; reflexivity]. }
  assert (quiescent m1) as Hq1.
  { intros a c Hl. rewrite Hl1 in Hl. destruct (decide (a = J)) as [->|Hne].
    - rewrite HJ0 in Hl. injection Hl as <-. done.
    - rewrite Hfr0 in Hl by done. by apply (Hq a c). }
  assert (ports_ok m1) as Hports1.
  { intros a c Hl. rewrite Hl1 in Hl.
    assert (exists q, port c = Some q /\ q ∈ dom (ports m0)) as (q & Hq' & Hin).
    { destruct (decide (a = J)) as [->|Hne].
      - rewrite HJ0 in Hl. injection Hl as <-. exists p. split; [done|].
        unfold m0. simpl. rewrite dom_insert. set_solver.
      - rewrite Hfr0 in Hl by done. destruct (Hports a c Hl) as (q & y & Hq' & Hy).
        exists q. split; [done|]. unfold m0. simpl. rewrite dom_insert.
        unfold load_port in Hy. apply (elem_of_dom_2 (D := gset addr)) in Hy. set_solver. }
    rewrite <- Hdp in Hin. apply elem_of_dom in Hin as [y Hy]. by exists q, y. }
  assert (attach_ok J [] m1) as Hatt.
  { intros a c Hl. rewrite Hl1 in Hl. destruct (decide (a = J)) as [->|Hne].
    - rewrite HJ0 in Hl. injection Hl as <-. split; [done|]. intros Hn.
      exfalso. apply Hn. left.
    - rewrite Hfr0 in Hl by done. split.
      + intros Hin. apply list_elem_of_singleton in Hin. done.
      + intros _. by apply (Hdet a c). }
  assert (pending_ok J [] m1) as Hpend1.
  { intros b kev Hb Hkev. rewrite Hkp in Hb. by apply (Hpend b kev). }
  assert (load J m1 = Some cJ) as HJ1 by (by rewrite Hl1).
  destruct (_junction_flow_inv J [] m1 cJ Hq1 Hring Hports1 HJ1 Hk Hpend1 Hatt)
    as (m2 & l & Hflow & Hinv & Hev).
  destruct (junction_exit_quiescent J [] l m2 Hinv Hev) as (m3 & Hexit & Hq3).
  exists m1, m2, m3. split; [done|]. split; [done|]. split.
  { by apply (junction_get_resource_ring J [] m1 cJ). }
  split; [|done].
  unfold junction_enter. rewrite HJ1. cbn [mbind option_bind].
  assert (Channel_Terminating cJ = false) as -> by (vm_compute; reflexivity).
  cbn [mbind option_bind].
  assert (Channel_InCycle cJ = false) as -> by done.
  rewrite Hflow. done.
Qed.

Lemma junction_new_cycle_witness :
  exists m1 m2 m3,
    junction_new Ex.J 10%positive Ex.detached_loaded = Some m1
    /\ ring m1 Ex.J []
    /\ junction_get_resource Ex.J m1 = Some (resource_list [])
    /\ junction_enter Ex.J m1 = Some (Returned (Py_Ref Ex.J), m2)
    /\ junction_exit Ex.J m2 = Some (Returned Py_None, m3)
    /\ quiescent m3.
Proof.
  apply junction_new_cycle.
  - apply quiescent_map. apply (bool_decide_unpack _). vm_compute. exact I.
  - apply ports_ok_map. apply (bool_decide_unpack _). vm_compute. exact I.
  - assert (map_Forall (fun _ c => prev c = None /\ next c = None)
              (chans Ex.detached_loaded)) as H
      by (apply (bool_decide_unpack _); vm_compute; exact I).
    intros a c Hl. exact (H a c Hl).
  - apply pending_ok_Forall. apply (bool_decide_unpack _). vm_compute. exact I.
Defined.

(** * Subscribing a Channel *)

Lemma kfilter_of_NulControl_connect c :
  kfilter_of (Channel_NulControl ctl_connect c) = kfilter_of c.
Proof.
  apply kfilter_of_state. unfold Channel_GetControl, Channel_NulControl. simpl.
  by apply word_test_nul_ne.
Qed.

(** X16: the connect step of [junction_apply_delta] on a Channel whose
    port is latched and free of errors (no requeue, no force): exactly one
    change, the filter-add of the Channel, is added to the changes of the
    Junction, none of the earlier ones is lost (a full array is submitted
    first), and the connect control is cleared, so that the Channel is not
    subscribed again. *)
Theorem junction_apply_delta_step_connect J t m cJ c pa p :
  t <> J -> load J m = Some cJ -> kevents_ok cJ -> is_Some (channel_port J m) ->
  load t m = Some c -> channel_port t m = Some (pa, p) ->
  Channel_ShouldXConnect c = true ->
  error p = 0 -> Port_Latched (Channel_Polarity c) p = true ->
  Channel_GetControl c ctl_requeue = false ->
  Channel_GetControl c ctl_force = false ->
  exists m',
    junction_apply_delta_step J t m = Some m'
    /\ emitted J m'
       = Some (submitted (k_log (kern m)) ++ queued cJ ++ [filter_add t c p])
    /\ load t m' = Some (Channel_NulControl ctl_connect c)
    /\ Channel_ShouldXConnect (Channel_NulControl ctl_connect c) = false
    /\ (forall a, a <> J -> a <> t -> load a m' = load a m)
    /\ ports m' = ports m.
Proof.
  intros HtJ HJ Hok HpJ Ht Hpt Hcon Herr Hlat Hrq Hfo.
  destruct (push_slot_spec J m cJ (filter_add t c p) HJ Hok HpJ)
    as (m1 & slot & m2 & ws & kevs & Hslot & Hch1 & Hp1 & Hrun & Hch & Hp' & Hk & _ & Hok'
        & Hem).
  assert (load t m1 = Some c) as Ht1.
  { unfold load. rewrite Hch1. rewrite lookup_insert_ne by done. exact Ht. }
  assert (channel_port t m1 = Some (pa, p)) as Hpt1.
  { apply channel_port_Some. apply channel_port_Some in Hpt as (c' & Hc' & Hpc & Hlp).
    exists c'. split; [congruence|]. split; [done|]. unfold load_port in *. by rewrite Hp1. }
  assert (load t m2 = Some c) as Ht2.
  { unfold load. rewrite Hch. rewrite lookup_insert_ne by done. exact Ht. }
  unfold junction_apply_delta_step. rewrite Ht. cbn [mbind option_bind]. rewrite Hcon.
  unfold Channel_PortError, Channel_PortLatched. rewrite Ht, Hpt. cbn [mbind option_bind].
  rewrite Herr, Hlat. simpl. rewrite Hrq. simpl.
  rewrite Hslot. cbn [mbind option_bind].
  unfold kfilter_attach. rewrite Ht1. cbn [mbind option_bind]. rewrite Hpt1.
  cbn [mbind option_bind]. rewrite Hrun. cbn [mbind option_bind].
  rewrite (modify_Some _ _ _ _ Ht2). cbn [mbind option_bind].
  rewrite load_store_eq. cbn [mbind option_bind].
  assert (Channel_GetControl (Channel_NulControl ctl_connect c) ctl_force = false) as ->.
  { unfold Channel_GetControl, Channel_NulControl in *. simpl.
    rewrite word_test_nul_ne by done. exact Hfo. }
  eexists. split; [done|]. split.
  { rewrite emitted_store_other by done. unfold emitted, load. rewrite Hch.
    rewrite lookup_insert_eq. cbn [mbind option_bind]. by rewrite Hem. }
  split; [apply load_store_eq|]. split.
  { unfold Channel_ShouldXConnect, Channel_GetControl, Channel_NulControl. simpl.
    by apply word_test_nul_eq. }
  split; [|done].
  intros a HaJ Hat. rewrite load_store_ne by done. unfold load. rewrite Hch.
  by rewrite lookup_insert_ne.
Qed.

Lemma junction_apply_delta_step_connect_witness :
  exists m' old kev,
    junction_apply_delta_step Ex.J Ex.rd Ex2.connecting = Some m'
    /\ emitted Ex.J m' = Some (old ++ [kev])
    /\ kev_filter kev = EVFILT_READ /\ kev_udata kev = Ex.rd.
Proof.
  edestruct (junction_apply_delta_step_connect Ex.J Ex.rd Ex2.connecting)
    as (m' & H1 & H2 & _).
  - discriminate.
  - vm_compute. reflexivity.
  - split; [|split]; vm_compute; [split; discriminate|reflexivity|split; reflexivity].
  - vm_compute. eexists. reflexivity.
  - vm_compute. reflexivity.
  - vm_compute. reflexivity.
  - vm_compute. reflexivity.
  - vm_compute. reflexivity.
  - vm_compute. reflexivity.
  - vm_compute. reflexivity.
  - vm_compute. reflexivity.
  - eexists m', _, _. split; [exact H1|]. split.
    + rewrite H2. rewrite app_assoc. reflexivity.
    + split; vm_compute; reflexivity.
Defined.

(** X17: the connect step on a Channel whose port carries an error or is
    not latched: no change is queued or submitted; the Channel is
    qualified for termination instead, and the connect control is
    cleared. *)
Theorem junction_apply_delta_step_failed_port J t m c pa p :
  load t m = Some c -> channel_port t m = Some (pa, p) ->
  Channel_ShouldXConnect c = true ->
  error p <> 0 \/ Port_Latched (Channel_Polarity c) p = false ->
  Channel_GetControl c ctl_force = false ->
  exists m' c',
    junction_apply_delta_step J t m = Some m'
    /\ load t m' = Some c'
    /\ Channel_XQualified c' teq_terminate = true
    /\ Channel_ShouldTerminate c' = true
    /\ Channel_ShouldXConnect c' = false
    /\ (forall a, a <> t -> load a m' = load a m)
    /\ ports m' = ports m /\ kern m' = kern m.
Proof.
  intros Ht Hpt Hcon Hbad Hfo.
  unfold junction_apply_delta_step. rewrite Ht. cbn [mbind option_bind]. rewrite Hcon.
  unfold Channel_PortError, Channel_PortLatched. rewrite Ht, Hpt. cbn [mbind option_bind].
  assert (negb (error p =? 0) || negb (Port_Latched (Channel_Polarity c) p) = true) as ->.
  { destruct Hbad as [Hne| ->]; [|apply orb_true_r].
    apply Z.eqb_neq in Hne. by rewrite Hne. }
  rewrite (modify_Some _ _ _ _ Ht). cbn [mbind option_bind].
  erewrite modify_Some by apply load_store_eq. cbn [mbind option_bind].
  rewrite store_store, load_store_eq. cbn [mbind option_bind].
  set (c' := Channel_NulControl ctl_connect (Channel_XQualify teq_terminate c)).
  assert (Channel_GetControl c' ctl_force = false) as ->.
  { unfold c', Channel_GetControl, Channel_NulControl, Channel_XQualify in *. simpl.
    rewrite word_test_nul_ne, word_test_set_ne by done. exact Hfo. }
  assert (Channel_XQualified c' teq_terminate = true) as Hx.
  { unfold c', Channel_XQualified, Channel_NulControl, Channel_XQualify. simpl.
    rewrite word_test_nul_ne, word_test_set_eq by done. done. }
  exists (store t c' m), c'. split; [done|]. split; [apply load_store_eq|].
  split; [done|]. split.
  { unfold Channel_ShouldTerminate. rewrite Hx. apply orb_true_r. }
  split.
  { unfold c', Channel_ShouldXConnect, Channel_GetControl, Channel_NulControl. simpl.
    by apply word_test_nul_eq. }
  split; [|done]. intros a Ha. by rewrite load_store_ne.
Qed.

Lemma junction_apply_delta_step_failed_port_witness :
  exists m' c',
    junction_apply_delta_step Ex.J Ex.rd Ex2.failed_port = Some m'
    /\ load Ex.rd m' = Some c'
    /\ Channel_ShouldTerminate c' = true
    /\ kern m' = kern Ex2.failed_port.
Proof.
  edestruct (junction_apply_delta_step_failed_port Ex.J Ex.rd Ex2.failed_port)
    as (m' & c' & H1 & H2 & _ & H4 & _ & _ & _ & H8).
  - vm_compute. reflexivity.
  - vm_compute. reflexivity.
  - vm_compute. reflexivity.
  - left. vm_compute. discriminate.
  - vm_compute. reflexivity.
  - exists m', c'. split; [exact H1|]. split; [exact H2|]. split; [exact H4|exact H8].
Defined.

(** * Resizing the kevent array *)

Lemma length_realloc_kevents n junk kevs : length (realloc_kevents n junk kevs) = n.
Proof.
  unfold realloc_kevents. rewrite length_app, length_take, length_fmap, length_seq. lia.
Qed.

Lemma take_realloc_kevents k n junk kevs :
  (k <= n)%nat -> (k <= length kevs)%nat ->
  take k (realloc_kevents n junk kevs) = take k kevs.
Proof.
  intros Hn Hl. unfold realloc_kevents.
  rewrite take_app_le by (rewrite length_take; lia).
  rewrite take_take. f_equal. lia.
Qed.

(** X18: outside of a cycle [resize_exoresource(n)] with [0 < n < 2^32]
    (and the memory granted) returns [n]; the array then has [n] slots and
    the recorded size is [n], the changes that were queued are still
    queued, and nothing else changes: the kevent array stays in order. *)
Theorem junction_resize_exoresource_ok J n junk m cJ :
  load J m = Some cJ -> lltransfer cJ = None -> kevents_ok cJ ->
  0 < n < 2 ^ 32 -> window_start cJ <= n ->
  exists cJ1,
    junction_resize_exoresource J n true junk m
      = Some (Returned (Py_Long n), store J cJ1 m)
    /\ kevents_ok cJ1
    /\ window_stop cJ1 = n
    /\ length (kevents (choice cJ1)) = Z.to_nat n
    /\ queued cJ1 = queued cJ
    /\ links_same cJ cJ1
    /\ state cJ1 = state cJ /\ delta cJ1 = delta cJ /\ events cJ1 = events cJ
    /\ ntransits (choice cJ1) = ntransits (choice cJ).
Proof.
  intros HJ Hnc (Hw & Hlen & Hpos) Hn Hws.
  assert (Word.u32 n = n) as Hu by (unfold Word.u32; apply Z.mod_small; lia).
  unfold junction_resize_exoresource. rewrite Hu, HJ. cbn [mbind option_bind].
  unfold Junction_Cycling. rewrite Hnc.
  rewrite bool_decide_eq_false_2 by (intros H; by apply H).
  rewrite (modify_Some _ _ _ _ HJ). cbn [mbind option_bind].
  erewrite modify_Some by apply load_store_eq. cbn [mbind option_bind].
  rewrite store_store, load_store_eq. cbn [mbind option_bind].
  eexists. split; [reflexivity|].
  split; [|split; [done|split; [|split; [|by repeat split]]]].
  - split; [|split]; simpl.
    + lia.
    + rewrite length_realloc_kevents. lia.
    + lia.
  - simpl. apply length_realloc_kevents.
  - unfold queued. simpl. apply take_realloc_kevents; lia.
Qed.

Lemma junction_resize_exoresource_ok_witness :
  exists cJ1,
    junction_resize_exoresource Ex.J 4 true (fun _ => Ex.readable Ex.rd) Ex.attached
      = Some (Returned (Py_Long 4), store Ex.J cJ1 Ex.attached)
    /\ kevents_ok cJ1
    /\ window_stop cJ1 = 4.
Proof.
  edestruct (junction_resize_exoresource_ok Ex.J 4 (fun _ => Ex.readable Ex.rd) Ex.attached)
    as (cJ1 & H1 & H2 & H3 & _).
  - vm_compute. reflexivity.
  - vm_compute. reflexivity.
  - split; [|split]; vm_compute; [split; discriminate|reflexivity|split; reflexivity].
  - split; reflexivity.
  - vm_compute. discriminate.
  - exists cJ1. split; [exact H1|]. split; [exact H2|exact H3].
Defined.


(** * [Junction.void()] *)

Lemma port_released_unlatch y :
  port_released y (port_unlatch p_neutral y).
Proof.
  unfold port_released, port_unlatch. simpl.
  destruct (latches y =? 0); done.
Qed.

Lemma port_released_trans y1 y2 y3 :
  (y2 = y1 \/ port_released y1 y2) -> (y3 = y2 \/ port_released y2 y3) ->
  y3 = y1 \/ port_released y1 y3.
Proof.
  intros [->|[Hl Hp]] [->|[Hl' Hp']]; [by left|right; done|right; done|right].
  split; [done|]. rewrite Hp'. rewrite Hl. simpl. done.
Qed.

Lemma port_released_stays y1 y2 y3 :
  port_released y1 y2 -> (y3 = y2 \/ port_released y2 y3) -> port_released y1 y3.
Proof.
  intros [Hl Hp] [->|[Hl' Hp']]; [done|].
  split; [done|]. rewrite Hp'. rewrite Hl. simpl. done.
Qed.

Lemma junction_void_step_spec t pv m c cp p y :
  load t m = Some c -> prev c = Some pv -> pv <> t -> load pv m = Some cp ->
  port c = Some p -> load_port p m = Some y ->
  exists m',
    junction_void_step t m = Some m'
    /\ load t m' = Some (voided (next c) c)
    /\ load pv m' = Some (set_next None cp)
    /\ (forall a, a <> t -> a <> pv -> load a m' = load a m)
    /\ load_port p m' = Some (Port_SetCause kc_void (port_unlatch p_neutral y))
    /\ (forall q, q <> p -> load_port q m' = load_port q m).
Proof.
  intros Ht Hpv Hne Hcp Hp Hy.
  unfold junction_void_step, Channel_SetNextTransfer.
  assert (channel_port t m = Some (p, y)) as -> by (apply channel_port_Some; eauto).
  cbn [mbind option_bind].
  rewrite (modify_Some _ _ _ _ Ht). cbn [mbind option_bind].
  erewrite modify_Some by apply load_store_eq. cbn [mbind option_bind].
  rewrite store_store.
  set (c2 := set_lltransfer None (Channel_IQualify teq_terminate c)).
  unfold modify_port.
  assert (load_port p (store t c2 m) = Some y) as -> by exact Hy.
  cbn [mbind option_bind].
  match goal with
  | |- context [load_port p ?mm] =>
      assert (load_port p mm = Some (port_unlatch p_neutral y)) as ->
        by (unfold load_port; simpl; apply lookup_insert_eq)
  end.
  cbn [mbind option_bind].
  match goal with
  | |- context [load t ?mm] =>
      set (m4 := mm); assert (load t m4 = Some c2) as Ht4 by apply load_store_eq
  end.
  rewrite Ht4. cbn [mbind option_bind].
  change (prev c2) with (prev c). rewrite Hpv. cbn [mbind option_bind].
  assert (load pv m4 = Some cp) as Hcp4.
  { unfold m4, load. simpl. rewrite lookup_insert_ne by done. exact Hcp. }
  rewrite (modify_Some _ _ _ _ Hcp4). cbn [mbind option_bind].
  erewrite modify_Some by (rewrite load_store_ne by done; exact Ht4).
  eexists. split; [done|]. split; [|split; [|split; [|split]]].
  - rewrite load_store_eq. reflexivity.
  - rewrite load_store_ne by done. apply load_store_eq.
  - intros a Hat Hap. rewrite !load_store_ne by done.
    unfold m4, load. simpl. by rewrite lookup_insert_ne.
  - unfold load_port. simpl. by rewrite lookup_insert_eq.
  - intros q Hq. unfold load_port. simpl. by rewrite !lookup_insert_ne.
Qed.

Lemma junction_void_loop_spec J : forall rest pv m fuel cp,
  (length rest < fuel)%nat ->
  chain next m (rest ++ [J]) ->
  chain prev m (rev rest ++ [pv]) ->
  NoDup rest -> J ∉ rest -> pv ∉ rest ->
  load pv m = Some cp ->
  (forall x c, x ∈ rest -> load x m = Some c ->
     exists p y, port c = Some p /\ load_port p m = Some y) ->
  exists m',
    junction_void_loop fuel J (default J (head rest)) m = Some m'
    /\ (forall a, a ∉ rest -> a <> pv -> load a m' = load a m)
    /\ load pv m' = Some (match rest with [] => cp | _ => set_next None cp end)
    /\ (forall x c, x ∈ rest -> load x m = Some c ->
          exists nx, load x m' = Some (voided nx c))
    /\ (forall q y, load_port q m = Some y ->
          exists y', load_port q m' = Some y' /\ (y' = y \/ port_released y y'))
    /\ (forall x c q y, x ∈ rest -> load x m = Some c -> port c = Some q ->
          load_port q m = Some y ->
          exists y', load_port q m' = Some y' /\ port_released y y')
    /\ (forall q, (forall x c, x ∈ rest -> load x m = Some c -> port c <> Some q) ->
          load_port q m' = load_port q m).
Proof.
  induction rest as [|x rest IH]; intros pv m fuel cp Hfuel Hn Hp Hnd HJ Hpv Hcp Hports.
  - exists m. split.
    { destruct fuel; simpl; by rewrite bool_decide_eq_true_2. }
    split; [done|]. split; [done|]. split.
    { intros x c Hx. by apply elem_of_nil in Hx. }
    split; [by eauto|]. split; [|done].
    intros x c q y Hx. by apply elem_of_nil in Hx.
  - destruct fuel as [|fuel]; [simpl in Hfuel; lia|].
    apply NoDup_cons in Hnd as [Hxr Hnd].
    apply not_elem_of_cons in HJ as [HJx HJ].
    apply not_elem_of_cons in Hpv as [Hpvx Hpv].
    change ((x :: rest) ++ [J]) with (x :: rest ++ [J]) in Hn.
    apply chain_head in Hn as [Hxn Hn].
    apply ptr_at_Some in Hxn as (c & Hc & Hnx).
    simpl rev in Hp. rewrite <- app_assoc in Hp. simpl in Hp.
    apply chain_app in Hp as [Hp1 Hp2].
    apply chain_cons in Hp2 as [Hxp _].
    unfold ptr_at in Hxp. rewrite Hc in Hxp. simpl in Hxp.
    destruct (Hports x c) as (p & y & Hpc & Hy); [by left|done|].
    destruct (junction_void_step_spec x pv m c cp p y Hc Hxp Hpvx Hcp Hpc Hy)
      as (m1 & Hstep & Hx1 & Hpv1 & Hfr1 & Hp1' & Hq1).
    assert (forall a, a ∈ rest -> load a m1 = load a m) as Hrest1.
    { intros a Ha. apply Hfr1; intros ->; done. }
    destruct (IH x m1 fuel (voided (next c) c))
      as (m' & Hloop & Hfr & Hx' & Hmem & Hrel & Hvis & Hoff).
    + simpl in Hfuel. lia.
    + eapply chain_frame; [|exact Hn]. intros a Ha. unfold ptr_at.
      by rewrite Hrest1.
    + eapply chain_frame; [|exact Hp1]. intros a Ha.
      apply list_elem_of_In, in_rev, list_elem_of_In in Ha. unfold ptr_at.
      by rewrite Hrest1.
    + done.
    + done.
    + done.
    + done.
    + intros z cz Hz Hcz. rewrite Hrest1 in Hcz by done.
      destruct (Hports z cz) as (q & yq & Hpq & Hyq); [by right|done|].
      exists q. destruct (decide (q = p)) as [->|Hqp]; [by eauto|].
      exists yq. by rewrite Hq1.
    + exists m'. split.
      { simpl. rewrite bool_decide_eq_false_2 by done.
        rewrite Hstep. cbn [mbind option_bind]. rewrite Hx1. cbn [mbind option_bind].
        change (next (voided (next c) c)) with (next c). rewrite Hnx.
        cbn [mbind option_bind]. exact Hloop. }
      split.
      { intros a Ha Hap. apply not_elem_of_cons in Ha as [Hax Har].
        rewrite Hfr by done. by apply Hfr1. }
      split.
      { rewrite Hfr by done. exact Hpv1. }
      split.
      { intros z cz Hz Hcz. apply elem_of_cons in Hz as [->|Hz].
        * rewrite Hc in Hcz. injection Hcz as <-. rewrite Hx'.
          destruct rest; [by exists (next c)|]. exists None. f_equal.
        * apply Hmem; [done|]. by rewrite Hrest1. }
      split.
      { intros q y0 Hy0. destruct (decide (q = p)) as [->|Hqp].
        * rewrite Hy in Hy0. injection Hy0 as <-.
          destruct (Hrel p _ Hp1') as (y' & Hy' & Hr). exists y'. split; [done|].
          eapply port_released_trans; [|exact Hr]. right.
          apply (port_released_unlatch y).
        * apply Hrel. by rewrite Hq1. }
      split.
      { intros z cz q y0 Hz Hcz Hq Hy0. apply elem_of_cons in Hz as [->|Hz].
        * rewrite Hc in Hcz. injection Hcz as <-.
          assert (q = p) as -> by congruence.
          rewrite Hy in Hy0. injection Hy0 as <-.
          destruct (Hrel p _ Hp1') as (y' & Hy' & Hr). exists y'. split; [done|].
          eapply port_released_stays; [|exact Hr]. apply (port_released_unlatch y).
        * destruct (decide (q = p)) as [->|Hqp].
          -- rewrite Hy in Hy0. injection Hy0 as <-.
             destruct (Hrel p _ Hp1') as (y' & Hy' & Hr). exists y'. split; [done|].
             eapply port_released_stays; [|exact Hr]. apply (port_released_unlatch y).
          -- apply (Hvis z cz q y0); [done|by rewrite Hrest1|done|by rewrite Hq1]. }
      intros q Hq. rewrite Hoff.
      * apply Hq1. intros ->. apply (Hq x c); [by left|done|done].
      * intros z cz Hz Hcz. rewrite Hrest1 in Hcz by done. apply (Hq z cz); [by right|done].
Qed.

Lemma voided_fields nx c :
  Channel_Terminated (voided nx c) = true
  /\ lltransfer (voided nx c) = None /\ prev (voided nx c) = None
  /\ next (voided nx c) = nx
  /\ junction (voided nx c) = junction c /\ resource (voided nx c) = resource c
  /\ events (voided nx c) = events c /\ port (voided nx c) = port c.
Proof.
  split; [|by destruct c].
  unfold Channel_Terminated, Channel_ShouldTerminate, Channel_IQualified.
  change (state (voided nx c)) with (Word.set (state c) (iq_bit teq_terminate)).
  by rewrite word_test_set_eq.
Qed.

Lemma junction_void_spec J r m :
  ring m J r -> ports_ok m ->
  exists m' cJ',
    junction_void J m = Some (Returned Py_None, m')
    /\ load J m' = Some cJ'
    /\ next cJ' = Some J /\ prev cJ' = Some J /\ lltransfer cJ' = None
    /\ ntransits (choice cJ') = 0 /\ ntransfers (choice cJ') = 0
    /\ (forall x c, x ∈ r -> load x m = Some c ->
          exists nx, load x m' = Some (voided nx c))
    /\ (forall a, a ∉ J :: r -> load a m' = load a m)
    /\ (forall q y, load_port q m = Some y ->
          exists y', load_port q m' = Some y' /\ (y' = y \/ port_released y y'))
    /\ (forall x c q y, x ∈ J :: r -> load x m = Some c -> port c = Some q ->
          load_port q m = Some y ->
          exists y', load_port q m' = Some y' /\ port_released y y')
    /\ (forall q, (forall x c, x ∈ J :: r -> load x m = Some c -> port c <> Some q) ->
          load_port q m' = load_port q m).
Proof.
  intros Hring Hports.
  destruct (ring_member _ _ _ J Hring) as [cJ HJ]; [by left|].
  (* the cycle, if any, is finished first *)
  assert (exists m0 cJ0, (if Junction_Cycling cJ then junction_finish_cycle J m else Some m) = Some m0
            /\ load J m0 = Some cJ0 /\ lltransfer cJ0 = None
            /\ prev cJ0 = prev cJ /\ next cJ0 = next cJ /\ port cJ0 = port cJ
            /\ (forall a, a <> J -> load a m0 = load a m)
            /\ ports m0 = ports m) as (m0 & cJ0 & Hm0 & HJ0 & Hll0 & Hpv0 & Hnx0 & Hpt0 & Hfr0 & Hps0).
  { unfold Junction_Cycling. case_bool_decide as Hcy.
    - unfold junction_finish_cycle, Channel_SetNextTransfer.
      rewrite (modify_Some _ _ _ _ HJ). cbn [mbind option_bind].
      erewrite modify_Some by apply load_store_eq. rewrite store_store.
      eexists _, _. split; [done|]. rewrite load_store_eq. split; [done|].
      split; [done|]. split; [done|]. split; [done|]. split; [done|]. split; [|done].
      intros a Ha. by rewrite load_store_ne.
    - exists m, cJ. split; [done|]. split; [done|]. split; [|done].
      destruct (lltransfer cJ); [|done]. by destruct Hcy. }
  assert (ring m0 J r) as Hring0.
  { destruct Hring as (Hn & Hp & Hnd). split; [|split; [|done]].
    - eapply chain_ext; [|exact Hn]. intros a. unfold ptr_at.
      destruct (decide (a = J)) as [->|Ha]; [by rewrite HJ0, HJ|by rewrite Hfr0].
    - eapply chain_ext; [|exact Hp]. intros a. unfold ptr_at.
      destruct (decide (a = J)) as [->|Ha]; [by rewrite HJ0, HJ|by rewrite Hfr0]. }
  pose proof (ring_J_not_in _ _ _ Hring0) as HJr.
  destruct (ring_next_head _ _ _ _ Hring0 HJ0) as [Hnx Hcn].
  pose proof (ring_fuel _ _ _ Hring0) as Hfuel.
  destruct Hring0 as (_ & Hp & Hnd).
  assert (chain prev m0 (rev r ++ [J])) as Hcp.
  { change (J :: rev r ++ [J]) with ([] ++ J :: (rev r ++ [J])) in Hp.
    destruct (rev r) as [|y l] eqn:Hrev.
    - by apply chain_single.
    - change (J :: (y :: l) ++ [J]) with (J :: y :: (l ++ [J])) in Hp.
      apply chain_cons in Hp as [_ Hp]. exact Hp. }
  apply NoDup_cons in Hnd as [_ Hnd].
  assert (forall q, load_port q m0 = load_port q m) as Hlp0
    by (intros q; unfold load_port; by rewrite Hps0).
  assert (forall x, x ∈ r -> load x m0 = load x m) as Hr0.
  { intros x Hx. apply Hfr0. intros ->. done. }
  destruct (junction_void_loop_spec J r J m0 (fuel_of m0) cJ0)
    as (m1 & Hloop & Hfr1 & HJ1 & Hmem1 & Hrel1 & Hvis1 & Hoff1); try done.
  { intros x c Hx Hc. rewrite Hr0 in Hc by done.
    destruct (Hports x c Hc) as (p & y & ? & ?). exists p, y. by rewrite Hlp0. }
  unfold junction_void. rewrite HJ. cbn [mbind option_bind].
  rewrite Hm0. cbn [mbind option_bind]. rewrite HJ0. cbn [mbind option_bind].
  rewrite Hnx. cbn [mbind option_bind]. rewrite Hloop. cbn [mbind option_bind].
  rewrite (modify_Some _ _ _ _ HJ1). cbn [mbind option_bind].
  erewrite modify_Some by apply load_store_eq. cbn [mbind option_bind].
  erewrite modify_Some by apply load_store_eq. cbn [mbind option_bind].
  erewrite modify_Some by apply load_store_eq. cbn [mbind option_bind].
  erewrite modify_Some by apply load_store_eq. cbn [mbind option_bind].
  rewrite !store_store.
  match goal with |- context [store J ?c m1] => set (cJ' := c) end.
  destruct (Hports J cJ HJ) as (p & y & Hp' & Hy).
  destruct (Hrel1 p y) as (y1 & Hy1 & Hry1); [by rewrite Hlp0|].
  assert (load_port p (store J cJ' m1) = Some y1) as Hy1' by exact Hy1.
  assert (port cJ' = Some p) as HpJ.
  { unfold cJ'. destruct r; simpl; congruence. }
  assert (channel_port J (store J cJ' m1) = Some (p, y1)) as ->
    by (apply channel_port_Some; exists cJ'; split; [apply load_store_eq|split; [exact HpJ|exact Hy1']]).
  cbn [mbind option_bind]. unfold modify_port. rewrite Hy1'. cbn [mbind option_bind].
  assert (port_released y (port_unlatch p_neutral y1)) as HrelJ.
  { destruct Hry1 as [->|Hr]; [apply port_released_unlatch|].
    eapply port_released_stays; [exact Hr|]. right. apply port_released_unlatch. }
  eexists _, cJ'. split; [reflexivity|].
  split; [apply load_store_eq|].
  split; [done|]. split; [done|].
  split; [unfold cJ'; destruct r; simpl; congruence|].
  split; [done|]. split; [done|].
  split; [|split; [|split; [|split]]].
  - intros x c Hx Hc. rewrite <- Hr0 in Hc by done.
    assert (x <> J) as HxJ by (intros ->; done).
    destruct (Hmem1 x c Hx Hc) as [nx Hl]. exists nx.
    unfold load in *. simpl. rewrite lookup_insert_ne by done. exact Hl.
  - intros a Ha. apply not_elem_of_cons in Ha as [HaJ Har].
    rewrite <- Hfr0 by done. rewrite <- Hfr1 by done.
    unfold load. simpl. by rewrite lookup_insert_ne.
  - intros q y0 Hy0. unfold load_port. simpl.
    destruct (decide (q = p)) as [->|Hqp].
    + rewrite lookup_insert_eq. eexists. split; [done|]. right.
      rewrite Hy in Hy0. by injection Hy0 as <-.
    + rewrite lookup_insert_ne by done. apply Hrel1. by rewrite Hlp0.
  - intros x c q y0 Hx Hc Hq Hy0. unfold load_port. simpl.
    destruct (decide (q = p)) as [->|Hqp].
    + rewrite lookup_insert_eq. eexists. split; [done|].
      rewrite Hy in Hy0. by injection Hy0 as <-.
    + rewrite lookup_insert_ne by done.
      apply elem_of_cons in Hx as [->|Hx]; [congruence|].
      apply (Hvis1 x c q y0); [done|by rewrite Hr0|done|by rewrite Hlp0].
  - intros q Hq. unfold load_port at 1. simpl.
    rewrite lookup_insert_ne by (intros <-; apply (Hq J cJ); [by left|done|done]).
    change (ports m1 !! q) with (load_port q m1).
    rewrite Hoff1; [by apply Hlp0|].
    intros x c Hx Hc. rewrite Hr0 in Hc by done. apply (Hq x c); [by right|done].
Qed.

(** X19: [Junction.void()] on a Junction whose ring has the members [r],
    in or out of a cycle, returns [None] and leaves the Junction alone on
    its ring with both counts at zero, so that its [resource] list is
    empty.  Every former member is terminated, off the transfer list and
    without a predecessor, but it still names the Junction and keeps its
    resource and its events; objects outside the ring are not written. *)
Theorem junction_void_empties J r m :
  ring m J r -> ports_ok m ->
  exists m',
    junction_void J m = Some (Returned Py_None, m')
    /\ ring m' J []
    /\ junction_get_resource J m' = Some (resource_list [])
    /\ (forall x c, x ∈ r -> load x m = Some c ->
          exists c', load x m' = Some c'
            /\ Channel_Terminated c' = true
            /\ lltransfer c' = None /\ prev c' = None
            /\ junction c' = junction c /\ resource c' = resource c
            /\ events c' = events c)
    /\ (forall a, a ∉ J :: r -> load a m' = load a m).
Proof.
  intros Hring Hports.
  destruct (junction_void_spec J r m Hring Hports)
    as (m' & cJ' & Hrun & HJ & Hnx & Hpv & Hll & Hnt & Hnf & Hmem & Hfr & _).
  assert (ring m' J []) as Hring'.
  { split; [|split].
    - apply chain_cons. split; [|done]. unfold ptr_at. by rewrite HJ.
    - apply chain_cons. split; [|done]. unfold ptr_at. by rewrite HJ.
    - apply NoDup_singleton. }
  exists m'. split; [done|]. split; [done|]. split.
  { apply (junction_get_resource_ring J [] m' cJ'); done. }
  split; [|done].
  intros x c Hx Hc. destruct (Hmem x c Hx Hc) as [nx Hl].
  exists (voided nx c). split; [done|].
  destruct (voided_fields nx c) as (? & ? & ? & ? & ? & ? & ? & ?). done.
Qed.

Lemma junction_void_empties_witness :
  exists m', junction_void Ex.J Ex.in_cycle = Some (Returned Py_None, m')
    /\ ring m' Ex.J [].
Proof.
  edestruct (junction_void_empties Ex.J [Ex.rd; Ex.wr] Ex.in_cycle) as (m' & H1 & H2 & _).
  - split; [|split].
    + change (Ex.J :: [Ex.rd; Ex.wr] ++ [Ex.J]) with [Ex.J; Ex.rd; Ex.wr; Ex.J].
      apply chain_cons. split; [vm_compute; reflexivity|].
      apply chain_cons. split; [vm_compute; reflexivity|].
      apply chain_cons. split; [vm_compute; reflexivity|]. exact I.
    + change (Ex.J :: rev [Ex.rd; Ex.wr] ++ [Ex.J]) with [Ex.J; Ex.wr; Ex.rd; Ex.J].
      apply chain_cons. split; [vm_compute; reflexivity|].
      apply chain_cons. split; [vm_compute; reflexivity|].
      apply chain_cons. split; [vm_compute; reflexivity|]. exact I.
    + apply (bool_decide_unpack _). vm_compute. exact I.
  - apply ports_ok_map. apply (bool_decide_unpack _). vm_compute. exact I.
  - exists m'. split; [exact H1|exact H2].
Defined.

(** X20: [Junction.void()] releases the latches of the Port of every
    member of the ring and of the Junction itself: afterwards no latch is
    left on such a Port, its descriptor is [-1] when a latch was held
    before and unchanged when none was; a Port that belongs to no object
    of the ring is not written. *)
Theorem junction_void_releases_ports J r m :
  ring m J r -> ports_ok m ->
  exists m',
    junction_void J m = Some (Returned Py_None, m')
    /\ (forall x c q y, x ∈ J :: r -> load x m = Some c -> port c = Some q ->
          load_port q m = Some y ->
          exists y', load_port q m' = Some y' /\ latches y' = 0
            /\ point y' = (if latches y =? 0 then point y else -1))
    /\ (forall q, (forall x c, x ∈ J :: r -> load x m = Some c -> port c <> Some q) ->
          load_port q m' = load_port q m).
Proof.
  intros Hring Hports.
  destruct (junction_void_spec J r m Hring Hports)
    as (m' & cJ' & Hrun & _ & _ & _ & _ & _ & _ & _ & _ & _ & Hvis & Hoff).
  exists m'. split; [done|]. split; [|done].
  intros x c q y Hx Hc Hq Hy.
  destruct (Hvis x c q y Hx Hc Hq Hy) as (y' & Hy' & Hl & Hp). by exists y'.
Qed.

Lemma junction_void_releases_ports_witness :
  exists m', junction_void Ex.J Ex.in_cycle = Some (Returned Py_None, m')
    /\ (forall q, (forall x c, x ∈ [Ex.J; Ex.rd; Ex.wr] -> load x Ex.in_cycle = Some c ->
                     port c <> Some q) ->
          load_port q m' = load_port q Ex.in_cycle).
Proof.
  edestruct (junction_void_releases_ports Ex.J [Ex.rd; Ex.wr] Ex.in_cycle) as (m' & H1 & _ & H2).
  - split; [|split].
    + change (Ex.J :: [Ex.rd; Ex.wr] ++ [Ex.J]) with [Ex.J; Ex.rd; Ex.wr; Ex.J].
      apply chain_cons. split; [vm_compute; reflexivity|].
      apply chain_cons. split; [vm_compute; reflexivity|].
      apply chain_cons. split; [vm_compute; reflexivity|]. exact I.
    + change (Ex.J :: rev [Ex.rd; Ex.wr] ++ [Ex.J]) with [Ex.J; Ex.wr; Ex.rd; Ex.J].
      apply chain_cons. split; [vm_compute; reflexivity|].
      apply chain_cons. split; [vm_compute; reflexivity|].
      apply chain_cons. split; [vm_compute; reflexivity|]. exact I.
    + apply (bool_decide_unpack _). vm_compute. exact I.
  - apply ports_ok_map. apply (bool_decide_unpack _). vm_compute. exact I.
  - exists m'. split; [exact H1|exact H2].
Defined.

Lemma port_leak_spec q y m :
  load_port q m = Some y ->
  port_leak q m
  = Some (Returned (if latches y =? 0 then Py_False else Py_True),
          set_ports (<[q := mkPort (point y) kc_leak (error y) 0]> (ports m)) m).
Proof.
  intros Hy. unfold port_leak, modify_port. rewrite Hy. cbn [mbind option_bind].
  unfold load_port at 1. simpl. rewrite lookup_insert_eq. cbn [mbind option_bind].
  rewrite insert_insert_eq. by destruct m.
Qed.

(** X21: a Port that was leaked keeps its descriptor through
    [Junction.void()].  [Port.leak()] on the Port of an object of the ring
    reports whether a latch was held; the [void] that follows leaves the
    descriptor of that Port as it was, with no latch, and a second
    [leak] reports [False]. *)
Theorem port_leak_survives_void J r m x c q y :
  ring m J r -> ports_ok m ->
  x ∈ J :: r -> load x m = Some c -> port c = Some q -> load_port q m = Some y ->
  exists m1 m2 m3 y',
    port_leak q m = Some (Returned (if latches y =? 0 then Py_False else Py_True), m1)
    /\ junction_void J m1 = Some (Returned Py_None, m2)
    /\ load_port q m2 = Some y' /\ point y' = point y /\ latches y' = 0
    /\ port_leak q m2 = Some (Returned Py_False, m3).
Proof.
  intros Hring Hports Hx Hc Hq Hy.
  rewrite (port_leak_spec q y m Hy).
  set (m1 := set_ports _ m).
  assert (forall a, load a m1 = load a m) as Hl1 by done.
  assert (ring m1 J r) as Hring1.
  { destruct Hring as (Hn & Hp & Hnd). split; [|split; [|done]].
    - eapply chain_ext; [|exact Hn]. done.
    - eapply chain_ext; [|exact Hp]. done. }
  assert (ports_ok m1) as Hports1.
  { intros a ca Ha. rewrite Hl1 in Ha. destruct (Hports a ca Ha) as (p & yp & Hp & Hyp).
    exists p. destruct (decide (p = q)) as [->|Hpq].
    - eexists. split; [done|]. unfold load_port, m1. simpl. apply lookup_insert_eq.
    - exists yp. split; [done|]. unfold load_port, m1. simpl.
      by rewrite lookup_insert_ne. }
  destruct (junction_void_spec J r m1 Hring1 Hports1)
    as (m2 & cJ' & Hrun & _ & _ & _ & _ & _ & _ & _ & _ & _ & Hvis & _).
  destruct (Hvis x c q (mkPort (point y) kc_leak (error y) 0)) as (y' & Hy' & Hl' & Hp');
    [done|by rewrite Hl1|done|unfold load_port, m1; simpl; apply lookup_insert_eq|].
  simpl in Hp'.
  eexists m1, m2, _, y'. split; [done|]. split; [done|]. split; [done|].
  split; [done|]. split; [done|].
  rewrite (port_leak_spec q y' m2 Hy'). rewrite Hl'. done.
Qed.

Lemma port_leak_survives_void_witness :
  exists m1 m2 y',
    port_leak 11%positive Ex.in_cycle = Some (Returned Py_True, m1)
    /\ junction_void Ex.J m1 = Some (Returned Py_None, m2)
    /\ load_port 11%positive m2 = Some y' /\ point y' = 5 /\ latches y' = 0.
Proof.
  edestruct (port_leak_survives_void Ex.J [Ex.rd; Ex.wr] Ex.in_cycle Ex.rd)
    as (m1 & m2 & m3 & y' & H1 & H2 & H3 & H4 & H5 & _).
  - split; [|split].
    + change (Ex.J :: [Ex.rd; Ex.wr] ++ [Ex.J]) with [Ex.J; Ex.rd; Ex.wr; Ex.J].
      apply chain_cons. split; [vm_compute; reflexivity|].
      apply chain_cons. split; [vm_compute; reflexivity|].
      apply chain_cons. split; [vm_compute; reflexivity|]. exact I.
    + change (Ex.J :: rev [Ex.rd; Ex.wr] ++ [Ex.J]) with [Ex.J; Ex.wr; Ex.rd; Ex.J].
      apply chain_cons. split; [vm_compute; reflexivity|].
      apply chain_cons. split; [vm_compute; reflexivity|].
      apply chain_cons. split; [vm_compute; reflexivity|]. exact I.
    + apply (bool_decide_unpack _). vm_compute. exact I.
  - apply ports_ok_map. apply (bool_decide_unpack _). vm_compute. exact I.
  - apply (bool_decide_unpack _). vm_compute. exact I.
  - vm_compute. reflexivity.
  - vm_compute. reflexivity.
  - vm_compute. reflexivity.
  - exists m1, m2, y'. split; [exact H1|]. split; [exact H2|]. split; [exact H3|].
    split; [exact H4|exact H5].
Defined.

(** * Datagram arrays *)

Lemma index_at_Some l i x :
  Dga.index_at l i = Some x <-> 0 <= i /\ l !! Z.to_nat i = Some x.
Proof.
  unfold Dga.index_at. destruct (Z.ltb_spec i 0) as [Hi|Hi]; split.
  - discriminate.
  - intros [Hi' _]. exfalso. apply (Z.lt_irrefl i). eapply Z.lt_le_trans; eassumption.
  - intros Hl. split; assumption.
  - intros [_ Hl]. exact Hl.
Qed.

Lemma index_at_inside l i :
  0 <= i < Z.of_nat (length l) -> is_Some (Dga.index_at l i).
Proof.
  intros Hi. destruct (lookup_lt_is_Some_2 l (Z.to_nat i)) as [x Hx]; [lia|].
  exists x. apply index_at_Some. split; [lia|done].
Qed.

Lemma index_at_sub l a k i :
  0 <= a -> 0 <= i < Z.of_nat k ->
  Dga.index_at (take k (drop (Z.to_nat a) l)) i = Dga.index_at l (a + i).
Proof.
  intros Ha Hi. unfold Dga.index_at.
  destruct (Z.ltb_spec i 0); [lia|]. destruct (Z.ltb_spec (a + i) 0); [lia|].
  rewrite lookup_take_lt by lia. rewrite lookup_drop. f_equal. lia.
Qed.

Lemma slicedga_loop_spec src b : forall k a acc fuel,
  0 <= a -> Z.of_nat k = b - a + 1 -> b < Z.of_nat (length src) -> (k < fuel)%nat ->
  Dga.slicedga_loop fuel src a b acc = Some (acc ++ take k (drop (Z.to_nat a) src)).
Proof.
  induction k as [|k IH]; intros a acc fuel Ha Hk Hb Hf.
  - destruct fuel; simpl; (destruct (Z.leb_spec a b); [lia|]); by rewrite app_nil_r.
  - destruct fuel as [|fuel]; [lia|]. simpl.
    destruct (Z.leb_spec a b); [|lia].
    destruct (lookup_lt_is_Some_2 src (Z.to_nat a)) as [x Hx]; [lia|].
    assert (Dga.index_at src a = Some x) as -> by (by apply index_at_Some).
    cbn [mbind option_bind]. rewrite IH by lia.
    rewrite (drop_S _ _ _ Hx). rewrite <- app_assoc. simpl.
    replace (Z.to_nat (a + 1)) with (S (Z.to_nat a)) by lia. done.
Qed.

Lemma slicedga_normalise n start stop :
  0 <= n -> 0 <= start ->
  (if start >? n then (n, n)
   else if stop >? n then (start, n)
   else if stop <? start then (start, start)
   else (start, stop))
  = (Z.min start n, Z.max (Z.min start n) (Z.min stop n)).
Proof.
  intros Hn Hs.
  destruct (Z.gtb_spec start n); [f_equal; lia|].
  destruct (Z.gtb_spec stop n); [f_equal; lia|].
  destruct (Z.ltb_spec stop start); f_equal; lia.
Qed.

(** [slicedga] in closed form, for bounds in order. *)
Lemma slicedga_spec src a b :
  Dga.wf src -> 0 <= a <= b -> b <= Dga.ngrams src ->
  exists ia ib,
    Dga.index_at (Dga.indexes src) a = Some ia
    /\ Dga.index_at (Dga.indexes src) b = Some ib
    /\ Dga.slicedga true true src a b
       = Some (if (Dga.ngrams src =? 0) || ((a =? 0) && (b =? Dga.ngrams src))
               then Dga.slice_self
               else Dga.slice_new
                      (Dga.mkDatagramArray (b - a) (Dga.addrlen src) (Dga.pf src)
                         (Dga.space src) (Dga.data_obj src) ib (ib - ia)
                         (take (Z.to_nat (b - a + 1))
                            (drop (Z.to_nat a) (Dga.indexes src))))).
Proof.
  intros (Hn & Hlen & Hobj) Hab Hb.
  destruct (index_at_inside (Dga.indexes src) a) as [ia Hia]; [lia|].
  destruct (index_at_inside (Dga.indexes src) b) as [ib Hib]; [lia|].
  exists ia, ib. split; [done|]. split; [done|].
  unfold Dga.slicedga.
  rewrite (slicedga_normalise (Dga.ngrams src) a b) by lia.
  rewrite (Z.min_l a) by lia. rewrite (Z.min_l b) by lia. rewrite (Z.max_r a b) by lia.
  destruct ((Dga.ngrams src =? 0) || ((a =? 0) && (b =? Dga.ngrams src))) eqn:Hwhole; [done|].
  apply orb_false_iff in Hwhole as [Hn0 Hw].
  simpl negb. cbv iota.
  destruct (Dga.data_obj src) as [obj|] eqn:Ho; [|done].
  cbn [mbind option_bind].
  rewrite (slicedga_loop_spec _ b (Z.to_nat (b - a + 1))) by lia.
  cbn [mbind option_bind]. rewrite app_nil_l.
  set (idx := take _ _).
  assert (Z.of_nat (length idx) = b - a + 1) as Hli.
  { unfold idx. rewrite length_take, length_drop. lia. }
  assert (b - a + 1 < 2 ^ 32) as Hsmall.
  { apply andb_false_iff in Hw as [Hw|Hw]; apply Z.eqb_neq in Hw; lia. }
  rewrite Hli. rewrite Hib. cbn [mbind option_bind].
  rewrite (u32_small (b - a + 1)) by lia.
  replace (b - a + 1 - 1) with (b - a) by lia.
  rewrite (u32_small (b - a)) by lia.
  unfold idx. rewrite (index_at_sub _ a _ (b - a)) by lia.
  replace (a + (b - a)) with b by lia. rewrite Hib. cbn [mbind option_bind].
  rewrite (index_at_sub _ a _ 0) by lia. replace (a + 0) with a by lia. rewrite Hia.
  cbn [mbind option_bind]. done.
Qed.

Lemma slicedga_bounds src start stop :
  Dga.wf src -> 0 <= start ->
  Dga.slicedga true true src start stop
  = Dga.slicedga true true src
      (Z.min start (Dga.ngrams src))
      (Z.max (Z.min start (Dga.ngrams src)) (Z.min stop (Dga.ngrams src))).
Proof.
  intros (Hn & _) Hs. unfold Dga.slicedga.
  rewrite (slicedga_normalise (Dga.ngrams src) start stop) by lia.
  rewrite (slicedga_normalise (Dga.ngrams src) (Z.min _ _) (Z.max _ _)) by lia.
  set (a := Z.min start (Dga.ngrams src)).
  set (b := Z.max a (Z.min stop (Dga.ngrams src))).
  rewrite (Z.min_l a) by lia. rewrite (Z.min_l b) by lia. rewrite (Z.max_r a b) by lia.
  done.
Qed.

Lemma sub_sub (l : list Z) (a k c j : nat) :
  (c + j <= k)%nat ->
  take j (drop c (take k (drop a l))) = take j (drop (a + c) l).
Proof.
  intros Hj. apply list_eq. intros i.
  destruct (decide (i < j)%nat) as [Hi|Hi].
  - rewrite !lookup_take_lt by lia. rewrite !lookup_drop.
    rewrite lookup_take_lt by lia. rewrite lookup_drop. f_equal. lia.
  - rewrite !lookup_take_ge by lia. done.
Qed.

Lemma slice_new_wf src a b :
  Dga.wf src -> 0 <= a <= b -> b <= Dga.ngrams src ->
  forall ib len,
  Dga.wf (Dga.mkDatagramArray (b - a) (Dga.addrlen src) (Dga.pf src) (Dga.space src)
            (Dga.data_obj src) ib len
            (take (Z.to_nat (b - a + 1)) (drop (Z.to_nat a) (Dga.indexes src)))).
Proof.
  intros (Hn & Hlen & Hobj) Hab Hb ib len. split; [|split]; simpl.
  - lia.
  - rewrite length_take, length_drop. lia.
  - done.
Qed.

(** X22: [slicedga] of an array in order, for a start that is not
    negative, clamps the bounds to [a = min start n] and
    [b = max a (min stop n)].  It returns its argument when the array is
    empty or the bounds cover all of it, and otherwise a new array in
    order with [b - a] datagrams whose slots are the slots [a .. b] of
    the source and which shares the buffer object and the address
    settings of the source. *)
Theorem slicedga_shape src start stop :
  Dga.wf src -> 0 <= start ->
  let n := Dga.ngrams src in
  let a := Z.min start n in
  let b := Z.max a (Z.min stop n) in
  exists r, Dga.slicedga true true src start stop = Some r
    /\ match r with
       | Dga.slice_self => n = 0 \/ (a = 0 /\ b = n)
       | Dga.slice_new d =>
           n <> 0 /\ ~ (a = 0 /\ b = n)
           /\ Dga.wf d /\ Dga.ngrams d = b - a
           /\ Dga.indexes d
              = take (Z.to_nat (b - a + 1)) (drop (Z.to_nat a) (Dga.indexes src))
           /\ Dga.data_obj d = Dga.data_obj src /\ Dga.addrlen d = Dga.addrlen src
           /\ Dga.pf d = Dga.pf src /\ Dga.space d = Dga.space src
       | Dga.slice_error => False
       end.
Proof.
  intros Hwf Hs n a b. rewrite slicedga_bounds by done. fold n. fold a. fold b.
  pose proof Hwf as (Hn & _).
  destruct (slicedga_spec src a b Hwf) as (ia & ib & _ & _ & ->); [lia|lia|].
  eexists. split; [done|]. fold n.
  destruct ((n =? 0) || ((a =? 0) && (b =? n))) eqn:Hw.
  - apply orb_true_iff in Hw as [Hw|Hw]; [left; lia|right].
    apply andb_true_iff in Hw as [? ?]. lia.
  - apply orb_false_iff in Hw as [Hn0 Hw].
    split; [lia|]. split.
    { intros [Ha Hb]. apply andb_false_iff in Hw as [Hw|Hw]; lia. }
    split; [apply slice_new_wf; [done|lia|lia]|]. done.
Qed.

Lemma slicedga_shape_witness :
  exists d, Dga.slicedga true true Ex2.grams 1 7 = Some (Dga.slice_new d)
    /\ Dga.ngrams d = 2 /\ Dga.indexes d = [24; 48; 72].
Proof.
  edestruct (slicedga_shape Ex2.grams 1 7) as (r & Hr & Hs).
  - split; [|split]; [vm_compute; split; [discriminate|reflexivity]|vm_compute; reflexivity|discriminate].
  - vm_compute. discriminate.
  - destruct r as [|d|]; [vm_compute in Hr; discriminate| |vm_compute in Hr; discriminate].
    exists d. destruct Hs as (_ & _ & _ & Hn & Hi & _).
    split; [exact Hr|]. split; [exact Hn|exact Hi].
Defined.

(** X23: the buffer that a slice of an array in order exports starts at
    slot [a] of the source and ends in front of slot [b]; the slice
    records this length in [data.len], and in [data.buf] the address of
    slot [b], its end. *)
Theorem datagramarray_getbuffer_slice src a b d :
  Dga.wf src -> 0 <= a <= b -> b <= Dga.ngrams src ->
  Dga.slicedga true true src a b = Some (Dga.slice_new d) ->
  exists ia ib,
    Dga.index_at (Dga.indexes src) a = Some ia
    /\ Dga.index_at (Dga.indexes src) b = Some ib
    /\ Dga.datagramarray_getbuffer true d = Some (Some (ia, ib - ia))
    /\ Dga.data_len d = ib - ia /\ Dga.data_buf d = ib.
Proof.
  intros Hwf Hab Hb Hrun.
  destruct (slicedga_spec src a b Hwf Hab Hb) as (ia & ib & Hia & Hib & Hs).
  rewrite Hs in Hrun. exists ia, ib. split; [done|]. split; [done|].
  destruct (_ || _); [done|]. injection Hrun as <-.
  split; [|done].
  pose proof Hwf as (Hn & Hlen & Hobj).
  unfold Dga.datagramarray_getbuffer. simpl.
  destruct (Dga.data_obj src); [|done]. cbn [mbind option_bind].
  rewrite (index_at_sub _ a _ 0) by lia. replace (a + 0) with a by lia. rewrite Hia.
  cbn [mbind option_bind].
  rewrite (index_at_sub _ a _ (b - a)) by lia. replace (a + (b - a)) with b by lia.
  rewrite Hib. done.
Qed.

Lemma datagramarray_getbuffer_slice_witness :
  exists d, Dga.slicedga true true Ex2.grams 1 2 = Some (Dga.slice_new d)
    /\ Dga.datagramarray_getbuffer true d = Some (Some (24, 24))
    /\ Dga.data_buf d = 48.
Proof.
  destruct (Dga.slicedga true true Ex2.grams 1 2) as [[|d|]|] eqn:E;
    [vm_compute in E; discriminate| |vm_compute in E; discriminate
    |vm_compute in E; discriminate].
  edestruct (datagramarray_getbuffer_slice Ex2.grams 1 2 d)
    as (ia & ib & Hia & Hib & Hg & _ & Hb).
  - split; [|split]; [vm_compute; split; [discriminate|reflexivity]|vm_compute; reflexivity|discriminate].
  - vm_compute. split; discriminate.
  - vm_compute. discriminate.
  - exact E.
  - vm_compute in Hia. vm_compute in Hib.
    injection Hia as <-. injection Hib as <-.
    exists d. split; [reflexivity|]. split; [exact Hg|exact Hb].
Defined.

(** X24: slices compose.  For bounds in order, the slice [c .. e] of the
    slice [a .. b] of an array in order is the same object, field by
    field, as the slice [a + c .. a + e] of the array. *)
Theorem slicedga_compose src a b c e :
  Dga.wf src -> 0 <= a <= b -> b <= Dga.ngrams src -> 0 <= c <= e -> e <= b - a ->
  exists d1,
    (r ← Dga.slicedga true true src a b; Dga.slice_object src r) = Some d1
    /\ Dga.wf d1
    /\ (r ← Dga.slicedga true true d1 c e; Dga.slice_object d1 r)
       = (r ← Dga.slicedga true true src (a + c) (a + e); Dga.slice_object src r)
    /\ is_Some (r ← Dga.slicedga true true d1 c e; Dga.slice_object d1 r).
Proof.
  intros Hwf Hab Hb Hce He.
  pose proof Hwf as (Hn & Hlen & Hobj).
  destruct (slicedga_spec src a b Hwf Hab Hb) as (ia & ib & Hia & Hib & H1).
  destruct (slicedga_spec src (a + c) (a + e) Hwf) as (ic & ie & Hic & Hie & H3); [lia|lia|].
  rewrite H1, H3. cbn [mbind option_bind].
  destruct ((Dga.ngrams src =? 0) || ((a =? 0) && (b =? Dga.ngrams src))) eqn:Hw1.
  - (* the first slice is the array *)
    exists src. split; [done|]. split; [done|].
    assert (Dga.slicedga true true src c e = Dga.slicedga true true src (a + c) (a + e)) as Heq.
    { apply orb_true_iff in Hw1 as [Hw|Hw].
      - apply Z.eqb_eq in Hw. replace a with 0 by lia. done.
      - apply andb_true_iff in Hw as [Hw _]. apply Z.eqb_eq in Hw. subst a. done. }
    rewrite Heq, H3. cbn [mbind option_bind]. split; [done|].
    destruct ((Dga.ngrams src =? 0) || ((a + c =? 0) && (a + e =? Dga.ngrams src)));
      simpl; eexists; reflexivity.
  - simpl Dga.slice_object at 1.
    set (d1 := Dga.mkDatagramArray _ _ _ _ _ _ _ _).
    assert (Dga.wf d1) as Hwf1 by (apply slice_new_wf; done).
    exists d1. split; [done|]. split; [done|].
    destruct (slicedga_spec d1 c e Hwf1) as (jc & je & Hjc & Hje & H2); [lia|simpl; lia|].
    rewrite H2. cbn [mbind option_bind].
    change (Dga.ngrams d1) with (b - a).
    apply orb_false_iff in Hw1 as [Hn0 Hw1]. apply Z.eqb_neq in Hn0.
    assert (~ (a = 0 /\ b = Dga.ngrams src)) as Hnw1.
    { intros [? ?]. apply andb_false_iff in Hw1 as [Hw|Hw]; apply Z.eqb_neq in Hw; lia. }
    simpl in Hjc, Hje.
    rewrite (index_at_sub _ a _ c) in Hjc by lia.
    rewrite (index_at_sub _ a _ e) in Hje by lia.
    rewrite Hic in Hjc. rewrite Hie in Hje. injection Hjc as <-. injection Hje as <-.
    destruct ((b - a =? 0) || ((c =? 0) && (e =? b - a))) eqn:Hw2.
    + (* the second slice is the first *)
      assert (a + c = a /\ a + e = b) as [Hc' He'].
      { apply orb_true_iff in Hw2 as [Hw|Hw]; [apply Z.eqb_eq in Hw; lia|].
        apply andb_true_iff in Hw as [Hw Hw']. apply Z.eqb_eq in Hw, Hw'. lia. }
      rewrite Hc', He' in *. rewrite Hw1.
      replace (Dga.ngrams src =? 0) with false by (symmetry; by apply Z.eqb_neq).
      simpl. split; [|eexists; reflexivity]. f_equal. unfold d1. f_equal; congruence.
    + apply orb_false_iff in Hw2 as [Hba Hw2]. apply Z.eqb_neq in Hba.
      assert (~ (c = 0 /\ e = b - a)) as Hnw2.
      { intros [? ?]. apply andb_false_iff in Hw2 as [Hw|Hw]; apply Z.eqb_neq in Hw; lia. }
      replace ((Dga.ngrams src =? 0) || ((a + c =? 0) && (a + e =? Dga.ngrams src)))
        with false.
      2:{ symmetry. apply orb_false_iff. split; [by apply Z.eqb_neq|].
          apply andb_false_iff.
          destruct (Z.eqb_spec (a + c) 0); [|by left]. right. apply Z.eqb_neq. lia. }
      simpl. split; [|eexists; reflexivity]. f_equal. f_equal.
      replace (a + e - (a + c)) with (e - c) by lia.
      f_equal.
      replace (Z.to_nat (a + c)) with (Z.to_nat a + Z.to_nat c)%nat by lia.
      replace (Z.to_nat (a + e - (a + c) + 1)) with (Z.to_nat (e - c + 1)) by lia.
      apply sub_sub. lia.
Qed.

Lemma slicedga_compose_witness :
  exists d1,
    (r ← Dga.slicedga true true Ex2.grams 1 3; Dga.slice_object Ex2.grams r) = Some d1
    /\ (r ← Dga.slicedga true true d1 1 2; Dga.slice_object d1 r)
       = (r ← Dga.slicedga true true Ex2.grams 2 3; Dga.slice_object Ex2.grams r).
Proof.
  edestruct (slicedga_compose Ex2.grams 1 3 1 2) as (d1 & H1 & _ & H2 & _).
  - split; [|split]; [vm_compute; split; [discriminate|reflexivity]|vm_compute; reflexivity|discriminate].
  - vm_compute. split; discriminate.
  - vm_compute. discriminate.
  - vm_compute. split; discriminate.
  - vm_compute. discriminate.
  - exists d1. split; [exact H1|exact H2].
Defined.



(** * Pairs on one port *)

Lemma transit_terminate_detached_spec t m c p y :
  load t m = Some c -> Channel_Attached c = false -> Channel_Terminated c = false ->
  port c = Some p -> load_port p m = Some y ->
  exists c',
    transit_terminate t m
    = Some (Returned Py_None,
            set_ports (<[p := port_unlatch (Channel_Polarity c) y]> (ports m)) (store t c' m))
    /\ Channel_Terminated c' = true.
Proof.
  intros Hc Hat Hte Hp Hy. unfold transit_terminate. rewrite Hc. cbn [mbind option_bind].
  rewrite Hat, Hte. simpl negb. cbv iota.
  rewrite (modify_Some _ _ _ _ Hc). cbn [mbind option_bind].
  erewrite modify_Some by apply load_store_eq. cbn [mbind option_bind].
  erewrite modify_Some by apply load_store_eq. cbn [mbind option_bind].
  rewrite !store_store.
  set (c' := Channel_ReleaseLink _).
  assert (port c' = Some p) as Hp'.
  { unfold c', Channel_ReleaseLink, Channel_ReleaseResource.
    destruct (Channel_HasResource _); destruct (link _); simpl; exact Hp. }
  assert (state c' = Word.set (state c) (iq_bit teq_terminate)) as Hs'.
  { unfold c', Channel_ReleaseLink, Channel_ReleaseResource.
    destruct (Channel_HasResource _); destruct (link _); reflexivity. }
  assert (channel_port t (store t c' m) = Some (p, y)) as ->.
  { apply channel_port_Some. exists c'. split; [apply load_store_eq|]. split; [done|exact Hy]. }
  cbn [mbind option_bind]. unfold modify_port.
  assert (load_port p (store t c' m) = Some y) as -> by exact Hy.
  cbn [mbind option_bind]. exists c'. split; [reflexivity|].
  unfold Channel_Terminated, Channel_ShouldTerminate, Channel_IQualified.
  rewrite Hs'. by rewrite word_test_set_eq.
Qed.

(** X26: the two Channels that [allocio] makes share one Port, and its
    descriptor is closed by the second [terminate()], not by the first.
    Whichever side is terminated first, the Port keeps the descriptor and
    the latch of the other side; after both, no latch is left and the
    descriptor is [-1]. *)
Theorem allocio_terminate_both i o p unit fd m :
  i <> o ->
  forall a b, (a = i /\ b = o) \/ (a = o /\ b = i) ->
  exists m1 m2 y1,
    transit_terminate a (allocio i o p unit fd m) = Some (Returned Py_None, m1)
    /\ load_port p m1 = Some y1
    /\ point y1 = fd /\ latches y1 = (if bool_decide (a = i) then 16 else 1)
    /\ transit_terminate b m1 = Some (Returned Py_None, m2)
    /\ load_port p m2 = Some (mkPort (-1) kc_none 0 0).
Proof.
  intros Hio a b Hab.
  set (m0 := allocio i o p unit fd m).
  assert (load i m0 = Some (INIT_INPUT_TRANSIT None p unit false)) as Hi.
  { unfold m0, allocio, load. simpl. rewrite lookup_insert_ne by done.
    apply lookup_insert_eq. }
  assert (load o m0 = Some (INIT_OUTPUT_TRANSIT None p unit false)) as Ho.
  { unfold m0, allocio, load. simpl. apply lookup_insert_eq. }
  assert (load_port p m0 = Some (mkPort fd kc_none 0 17)) as Hp.
  { unfold m0, allocio, load_port. simpl. apply lookup_insert_eq. }
  destruct Hab as [[-> ->]|[-> ->]].
  - destruct (transit_terminate_detached_spec i m0 _ p (mkPort fd kc_none 0 17) Hi) as (c1 & H1 & _);
      [reflexivity|reflexivity|reflexivity|exact Hp|].
    match type of H1 with _ = Some (_, ?mm) => set (m1 := mm) in * end.
    assert (load_port p m1 = Some (mkPort fd kc_none 0 16)) as Hp1.
    { unfold m1, load_port. simpl. rewrite lookup_insert_eq. reflexivity. }
    assert (load o m1 = Some (INIT_OUTPUT_TRANSIT None p unit false)) as Ho1.
    { unfold m1. change (load o (store i c1 m0) = Some (INIT_OUTPUT_TRANSIT None p unit false)).
      rewrite load_store_ne by done. exact Ho. }
    destruct (transit_terminate_detached_spec o m1 _ p (mkPort fd kc_none 0 16) Ho1) as (c2 & H2 & _);
      [reflexivity|reflexivity|reflexivity|exact Hp1|].
    eexists m1, _, _. split; [exact H1|]. split; [exact Hp1|].
    split; [reflexivity|]. split; [by rewrite bool_decide_eq_true_2|].
    split; [exact H2|]. unfold load_port. simpl. rewrite lookup_insert_eq. reflexivity.
  - destruct (transit_terminate_detached_spec o m0 _ p (mkPort fd kc_none 0 17) Ho) as (c1 & H1 & _);
      [reflexivity|reflexivity|reflexivity|exact Hp|].
    match type of H1 with _ = Some (_, ?mm) => set (m1 := mm) in * end.
    assert (load_port p m1 = Some (mkPort fd kc_none 0 1)) as Hp1.
    { unfold m1, load_port. simpl. rewrite lookup_insert_eq. reflexivity. }
    assert (load i m1 = Some (INIT_INPUT_TRANSIT None p unit false)) as Hi1.
    { unfold m1. change (load i (store o c1 m0) = Some (INIT_INPUT_TRANSIT None p unit false)).
      rewrite load_store_ne by done. exact Hi. }
    destruct (transit_terminate_detached_spec i m1 _ p (mkPort fd kc_none 0 1) Hi1) as (c2 & H2 & _);
      [reflexivity|reflexivity|reflexivity|exact Hp1|].
    eexists m1, _, _. split; [exact H1|]. split; [exact Hp1|].
    split; [reflexivity|]. split; [by rewrite bool_decide_eq_false_2|].
    split; [exact H2|]. unfold load_port. simpl. rewrite lookup_insert_eq. reflexivity.
Qed.

Lemma allocio_terminate_both_witness :
  exists m1 m2 y1,
    transit_terminate Ex.rd (allocio Ex.rd Ex.wr 11%positive 1 5 Ex.boot)
      = Some (Returned Py_None, m1)
    /\ load_port 11%positive m1 = Some y1
    /\ point y1 = 5 /\ latches y1 = 16
    /\ transit_terminate Ex.wr m1 = Some (Returned Py_None, m2)
    /\ load_port 11%positive m2 = Some (mkPort (-1) kc_none 0 0).
Proof.
  edestruct (allocio_terminate_both Ex.rd Ex.wr 11%positive 1 5 Ex.boot)
    as (m1 & m2 & y1 & H1 & H2 & H3 & H4 & H5 & H6).
  - vm_compute. discriminate.
  - left. split; reflexivity.
  - exists m1, m2, y1. split; [exact H1|]. split; [exact H2|]. split; [exact H3|].
    split; [exact H4|]. split; [exact H5|exact H6].
Defined.
